(** * Backupist: the backup pipeline, its catalog, codecs and retention engine

    A shallow embedding of the Go package [backup] (archive, encryption,
    catalog, storage, pipeline and retention code) together with the
    properties its specification states about it.

    Conventions of the embedding:
    - a Go [[]byte] is a [list Z] of values in [0, 256), wrap-around is
      written out where the code relies on it;
    - a Go [error] is a value of type [error]; [nil] is the [inr] side of a
      result;
    - every method of [*Service] is a computation in the monad [M], which
      threads the process world (file system, catalog connection, remote
      objects, log, cancellation, randomness) and stops at the first error,
      exactly where the Go code returns it;
    - the Go standard library and the third-party libraries are not part of
      the repository: the file-system calls, [path/filepath], the tar/gzip
      codec, AES-GCM, PBKDF2 and SHA-256 are modelled after their documented
      behaviour, the last four as the fields of the class [GoLib]. *)

From Stdlib Require Import ZArith QArith List Ascii Lia Permutation Sorted.
From Stdlib Require String Floats Uint63.
From stdpp Require Import base option gmap strings list fin_maps pretty sorting.

Open Scope Z_scope.

(** ** Errors *)

(** Error values.  The [errno]-like constructors are what the operating
    system and the libraries report; [Msg] and [Wrap] are [fmt.Errorf]
    without and with a wrapped cause ([%w]).  The message texts of the
    source are Russian; they are rendered in English. *)
Inductive error : Type :=
| ENOENT        (* no such file or directory *)
| ENOTDIR       (* a path component is not a directory *)
| EISDIR        (* is a directory *)
| ENOTEMPTY     (* directory not empty *)
| EEXIST        (* file exists *)
| EBUSY         (* device or resource busy *)
| ErrCanceled   (* context.Canceled, returned by ctx.Err() *)
| ErrNoRows     (* sql.ErrNoRows *)
| ErrDriver     (* a failure reported by the database driver *)
| ErrTransport  (* a failure reported by a remote storage client *)
| ErrFormat     (* gzip / tar decoding failure *)
| ErrAuth       (* cipher: message authentication failed *)
| ErrEntropy    (* crypto/rand could not deliver *)
| ErrFuel       (* the bound of a modelled loop was reached: with distinct input and output
                   files the rounds given suffice (see [encrypt_loop_spec]); otherwise it
                   stands for a run that does not end *)
| Msg (text : string)
| Wrap (text : string) (cause : error).

Definition result (A : Type) : Type := error + A.

(** ** Strings and paths ([strings], [path/filepath]) *)

Module filepath.
Definition Separator : ascii := "/"%char.

(** [strings.Split(s, "/")] on the character list of [s]; [cur] is the
    component being read, reversed. *)
Fixpoint split_from (cur : list ascii) (s : list ascii) : list (list ascii) :=
  match s with
  | [] => [rev cur]
  | c :: rest =>
      if Ascii.eqb c Separator then rev cur :: split_from [] rest
      else split_from (c :: cur) rest
  end.

Definition split (s : string) : list string :=
  map String.string_of_list_ascii (split_from [] (String.list_ascii_of_string s)).

Definition join_slash (l : list string) : string := String.concat "/" l.

Definition rooted (p : string) : bool :=
  match p with
  | String c _ => Ascii.eqb c Separator
  | EmptyString => false
  end.

(** One step of [Clean]'s scan over the path elements.  [out] is the
    output written so far, most recent element first.  An empty element
    and a [.] element are dropped; a [..] element removes the element
    before it when that is a real one, is dropped at the root of a rooted
    path, and is kept otherwise (a leading [../..] prefix). *)
Definition clean_step (is_rooted : bool) (out : list string) (elem : string) : list string :=
  if String.eqb elem "" then out
  else if String.eqb elem "." then out
  else if String.eqb elem ".." then
    match out with
    | top :: below => if String.eqb top ".." then elem :: out else below
    | [] => if is_rooted then out else [elem]
    end
  else elem :: out.

Definition clean_elems (is_rooted : bool) (elems : list string) : list string :=
  rev (fold_left (clean_step is_rooted) elems []).

(** [filepath.Clean] on Unix. *)
Definition Clean (p : string) : string :=
  if String.eqb p "" then "."
  else
    let out := clean_elems (rooted p) (split p) in
    if rooted p then "/" +:+ join_slash out
    else match out with
         | [] => "."
         | _ => join_slash out
         end.

(** [filepath.Join]: leading empty elements are ignored, the rest is
    joined with the separator and cleaned; all empty gives [""]. *)
Fixpoint Join (elem : list string) : string :=
  match elem with
  | [] => ""
  | e :: rest => if String.eqb e "" then Join rest else Clean (join_slash elem)
  end.

(** The prefix of [s] up to and including its last separator. *)
Fixpoint upto_last_sep (s : list ascii) : list ascii :=
  match s with
  | [] => []
  | c :: rest =>
      match upto_last_sep rest with
      | [] => if Ascii.eqb c Separator then [c] else []
      | l => c :: l
      end
  end.

(** [filepath.Dir]. *)
Definition Dir (p : string) : string :=
  Clean (String.string_of_list_ascii (upto_last_sep (String.list_ascii_of_string p))).

(** [strings.HasPrefix]. *)
Definition HasPrefix (s pre : string) : bool := String.prefix pre s.

(** How the kernel resolves a path name of a process whose working
    directory is [cwd], in a tree without symbolic links: the absolute
    list of names from the root.  [..] at the root stays at the root. *)
Definition resolve_step (stack : list string) (elem : string) : list string :=
  if String.eqb elem "" then stack
  else if String.eqb elem "." then stack
  else if String.eqb elem ".." then tl stack
  else elem :: stack.

Definition resolve (cwd : list string) (p : string) : list string :=
  rev (fold_left resolve_step (split p) (if rooted p then [] else rev cwd)).

End filepath.

(** ** The data model ([pkg/types]) *)

(** [types.JobStatus]: the string constants of the source. *)
Inductive JobStatus : Type :=
| JobStatusPending
| JobStatusRunning
| JobStatusCompleted
| JobStatusFailed
| JobStatusCancelled
| JobStatusDeleted.

#[global] Instance JobStatus_eq_dec : EqDecision JobStatus.
Proof. solve_decision. Defined.

(** Instants ([time.Time]) and durations are integers (nanoseconds). *)
Module BackupPolicy.
Record t : Type := mk {
  ID : string;
  Name : string;
  SourcePath : string;
  DestinationPath : string;
  Schedule : string;
  RetentionCount : Z;
  ArchiveEnabled : bool;
  EncryptionEnabled : bool;
  EncryptionPassword : string;
  CreatedAt : Z;
  UpdatedAt : Z;
  Status : string
}.
(** The zero value [&types.BackupPolicy{}]. *)
Definition zero : t := mk "" "" "" "" "" 0 false false "" 0 0 "".
End BackupPolicy.

Module BackupJob.
Record t : Type := mk {
  ID : string;
  PolicyID : string;
  Status : JobStatus;
  StartedAt : Z;
  CompletedAt : option Z;
  Error : string;
  FilesProcessed : Z;
  TotalSize : Z;
  BackupPath : string;
  CreatedAt : Z
}.
Definition set_Status (v : JobStatus) (j : t) : t :=
  mk (ID j) (PolicyID j) v (StartedAt j) (CompletedAt j) (Error j)
     (FilesProcessed j) (TotalSize j) (BackupPath j) (CreatedAt j).
Definition set_StartedAt (v : Z) (j : t) : t :=
  mk (ID j) (PolicyID j) (Status j) v (CompletedAt j) (Error j)
     (FilesProcessed j) (TotalSize j) (BackupPath j) (CreatedAt j).
Definition set_CompletedAt (v : option Z) (j : t) : t :=
  mk (ID j) (PolicyID j) (Status j) (StartedAt j) v (Error j)
     (FilesProcessed j) (TotalSize j) (BackupPath j) (CreatedAt j).
Definition set_Error (v : string) (j : t) : t :=
  mk (ID j) (PolicyID j) (Status j) (StartedAt j) (CompletedAt j) v
     (FilesProcessed j) (TotalSize j) (BackupPath j) (CreatedAt j).
End BackupJob.

(** [float64(a) / float64(b)] for two [int64] sizes, as the exact quotient
    of its operands: the properties below are about which operands the
    code divides, not about rounding. *)
Definition float64_div (a b : Z) : Q := (inject_Z a / inject_Z b)%Q.

Module BackupResult.
Record t : Type := mk {
  JobID : string;
  BackupPath : string;
  FilesProcessed : Z;
  TotalSize : Z;
  CompressedSize : Z;
  Duration : Z;
  Compressed : bool;
  Encrypted : bool;
  CompressionRatio : Q;
  Checksum : string
}.
Definition set_JobID (v : string) (r : t) : t :=
  mk v (BackupPath r) (FilesProcessed r) (TotalSize r) (CompressedSize r) (Duration r)
     (Compressed r) (Encrypted r) (CompressionRatio r) (Checksum r).
Definition set_BackupPath (v : string) (r : t) : t :=
  mk (JobID r) v (FilesProcessed r) (TotalSize r) (CompressedSize r) (Duration r)
     (Compressed r) (Encrypted r) (CompressionRatio r) (Checksum r).
Definition set_FilesProcessed (v : Z) (r : t) : t :=
  mk (JobID r) (BackupPath r) v (TotalSize r) (CompressedSize r) (Duration r)
     (Compressed r) (Encrypted r) (CompressionRatio r) (Checksum r).
Definition set_TotalSize (v : Z) (r : t) : t :=
  mk (JobID r) (BackupPath r) (FilesProcessed r) v (CompressedSize r) (Duration r)
     (Compressed r) (Encrypted r) (CompressionRatio r) (Checksum r).
Definition set_CompressedSize (v : Z) (r : t) : t :=
  mk (JobID r) (BackupPath r) (FilesProcessed r) (TotalSize r) v (Duration r)
     (Compressed r) (Encrypted r) (CompressionRatio r) (Checksum r).
Definition set_Duration (v : Z) (r : t) : t :=
  mk (JobID r) (BackupPath r) (FilesProcessed r) (TotalSize r) (CompressedSize r) v
     (Compressed r) (Encrypted r) (CompressionRatio r) (Checksum r).
Definition set_CompressionRatio (v : Q) (r : t) : t :=
  mk (JobID r) (BackupPath r) (FilesProcessed r) (TotalSize r) (CompressedSize r) (Duration r)
     (Compressed r) (Encrypted r) v (Checksum r).
Definition set_Checksum (v : string) (r : t) : t :=
  mk (JobID r) (BackupPath r) (FilesProcessed r) (TotalSize r) (CompressedSize r) (Duration r)
     (Compressed r) (Encrypted r) (CompressionRatio r) v.
End BackupResult.

(** ** The catalog (SQLite schema of [createTables]) *)

(** One record per table row, without its primary key: each table is a
    finite map from the [id] column (TEXT PRIMARY KEY) to the other
    columns. *)
Record PolicyRow : Type := mkPolicyRow {
  p_name : string;
  p_source_path : string;
  p_destination_path : string;
  p_schedule_cron : string;
  p_retention_count : Z;
  p_archive_enabled : bool;
  p_encryption_enabled : bool;
  p_encryption_password : string;
  p_created_at : Z;
  p_updated_at : Z
}.

Record JobRow : Type := mkJobRow {
  j_policy_id : string;
  j_status : JobStatus;
  j_started_at : Z;
  j_completed_at : option Z;
  j_error : string;
  j_files_processed : Z;
  j_total_size : Z;
  j_backup_path : string;
  j_created_at : Z
}.

Record ResultRow : Type := mkResultRow {
  r_job_id : string;
  r_backup_path : string;
  r_files_processed : Z;
  r_total_size : Z;
  r_compressed_size : Z;
  r_compression_ratio : Q;
  r_encrypted : bool;
  r_compressed : bool;
  r_checksum : string;
  r_duration_seconds : Z;
  r_created_at : Z
}.

Record FileRow : Type := mkFileRow {
  f_job_id : string;
  f_file_path : string;
  f_relative_path : string;
  f_file_size : Z;
  f_checksum : string;
  f_processed : bool;
  f_created_at : Z
}.

Record DB : Type := mkDB {
  backup_policies : gmap string PolicyRow;
  backup_jobs : gmap string JobRow;
  backup_results : gmap string ResultRow;
  backup_files : gmap string FileRow
}.

(** ** The process world *)

(** A file-system object: a regular file with its permission bits and
    content, or a directory.  The file system maps the absolute list of
    names of an object to it; the root directory [[]] always exists. *)
Inductive node : Type :=
| File (mode : Z) (data : list Z)
| Dir (mode : Z).

Inductive Level : Type := LevelInfo | LevelWarn | LevelError.

Record LogEntry : Type := mkLog {
  log_level : Level;
  log_msg : string;
  log_err : option error
}.

Record World : Type := mkWorld {
  w_fs : gmap (list string) node;      (* the local file system *)
  w_cwd : list string;                  (* working directory of the process *)
  w_db : DB;                            (* committed state of the catalog *)
  w_db_faults : list bool;              (* per database call, in order: does the driver fail *)
  w_objects : gmap string (list Z);     (* the remote bucket: object key to content *)
  w_net_faults : list bool;             (* per remote call, in order: does the transport fail *)
  w_log : list LogEntry;                (* what the loggers have written, newest first *)
  w_cancel : option nat;                (* cancellation checks that still pass; None: never cancelled *)
  w_random : list Z;                    (* bytes crypto/rand will deliver *)
  w_clock : Z;                          (* time.Now(), in nanoseconds *)
  w_temp : nat;                         (* suffix of the next temporary directory *)
  w_umask : Z;                          (* the file mode creation mask of the process *)
  w_zone : Z                            (* offset of [time.Local], in seconds east of UTC *)
}.

Definition set_fs (v : gmap (list string) node) (w : World) : World :=
  mkWorld v (w_cwd w) (w_db w) (w_db_faults w) (w_objects w) (w_net_faults w)
          (w_log w) (w_cancel w) (w_random w) (w_clock w) (w_temp w)
          (w_umask w) (w_zone w).
Definition set_db (v : DB) (w : World) : World :=
  mkWorld (w_fs w) (w_cwd w) v (w_db_faults w) (w_objects w) (w_net_faults w)
          (w_log w) (w_cancel w) (w_random w) (w_clock w) (w_temp w)
          (w_umask w) (w_zone w).
Definition set_db_faults (v : list bool) (w : World) : World :=
  mkWorld (w_fs w) (w_cwd w) (w_db w) v (w_objects w) (w_net_faults w)
          (w_log w) (w_cancel w) (w_random w) (w_clock w) (w_temp w)
          (w_umask w) (w_zone w).
Definition set_objects (v : gmap string (list Z)) (w : World) : World :=
  mkWorld (w_fs w) (w_cwd w) (w_db w) (w_db_faults w) v (w_net_faults w)
          (w_log w) (w_cancel w) (w_random w) (w_clock w) (w_temp w)
          (w_umask w) (w_zone w).
Definition set_net_faults (v : list bool) (w : World) : World :=
  mkWorld (w_fs w) (w_cwd w) (w_db w) (w_db_faults w) (w_objects w) v
          (w_log w) (w_cancel w) (w_random w) (w_clock w) (w_temp w)
          (w_umask w) (w_zone w).
Definition set_log (v : list LogEntry) (w : World) : World :=
  mkWorld (w_fs w) (w_cwd w) (w_db w) (w_db_faults w) (w_objects w) (w_net_faults w)
          v (w_cancel w) (w_random w) (w_clock w) (w_temp w)
          (w_umask w) (w_zone w).
Definition set_cancel (v : option nat) (w : World) : World :=
  mkWorld (w_fs w) (w_cwd w) (w_db w) (w_db_faults w) (w_objects w) (w_net_faults w)
          (w_log w) v (w_random w) (w_clock w) (w_temp w)
          (w_umask w) (w_zone w).
Definition set_random (v : list Z) (w : World) : World :=
  mkWorld (w_fs w) (w_cwd w) (w_db w) (w_db_faults w) (w_objects w) (w_net_faults w)
          (w_log w) (w_cancel w) v (w_clock w) (w_temp w)
          (w_umask w) (w_zone w).
Definition set_clock (v : Z) (w : World) : World :=
  mkWorld (w_fs w) (w_cwd w) (w_db w) (w_db_faults w) (w_objects w) (w_net_faults w)
          (w_log w) (w_cancel w) (w_random w) v (w_temp w) (w_umask w) (w_zone w).
Definition set_temp (v : nat) (w : World) : World :=
  mkWorld (w_fs w) (w_cwd w) (w_db w) (w_db_faults w) (w_objects w) (w_net_faults w)
          (w_log w) (w_cancel w) (w_random w) (w_clock w) v (w_umask w) (w_zone w).
Definition set_umask (v : Z) (w : World) : World :=
  mkWorld (w_fs w) (w_cwd w) (w_db w) (w_db_faults w) (w_objects w) (w_net_faults w)
          (w_log w) (w_cancel w) (w_random w) (w_clock w) (w_temp w) v (w_zone w).
Definition set_zone (v : Z) (w : World) : World :=
  mkWorld (w_fs w) (w_cwd w) (w_db w) (w_db_faults w) (w_objects w) (w_net_faults w)
          (w_log w) (w_cancel w) (w_random w) (w_clock w) (w_temp w) (w_umask w) v.

(** ** The monad of the service's methods *)

Definition M (A : Type) : Type := World -> result A * World.

Definition ret {A : Type} (a : A) : M A := fun w => (inr a, w).

(** [return err] *)
Definition fail {A : Type} (e : error) : M A := fun w => (inl e, w).

Definition bind {A B : Type} (m : M A) (k : A -> M B) : M B :=
  fun w => match m w with
           | (inl e, w') => (inl e, w')
           | (inr a, w') => k a w'
           end.

(** With these instances [x ← m; k] and [m;; k] are the sequencing of the
    source: [k] runs only when [m] returned no error. *)
#[global] Instance M_ret : MRet M := @ret.
#[global] Instance M_bind : MBind M := fun A B k m => bind m k.

(** [if err := m; err != nil { return fmt.Errorf("text: %w", err) }] *)
Definition wrap {A : Type} (text : string) (m : M A) : M A :=
  fun w => match m w with
           | (inl e, w') => (inl (Wrap text e), w')
           | (inr a, w') => (inr a, w')
           end.

(** [if err := m; err != nil { ... }] where the caller goes on: the error
    becomes a value. *)
Definition try {A : Type} (m : M A) : M (result A) :=
  fun w => match m w with (r, w') => (inr r, w') end.

(** [defer cleanup()]: [cleanup] runs when the body returns, whatever it
    returns, and its own outcome is dropped. *)
Definition defer {A B : Type} (cleanup : M B) (body : M A) : M A :=
  fun w => match body w with (r, w') => (r, snd (cleanup w')) end.

Definition get_world : M World := fun w => (inr w, w).

Definition modify (f : World -> World) : M unit := fun w => (inr tt, f w).

(** The loggers append to the log and cannot fail. *)
Definition log (l : Level) (msg : string) (e : option error) : M unit :=
  fun w => (inr tt, set_log (mkLog l msg e :: w_log w) w).

(** [select { case <-ctx.Done(): return ctx.Err(); default: }] *)
Definition ctx_check : M unit :=
  fun w => match w_cancel w with
           | None => (inr tt, w)
           | Some O => (inl ErrCanceled, w)
           | Some (S n) => (inr tt, set_cancel (Some n) w)
           end.

(** [time.Now()] *)
Definition time_Now : M Z := fun w => (inr (w_clock w), w).

(** [io.ReadFull(rand.Reader, buf)] for a buffer of [n] bytes. *)
Definition rand_Read (n : nat) : M (list Z) :=
  fun w => if (n <=? length (w_random w))%nat
           then (inr (take n (w_random w)), set_random (drop n (w_random w)) w)
           else (inl ErrEntropy, w).

(** ** The file-system calls of package [os] *)

Module os.

Definition O_RDONLY : Z := 0.
Definition O_WRONLY : Z := 1.
Definition O_RDWR : Z := 2.
Definition O_CREATE : Z := 64.    (* 0x40 *)
Definition O_TRUNC : Z := 512.    (* 0x200 *)

Definition has_flag (flag bit : Z) : bool := negb (Z.eqb (Z.land flag bit) 0).

Definition at_path (w : World) (name : string) : list string :=
  filepath.resolve (w_cwd w) name.

Definition lookup_node (fs : gmap (list string) node) (k : list string) : option node :=
  match k with
  | [] => Some (Dir 493)
  | _ => fs !! k
  end.

Definition parent (k : list string) : list string := removelast k.

(** The error of resolving a name that names nothing, as the kernel finds
    it walking the path from the root: a component that is a regular file
    with more of the path to go gives ENOTDIR, a component that is not
    there gives ENOENT. *)
Fixpoint resolve_error (fs : gmap (list string) node) (done todo : list string) : error :=
  match todo with
  | [] => ENOENT
  | name :: todo' =>
      match fs !! (done ++ [name]), todo' with
      | Some (File _ _), _ :: _ => ENOTDIR
      | Some _, _ => resolve_error fs (done ++ [name]) todo'
      | None, _ => ENOENT
      end
  end.

Definition missing_error (fs : gmap (list string) node) (k : list string) : error :=
  resolve_error fs [] k.

(** The permission bits an object is created with: those asked for, less
    the bits of the process's umask. *)
Definition masked (w : World) (perm : Z) : Z := Z.land perm (Z.lnot (w_umask w)).

(** An open file ([*os.File]): the object and the offset of the next read
    or write. *)
Record file : Type := mkfile { fd_key : list string; fd_off : nat }.

(** [os.Stat] *)
Definition Stat (name : string) : M node :=
  fun w => match lookup_node (w_fs w) (at_path w name) with
           | Some n => (inr n, w)
           | None => (inl (missing_error (w_fs w) (at_path w name)), w)
           end.

(** [os.OpenFile(name, flag, perm)].  An existing file keeps its mode, and
    keeps its content unless [O_TRUNC] is set; a missing one is created
    only under [O_CREATE], in an existing directory, with [perm] less the
    umask. *)
Definition OpenFile (name : string) (flag perm : Z) : M file :=
  fun w =>
    let k := at_path w name in
    match lookup_node (w_fs w) k with
    | Some (Dir _) =>
        if has_flag flag O_WRONLY || has_flag flag O_RDWR
        then (inl EISDIR, w) else (inr (mkfile k 0), w)
    | Some (File m old) =>
        if has_flag flag O_TRUNC
        then (inr (mkfile k 0), set_fs (<[k := File m []]> (w_fs w)) w)
        else (inr (mkfile k 0), w)
    | None =>
        if has_flag flag O_CREATE then
          match lookup_node (w_fs w) (parent k) with
          | Some (Dir _) =>
              (inr (mkfile k 0), set_fs (<[k := File (masked w perm) []]> (w_fs w)) w)
          | _ => (inl (missing_error (w_fs w) k), w)
          end
        else (inl (missing_error (w_fs w) k), w)
    end.

(** [os.Open] and [os.Create] *)
Definition Open (name : string) : M file := OpenFile name O_RDONLY 0.
Definition Create (name : string) : M file :=
  OpenFile name (Z.lor O_RDWR (Z.lor O_CREATE O_TRUNC)) 438.

(** [f.Read(buf)] with [len(buf) = n]: the next bytes of a regular file,
    as many as the buffer holds or as are left. *)
Definition Read (f : file) (n : nat) : M (list Z * file) :=
  fun w => match lookup_node (w_fs w) (fd_key f) with
           | Some (File _ data) =>
               let chunk := take n (drop (fd_off f) data) in
               (inr (chunk, mkfile (fd_key f) (fd_off f + length chunk)), w)
           | Some (Dir _) => (inl EISDIR, w)
           | None => (inl ENOENT, w)
           end.

(** Reading to the end of the file ([io.Copy(dst, f)], [io.ReadAll]). *)
Definition ReadAll (f : file) : M (list Z) :=
  fun w => match lookup_node (w_fs w) (fd_key f) with
           | Some (File _ data) => (inr (drop (fd_off f) data), w)
           | Some (Dir _) => (inl EISDIR, w)
           | None => (inl ENOENT, w)
           end.

(** The content of a file after [data] is written at offset [off]: bytes
    before and after the written range stay. *)
Definition overwrite (off : nat) (data old : list Z) : list Z :=
  take off old ++ replicate (off - length old) 0 ++ data ++ drop (off + length data) old.

(** [f.Write(data)] *)
Definition Write (f : file) (data : list Z) : M file :=
  fun w => match lookup_node (w_fs w) (fd_key f) with
           | Some (File m old) =>
               (inr (mkfile (fd_key f) (fd_off f + length data)),
                set_fs (<[fd_key f := File m (overwrite (fd_off f) data old)]> (w_fs w)) w)
           | Some (Dir _) => (inl EISDIR, w)
           | None => (inl ENOENT, w)
           end.

(** [os.MkdirAll]: creates the missing directories of the path, root
    first, each with [perm] less the umask; fails when a component is a
    regular file. *)
Fixpoint mkdir_all (perm : Z) (done todo : list string) (fs : gmap (list string) node)
  : result (gmap (list string) node) :=
  match todo with
  | [] => inr fs
  | name :: todo' =>
      let k := done ++ [name] in
      match fs !! k with
      | Some (Dir _) => mkdir_all perm k todo' fs
      | Some (File _ _) => inl ENOTDIR
      | None => mkdir_all perm k todo' (<[k := Dir perm]> fs)
      end
  end.

Definition MkdirAll (name : string) (perm : Z) : M unit :=
  fun w => match mkdir_all (masked w perm) [] (at_path w name) (w_fs w) with
           | inl e => (inl e, w)
           | inr fs' => (inr tt, set_fs fs' w)
           end.

Definition has_child (fs : gmap (list string) node) (k : list string) : bool :=
  bool_decide (Exists (fun kv => parent kv.1 = k /\ kv.1 <> []) (map_to_list fs)).

(** [os.Remove]: removes a file or an empty directory.  A name that names
    nothing is an error ([*PathError] with ENOENT, or with ENOTDIR when the
    path runs through a regular file), and so is the root directory
    ([rmdir] of it answers EBUSY). *)
Definition Remove (name : string) : M unit :=
  fun w =>
    let k := at_path w name in
    match lookup_node (w_fs w) k with
    | None => (inl (missing_error (w_fs w) k), w)
    | Some (File _ _) => (inr tt, set_fs (delete k (w_fs w)) w)
    | Some (Dir _) =>
        if bool_decide (k = []) then (inl EBUSY, w)
        else if has_child (w_fs w) k then (inl ENOTEMPTY, w)
        else (inr tt, set_fs (delete k (w_fs w)) w)
    end.

(** [os.RemoveAll]: removes the object and everything below it; nothing
    to remove is not an error. *)
Definition RemoveAll (name : string) : M unit :=
  fun w =>
    let k := at_path w name in
    (inr tt, set_fs (filter (fun kv => ~ k `prefix_of` kv.1) (w_fs w)) w).

(** [os.MkdirTemp("", pattern)] with pattern [prefix-*]: a fresh directory
    under [/tmp], made with mode 0700 less the umask. *)
Definition MkdirTemp (prefix : string) : M string :=
  fun w =>
    let name := "/tmp/" +:+ prefix +:+ pretty (w_temp w) in
    let k := at_path w name in
    match lookup_node (w_fs w) (parent k), w_fs w !! k with
    | Some (Dir _), None =>
        (inr name,
         set_temp (S (w_temp w)) (set_fs (<[k := Dir (masked w 448)]> (w_fs w)) w))
    | Some (Dir _), Some _ => (inl EEXIST, w)
    | _, _ => (inl (missing_error (w_fs w) k), w)
    end.

End os.

(** The order in which [filepath.Walk] visits what is below a directory:
    a directory before its entries, the entries of one directory by name
    ([sort.Strings], the order of the bytes).  On the lists of names that
    lead from the root of the walk to an object this is the lexicographic
    order. *)
Fixpoint path_leb (a b : list string) : bool :=
  match a, b with
  | [], _ => true
  | _ :: _, [] => false
  | x :: a', y :: b' => if String.eqb x y then path_leb a' b' else String.ltb x y
  end.

Definition walk_le : relation (list string * node) := fun a b => path_leb a.1 b.1 = true.

#[global] Instance walk_le_dec (a b : list string * node) : Decision (walk_le a b).
Proof. unfold walk_le. apply _. Defined.

(** The objects below [k], each with the names that lead to it from [k],
    in the order of the walk. *)
Definition walk_below (fs : gmap (list string) node) (k : list string)
  : list (list string * node) :=
  merge_sort walk_le
    (omap (fun kv : list string * node =>
             if bool_decide (k `prefix_of` kv.1 /\ kv.1 <> k)
             then Some (drop (length k) kv.1, kv.2)
             else None)
          (map_to_list fs)).

(** [filepath.Walk(root, fn)]: the objects [fn] is called with, the root
    first and then everything below it, each with the path [Walk] builds
    for it.  A root that cannot be stat'ed is the [inl] case ([fn] is then
    called once, with that error).  For a regular file the root is the only
    object visited. *)
Definition walk_entries (w : World) (root : string) : result (list (string * node)) :=
  let k := os.at_path w root in
  match os.lookup_node (w_fs w) k with
  | None => inl (os.missing_error (w_fs w) k)
  | Some (File m d) => inr [(root, File m d)]
  | Some (Dir m) =>
      inr ((root, Dir m) ::
           ((fun rn : list string * node =>
               (filepath.Join [root; filepath.join_slash rn.1], rn.2)) <$>
              walk_below (w_fs w) k))
  end.

(** The non-empty elements of a cleaned path. *)
Definition path_elems (p : string) : list string :=
  filter (fun e => e <> "") (filepath.split p).

Fixpoint drop_common (b t : list string) : list string * list string :=
  match b, t with
  | x :: b', y :: t' => if String.eqb x y then drop_common b' t' else (b, t)
  | _, _ => (b, t)
  end.

(** [filepath.Rel(basepath, targpath)] *)
Definition filepath_Rel (basepath targpath : string) : result string :=
  let base := filepath.Clean basepath in
  let targ := filepath.Clean targpath in
  if String.eqb targ base then inr "."
  else if negb (Bool.eqb (filepath.rooted base) (filepath.rooted targ))
  then inl (Msg "Rel: can't make the target relative to the base")
  else
    let b := if String.eqb base "." then [] else path_elems base in
    match drop_common b (path_elems targ) with
    | (".." :: _, _) => inl (Msg "Rel: can't make the target relative to the base")
    | (b', t') => inr (filepath.join_slash (replicate (length b') ".." ++ t'))
    end.

(** ** The libraries behind the codecs *)

Module tar.
Definition TypeReg : Z := 48.       (* '0' *)
Definition TypeSymlink : Z := 50.   (* '2' *)
Definition TypeDir : Z := 53.       (* '5' *)
Record Header : Type := mkHeader {
  Name : string;
  Typeflag : Z;
  Mode : Z;
  Size : Z
}.
End tar.

(** What the code uses of [archive/tar] over [compress/gzip], of
    [crypto/aes] with [crypto/cipher]'s GCM, of [x/crypto/pbkdf2],
    [crypto/sha256] and [time].  A tar.gz stream decodes to the entries
    [tarReader.Next] yields, followed by [io.EOF] ([None]) or by the error
    that ends the stream early; a stream whose gzip header is bad does not
    decode at all. *)
Class GoLib : Type := {
  targz_encode : list (tar.Header * list Z) -> list Z;
  targz_decode : list Z -> result (list (tar.Header * list Z) * option error);
  gcm_Seal : list Z -> list Z -> list Z -> list Z;            (* key, nonce, plaintext *)
  gcm_Open : list Z -> list Z -> list Z -> option (list Z);   (* key, nonce, ciphertext *)
  pbkdf2_Key : string -> string -> Z -> Z -> list Z;          (* password, salt, iterations, length *)
  sha256_hex : list Z -> string;
  time_Format : Z -> string                                   (* layout 20060102-150405 *)
}.

(** [gcm.NonceSize()] and [gcm.Overhead()] of the standard GCM. *)
Definition gcm_NonceSize : nat := 12.
Definition gcm_Overhead : nat := 16.

Section Service.
Context `{GoLib}.

(** ** Archive codec ([archive.go]) *)

Definition node_size (n : node) : Z :=
  match n with
  | File _ data => Z.of_nat (length data)
  | Dir _ => 4096
  end.

Definition node_is_dir (n : node) : bool :=
  match n with Dir _ => true | File _ _ => false end.

Definition node_mode (n : node) : Z :=
  match n with Dir m => m | File m _ => m end.

(** [tar.FileInfoHeader(info, "")] with the name [createArchive] then
    assigns. *)
Definition file_header (name : string) (n : node) : tar.Header :=
  match n with
  | File m data => tar.mkHeader name tar.TypeReg m (Z.of_nat (length data))
  | Dir m => tar.mkHeader name tar.TypeDir m 0
  end.

(** The callback [createArchive] passes to [filepath.Walk], over the
    objects still to visit; [acc] holds the entries written so far, last
    first. *)
Fixpoint archive_walk (baseDir archivePath : string) (todo : list (string * node))
  (acc : list (tar.Header * list Z)) : M (list (tar.Header * list Z)) :=
  match todo with
  | [] => ret (rev acc)
  | (filePath, info) :: todo' =>
      ctx_check;;
      if String.eqb filePath archivePath then archive_walk baseDir archivePath todo' acc
      else
        match filepath_Rel baseDir filePath with
        | inl e => fail (Wrap "relative path" e)
        | inr relPath =>
            let header := file_header relPath info in
            if node_is_dir info
            then archive_walk baseDir archivePath todo' ((header, []) :: acc)
            else
              file ← wrap "open file" (os.Open filePath);
              data ← wrap "write file to archive" (os.ReadAll file);
              archive_walk baseDir archivePath todo' ((header, data) :: acc)
        end
  end.

(** [createArchive]: the output file is created first, the tree is walked
    and the encoded stream is in the output file when the writers are
    closed. *)
Definition createArchive (sourcePath archivePath : string) : M unit :=
  outFile ← wrap "create archive file" (os.Create archivePath);
  let baseDir := filepath.Dir sourcePath in
  w ← get_world;
  entries ← wrap "create archive"
    (match walk_entries w sourcePath with
     | inl e => fail (Wrap "walk" e)
     | inr todo => archive_walk baseDir archivePath todo []
     end);
  _ ← os.Write outFile (targz_encode entries);
  log LevelInfo "archive created" None.

(** The body of [extractArchive]'s loop over the entries that
    [tarReader.Next] yields; [tail] is how the stream ends. *)
Fixpoint extract_entries (destPath : string) (entries : list (tar.Header * list Z))
  (tail : option error) : M unit :=
  match entries with
  | [] =>
      match tail with
      | None => ret tt
      | Some e => fail (Wrap "read tar header" e)
      end
  | (header, body) :: rest =>
      ctx_check;;
      let fullPath := filepath.Join [destPath; tar.Name header] in
      if negb (filepath.HasPrefix fullPath (filepath.Clean destPath +:+ "/"))
      then fail (Msg ("unsafe path in archive: " +:+ tar.Name header))
      else
        (if Z.eqb (tar.Typeflag header) tar.TypeDir then
           wrap "create directory" (os.MkdirAll fullPath (tar.Mode header))
         else if Z.eqb (tar.Typeflag header) tar.TypeReg then
           wrap "create directory for file" (os.MkdirAll (filepath.Dir fullPath) 493);;
           outFile ← wrap "create file"
             (os.OpenFile fullPath (Z.lor os.O_CREATE os.O_WRONLY) (tar.Mode header));
           _ ← wrap "write file" (os.Write outFile body);
           ret tt
         else log LevelWarn "unsupported file type in archive" None);;
        extract_entries destPath rest tail
  end.

(** [extractArchive].  The archive is read when it is opened; the source
    streams it, which differs only when an entry overwrites the archive
    itself. *)
Definition extractArchive (archivePath destPath : string) : M unit :=
  file ← wrap "open archive" (os.Open archivePath);
  raw ← wrap "gzip reader" (os.ReadAll file);
  match targz_decode raw with
  | inl e => fail (Wrap "gzip reader" e)
  | inr (entries, tail) =>
      extract_entries destPath entries tail;;
      log LevelInfo "archive extracted" None
  end.

(** [getDirectorySize]: the callback logs a walk error and goes on, so the
    walk itself never fails; regular files add their size. *)
Definition getDirectorySize (path : string) : M Z :=
  w ← get_world;
  match walk_entries w path with
  | inl e => log LevelWarn "error while walking file" (Some e);; ret 0
  | inr visited =>
      ret (fold_left (fun totalSize pi =>
                        if node_is_dir pi.2 then totalSize else totalSize + node_size pi.2)
                     visited 0)
  end.

(** [getFileSize] *)
Definition getFileSize (filePath : string) : M Z :=
  info ← wrap "file info" (os.Stat filePath);
  ret (node_size info).

End Service.

(** ** Storage backends ([storage.go]) *)

(** The interface [StorageProvider]: a value of the interface is the
    record of its five methods. *)
Record StorageProvider : Type := mkStorage {
  Upload : string -> string -> M unit;      (* localPath, remotePath *)
  Download : string -> string -> M unit;    (* remotePath, localPath *)
  Delete : string -> M unit;
  List : string -> M (list string);
  Exists : string -> M bool
}.

(** [io.Copy(dst, src)] between two open files. *)
Definition io_Copy (dst src : os.file) : M unit :=
  data ← os.ReadAll src;
  _ ← os.Write dst data;
  ret tt.

Module LocalStorage.
Section Local.
Variable basePath : string.

Definition Upload (localPath remotePath : string) : M unit :=
  let fullPath := filepath.Join [basePath; remotePath] in
  wrap "create directory" (os.MkdirAll (filepath.Dir fullPath) 493);;
  src ← wrap "open source file" (os.Open localPath);
  dst ← wrap "create target file" (os.Create fullPath);
  wrap "copy file" (io_Copy dst src).

Definition Download (remotePath localPath : string) : M unit :=
  let fullPath := filepath.Join [basePath; remotePath] in
  wrap "create local directory" (os.MkdirAll (filepath.Dir localPath) 493);;
  src ← wrap "open file in storage" (os.Open fullPath);
  dst ← wrap "create local file" (os.Create localPath);
  wrap "copy file" (io_Copy dst src).

Definition Delete (remotePath : string) : M unit :=
  let fullPath := filepath.Join [basePath; remotePath] in
  os.Remove fullPath.

Definition List (prefix : string) : M (list string) :=
  let fullPath := filepath.Join [basePath; prefix] in
  w ← get_world;
  match walk_entries w fullPath with
  | inl e => fail e
  | inr visited =>
      foldr (fun pi rest =>
               if node_is_dir pi.2 then rest
               else match filepath_Rel basePath pi.1 with
                    | inl e => fail e
                    | inr relPath => files ← rest; ret (relPath :: files)
                    end)
            (ret []) visited
  end.

Definition Exists (remotePath : string) : M bool :=
  let fullPath := filepath.Join [basePath; remotePath] in
  r ← try (os.Stat fullPath);
  match r with
  | inl ENOENT => ret false
  | inl e => fail (Wrap "check file existence" e)
  | inr _ => ret true
  end.

Definition provider : StorageProvider := mkStorage Upload Download Delete List Exists.
End Local.
End LocalStorage.

(** One call to the remote service: the transport fails when the world
    says so. *)
Definition net_call : M unit :=
  fun w => match w_net_faults w with
           | true :: rest => (inl ErrTransport, set_net_faults rest w)
           | false :: rest => (inr tt, set_net_faults rest w)
           | [] => (inr tt, w)
           end.

(** The S3 backend over the bucket [w_objects]; the client calls are
    modelled after the S3 API: removing a missing key succeeds, stat of a
    missing key reports [NoSuchKey]. *)
Module S3Storage.

Definition Upload (localPath remotePath : string) : M unit :=
  wrap "upload file to S3"
    (src ← os.Open localPath;
     data ← os.ReadAll src;
     net_call;;
     modify (fun w => set_objects (<[remotePath := data]> (w_objects w)) w)).

Definition Download (remotePath localPath : string) : M unit :=
  wrap "create local directory" (os.MkdirAll (filepath.Dir localPath) 493);;
  net_call;;
  w ← get_world;
  match w_objects w !! remotePath with
  | None => fail (Msg "NoSuchKey")
  | Some data =>
      dst ← os.Create localPath;
      _ ← os.Write dst data;
      ret tt
  end.

Definition Delete (remotePath : string) : M unit :=
  net_call;;
  modify (fun w => set_objects (delete remotePath (w_objects w)) w).

Definition List (prefix : string) : M (list string) :=
  wrap "list objects" net_call;;
  w ← get_world;
  ret (filter (fun key => filepath.HasPrefix key prefix = true) ((map_to_list (w_objects w)).*1)).

Definition Exists (remotePath : string) : M bool :=
  wrap "check object existence in S3" net_call;;
  w ← get_world;
  ret (bool_decide (is_Some (w_objects w !! remotePath))).

Definition provider : StorageProvider := mkStorage Upload Download Delete List Exists.
End S3Storage.

(** [MultiStorage]: the same calls over a sequence of backends. *)
Module MultiStorage.
Section Multi.
Variable storages : list StorageProvider.

Definition Upload (localPath remotePath : string) : M unit :=
  foldr (fun storage rest => wrap "upload to storage" (Upload storage localPath remotePath);; rest)
        (ret tt) storages.

Fixpoint download_from (l : list StorageProvider) (lastErr : option error)
  (remotePath localPath : string) : M unit :=
  match l with
  | [] => match lastErr with None => ret tt | Some e => fail e end
  | storage :: rest =>
      r ← try (Download storage remotePath localPath);
      match r with
      | inr _ => ret tt
      | inl e => download_from rest (Some (Wrap "download from storage" e)) remotePath localPath
      end
  end.

Definition Download (remotePath localPath : string) : M unit :=
  download_from storages None remotePath localPath.

Fixpoint delete_from (l : list StorageProvider) (errors : list error) (remotePath : string)
  : M unit :=
  match l with
  | [] => match errors with
          | [] => ret tt
          | e :: _ => fail (Wrap "errors while deleting" e)
          end
  | storage :: rest =>
      r ← try (Delete storage remotePath);
      match r with
      | inr _ => delete_from rest errors remotePath
      | inl e => delete_from rest (errors ++ [Wrap "delete from storage" e]) remotePath
      end
  end.

Definition Delete (remotePath : string) : M unit := delete_from storages [] remotePath.

Definition List (prefix : string) : M (list string) :=
  match storages with
  | [] => fail (Msg "no storage available")
  | first :: _ => List first prefix
  end.

(** [MultiStorage] has no [Exists] method in the source. *)
End Multi.
End MultiStorage.

(** ** Catalog ([database.go]) *)

(** One call to the database driver. *)
Definition db_call : M unit :=
  fun w => match w_db_faults w with
           | true :: rest => (inl ErrDriver, set_db_faults rest w)
           | false :: rest => (inr tt, set_db_faults rest w)
           | [] => (inr tt, w)
           end.

(** [s.db.ExecContext] and [s.db.QueryContext] outside a transaction: the
    statement is applied to the committed state when the driver accepts
    it. *)
Definition db_Exec (stmt : DB -> DB) : M unit :=
  db_call;; modify (fun w => set_db (stmt (w_db w)) w).

Definition db_Query {A : Type} (query : DB -> A) : M A :=
  db_call;; w ← get_world; ret (query (w_db w)).

(** A transaction ([*sql.Tx]) is the view of the catalog its statements
    have built; the committed state changes only at [Commit]. *)
Definition BeginTx : M DB := db_call;; w ← get_world; ret (w_db w).

Definition tx_Exec (stmt : DB -> DB) (tx : DB) : M DB := db_call;; ret (stmt tx).

Definition tx_Commit (tx : DB) : M unit := db_call;; modify (set_db tx).

(** [tx.Rollback()]: the view is dropped; after [Commit] it does nothing. *)
Definition tx_Rollback (tx : DB) : M unit := ret tt.

(** [ORDER BY created_at DESC] and [sort.Slice] with [After]: a sort that
    puts no row before a newer one. *)
Definition not_older {A : Type} (created : A -> Z) : relation A :=
  fun a b => created b <= created a.

#[global] Instance not_older_dec {A : Type} (created : A -> Z) (a b : A) :
  Decision (not_older created a b) := Z_le_dec (created b) (created a).

Definition newest_first {A : Type} (created : A -> Z) (l : list A) : list A :=
  merge_sort (not_older created) l.

Definition policy_of_row (id : string) (row : PolicyRow) : BackupPolicy.t :=
  BackupPolicy.mk id (p_name row) (p_source_path row) (p_destination_path row)
    (p_schedule_cron row) (p_retention_count row) (p_archive_enabled row)
    (p_encryption_enabled row) (p_encryption_password row)
    (p_created_at row) (p_updated_at row) "".

(** The policy [getAllPolicies] scans from a row: the query selects ten
    columns, [encryption_password] is not among them, and the field keeps
    the zero value of [&types.BackupPolicy{}]. *)
Definition listed_policy_of_row (id : string) (row : PolicyRow) : BackupPolicy.t :=
  BackupPolicy.mk id (p_name row) (p_source_path row) (p_destination_path row)
    (p_schedule_cron row) (p_retention_count row) (p_archive_enabled row)
    (p_encryption_enabled row) (BackupPolicy.EncryptionPassword BackupPolicy.zero)
    (p_created_at row) (p_updated_at row) (BackupPolicy.Status BackupPolicy.zero).

Definition job_of_row (id : string) (row : JobRow) : BackupJob.t :=
  BackupJob.mk id (j_policy_id row) (j_status row) (j_started_at row) (j_completed_at row)
    (j_error row) (j_files_processed row) (j_total_size row) (j_backup_path row)
    (j_created_at row).

Definition set_policies (v : gmap string PolicyRow) (d : DB) : DB :=
  mkDB v (backup_jobs d) (backup_results d) (backup_files d).
Definition set_jobs (v : gmap string JobRow) (d : DB) : DB :=
  mkDB (backup_policies d) v (backup_results d) (backup_files d).
Definition set_results (v : gmap string ResultRow) (d : DB) : DB :=
  mkDB (backup_policies d) (backup_jobs d) v (backup_files d).
Definition set_files (v : gmap string FileRow) (d : DB) : DB :=
  mkDB (backup_policies d) (backup_jobs d) (backup_results d) v.


(** [getPolicy] *)
Definition getPolicy (policyID : string) : M BackupPolicy.t :=
  r ← try (db_Query (fun d => backup_policies d !! policyID));
  match r with
  | inl e => fail (Wrap "get policy" e)
  | inr None => fail (Msg ("policy not found: " +:+ policyID))
  | inr (Some row) => ret (policy_of_row policyID row)
  end.






(** [LIMIT n] of SQLite: the first [n] rows, and every row when [n] is
    negative. *)
Definition sql_limit {A : Type} (n : Z) (rows : list A) : list A :=
  if n <? 0 then rows else take (Z.to_nat n) rows.

(** [getBackupHistory]: the jobs of the policy, newest first, at most
    [limit] of them. *)
Definition getBackupHistory (policyID : string) (limit : Z) : M (list BackupJob.t) :=
  rows ← wrap "get backup history"
    (db_Query (fun d =>
       sql_limit limit
         (newest_first (fun kv : string * JobRow => j_created_at kv.2)
            (map_to_list (filter (fun kv => j_policy_id kv.2 = policyID) (backup_jobs d))))));
  ret ((fun kv : string * JobRow => job_of_row kv.1 kv.2) <$> rows).

(** The loop [for rows.Next() { ... }] when [rows.Err()] is not looked at
    afterwards.  Every [Next] is a call to the driver; when one fails,
    [Next] returns false and the loop ends as it does after the last row,
    with the rows read so far. *)
Fixpoint rows_unchecked {A : Type} (rows : list A) : M (list A) :=
  match rows with
  | [] => _ ← try db_call; ret []
  | row :: rest =>
      r ← try db_call;
      match r with
      | inl _ => ret []
      | inr _ => scanned ← rows_unchecked rest; ret (row :: scanned)
      end
  end.

(** [getAllPolicies]: unlike the other queries of the file it returns
    after the loop without a call of [rows.Err()]. *)
Definition getAllPolicies : M (list BackupPolicy.t) :=
  rows ← wrap "get policies"
    (db_Query (fun d =>
       newest_first (fun kv : string * PolicyRow => p_created_at kv.2)
         (map_to_list (backup_policies d))));
  rows ← rows_unchecked rows;
  ret ((fun kv : string * PolicyRow => listed_policy_of_row kv.1 kv.2) <$> rows).

(** Does [job_id] name a job of the policy: the subquery
    [SELECT id FROM backup_jobs WHERE policy_id = ?]. *)
Definition job_in_policy (d : DB) (policyID jobID : string) : bool :=
  match backup_jobs d !! jobID with
  | Some row => bool_decide (j_policy_id row = policyID)
  | None => false
  end.

(** The four statements of [deletePolicy]. *)
Definition sql_delete_files_of_policy (policyID : string) (d : DB) : DB :=
  set_files (filter (fun kv => job_in_policy d policyID (f_job_id kv.2) = false) (backup_files d)) d.

Definition sql_delete_results_of_policy (policyID : string) (d : DB) : DB :=
  set_results
    (filter (fun kv => job_in_policy d policyID (r_job_id kv.2) = false) (backup_results d)) d.

Definition sql_delete_jobs_of_policy (policyID : string) (d : DB) : DB :=
  set_jobs (filter (fun kv => j_policy_id kv.2 <> policyID) (backup_jobs d)) d.

Definition sql_delete_policy (policyID : string) (d : DB) : DB :=
  set_policies (delete policyID (backup_policies d)) d.

(** [deletePolicy] *)
Definition deletePolicy (policyID : string) : M unit :=
  tx ← wrap "begin transaction" BeginTx;
  defer (tx_Rollback tx)
    (tx ← wrap "delete backup files" (tx_Exec (sql_delete_files_of_policy policyID) tx);
     tx ← wrap "delete backup results" (tx_Exec (sql_delete_results_of_policy policyID) tx);
     tx ← wrap "delete backup jobs" (tx_Exec (sql_delete_jobs_of_policy policyID) tx);
     tx ← wrap "delete policy" (tx_Exec (sql_delete_policy policyID) tx);
     wrap "commit transaction" (tx_Commit tx);;
     log LevelInfo "backup policy deleted" None).

Definition error_name (e : error) : string :=
  match e with
  | ENOENT => "no such file or directory"
  | ENOTDIR => "not a directory"
  | EISDIR => "is a directory"
  | ENOTEMPTY => "directory not empty"
  | EEXIST => "file exists"
  | EBUSY => "device or resource busy"
  | ErrCanceled => "context canceled"
  | ErrNoRows => "sql: no rows in result set"
  | ErrDriver => "database driver error"
  | ErrTransport => "transport error"
  | ErrFormat => "invalid archive"
  | ErrAuth => "cipher: message authentication failed"
  | ErrEntropy => "entropy source failed"
  | ErrFuel => "loop bound reached"
  | Msg text => text
  | Wrap text _ => text
  end.

(** [err.Error()] *)
Fixpoint error_string (e : error) : string :=
  match e with
  | Wrap text cause => text +:+ ": " +:+ error_string cause
  | _ => error_name e
  end.

Section Pipeline.
Context `{GoLib}.

(** ** Encryption codec ([encryption.go]) *)

(** [deriveKey]: PBKDF2 with the fixed salt, 100000 iterations, 32 bytes. *)
Definition deriveKey (password : string) : list Z :=
  pbkdf2_Key password "backupist-salt-2024" 100000 32.

(** The loop of [incrementNonce] runs from the last byte to the first and
    stops at the first byte that does not wrap to zero; [increment_from_last]
    is that loop over the reversed nonce. *)
Fixpoint increment_from_last (l : list Z) : list Z :=
  match l with
  | [] => []
  | b :: rest =>
      let b' := (b + 1) mod 256 in
      if Z.eqb b' 0 then b' :: increment_from_last rest else b' :: rest
  end.

Definition incrementNonce (nonce : list Z) : list Z :=
  rev (increment_from_last (rev nonce)).

(** The plaintext block size, [64*1024]. *)
Definition chunkSize : nat := 64 * 1024.

(** The size of the file behind an open file: the bound of the models of
    the two [for] loops below, which each consume at least one byte of it
    per round. *)
Definition file_length (w : World) (f : os.file) : nat :=
  match os.lookup_node (w_fs w) (os.fd_key f) with
  | Some (File _ data) => length data
  | _ => 0%nat
  end.

(** The block loop of [encryptFile]. *)
Fixpoint encrypt_loop (fuel : nat) (key nonce : list Z) (inputFile outputFile : os.file)
  : M unit :=
  match fuel with
  | O => fail ErrFuel
  | S fuel' =>
      ctx_check;;
      '(chunk, inputFile) ← wrap "read input file" (os.Read inputFile chunkSize);
      if (length chunk =? 0)%nat then ret tt
      else
        let ciphertext := gcm_Seal key nonce chunk in
        outputFile ← wrap "write encrypted block" (os.Write outputFile ciphertext);
        encrypt_loop fuel' key (incrementNonce nonce) inputFile outputFile
  end.

(** [encryptFile] *)
Definition encryptFile (inputPath outputPath password : string) : M unit :=
  let key := deriveKey password in
  inputFile ← wrap "open input file" (os.Open inputPath);
  wrap "create directory" (os.MkdirAll (filepath.Dir outputPath) 493);;
  outputFile ← wrap "create output file" (os.Create outputPath);
  nonce ← wrap "generate nonce" (rand_Read gcm_NonceSize);
  outputFile ← wrap "write nonce" (os.Write outputFile nonce);
  w ← get_world;
  encrypt_loop (S (file_length w inputFile)) key nonce inputFile outputFile;;
  log LevelInfo "file encrypted" None.

(** [io.EOF] and [io.ErrUnexpectedEOF] *)
Definition io_EOF : error := Msg "EOF".
Definition io_ErrUnexpectedEOF : error := Msg "unexpected EOF".

(** [io.ReadFull(f, buf)] with [len(buf) = n]: [io.EOF] when no byte was
    read, [io.ErrUnexpectedEOF] when some but not all were. *)
Definition read_full (f : os.file) (n : nat) : M (list Z * os.file) :=
  '(buf, f) ← os.Read f n;
  if (length buf =? n)%nat then ret (buf, f)
  else if (length buf =? 0)%nat then fail io_EOF
  else fail io_ErrUnexpectedEOF.

(** The block loop of [decryptFile]: blocks of [64*1024 + gcm.Overhead()]
    bytes. *)
Fixpoint decrypt_loop (fuel : nat) (key nonce : list Z) (inputFile outputFile : os.file)
  : M unit :=
  match fuel with
  | O => fail ErrFuel
  | S fuel' =>
      ctx_check;;
      '(chunk, inputFile) ←
        wrap "read encrypted file" (os.Read inputFile (chunkSize + gcm_Overhead));
      if (length chunk =? 0)%nat then ret tt
      else
        match gcm_Open key nonce chunk with
        | None => fail (Wrap "decrypt block" ErrAuth)
        | Some plaintext =>
            outputFile ← wrap "write decrypted block" (os.Write outputFile plaintext);
            decrypt_loop fuel' key (incrementNonce nonce) inputFile outputFile
        end
  end.

(** [decryptFile] *)
Definition decryptFile (inputPath outputPath password : string) : M unit :=
  let key := deriveKey password in
  inputFile ← wrap "open encrypted file" (os.Open inputPath);
  wrap "create directory" (os.MkdirAll (filepath.Dir outputPath) 493);;
  outputFile ← wrap "create output file" (os.Create outputPath);
  '(nonce, inputFile) ← wrap "read nonce" (read_full inputFile gcm_NonceSize);
  w ← get_world;
  decrypt_loop (S (file_length w inputFile)) key nonce inputFile outputFile;;
  log LevelInfo "file decrypted" None.

(** ** Retention engine ([cleanup.go]) *)

Variable storage : StorageProvider.

(** [backupExists] *)
Definition backupExists (backupPath : string) : M bool := Exists storage backupPath.

(** The three statements of [deleteBackup]'s transaction. *)
Definition sql_delete_files_of_job (jobID : string) (d : DB) : DB :=
  set_files (filter (fun kv => f_job_id kv.2 <> jobID) (backup_files d)) d.

Definition sql_delete_results_of_job (jobID : string) (d : DB) : DB :=
  set_results (filter (fun kv => r_job_id kv.2 <> jobID) (backup_results d)) d.

Definition mark_deleted (row : JobRow) : JobRow :=
  mkJobRow (j_policy_id row) JobStatusDeleted (j_started_at row) (j_completed_at row)
    (j_error row) (j_files_processed row) (j_total_size row) (j_backup_path row)
    (j_created_at row).

Definition sql_mark_job_deleted (jobID : string) (d : DB) : DB :=
  set_jobs (alter mark_deleted jobID (backup_jobs d)) d.

(** [deleteBackup]: the artifact first, then the catalog rows in one
    transaction. *)
Definition deleteBackup (backup : BackupJob.t) : M unit :=
  wrap "delete file from storage" (Delete storage (BackupJob.BackupPath backup));;
  tx ← wrap "begin transaction" BeginTx;
  defer (tx_Rollback tx)
    (tx ← wrap "delete file records" (tx_Exec (sql_delete_files_of_job (BackupJob.ID backup)) tx);
     tx ← wrap "delete backup result" (tx_Exec (sql_delete_results_of_job (BackupJob.ID backup)) tx);
     tx ← wrap "update job status" (tx_Exec (sql_mark_job_deleted (BackupJob.ID backup)) tx);
     wrap "commit transaction" (tx_Commit tx)).

(** The second loop of [getBackupsForPolicy]: a backup is kept when the
    storage confirms its artifact; a failed check is logged and the backup
    left out. *)
Fixpoint verify_backups (successfulBackups : list BackupJob.t) : M (list BackupJob.t) :=
  match successfulBackups with
  | [] => ret []
  | backup :: rest =>
      r ← try (backupExists (BackupJob.BackupPath backup));
      match r with
      | inl e =>
          log LevelWarn "error checking backup" (Some e);;
          verify_backups rest
      | inr true =>
          verifiedBackups ← verify_backups rest;
          ret (backup :: verifiedBackups)
      | inr false =>
          log LevelWarn "backup not found in storage" None;;
          verify_backups rest
      end
  end.

Definition is_successful (backup : BackupJob.t) : Prop :=
  BackupJob.Status backup = JobStatusCompleted /\ BackupJob.BackupPath backup <> "".

(** [getBackupsForPolicy] *)
Definition getBackupsForPolicy (policy : BackupPolicy.t) : M (list BackupJob.t) :=
  dbBackups ← wrap "get backup history from DB" (getBackupHistory (BackupPolicy.ID policy) 1000);
  let successfulBackups := filter is_successful dbBackups in
  verify_backups successfulBackups.

(** The deletion loop of [cleanupOldBackups]: a failed deletion is logged
    and the loop goes on. *)
Fixpoint delete_backups (backupsToDelete : list BackupJob.t) : M unit :=
  match backupsToDelete with
  | [] => ret tt
  | backup :: rest =>
      r ← try (deleteBackup backup);
      match r with
      | inl e => log LevelWarn "error deleting backup" (Some e)
      | inr _ => log LevelInfo "backup deleted" None
      end;;
      delete_backups rest
  end.

(** [cleanupOldBackups] *)
Definition cleanupOldBackups (policy : BackupPolicy.t) : M unit :=
  if BackupPolicy.RetentionCount policy <=? 0
  then log LevelInfo "cleanup skipped: unlimited retention" None
  else
    backups ← wrap "list backups" (getBackupsForPolicy policy);
    if Z.of_nat (length backups) <=? BackupPolicy.RetentionCount policy
    then log LevelInfo "cleanup not needed" None
    else
      let backups := newest_first BackupJob.CreatedAt backups in
      let backupsToDelete := drop (Z.to_nat (BackupPolicy.RetentionCount policy)) backups in
      log LevelInfo "start cleanup of old backups" None;;
      delete_backups backupsToDelete;;
      log LevelInfo "cleanup of old backups finished" None.

(** [applyRetentionPolicies] *)
Definition applyRetentionPolicies : M unit :=
  policies ← wrap "get policies" getAllPolicies;
  log LevelInfo "start applying retention policies" None;;
  foldr (fun policy rest =>
           r ← try (cleanupOldBackups policy);
           match r with
           | inl e => log LevelWarn "error applying retention policy" (Some e)
           | inr _ => ret tt
           end;;
           rest)
        (ret tt) policies;;
  log LevelInfo "retention policies applied" None.

(** ** Pipeline orchestrator ([service.go]) *)

(** The callback of [scanDirectory] over the visited objects. *)
Fixpoint scan_walk (visited : list (string * node)) (files : list string) (totalSize : Z)
  : M (list string * Z) :=
  match visited with
  | [] => ret (files, totalSize)
  | (filePath, info) :: rest =>
      let '(files, totalSize) :=
        if node_is_dir info then (files, totalSize)
        else (files ++ [filePath], totalSize + node_size info) in
      ctx_check;;
      scan_walk rest files totalSize
  end.

(** [scanDirectory] *)
Definition scanDirectory (path : string) : M (list string * Z) :=
  w ← get_world;
  match walk_entries w path with
  | inl e => fail e
  | inr visited => scan_walk visited [] 0
  end.

(** [copyFile] *)
Definition copyFile (src dst : string) : M unit :=
  source ← os.Open src;
  destination ← os.Create dst;
  io_Copy destination source.

(** [copyFiles] *)
Fixpoint copyFiles (sourcePath destPath : string) (files : list string) : M unit :=
  match files with
  | [] => ret tt
  | file :: rest =>
      match filepath_Rel sourcePath file with
      | inl e => fail (Wrap "relative path" e)
      | inr relPath =>
          let destFile := filepath.Join [destPath; relPath] in
          wrap "create directory" (os.MkdirAll (filepath.Dir destFile) 493);;
          wrap "copy file" (copyFile file destFile);;
          log LevelInfo "backup progress" None;;
          ctx_check;;
          copyFiles sourcePath destPath rest
      end
  end.

(** [strings.ReplaceAll(s, " ", "-")] *)
Definition spaces_to_dashes (s : string) : string :=
  String.string_of_list_ascii
    (map (fun c => if Ascii.eqb c " "%char then "-"%char else c) (String.list_ascii_of_string s)).

(** [generateBackupName] *)
Definition generateBackupName (policy : BackupPolicy.t) : M string :=
  now ← time_Now;
  let timestamp := time_Format now in
  let baseName := spaces_to_dashes (BackupPolicy.Name policy) in
  ret (baseName +:+ "-" +:+ timestamp).

(** [strings.SplitN(s, "/", 4)]: at most four parts, the last one
    unsplit. *)
Definition splitN4 (s : string) : list string :=
  let parts := filepath.split s in
  if (length parts <=? 4)%nat then parts
  else take 3 parts ++ [filepath.join_slash (drop 3 parts)].

(** [generateRemotePath] *)
Definition generateRemotePath (policy : BackupPolicy.t) (backupName : string) : string :=
  if filepath.HasPrefix (BackupPolicy.DestinationPath policy) "s3://"
     || filepath.HasPrefix (BackupPolicy.DestinationPath policy) "gcs://"
  then
    match splitN4 (BackupPolicy.DestinationPath policy) with
    | [_; _; _; rest] => rest +:+ "/" +:+ backupName
    | _ => backupName
    end
  else filepath.Join [BackupPolicy.DestinationPath policy; backupName].

(** [calculateChecksum] *)
Definition calculateChecksum (filePath : string) : M string :=
  file ← os.Open filePath;
  data ← os.ReadAll file;
  ret (sha256_hex data).

(** The archiving step of [performBackup] (the block under
    [if policy.ArchiveEnabled]): it returns the new [backupPath] and the
    result with its compression fields. *)
Definition archive_step (backupPath : string) (res : BackupResult.t)
  : M (string * BackupResult.t) :=
  let archivePath := backupPath +:+ ".tar.gz" in
  wrap "archiving" (createArchive backupPath archivePath);;
  let backupPath := archivePath in
  r1 ← try (getDirectorySize backupPath);
  match r1 with
  | inr originalSize =>
      r2 ← try (getFileSize archivePath);
      match r2 with
      | inr compressedSize =>
          ret (backupPath,
               BackupResult.set_CompressedSize compressedSize
                 (BackupResult.set_CompressionRatio (float64_div originalSize compressedSize) res))
      | inl _ => ret (backupPath, res)
      end
  | inl _ => ret (backupPath, res)
  end.

(** The encryption step of [performBackup]. *)
Definition encrypt_step (policy : BackupPolicy.t) (backupPath : string) : M string :=
  let encryptedPath := backupPath +:+ ".enc" in
  wrap "encryption"
    (encryptFile backupPath encryptedPath (BackupPolicy.EncryptionPassword policy));;
  ret encryptedPath.

(** [performBackup] up to and including the upload: scan, copy, archive,
    encrypt, checksum, upload. *)
Definition backup_and_upload (policy : BackupPolicy.t) (tempDir : string) : M BackupResult.t :=
  let res := BackupResult.mk "" "" 0 0 0 0 (BackupPolicy.ArchiveEnabled policy)
               (BackupPolicy.EncryptionEnabled policy) 0%Q "" in
  '(files, totalSize) ← wrap "scan directory" (scanDirectory (BackupPolicy.SourcePath policy));
  let res := BackupResult.set_TotalSize totalSize
               (BackupResult.set_FilesProcessed (Z.of_nat (length files)) res) in
  backupName ← generateBackupName policy;
  let backupPath := filepath.Join [tempDir; backupName] in
  wrap "copy files" (copyFiles (BackupPolicy.SourcePath policy) backupPath files);;
  '(backupPath, res) ←
    (if BackupPolicy.ArchiveEnabled policy then archive_step backupPath res
     else ret (backupPath, res));
  backupPath ←
    (if BackupPolicy.EncryptionEnabled policy then encrypt_step policy backupPath
     else ret backupPath);
  checksum ← wrap "checksum" (calculateChecksum backupPath);
  let res := BackupResult.set_Checksum checksum res in
  let remotePath := generateRemotePath policy backupName in
  wrap "upload to storage" (Upload storage backupPath remotePath);;
  ret (BackupResult.set_BackupPath remotePath res).

(** The end of [performBackup]: retention for the policy; its error is
    logged and the result returned. *)
Definition cleanup_and_return (policy : BackupPolicy.t) (res : BackupResult.t)
  : M BackupResult.t :=
  r ← try (cleanupOldBackups policy);
  match r with
  | inl e => log LevelError "error cleaning up old backups" (Some e)
  | inr _ => ret tt
  end;;
  ret res.

(** [performBackup]; the temporary directory is removed on every return. *)
Definition performBackup (policy : BackupPolicy.t) : M BackupResult.t :=
  tempDir ← wrap "create temporary directory" (os.MkdirTemp "backup-");
  defer (os.RemoveAll tempDir)
    (res ← backup_and_upload policy tempDir;
     cleanup_and_return policy res).

(** [ExecuteBackup].  The job is passed by pointer and updated in place:
    the updated job is returned next to the result. *)
Definition ExecuteBackup (job : BackupJob.t) : M (BackupJob.t * result BackupResult.t) :=
  r ← try (getPolicy (BackupJob.PolicyID job));
  match r with
  | inl e => ret (job, inl (Wrap "get policy" e))
  | inr policy =>
      log LevelInfo "backup started" None;;
      now ← time_Now;
      let job := BackupJob.set_StartedAt now (BackupJob.set_Status JobStatusRunning job) in
      startTime ← time_Now;
      r ← try (performBackup policy);
      match r with
      | inl e =>
          let job := BackupJob.set_Error (error_string e)
                       (BackupJob.set_Status JobStatusFailed job) in
          log LevelError "backup_execution" (Some e);;
          ret (job, inl e)
      | inr res =>
          completedAt ← time_Now;
          let job := BackupJob.set_CompletedAt (Some completedAt)
                       (BackupJob.set_Status JobStatusCompleted job) in
          finished ← time_Now;
          let res := BackupResult.set_Duration (finished - startTime)
                       (BackupResult.set_JobID (BackupJob.ID job) res) in
          log LevelInfo "backup completed" None;;
          ret (job, inr res)
      end
  end.

End Pipeline.

(** ** A small instance of the libraries

    Used to run the code on concrete inputs: a length-prefixed archive
    format behind the two gzip magic bytes, a cipher whose tag is cut from
    key and nonce, and constant digests. *)

Definition string_bytes (s : string) : list Z :=
  map (fun c => Z.of_nat (nat_of_ascii c)) (String.list_ascii_of_string s).

Definition bytes_string (l : list Z) : string :=
  String.string_of_list_ascii (map (fun b => ascii_of_nat (Z.to_nat b)) l).

Definition toy_encode_entry (e : tar.Header * list Z) : list Z :=
  let name := string_bytes (tar.Name e.1) in
  [tar.Typeflag e.1; tar.Mode e.1 / 256; tar.Mode e.1 mod 256; Z.of_nat (length name)]
    ++ name ++ [Z.of_nat (length e.2)] ++ e.2.

Definition toy_targz_encode (entries : list (tar.Header * list Z)) : list Z :=
  [31; 139] ++ concat (map toy_encode_entry entries).

Fixpoint toy_decode_entries (fuel : nat) (raw : list Z)
  : list (tar.Header * list Z) * option error :=
  match fuel with
  | O => ([], Some ErrFormat)
  | S fuel' =>
      match raw with
      | [] => ([], None)
      | flag :: mh :: ml :: nl :: rest =>
          let n := Z.to_nat nl in
          match drop n rest with
          | bl :: rest' =>
              let b := Z.to_nat bl in
              if ((length (take n rest) =? n)%nat && (b <=? length rest')%nat)%bool then
                let header := tar.mkHeader (bytes_string (take n rest)) flag (mh * 256 + ml) bl in
                let '(more, tail) := toy_decode_entries fuel' (drop b rest') in
                ((header, take b rest') :: more, tail)
              else ([], Some ErrFormat)
          | [] => ([], Some ErrFormat)
          end
      | _ => ([], Some ErrFormat)
      end
  end.

Definition toy_targz_decode (raw : list Z) : result (list (tar.Header * list Z) * option error) :=
  match raw with
  | 31 :: 139 :: rest => inr (toy_decode_entries (S (length rest)) rest)
  | _ => inl ErrFormat
  end.

Definition toy_tag (key nonce : list Z) : list Z :=
  take gcm_Overhead (key ++ nonce ++ replicate gcm_Overhead 0).

Definition toy_Seal (key nonce plaintext : list Z) : list Z :=
  plaintext ++ toy_tag key nonce.

Definition toy_Open (key nonce ciphertext : list Z) : option (list Z) :=
  let n := (length ciphertext - gcm_Overhead)%nat in
  if bool_decide (gcm_Overhead <= length ciphertext /\ drop n ciphertext = toy_tag key nonce)%nat
  then Some (take n ciphertext) else None.

Definition toyLib : GoLib := {|
  targz_encode := toy_targz_encode;
  targz_decode := toy_targz_decode;
  gcm_Seal := toy_Seal;
  gcm_Open := toy_Open;
  pbkdf2_Key := fun password salt _ _ => string_bytes password;
  sha256_hex := fun data => pretty (length data);
  time_Format := fun t => pretty t
|}.

(** * Further code of the package *)

(** ** Password checks and generation ([encryption.go]) *)

(** [lo <= c && c <= hi] on characters. *)
Definition char_between (lo hi c : ascii) : bool :=
  (N_of_ascii lo <=? N_of_ascii c)%N && (N_of_ascii c <=? N_of_ascii hi)%N.

Definition is_upper (c : ascii) : bool := char_between "A" "Z" c.
Definition is_lower (c : ascii) : bool := char_between "a" "z" c.
Definition is_digit (c : ascii) : bool := char_between "0" "9" c.
(** [char >= 32 && char <= 126] *)
Definition is_printable (c : ascii) : bool := (32 <=? N_of_ascii c)%N && (N_of_ascii c <=? 126)%N.

(** The four flags of [validatePassword]. *)
Record PasswordClasses : Type := mkClasses {
  hasUpper : bool;
  hasLower : bool;
  hasDigit : bool;
  hasSpecial : bool
}.

(** The [switch] in the loop of [validatePassword].  The loop ranges over
    the runes of the string; a byte of a multi-byte rune and the rune
    itself are both above 126 and fall through every case, so the flags
    are those of the loop over the bytes. *)
Definition classify (seen : PasswordClasses) (char : ascii) : PasswordClasses :=
  if is_upper char then mkClasses true (hasLower seen) (hasDigit seen) (hasSpecial seen)
  else if is_lower char then mkClasses (hasUpper seen) true (hasDigit seen) (hasSpecial seen)
  else if is_digit char then mkClasses (hasUpper seen) (hasLower seen) true (hasSpecial seen)
  else if is_printable char then
    if negb (is_upper char || is_lower char || is_digit char)
    then mkClasses (hasUpper seen) (hasLower seen) (hasDigit seen) true
    else seen
  else seen.

(** [validatePassword] *)
Definition validatePassword (password : string) : result unit :=
  if (String.length password <? 8)%nat
  then inl (Msg "password must be at least 8 characters long")
  else
    let seen := fold_left classify (String.list_ascii_of_string password)
                  (mkClasses false false false false) in
    if negb (hasUpper seen) then inl (Msg "password must contain uppercase letters")
    else if negb (hasLower seen) then inl (Msg "password must contain lowercase letters")
    else if negb (hasDigit seen) then inl (Msg "password must contain digits")
    else if negb (hasSpecial seen) then inl (Msg "password must contain special characters")
    else inr tt.

(** The character set of [generateSecurePassword]. *)
Definition charset : string :=
  "ABCDEFGHIJKLMNOPQRSTUVWXYZabcdefghijklmnopqrstuvwxyz0123456789!@#$%^&*".

(** [charset[int(b) % len(charset)]] *)
Definition charset_pick (b : Z) : ascii :=
  nth (Z.to_nat (b mod Z.of_nat (String.length charset)))
      (String.list_ascii_of_string charset) "A"%char.

(** The loop of [generateSecurePassword]: one byte of [crypto/rand] per
    character; [password] holds the characters written so far, last
    first. *)
Fixpoint generate_chars (n : nat) (password : list ascii) : M (list ascii) :=
  match n with
  | O => ret (rev password)
  | S n' =>
      randomIndex ← wrap "generate random number" (rand_Read 1);
      generate_chars n' (charset_pick (hd 0 randomIndex) :: password)
  end.

(** [generateSecurePassword].  [make([]byte, length)] panics on a negative
    length; the panic is the [Msg] below. *)
Definition generateSecurePassword (length : Z) : M string :=
  if length <? 0 then fail (Msg "panic: runtime error: makeslice: len out of range")
  else
    password ← generate_chars (Z.to_nat length) [];
    ret (String.string_of_list_ascii password).

(** ** Storage configuration checks ([validation.go]) *)

Module S3Config.
Record t : Type := mk {
  Bucket : string;
  Region : string;
  AccessKeyID : string;
  SecretAccessKey : string;
  Endpoint : string;
  UseSSL : bool
}.
End S3Config.

(** [strings.HasSuffix] *)
Definition strings_HasSuffix (s suffix : string) : bool :=
  bool_decide (String.list_ascii_of_string suffix `suffix_of` String.list_ascii_of_string s).

(** The character class [[a-z0-9.-]]. *)
Definition bucket_char (c : ascii) : bool :=
  is_lower c || is_digit c || Ascii.eqb c "." || Ascii.eqb c "-".

(** [regexp.MatchString(`^[a-z0-9.-]+$`, s)]: in Go's syntax [$] matches
    at the end of the text only. *)
Definition matches_bucket_pattern (s : string) : bool :=
  negb (String.eqb s "") && forallb bucket_char (String.list_ascii_of_string s).

(** [isValidS3BucketName] *)
Definition isValidS3BucketName (bucket : string) : bool :=
  if (String.length bucket <? 3)%nat || (63 <? String.length bucket)%nat then false
  else if negb (matches_bucket_pattern bucket) then false
  else if filepath.HasPrefix bucket "." || strings_HasSuffix bucket "."
          || filepath.HasPrefix bucket "-" || strings_HasSuffix bucket "-"
  then false
  else true.

(** [ValidateS3Config]; [None] is the nil pointer. *)
Definition ValidateS3Config (config : option S3Config.t) : result unit :=
  match config with
  | None => inl (Msg "S3 configuration must not be empty")
  | Some config =>
      if String.eqb (S3Config.Bucket config) "" then inl (Msg "S3 bucket name is required")
      else if String.eqb (S3Config.Region config) "" then inl (Msg "S3 region is required")
      else if String.eqb (S3Config.AccessKeyID config) ""
      then inl (Msg "Access Key ID is required")
      else if String.eqb (S3Config.SecretAccessKey config) ""
      then inl (Msg "Secret Access Key is required")
      else if negb (isValidS3BucketName (S3Config.Bucket config))
      then inl (Msg "invalid S3 bucket name")
      else inr tt
  end.

(** ** The other sweeps of the retention engine ([cleanup.go]) *)

(** The struct a query scans a row into starts as [&types.BackupJob{}]:
    the fields the query does not select keep their zero values.  The zero
    status is the empty string, which is none of the constants of
    [JobStatus]; the sweeps below hand these structs to [deleteBackup] and
    to the loggers, which read [ID], [BackupPath], [PolicyID] and
    [CreatedAt] only, and [JobStatusPending] stands in for it. *)
Definition scanned_job (id policyID error backupPath : string) (createdAt : Z) : BackupJob.t :=
  BackupJob.mk id policyID JobStatusPending 0 None error 0 0 backupPath createdAt.

(** The rows of
    [SELECT j.id, j.backup_path, j.created_at FROM backup_jobs j
     LEFT JOIN backup_policies p ON j.policy_id = p.id
     WHERE p.id IS NULL AND j.status = 'completed'],
    in the order of the table (the query has no ORDER BY). *)
Definition orphaned_rows (d : DB) : list (string * JobRow) :=
  filter (fun kv : string * JobRow =>
            ~ is_Some (backup_policies d !! j_policy_id kv.2) /\
            j_status kv.2 = JobStatusCompleted)
         (map_to_list (backup_jobs d)).

(** The wall clock, to the second, of the instant [t] in a zone [offset]
    seconds east of UTC. *)
Definition wall_clock (offset t : Z) : Z := (t + offset * 1000000000) / 1000000000.

(** [created_at < ?] with a [time.Time] bound to the parameter.  SQLite
    compares two texts.  The column, filled by CURRENT_TIMESTAMP, holds
    [YYYY-MM-DD HH:MM:SS], the wall clock of UTC; the driver binds the
    value as [YYYY-MM-DD HH:MM:SS.fffffffff-07:00], the wall clock of the
    value's location ([time.Local] for [time.Now()]) followed by the
    fraction of the second and the zone.  The first nineteen characters
    are fields of fixed width (for the years 0 to 9999), so the texts
    compare as the two wall clocks do, and the stored text, the shorter
    one, is the smaller when they agree. *)
Definition stored_before (zone created bound : Z) : Prop :=
  wall_clock 0 created <= wall_clock zone bound.

#[global] Instance stored_before_dec (zone created bound : Z) :
  Decision (stored_before zone created bound).
Proof. unfold stored_before. apply _. Defined.

(** The rows of
    [SELECT id, policy_id, backup_path, error, created_at FROM backup_jobs
     WHERE status = 'failed' AND created_at < ?]. *)
Definition failed_rows (zone cutoffTime : Z) (d : DB) : list (string * JobRow) :=
  filter (fun kv : string * JobRow =>
            j_status kv.2 = JobStatusFailed /\
            stored_before zone (j_created_at kv.2) cutoffTime)
         (map_to_list (backup_jobs d)).

(** [DELETE FROM backup_jobs WHERE id = ?] *)
Definition sql_delete_job (jobID : string) (d : DB) : DB :=
  set_jobs (delete jobID (backup_jobs d)) d.

(** [os.TempDir()] when [$TMPDIR] is not set, as in [os.MkdirTemp]. *)
Definition os_TempDir : string := "/tmp".

(** A name the pattern [backup-*] matches: the star matches any sequence
    of characters other than the separator. *)
Definition matches_backup_star (name : string) : bool :=
  filepath.HasPrefix name "backup-"
  && forallb (fun c => negb (Ascii.eqb c filepath.Separator)) (String.list_ascii_of_string name).

(** The order of [sort.Strings]. *)
Definition name_le : relation string := fun a b => String.leb a b = true.

#[global] Instance name_le_dec (a b : string) : Decision (name_le a b).
Proof. unfold name_le. apply _. Defined.

(** [filepath.Glob(filepath.Join(os.TempDir(), "backup-*"))]: the entries
    of the directory whose names match, sorted by name, each joined to the
    directory; nothing when the directory cannot be read. *)
Definition glob_temp_backups (w : World) : list string :=
  match os.lookup_node (w_fs w) (os.at_path w os_TempDir) with
  | Some (Dir _) =>
      (fun name => filepath.Join [os_TempDir; name]) <$>
        merge_sort name_le
          (omap (fun kv : list string * node =>
                   match last kv.1 with
                   | Some name =>
                       if bool_decide (kv.1 = os.at_path w os_TempDir ++ [name])
                          && matches_backup_star name
                       then Some name else None
                   | None => None
                   end)
                (map_to_list (w_fs w)))
  | _ => []
  end.

Section Maintenance.
Variable storage : StorageProvider.

(** The deletion loop that [cleanupOrphanedBackups] and
    [applyAgeBasedRetention] share with [cleanupOldBackups], up to the
    texts they log: a failed deletion is logged and the loop goes on. *)
Fixpoint delete_each (warnMsg infoMsg : string) (backups : list BackupJob.t) : M unit :=
  match backups with
  | [] => ret tt
  | backup :: rest =>
      r ← try (deleteBackup storage backup);
      match r with
      | inl e => log LevelWarn warnMsg (Some e)
      | inr _ => log LevelInfo infoMsg None
      end;;
      delete_each warnMsg infoMsg rest
  end.

(** [cleanupOrphanedBackups] *)
Definition cleanupOrphanedBackups : M unit :=
  rows ← wrap "get orphaned backups" (db_Query orphaned_rows);
  let orphanedBackups :=
    (fun kv : string * JobRow =>
       scanned_job kv.1 "" "" (j_backup_path kv.2) (j_created_at kv.2)) <$> rows in
  log LevelInfo "start cleanup of orphaned backups" None;;
  delete_each "error deleting orphaned backup" "orphaned backup deleted" orphanedBackups;;
  log LevelInfo "cleanup of orphaned backups finished" None.

(** The loop of [cleanupFailedBackups]: the job row is deleted outside any
    transaction; only then, and only for a non-empty path, the artifact is
    deleted, and a failure there is logged and nothing more. *)
Fixpoint delete_failed (failedBackups : list BackupJob.t) : M unit :=
  match failedBackups with
  | [] => ret tt
  | backup :: rest =>
      r ← try (db_Exec (sql_delete_job (BackupJob.ID backup)));
      match r with
      | inl e => log LevelWarn "error deleting failed backup from DB" (Some e)
      | inr _ =>
          (if String.eqb (BackupJob.BackupPath backup) "" then ret tt
           else
             r ← try (Delete storage (BackupJob.BackupPath backup));
             match r with
             | inl e => log LevelWarn "error deleting file of failed backup" (Some e)
             | inr _ => ret tt
             end);;
          log LevelInfo "failed backup deleted" None
      end;;
      delete_failed rest
  end.

(** [cleanupFailedBackups]; [olderThan] is a duration. *)
Definition cleanupFailedBackups (olderThan : Z) : M unit :=
  now ← time_Now;
  let cutoffTime := now - olderThan in
  w ← get_world;
  rows ← wrap "get failed backups" (db_Query (failed_rows (w_zone w) cutoffTime));
  let failedBackups :=
    (fun kv : string * JobRow =>
       scanned_job kv.1 (j_policy_id kv.2) (j_error kv.2) (j_backup_path kv.2)
         (j_created_at kv.2)) <$> rows in
  log LevelInfo "start cleanup of old failed backups" None;;
  delete_failed failedBackups;;
  log LevelInfo "cleanup of old failed backups finished" None.

(** The loop of [cleanupTempFiles]. *)
Fixpoint remove_temp_dirs (tempDirs : list string) : M unit :=
  match tempDirs with
  | [] => ret tt
  | dir :: rest =>
      r ← try (os.Stat dir);
      match r with
      | inl e => log LevelWarn "error getting directory info" (Some e)
      | inr fileInfo =>
          if negb (node_is_dir fileInfo) then ret tt
          else
            r ← try (os.RemoveAll dir);
            match r with
            | inl e => log LevelWarn "error removing temporary directory" (Some e)
            | inr _ => log LevelInfo "temporary directory removed" None
            end
      end;;
      remove_temp_dirs rest
  end.

(** [cleanupTempFiles]; [Glob] fails on a malformed pattern only. *)
Definition cleanupTempFiles : M unit :=
  w ← get_world;
  let tempDirs := glob_temp_backups w in
  log LevelInfo "start cleanup of temporary files" None;;
  remove_temp_dirs tempDirs;;
  log LevelInfo "cleanup of temporary files finished" None.

(** [applyAgeBasedRetention]; [maxAge] is a duration. *)
Definition applyAgeBasedRetention (policy : BackupPolicy.t) (maxAge : Z) : M unit :=
  if maxAge <=? 0 then ret tt
  else
    now ← time_Now;
    let cutoffTime := now - maxAge in
    backups ← wrap "list backups" (getBackupsForPolicy storage policy);
    log LevelInfo "start applying age-based retention" None;;
    let backupsToDelete :=
      filter (fun backup => BackupJob.CreatedAt backup < cutoffTime) backups in
    delete_each "error deleting old backup" "old backup deleted" backupsToDelete;;
    log LevelInfo "age-based retention applied" None.

End Maintenance.

(** ** Stream encryption and secure deletion ([encryption.go]) *)

(** What the code uses of [crypto/cipher]'s CFB mode over AES: the
    encryption and the decryption of a whole stream under a key and an
    initialisation vector.  [cipher.StreamWriter] and [cipher.StreamReader]
    apply them chunk by chunk as [io.Copy] moves the bytes. *)
Class StreamLib : Type := {
  cfb_Encrypt : list Z -> list Z -> list Z -> list Z;   (* key, iv, plaintext *)
  cfb_Decrypt : list Z -> list Z -> list Z -> list Z    (* key, iv, ciphertext *)
}.

(** [aes.BlockSize] *)
Definition aes_BlockSize : nat := 16.

(** [aes.NewCipher(key)]: the key must have 16, 24 or 32 bytes. *)
Definition aes_NewCipher (key : list Z) : result unit :=
  if (length key =? 16)%nat || (length key =? 24)%nat || (length key =? 32)%nat
  then inr tt else inl (Msg "crypto/aes: invalid key size").

Section StreamCodec.
Context `{GoLib} `{StreamLib}.

(** [encryptFileStream]: the initialisation vector, then the CFB
    encryption of the input. *)
Definition encryptFileStream (inputPath outputPath password : string) : M unit :=
  let key := deriveKey password in
  inputFile ← wrap "open input file" (os.Open inputPath);
  wrap "create directory" (os.MkdirAll (filepath.Dir outputPath) 493);;
  outputFile ← wrap "create output file" (os.Create outputPath);
  match aes_NewCipher key with
  | inl e => fail (Wrap "create AES cipher" e)
  | inr _ =>
      iv ← wrap "generate IV" (rand_Read aes_BlockSize);
      outputFile ← wrap "write IV" (os.Write outputFile iv);
      wrap "encrypt file"
        (data ← os.ReadAll inputFile;
         _ ← os.Write outputFile (cfb_Encrypt key iv data);
         ret tt);;
      log LevelInfo "file encrypted as a stream" None
  end.

(** [decryptFileStream] *)
Definition decryptFileStream (inputPath outputPath password : string) : M unit :=
  let key := deriveKey password in
  inputFile ← wrap "open encrypted file" (os.Open inputPath);
  wrap "create directory" (os.MkdirAll (filepath.Dir outputPath) 493);;
  outputFile ← wrap "create output file" (os.Create outputPath);
  match aes_NewCipher key with
  | inl e => fail (Wrap "create AES cipher" e)
  | inr _ =>
      '(iv, inputFile) ← wrap "read IV" (read_full inputFile aes_BlockSize);
      wrap "decrypt file"
        (data ← os.ReadAll inputFile;
         _ ← os.Write outputFile (cfb_Decrypt key iv data);
         ret tt);;
      log LevelInfo "file decrypted as a stream" None
  end.

End StreamCodec.

(** The overwriting loop of [secureDelete]: a buffer of 4096 random bytes
    per round, of which the bytes still missing are written.  [fuel]
    bounds the rounds of the model; every round but a last empty one
    writes at least one byte. *)
Fixpoint overwrite_random (fuel : nat) (file : os.file) (written fileSize : Z) : M os.file :=
  match fuel with
  | O => fail ErrFuel
  | S fuel' =>
      if written <? fileSize then
        buffer ← wrap "generate random data" (rand_Read 4096);
        let toWrite := if fileSize <? written + 4096 then fileSize - written else 4096 in
        file ← wrap "write random data" (os.Write file (take (Z.to_nat toWrite) buffer));
        overwrite_random fuel' file (written + toWrite) fileSize
      else ret file
  end.

(** [secureDelete]; [file.Sync] has nothing to do in this file system. *)
Definition secureDelete (filePath : string) : M unit :=
  fileInfo ← wrap "file info" (os.Stat filePath);
  file ← wrap "open file for overwriting" (os.OpenFile filePath os.O_WRONLY 0);
  let fileSize := node_size fileInfo in
  _ ← overwrite_random (S (Z.to_nat fileSize)) file 0 fileSize;
  wrap "remove file" (os.Remove filePath).

(** * Vocabulary of the properties *)

(** ** Catalog *)

(** What it means that no row refers to the policy any more: the policy
    row is gone, no job row has its id, and no result or file row names a
    job that was, or is, a job of the policy. *)
Definition no_reference (before after : DB) (policyID : string) : Prop :=
  backup_policies after !! policyID = None /\
  (forall id row, backup_jobs after !! id = Some row -> j_policy_id row <> policyID) /\
  (forall id row, backup_results after !! id = Some row ->
     job_in_policy before policyID (r_job_id row) = false /\
     job_in_policy after policyID (r_job_id row) = false) /\
  (forall id row, backup_files after !! id = Some row ->
     job_in_policy before policyID (f_job_id row) = false /\
     job_in_policy after policyID (f_job_id row) = false).

(** The rows of the other policies stay. *)
Definition others_kept (before after : DB) (policyID : string) : Prop :=
  (forall id, id <> policyID -> backup_policies after !! id = backup_policies before !! id) /\
  (forall id row, backup_jobs before !! id = Some row -> j_policy_id row <> policyID ->
     backup_jobs after !! id = Some row) /\
  (forall id row, backup_results before !! id = Some row ->
     job_in_policy before policyID (r_job_id row) = false ->
     backup_results after !! id = Some row) /\
  (forall id row, backup_files before !! id = Some row ->
     job_in_policy before policyID (f_job_id row) = false ->
     backup_files after !! id = Some row).

(** The catalog after the transaction of [deleteBackup] for one job. *)
Definition db_delete_backup (jobID : string) (d : DB) : DB :=
  sql_mark_job_deleted jobID (sql_delete_results_of_job jobID (sql_delete_files_of_job jobID d)).

(** The catalog after the deletion loop went through [l]. *)
Definition db_delete_all (l : list BackupJob.t) (d : DB) : DB :=
  foldl (fun d backup => db_delete_backup (BackupJob.ID backup) d) d l.

(** The rows [getBackupHistory] returns when the query is answered. *)
Definition history (d : DB) (policyID : string) (limit : Z) : list BackupJob.t :=
  (fun kv : string * JobRow => job_of_row kv.1 kv.2) <$>
    sql_limit limit
      (newest_first (fun kv : string * JobRow => j_created_at kv.2)
         (map_to_list (filter (fun kv => j_policy_id kv.2 = policyID) (backup_jobs d)))).

(** ** Worlds and runs *)

(** The path to [k] runs through a regular file: a name on the way to
    [k], not the last one, is that of a regular file. *)
Definition through_file (fs : gmap (list string) node) (k : list string) : Prop :=
  exists p mode data,
    p <> [] /\ p `prefix_of` k /\ p <> k /\ fs !! p = Some (File mode data).

(** A path element without a separator, and the elements [filepath.Clean]
    keeps. *)
Definition no_sep (e : string) : Prop :=
  filepath.Separator ∉ String.list_ascii_of_string e.

Definition real_elem (e : string) : Prop := e <> "" /\ e <> "." /\ no_sep e.

(** Is the object [k] below the directory [root]. *)
Definition below (root k : list string) : Prop := root `prefix_of` k /\ k <> root.

(** [keeps field m]: running [m] does not change [field] of the world. *)
Definition keeps {A X : Type} (field : World -> X) (m : M A) : Prop :=
  forall w, field (m w).2 = field w.

(** No call to the database or to the remote service is made to fail. *)
Definition quiet (w : World) : Prop := w_db_faults w = [] /\ w_net_faults w = [].


(** No job row and no result row of [d'] is under a key that is free in
    [d]. *)
Definition no_new_rows (d d' : DB) : Prop :=
  (forall id, backup_jobs d !! id = None -> backup_jobs d' !! id = None) /\
  (forall id, backup_results d !! id = None -> backup_results d' !! id = None).

(** Running [m] adds no job row and no result row to the committed
    catalog. *)
Definition adds_no_row {A : Type} (m : M A) : Prop :=
  forall w, no_new_rows (w_db w) (w_db (m w).2).

(** ** Encrypted streams *)

(** What the round trip needs of the authenticated cipher: sealing adds
    [gcm.Overhead()] bytes, and opening what was sealed under the same key
    and nonce gives the plaintext back. *)
Class CipherLaws `{GoLib} : Prop := {
  Seal_length : forall key nonce plaintext,
    length (gcm_Seal key nonce plaintext) = (length plaintext + gcm_Overhead)%nat;
  Open_Seal : forall key nonce plaintext,
    gcm_Open key nonce (gcm_Seal key nonce plaintext) = Some plaintext
}.

Section SealedStream.
Context `{GoLib}.

(** The stream [encryptFile] writes after the nonce: the sealed blocks of
    [data], one per [chunkSize] bytes, under successive nonces. *)
Fixpoint sealed_blocks (fuel : nat) (key nonce data : list Z) : list Z :=
  match fuel with
  | O => []
  | S fuel' =>
      match take chunkSize data with
      | [] => []
      | chunk =>
          gcm_Seal key nonce chunk
            ++ sealed_blocks fuel' key (incrementNonce nonce) (drop chunkSize data)
      end
  end.

End SealedStream.

(** ** Storage backends and retention *)

(** What count-based retention relies on in a storage backend: there is a
    notion of an object being present that the catalog and the log do not
    influence; [Exists] reports it without changing the world; [Delete] of
    a present object succeeds, makes it absent, and leaves the catalog and
    the presence of every other path as they are. *)
Record StoreModel (storage : StorageProvider) : Type := {
  present : World -> string -> bool;
  present_set_log : forall l w p, present (set_log l w) p = present w p;
  present_set_db : forall d w p, present (set_db d w) p = present w p;
  Exists_present : forall w p, quiet w -> Exists storage p w = (inr (present w p), w);
  Delete_present : forall w p, quiet w -> present w p = true ->
    exists w', Delete storage p w = (inr tt, w') /\ quiet w' /\ w_db w' = w_db w /\
               present w' p = false /\ forall q, q <> p -> present w' q = present w q
}.
Arguments present {storage} _ _ _.
Arguments present_set_log {storage} _ _ _ _.
Arguments present_set_db {storage} _ _ _ _.
Arguments Exists_present {storage} _ _ _ _.
Arguments Delete_present {storage} _ _ _ _ _.

Section RetentionVocabulary.
Variable storage : StorageProvider.
Variable model : StoreModel storage.

(** The backups of [l] whose artifact is present. *)
Definition confirmed (w : World) (l : list BackupJob.t) : list BackupJob.t :=
  filter (fun b => present model w (BackupJob.BackupPath b) = true) l.

(** What deleting a backup comes to: its artifact is absent, its job row
    is kept with the status [deleted], and no result row and no file row
    of the job is left. *)
Definition backup_deleted (w w' : World) (b : BackupJob.t) : Prop :=
  present model w' (BackupJob.BackupPath b) = false /\
  (exists row, backup_jobs (w_db w) !! BackupJob.ID b = Some row /\
               backup_jobs (w_db w') !! BackupJob.ID b = Some (mark_deleted row)) /\
  (forall k row, backup_results (w_db w') !! k = Some row -> r_job_id row <> BackupJob.ID b) /\
  (forall k row, backup_files (w_db w') !! k = Some row -> f_job_id row <> BackupJob.ID b).

(** What keeping a backup comes to: its artifact is present, its job row
    is untouched and completed, and its result and file rows are there. *)
Definition backup_retained (w w' : World) (a : BackupJob.t) : Prop :=
  present model w' (BackupJob.BackupPath a) = true /\
  (exists row, backup_jobs (w_db w) !! BackupJob.ID a = Some row /\
               backup_jobs (w_db w') !! BackupJob.ID a = Some row /\
               j_status row = JobStatusCompleted) /\
  (forall k row, backup_results (w_db w) !! k = Some row -> r_job_id row = BackupJob.ID a ->
                 backup_results (w_db w') !! k = Some row) /\
  (forall k row, backup_files (w_db w) !! k = Some row -> f_job_id row = BackupJob.ID a ->
                 backup_files (w_db w') !! k = Some row).

End RetentionVocabulary.

Arguments confirmed {storage} model w l.
Arguments backup_deleted {storage} model w w' b.
Arguments backup_retained {storage} model w w' a.

(** * Example worlds *)

(** Nothing on disk, nothing in the catalog, nothing in the bucket; the
    umask is 022 and the local time is UTC. *)
Definition empty_world : World :=
  mkWorld ∅ [] (mkDB ∅ ∅ ∅ ∅) [] ∅ [] [] None [] 0 0 18 0.

(** The archive holds one regular file [f] with the single byte 7 and mode
    0644; the destination already holds [f] with three bytes and mode
    0600. *)
Definition overwrite_world : World :=
  set_fs {[ ["srv"] := Dir 493;
            ["srv"; "f"] := File 384 [9; 9; 9];
            ["a.tgz"] := File 420 (toy_targz_encode [(tar.mkHeader "f" tar.TypeReg 420 1, [7])]) ]}
         empty_world.

(** The process runs in [/srv/restore]; the archive holds one regular file
    named [../evil]. *)
Definition slip_world : World :=
  mkWorld {[ ["srv"] := Dir 493;
             ["srv"; "restore"] := Dir 493;
             ["srv"; "restore"; "a.tgz"] :=
               File 420 (toy_targz_encode [(tar.mkHeader "../evil" tar.TypeReg 420 3, [1; 2; 3])]) ]}
          ["srv"; "restore"] (mkDB ∅ ∅ ∅ ∅) [] ∅ [] [] None [] 0 0 18 0.

(** A world with a three-byte file, an empty file, and twelve bytes of
    randomness. *)
Definition crypt_world : World :=
  mkWorld {[ ["data"] := Dir 493;
             ["data"; "secret"] := File 420 [1; 2; 3];
             ["data"; "empty"] := File 420 [] ]}
          [] (mkDB ∅ ∅ ∅ ∅) [] ∅ [] [] None [10; 11; 12; 13; 14; 15; 16; 17; 18; 19; 20; 21] 0 0
          18 0.

(** The same world after the three-byte file was encrypted under the
    passphrase "right". *)
Definition crypt_world_enc : World :=
  (@encryptFile toyLib "/data/secret" "/data/secret.enc" "right" crypt_world).2.

(** A catalog with one policy that keeps one backup and three completed
    jobs of it, and a bucket that holds their three artifacts. *)
Definition retention_policy : BackupPolicy.t :=
  BackupPolicy.mk "p1" "docs" "/data" "s3://bucket/docs" "" 1 true false "" 5 5 "".

(** A completed job of the policy with its artifact path and creation time. *)
Definition retention_job (path : string) (created : Z) : JobRow :=
  mkJobRow "p1" JobStatusCompleted created (Some (created + 1)) "" 2 7 path created.

Definition retention_world : World :=
  mkWorld ∅ []
    (mkDB {[ "p1" := mkPolicyRow "docs" "/data" "s3://bucket/docs" "" 1 true false "pw" 5 5 ]}
          {[ "j1" := retention_job "docs/a" 10;
             "j2" := retention_job "docs/b" 20;
             "j3" := retention_job "docs/c" 30 ]}
          {[ "result_j1" := mkResultRow "j1" "docs/a" 2 7 9 1 false true "c1" 1 11;
             "result_j3" := mkResultRow "j3" "docs/c" 2 7 9 1 false true "c3" 1 31 ]}
          ∅)
    [] {[ "docs/a" := [1]; "docs/b" := [2]; "docs/c" := [3] ]} [] [] None [] 100 0 18 0.

(** The verified completed backups of the policy in that world. *)
Definition retention_listed : list BackupJob.t :=
  match (getBackupsForPolicy S3Storage.provider retention_policy retention_world).1 with
  | inr backups => backups
  | inl _ => []
  end.


(** The same two jobs over the local backend with the base path
    [/store]: their rows name the one file [/store/docs/a] by two
    different paths. *)
Definition alias_world : World :=
  mkWorld {[ ["store"] := Dir 493;
             ["store"; "docs"] := Dir 493;
             ["store"; "docs"; "a"] := File 420 [1] ]}
    []
    (mkDB {[ "p1" := mkPolicyRow "docs" "/data" "/store" "" 1 true false "pw" 5 5 ]}
          {[ "j1" := retention_job "docs/a" 10;
             "j2" := retention_job "/docs/a" 20 ]}
          ∅ ∅)
    [] ∅ [] [] None [] 100 0 18 0.

(** A source tree of two files (five and two bytes), a policy with
    archiving on, encryption off and a retention count of two, stored with
    the passphrase "pw", and a pending job of that policy. *)
Definition pipeline_world : World :=
  mkWorld {[ ["tmp"] := Dir 493;
             ["data"] := Dir 493;
             ["data"; "a.txt"] := File 420 [1; 2; 3; 4; 5];
             ["data"; "sub"] := Dir 493;
             ["data"; "sub"; "b.txt"] := File 420 [6; 7] ]}
          []
          (mkDB {[ "p1" := mkPolicyRow "my docs" "/data" "backups" "" 2 true false "pw" 5 5 ]}
                ∅ ∅ ∅)
          [] ∅ [] [] None [] 100 0 18 0.

(** The pending job. *)
Definition pipeline_job : BackupJob.t :=
  BackupJob.mk "j1" "p1" JobStatusPending 0 None "" 0 0 "" 0.

(** The policy as [getPolicy] returns it in [pipeline_world]. *)
Definition pipeline_policy : BackupPolicy.t :=
  BackupPolicy.mk "p1" "my docs" "/data" "backups" "" 2 true false "pw" 5 5 "".

(** A working copy with one file of five bytes. *)
Definition archive_world : World :=
  set_fs {[ ["tmp"] := Dir 493;
            ["tmp"; "copy"] := Dir 448;
            ["tmp"; "copy"; "a.txt"] := File 438 [1; 2; 3; 4; 5] ]} empty_world.

(** The result record as [performBackup] holds it before the archive step. *)
Definition fresh_result : BackupResult.t := BackupResult.mk "" "" 1 5 0 0 true false 0%Q "".

(** The result record after the archive step in [archive_world]. *)
Definition archived_result : BackupResult.t :=
  match (@archive_step toyLib "/tmp/copy" fresh_result archive_world).1 with
  | inr (_, res) => res
  | inl _ => fresh_result
  end.

(** A catalog call that fails: the policy is read, the history query of
    the retention engine is refused. *)
Definition refusing_world : World := set_db_faults [false; true] pipeline_world.

(** The result record after the upload in [refusing_world]. *)
Definition uploaded_result : BackupResult.t :=
  match (@backup_and_upload toyLib S3Storage.provider pipeline_policy "/tmp/backup-0"
           (os.MkdirTemp "backup-"
              (log LevelInfo "backup started" None (getPolicy "p1" refusing_world).2).2).2).1 with
  | inr res => res
  | inl _ => fresh_result
  end.

(** * Vocabulary of the properties of the further code *)

(** A completed job whose policy is not in the catalog. *)
Definition orphaned (d : DB) (id : string) : Prop :=
  exists row, backup_jobs d !! id = Some row /\
              ~ is_Some (backup_policies d !! j_policy_id row) /\
              j_status row = JobStatusCompleted.

(** What the deletion of backups can do to the catalog and nothing else
    can: the policies stay; a job row stays, at most its status becomes
    [deleted]; result and file rows stay or go, none is added or
    changed. *)
Definition only_backups_deleted (d d' : DB) : Prop :=
  backup_policies d' = backup_policies d /\
  (forall id, backup_jobs d' !! id = backup_jobs d !! id \/
              backup_jobs d' !! id = mark_deleted <$> backup_jobs d !! id) /\
  (forall k row, backup_results d' !! k = Some row -> backup_results d !! k = Some row) /\
  (forall k row, backup_files d' !! k = Some row -> backup_files d !! k = Some row).

(** What each backend of a sequence returns when the call [op] is made
    on one after the other, each in the world the one before left. *)
Fixpoint outcomes {A : Type} (op : StorageProvider -> M A) (storages : list StorageProvider)
  (w : World) : list (result A) :=
  match storages with
  | [] => []
  | storage :: rest => (op storage w).1 :: outcomes op rest (op storage w).2
  end.

(** [k] is a directory [/tmp/backup-*] of the file system, or lies below
    one. *)
Definition temp_backup (fs : gmap (list string) node) (k : list string) : Prop :=
  exists name mode,
    matches_backup_star name = true /\
    fs !! ["tmp"; name] = Some (Dir mode) /\
    ["tmp"; name] `prefix_of` k.

(** The same for the directories named in [names]. *)
Definition below_temp (names : list string) (fs : gmap (list string) node)
  (k : list string) : Prop :=
  exists name mode,
    name ∈ names /\
    fs !! ["tmp"; name] = Some (Dir mode) /\
    ["tmp"; name] `prefix_of` k.

(** The archive entry [createArchive] writes for a visited object: named
    by its path relative to [baseDir]; a directory has no body, a regular
    file has the content found at its path. *)
Definition archived_as (w : World) (baseDir : string) (pi : string * node)
  (entry : tar.Header * list Z) : Prop :=
  exists relPath,
    filepath_Rel baseDir pi.1 = inr relPath /\
    entry.1 = file_header relPath pi.2 /\
    if node_is_dir pi.2 then entry.2 = []
    else exists mode, os.lookup_node (w_fs w) (os.at_path w pi.1) = Some (File mode entry.2).

(** What the stream codec needs of its libraries: PBKDF2 delivers the
    32 bytes asked for, and CFB decryption under the key and vector of the
    encryption gives the plaintext back. *)
Class StreamLaws `{GoLib} `{StreamLib} : Prop := {
  deriveKey_length : forall password, length (deriveKey password) = 32%nat;
  cfb_Decrypt_Encrypt : forall key iv data, cfb_Decrypt key iv (cfb_Encrypt key iv data) = data
}.

(** A small instance: keys padded or cut to the length asked for, and a
    stream cipher that xors every byte with the first byte of the key. *)
Definition toyLib32 : GoLib := {|
  targz_encode := toy_targz_encode;
  targz_decode := toy_targz_decode;
  gcm_Seal := toy_Seal;
  gcm_Open := toy_Open;
  pbkdf2_Key := fun password salt _ n =>
    take (Z.to_nat n) (string_bytes password ++ replicate (Z.to_nat n) 0);
  sha256_hex := fun data => pretty (length data);
  time_Format := fun t => pretty t
|}.

Definition toyStream : StreamLib := {|
  cfb_Encrypt := fun key iv data => (fun b => Z.lxor b (hd 0 key)) <$> data;
  cfb_Decrypt := fun key iv data => (fun b => Z.lxor b (hd 0 key)) <$> data
|}.

(** ** Example worlds *)

(** One policy; a completed job of it, a completed job and a failed job of
    a policy that is gone, each with a result row; the artifacts of the
    two completed jobs in the bucket. *)
Definition orphan_world : World :=
  mkWorld ∅ []
    (mkDB {[ "p1" := mkPolicyRow "docs" "/data" "s3://bucket/docs" "" 1 true false "pw" 5 5 ]}
          {[ "j1" := retention_job "docs/a" 10;
             "j2" := mkJobRow "gone" JobStatusCompleted 20 (Some 21) "" 2 7 "old/x" 20;
             "j3" := mkJobRow "gone" JobStatusFailed 30 None "disk full" 0 0 "" 30 ]}
          {[ "result_j1" := mkResultRow "j1" "docs/a" 2 7 9 1 false true "c1" 1 11;
             "result_j2" := mkResultRow "j2" "old/x" 2 7 9 1 false true "c2" 1 21;
             "result_j3" := mkResultRow "j3" "" 0 0 0 1 false true "" 1 31 ]}
          ∅)
    [] {[ "docs/a" := [1]; "old/x" := [2] ]} [] [] None [] 100 0 18 0.

(** Two failed jobs, created 1000 and 9000 seconds after the epoch; the
    clock at 10000 seconds, in a zone two hours east of UTC. *)
Definition zone_world : World :=
  mkWorld ∅ []
    (mkDB ∅
          {[ "early" := mkJobRow "p1" JobStatusFailed 1000000000000 None "disk full" 0 0 ""
                          1000000000000;
             "late" := mkJobRow "p1" JobStatusFailed 9000000000000 None "disk full" 0 0 ""
                         9000000000000 ]}
          ∅ ∅)
    [] ∅ [] [] None [] 10000000000000 0 18 7200.

(** A tree to walk: a directory [b] beside a file [b.d], whose name is
    the smaller one as a whole path (a dot is before a slash) and the
    larger one as a name. *)
Definition walk_world : World :=
  set_fs {[ ["out"] := Dir 493;
            ["src"] := Dir 493;
            ["src"; "z.txt"] := File 420 [9];
            ["src"; "b"] := Dir 493;
            ["src"; "b"; "y"] := File 420 [2];
            ["src"; "b"; "a"] := File 420 [1];
            ["src"; "a.txt"] := File 420 [5; 5];
            ["src"; "b.d"] := File 420 [3] ]}
         empty_world.

(** A world with a three-byte file and sixteen bytes of randomness. *)
Definition stream_world : World :=
  mkWorld {[ ["data"] := Dir 493;
             ["data"; "secret"] := File 420 [1; 2; 3] ]}
          [] (mkDB ∅ ∅ ∅ ∅) [] ∅ [] [] None
          [10; 11; 12; 13; 14; 15; 16; 17; 18; 19; 20; 21; 22; 23; 24; 25] 0 0 18 0.

(** Under [/tmp]: a backup directory with a file in it, a regular file
    with the name of a backup directory, and another directory. *)
Definition temp_world : World :=
  set_fs {[ ["tmp"] := Dir 511;
            ["tmp"; "backup-17"] := Dir 448;
            ["tmp"; "backup-17"; "f"] := File 420 [1];
            ["tmp"; "backup-notes"] := File 420 [2];
            ["tmp"; "cache"] := Dir 493;
            ["tmp"; "cache"; "backup-3"] := Dir 493 ]}
         empty_world.

(** * Properties *)

(** ** Strings and paths *)

(** The path functions on the inputs of the documentation of
    [path/filepath] and on those used below. *)
Example filepath_Clean_examples :
  filepath.Clean "a/../../b" = "../b" /\
  filepath.Clean "" = "." /\
  filepath.Clean "/../a//b/./c/.." = "/a/b" /\
  filepath.Clean ".." = ".." /\
  filepath.Clean "./a/" = "a".
Proof. repeat split; vm_compute; reflexivity. Qed.

Example filepath_Join_examples :
  filepath.Join [".."; "../evil"] = "../../evil" /\
  filepath.Join ["/srv"; "../evil"] = "/evil" /\
  filepath.Join ["/srv"; "a/b"] = "/srv/a/b" /\
  filepath.Join [""; "a"] = "a".
Proof. repeat split; vm_compute; reflexivity. Qed.

Example filepath_Dir_examples :
  filepath.Dir "/a/b/c" = "/a/b" /\
  filepath.Dir "a" = "." /\
  filepath.Dir "/a" = "/" /\
  filepath.Dir "a/b/" = "a/b".
Proof. repeat split; vm_compute; reflexivity. Qed.

Example filepath_Rel_examples :
  filepath_Rel "/data" "/data/sub/b.txt" = inr "sub/b.txt" /\
  filepath_Rel "/data/x" "/data/sub/b.txt" = inr "../sub/b.txt" /\
  filepath_Rel "/data" "/data" = inr ".".
Proof. repeat split; vm_compute; reflexivity. Qed.

Example filepath_resolve_examples :
  filepath.resolve ["srv"; "restore"] "../../evil" = ["evil"] /\
  filepath.resolve ["srv"; "restore"] "out/f" = ["srv"; "restore"; "out"; "f"] /\
  filepath.resolve ["srv"; "restore"] "/a/b" = ["a"; "b"].
Proof. repeat split; vm_compute; reflexivity. Qed.

(** ** Reasoning about computations in [M] *)

Lemma bind_unfold {A B : Type} (m : M A) (k : A -> M B) (w : World) :
  (m ≫= k) w = match m w with
                | (inl e, w') => (inl e, w')
                | (inr a, w') => k a w'
                end.
Proof. reflexivity. Qed.

Lemma bind_inv {A B : Type} (m : M A) (k : A -> M B) (w w' : World) (r : result B) :
  (m ≫= k) w = (r, w') ->
  (exists e, m w = (inl e, w') /\ r = inl e) \/
  (exists a w1, m w = (inr a, w1) /\ k a w1 = (r, w')).
Proof.
  rewrite bind_unfold. destruct (m w) as [[e|a] w1]; intros E.
  - left. exists e. inversion E. auto.
  - right. eauto.
Qed.

Lemma bind_inr {A B : Type} (m : M A) (k : A -> M B) (w w' : World) (b : B) :
  (m ≫= k) w = (inr b, w') -> exists a w1, m w = (inr a, w1) /\ k a w1 = (inr b, w').
Proof. intros E. apply bind_inv in E as [(e & _ & ?)|?]; [discriminate|assumption]. Qed.

Lemma bind_ok {A B : Type} (m : M A) (k : A -> M B) (w w1 : World) (a : A) :
  m w = (inr a, w1) -> (m ≫= k) w = k a w1.
Proof. intros E. rewrite bind_unfold, E. reflexivity. Qed.

Lemma bind_err {A B : Type} (m : M A) (k : A -> M B) (w w1 : World) (e : error) :
  m w = (inl e, w1) -> (m ≫= k) w = (inl e, w1).
Proof. intros E. rewrite bind_unfold, E. reflexivity. Qed.

Lemma wrap_inv {A : Type} (text : string) (m : M A) (w w' : World) (r : result A) :
  wrap text m w = (r, w') ->
  (exists e, m w = (inl e, w') /\ r = inl (Wrap text e)) \/
  (exists a, m w = (inr a, w') /\ r = inr a).
Proof.
  unfold wrap. destruct (m w) as [[e|a] w1]; intros E; inversion E; subst; eauto.
Qed.

Lemma wrap_inr {A : Type} (text : string) (m : M A) (w w' : World) (a : A) :
  wrap text m w = (inr a, w') -> m w = (inr a, w').
Proof.
  intros E. apply wrap_inv in E as [(e & _ & ?)|(a' & E & ?)]; [discriminate|congruence].
Qed.

Lemma wrap_ok {A : Type} (text : string) (m : M A) (w w' : World) (a : A) :
  m w = (inr a, w') -> wrap text m w = (inr a, w').
Proof. intros E. unfold wrap. rewrite E. reflexivity. Qed.

Lemma try_inv {A : Type} (m : M A) (w w' : World) (r : result (result A)) :
  try m w = (r, w') -> exists r0, m w = (r0, w') /\ r = inr r0.
Proof. unfold try. destruct (m w) as [r0 w1]. intros E. inversion E. eauto. Qed.

Lemma defer_inv {A B : Type} (cleanup : M B) (body : M A) (w w' : World) (r : result A) :
  defer cleanup body w = (r, w') -> exists w1, body w = (r, w1) /\ w' = (cleanup w1).2.
Proof. unfold defer. destruct (body w) as [r0 w1]. intros E. inversion E. eauto. Qed.

(** Inversion of a run, one combinator at a time. *)
Ltac minv :=
  repeat
    match goal with
    | H : ret _ _ = (_, _) |- _ => inversion H; subst; clear H
    | H : mret _ _ = (_, _) |- _ => inversion H; subst; clear H
    | H : fail _ _ = (_, _) |- _ => inversion H; subst; clear H
    | H : get_world _ = (_, _) |- _ => inversion H; subst; clear H
    | H : modify _ _ = (_, _) |- _ => inversion H; subst; clear H
    | H : log _ _ _ _ = (_, _) |- _ => inversion H; subst; clear H
    | H : time_Now _ = (_, _) |- _ => inversion H; subst; clear H
    | H : (_ ≫= _) _ = (inr _, _) |- _ =>
        let a := fresh "a" in
        let w := fresh "w" in
        let E := fresh "E" in
        apply bind_inr in H as (a & w & E & H)
    | H : (_ ≫= _) _ = (_, _) |- _ =>
        let e := fresh "e" in
        let a := fresh "a" in
        let w := fresh "w" in
        let E := fresh "E" in
        apply bind_inv in H as [(e & H & ?)|(a & w & E & H)]; subst
    | H : wrap _ _ _ = (inr _, _) |- _ => apply wrap_inr in H
    | H : wrap _ _ _ = (_, _) |- _ =>
        let e := fresh "e" in
        let a := fresh "a" in
        apply wrap_inv in H as [(e & H & ?)|(a & H & ?)]; subst
    | H : try _ _ = (_, _) |- _ =>
        let r := fresh "r" in
        apply try_inv in H as (r & H & ?); subst
    | H : defer _ _ _ = (_, _) |- _ =>
        let w := fresh "w" in
        apply defer_inv in H as (w & H & ?); subst
    | H : inl _ = inl _ |- _ => inversion H; subst; clear H
    | H : inr _ = inr _ |- _ => inversion H; subst; clear H
    | H : inl _ = inr _ |- _ => discriminate H
    | H : inr _ = inl _ |- _ => discriminate H
    end.

(** ** Catalog *)

Lemma db_call_inv (w w' : World) (r : result unit) :
  db_call w = (r, w') -> exists faults, w' = set_db_faults faults w.
Proof.
  unfold db_call. destruct w as [f c d faults o n l ca ra cl t]. cbn.
  destruct faults as [|[] rest]; intros E; inversion E; subst; eexists; reflexivity.
Qed.

Ltac db_steps :=
  repeat
    match goal with
    | H : db_call _ = (_, _) |- _ =>
        let faults := fresh "faults" in
        apply db_call_inv in H as [faults ->]
    end.

Lemma db_Query_inv {A : Type} (query : DB -> A) (w w' : World) (r : result A) :
  db_Query query w = (r, w') ->
  (exists faults, w' = set_db_faults faults w) /\ forall a, r = inr a -> a = query (w_db w).
Proof.
  unfold db_Query. intros E. minv; db_steps; split; eauto; intros; minv; try discriminate.
  reflexivity.
Qed.

(** C10: the policies listed by [getAllPolicies] carry no passphrase,
    whatever [encryption_password] their rows hold; these are the policies
    [applyRetentionPolicies] hands to [cleanupOldBackups]. *)
Theorem getAllPolicies_no_password (w w' : World) (policies : list BackupPolicy.t) :
  getAllPolicies w = (inr policies, w') ->
  Forall (fun policy => BackupPolicy.EncryptionPassword policy = "") policies.
Proof.
  unfold getAllPolicies. intros E. minv.
  apply Forall_forall. intros policy Hin.
  apply list_elem_of_fmap in Hin as [[id row] [-> _]]. reflexivity.
Qed.

Lemma job_in_policy_after_delete (d : DB) (jobs : gmap string JobRow) (policyID jobID : string) :
  job_in_policy
    (set_jobs (filter (fun kv => j_policy_id kv.2 <> policyID) jobs) d) policyID jobID = false.
Proof.
  unfold job_in_policy. cbn.
  destruct (filter _ jobs !! jobID) as [row|] eqn:E; [|reflexivity].
  apply map_lookup_filter_Some in E as [_ Hne]. cbn in Hne.
  apply bool_decide_eq_false. exact Hne.
Qed.

Lemma deletePolicy_statements (d : DB) (policyID : string) :
  no_reference d
    (sql_delete_policy policyID
       (sql_delete_jobs_of_policy policyID
          (sql_delete_results_of_policy policyID
             (sql_delete_files_of_policy policyID d))))
    policyID.
Proof.
  unfold no_reference. cbn. split; [apply lookup_delete_eq|]. split; [|split].
  - intros id row E. apply map_lookup_filter_Some in E as [_ Hne]. exact Hne.
  - intros id row E. apply map_lookup_filter_Some in E as [_ Hf]. split; [exact Hf|].
    apply (job_in_policy_after_delete d).
  - intros id row E. apply map_lookup_filter_Some in E as [_ Hf]. split; [exact Hf|].
    apply (job_in_policy_after_delete d).
Qed.

Lemma deletePolicy_statements_frame (d : DB) (policyID : string) :
  others_kept d
    (sql_delete_policy policyID
       (sql_delete_jobs_of_policy policyID
          (sql_delete_results_of_policy policyID
             (sql_delete_files_of_policy policyID d))))
    policyID.
Proof.
  unfold others_kept. cbn. split; [|split; [|split]].
  - intros id Hne. apply lookup_delete_ne. congruence.
  - intros id row E Hne. apply map_lookup_filter_Some. auto.
  - intros id row E Hf. apply map_lookup_filter_Some. auto.
  - intros id row E Hf. apply map_lookup_filter_Some. auto.
Qed.

(** C5: [deletePolicy] is one atomic unit.  Whatever call to the database
    fails (begin, one of the four statements, commit), the catalog is
    what it was; when the call returns without error, no row of
    [backup_jobs], [backup_results] or [backup_files] refers to the policy
    and the policy row is gone, and the rows of the other policies are
    all there.  It returns without error exactly when none of its six
    calls to the database fails. *)
Theorem deletePolicy_atomic (policyID : string) (w : World) :
  match deletePolicy policyID w with
  | (inl _, w') => w_db w' = w_db w
  | (inr _, w') =>
      no_reference (w_db w) (w_db w') policyID /\ others_kept (w_db w) (w_db w') policyID
  end /\
  ((deletePolicy policyID w).1 = inr tt <->
   Forall (fun fault => fault = false) (take 6 (w_db_faults w))).
Proof.
  split.
  - destruct (deletePolicy policyID w) as [[e|[]] w'] eqn:E;
      unfold deletePolicy, BeginTx, tx_Exec, tx_Commit, tx_Rollback in E;
      minv; db_steps; cbn; try reflexivity.
    split; [apply deletePolicy_statements|apply deletePolicy_statements_frame].
  - destruct w as [fs cwd d faults objects net lg cancel random clock temp umask zone].
    cbn [w_db_faults].
    do 6 (try destruct faults as [|[] faults]); cbn; split; intros Hrun;
      try reflexivity; try discriminate Hrun;
      repeat match goal with
             | |- Forall _ [] => constructor
             | |- Forall _ (take 0 _) => rewrite take_0; constructor
             | |- Forall _ (_ :: _) => constructor; [reflexivity|]
             | H : Forall _ (_ :: _) |- _ => apply Forall_cons in H as [? H]
             end;
      try discriminate.
Qed.

(** A policy with three jobs and two results: deleted as a whole, or, when
    the third statement is refused, not at all. *)
Lemma deletePolicy_atomic_witness :
  (exists w',
     deletePolicy "p1" retention_world = (inr tt, w') /\
     backup_policies (w_db w') !! "p1" = None /\
     backup_jobs (w_db w') !! "j1" = None /\
     backup_jobs (w_db w') !! "j3" = None /\
     backup_results (w_db w') !! "result_j1" = None) /\
  (exists e w',
     deletePolicy "p1" (set_db_faults [false; false; false; true] retention_world) = (inl e, w') /\
     w_db w' = w_db retention_world).
Proof.
  split.
  - destruct (deletePolicy_atomic "p1" retention_world) as [_ [_ Hnil]].
    assert (Hok : (deletePolicy "p1" retention_world).1 = inr tt)
      by (apply Hnil; vm_compute; constructor).
    exists (deletePolicy "p1" retention_world).2. split.
    + destruct (deletePolicy "p1" retention_world) as [r w']. cbn in Hok. rewrite Hok.
      reflexivity.
    + repeat split; vm_compute; reflexivity.
  - destruct (deletePolicy_atomic "p1"
                (set_db_faults [false; false; false; true] retention_world)) as [Hatomic _].
    destruct (deletePolicy "p1" (set_db_faults [false; false; false; true] retention_world))
      as [[e|[]] w'] eqn:Hrun.
    + exists e, w'. split; [reflexivity|exact Hatomic].
    + vm_compute in Hrun. discriminate Hrun.
Defined.

(** ** Storage backends *)

(** The error for a name that names nothing is the not-exist error, or
    the not-a-directory error when the path runs through a regular file. *)
Lemma resolve_error_cases (fs : gmap (list string) node) (done todo : list string) :
  os.resolve_error fs done todo = ENOENT \/
  os.resolve_error fs done todo = ENOTDIR /\
  exists p mode data,
    p <> [] /\ p `prefix_of` (done ++ todo) /\ p <> done ++ todo /\
    fs !! p = Some (File mode data).
Proof.
  revert done. induction todo as [|name todo IH]; intros done; cbn [os.resolve_error].
  - left. reflexivity.
  - replace (done ++ name :: todo) with ((done ++ [name]) ++ todo)
      by (rewrite <- app_assoc; reflexivity).
    destruct (fs !! (done ++ [name])) as [[mode data|mode]|] eqn:Hlook.
    + destruct todo as [|next todo]; [apply IH|].
      right. split; [reflexivity|]. exists (done ++ [name]), mode, data.
      split; [destruct done; discriminate|].
      split; [apply prefix_app_r; reflexivity|]. split; [|exact Hlook].
      intros Heq. apply (f_equal length) in Heq. rewrite !length_app in Heq. cbn in Heq. lia.
    + destruct todo; apply IH.
    + left. destruct todo; reflexivity.
Qed.

Lemma missing_error_cases (fs : gmap (list string) node) (k : list string) :
  os.missing_error fs k = ENOENT \/ os.missing_error fs k = ENOTDIR /\ through_file fs k.
Proof. apply (resolve_error_cases fs [] k). Qed.

(** C9, as found in the code: [LocalStorage.Delete] is [os.Remove] on the
    joined path.  On an absent object it returns an error and leaves the
    world as it is: the not-exist error, or the not-a-directory error, the
    latter only when the path runs through a regular file.  On a regular
    file it removes the file, and the same call repeated then fails in
    that way. *)
Theorem LocalStorage_Delete_absent_is_error (basePath remotePath : string) (w : World) :
  let k := os.at_path w (filepath.Join [basePath; remotePath]) in
  (os.lookup_node (w_fs w) k = None ->
   exists e,
     LocalStorage.Delete basePath remotePath w = (inl e, w) /\
     (e = ENOENT \/ e = ENOTDIR /\ through_file (w_fs w) k)) /\
  (forall mode data, os.lookup_node (w_fs w) k = Some (File mode data) ->
   exists w' e,
     LocalStorage.Delete basePath remotePath w = (inr tt, w') /\
     w_fs w' = delete k (w_fs w) /\
     LocalStorage.Delete basePath remotePath w' = (inl e, w') /\
     (e = ENOENT \/ e = ENOTDIR /\ through_file (w_fs w') k)).
Proof.
  cbn zeta. unfold LocalStorage.Delete, os.Remove. cbv zeta.
  set (k := os.at_path w (filepath.Join [basePath; remotePath])). split.
  - intros ->. eexists. split; [reflexivity|]. apply missing_error_cases.
  - intros mode data Hfile. rewrite Hfile. eexists _, _. split; [reflexivity|].
    split; [reflexivity|].
    change (os.at_path (set_fs (delete k (w_fs w)) w) (filepath.Join [basePath; remotePath]))
      with k.
    cbn [w_fs set_fs].
    assert (Hgone : os.lookup_node (delete k (w_fs w)) k = None).
    { destruct k; [discriminate Hfile|]. cbn. apply lookup_delete_eq. }
    rewrite Hgone. split; [reflexivity|]. apply missing_error_cases.
Qed.

(** C9, counterexample: deleting an object that is not in the local
    storage is an error. *)
Lemma LocalStorage_Delete_not_idempotent :
  ~ (forall (basePath remotePath : string) (w : World),
       w_fs w !! os.at_path w (filepath.Join [basePath; remotePath]) = None ->
       (LocalStorage.Delete basePath remotePath w).1 = inr tt).
Proof.
  intros Hidem. specialize (Hidem "/store" "backups/a.tar.gz" empty_world eq_refl).
  vm_compute in Hidem. discriminate Hidem.
Qed.

Lemma LocalStorage_Delete_witness :
  (exists w', LocalStorage.Delete "/store" "a.tar.gz"
                (set_fs {[ ["store"] := Dir 493; ["store"; "a.tar.gz"] := File 420 [1; 2] ]}
                   empty_world)
              = (inr tt, w') /\
              LocalStorage.Delete "/store" "a.tar.gz" w' = (inl ENOENT, w')) /\
  LocalStorage.Delete "/store" "a.tar.gz/inner"
    (set_fs {[ ["store"] := Dir 493; ["store"; "a.tar.gz"] := File 420 [1; 2] ]} empty_world)
  = (inl ENOTDIR,
     set_fs {[ ["store"] := Dir 493; ["store"; "a.tar.gz"] := File 420 [1; 2] ]} empty_world).
Proof.
  split.
  - destruct (LocalStorage_Delete_absent_is_error "/store" "a.tar.gz"
                (set_fs {[ ["store"] := Dir 493; ["store"; "a.tar.gz"] := File 420 [1; 2] ]}
                   empty_world))
      as [_ Hpresent].
    destruct (Hpresent 420 [1; 2]) as (w' & e & H1 & Hfs & H2 & _).
    + vm_compute. reflexivity.
    + exists w'. split; [exact H1|].
      assert (w' = (LocalStorage.Delete "/store" "a.tar.gz"
                      (set_fs {[ ["store"] := Dir 493;
                                 ["store"; "a.tar.gz"] := File 420 [1; 2] ]}
                         empty_world)).2) as -> by (rewrite H1; reflexivity).
      vm_compute. reflexivity.
  - destruct (LocalStorage_Delete_absent_is_error "/store" "a.tar.gz/inner"
                (set_fs {[ ["store"] := Dir 493; ["store"; "a.tar.gz"] := File 420 [1; 2] ]}
                   empty_world))
      as [Habsent _].
    destruct Habsent as (e & Hrun & _); [vm_compute; reflexivity|].
    assert (He : @inl error unit e
                 = (LocalStorage.Delete "/store" "a.tar.gz/inner"
                      (set_fs {[ ["store"] := Dir 493;
                                 ["store"; "a.tar.gz"] := File 420 [1; 2] ]}
                         empty_world)).1)
      by (rewrite Hrun; reflexivity).
    vm_compute in He. injection He as ->. exact Hrun.
Defined.

(** ** Archive codec *)

(** Opening an existing file with [O_CREATE|O_WRONLY], the flags of
    [extractArchive], and writing [body] to it: the file keeps its mode,
    and keeps its old bytes beyond the length of [body]. *)
Lemma OpenFile_no_truncate (name : string) (perm mode : Z) (old body : list Z) (w : World) :
  w_fs w !! os.at_path w name = Some (File mode old) ->
  os.at_path w name <> [] ->
  (outFile ← os.OpenFile name (Z.lor os.O_CREATE os.O_WRONLY) perm; os.Write outFile body) w
  = (inr (os.mkfile (os.at_path w name) (length body)),
     set_fs (<[os.at_path w name := File mode (body ++ drop (length body) old)]> (w_fs w)) w).
Proof.
  intros Hfile Hne. rewrite bind_unfold. unfold os.OpenFile, os.lookup_node.
  destruct (os.at_path w name) as [|x k] eqn:Hk; [congruence|].
  rewrite Hfile.
  replace (os.has_flag (Z.lor os.O_CREATE os.O_WRONLY) os.O_TRUNC) with false by reflexivity.
  unfold os.Write, os.lookup_node. cbn. rewrite Hfile.
  unfold os.overwrite. cbn. reflexivity.
Qed.

(** C8, the code at the failing input: extraction succeeds and the
    destination file is the entry's byte followed by the old tail, under
    the old mode. *)
Theorem extractArchive_keeps_old_tail :
  (@extractArchive toyLib "/a.tgz" "/srv" overwrite_world).1 = inr tt /\
  w_fs (@extractArchive toyLib "/a.tgz" "/srv" overwrite_world).2 !! ["srv"; "f"]
  = Some (File 384 [7; 9; 9]).
Proof. split; vm_compute; reflexivity. Qed.

(** C4, the code at the failing input: with the destination root [..]
    (that is [/srv]) the entry [../evil] passes the prefix test, the
    extraction succeeds, and the file is written to [/evil], which is not
    below [/srv]. *)
Theorem extractArchive_escapes_dotdot_root :
  (@extractArchive toyLib "a.tgz" ".." slip_world).1 = inr tt /\
  w_fs slip_world !! ["evil"] = None /\
  w_fs (@extractArchive toyLib "a.tgz" ".." slip_world).2 !! ["evil"] = Some (File 420 [1; 2; 3]) /\
  filepath.resolve (w_cwd slip_world) ".." = ["srv"] /\
  ~ below (filepath.resolve (w_cwd slip_world) "..") ["evil"].
Proof.
  split; [vm_compute; reflexivity|].
  split; [vm_compute; reflexivity|].
  split; [vm_compute; reflexivity|].
  split; [vm_compute; reflexivity|].
  intros [[rest Hpre] _]. vm_compute in Hpre. discriminate Hpre.
Qed.

(** ** What a computation leaves alone *)

Lemma keeps_run {A X : Type} (field : World -> X) (m : M A) (w w' : World) (r : result A) :
  keeps field m -> m w = (r, w') -> field w' = field w.
Proof. intros Hk E. specialize (Hk w). rewrite E in Hk. exact Hk. Qed.

Lemma keeps_ret {A X : Type} (field : World -> X) (a : A) : keeps field (ret a).
Proof. intros w. reflexivity. Qed.

Lemma keeps_mret {A X : Type} (field : World -> X) (a : A) : keeps field (mret a).
Proof. intros w. reflexivity. Qed.

Lemma keeps_fail {A X : Type} (field : World -> X) (e : error) : keeps field (@fail A e).
Proof. intros w. reflexivity. Qed.

Lemma keeps_get_world {X : Type} (field : World -> X) : keeps field get_world.
Proof. intros w. reflexivity. Qed.

Lemma keeps_time_Now {X : Type} (field : World -> X) : keeps field time_Now.
Proof. intros w. reflexivity. Qed.

Lemma keeps_bind {A B X : Type} (field : World -> X) (m : M A) (k : A -> M B) :
  keeps field m -> (forall a, keeps field (k a)) -> keeps field (m ≫= k).
Proof.
  intros Hm Hk w. rewrite bind_unfold. specialize (Hm w).
  destruct (m w) as [[e|a] w1]; cbn in *; [exact Hm|].
  rewrite (Hk a w1). exact Hm.
Qed.

Lemma keeps_wrap {A X : Type} (field : World -> X) (text : string) (m : M A) :
  keeps field m -> keeps field (wrap text m).
Proof. intros Hm w. unfold wrap. specialize (Hm w). destruct (m w) as [[e|a] w1]; exact Hm. Qed.

Lemma keeps_try {A X : Type} (field : World -> X) (m : M A) :
  keeps field m -> keeps field (try m).
Proof. intros Hm w. unfold try. specialize (Hm w). destruct (m w) as [r w1]. exact Hm. Qed.

Lemma keeps_defer {A B X : Type} (field : World -> X) (cleanup : M B) (body : M A) :
  keeps field cleanup -> keeps field body -> keeps field (defer cleanup body).
Proof.
  intros Hc Hb w. unfold defer. specialize (Hb w). destruct (body w) as [r w1]. cbn in *.
  rewrite (Hc w1). exact Hb.
Qed.

Create HintDb keeps discriminated.
#[export] Hint Resolve keeps_ret keeps_mret keeps_fail keeps_get_world keeps_time_Now
  keeps_wrap keeps_try keeps_defer : keeps.
#[export] Hint Extern 2 (keeps _ (_ ≫= _)) => apply keeps_bind; [|intros ?] : keeps.
#[export] Hint Extern 2 (keeps _ (match ?x with _ => _ end)) => destruct x : keeps.
#[export] Hint Extern 2 (keeps _ (if ?x then _ else _)) => destruct x : keeps.
#[export] Hint Extern 3 (keeps _ (let '(_, _) := ?x in _)) => destruct x : keeps.

(** A primitive that only rewrites other fields. *)
Ltac keeps_prim op :=
  let w := fresh "w" in
  intros w; unfold op; repeat case_match; reflexivity.

Lemma keeps_cwd_log l msg e : keeps w_cwd (log l msg e).
Proof. keeps_prim log. Qed.
Lemma keeps_cwd_ctx_check : keeps w_cwd ctx_check.
Proof. keeps_prim ctx_check. Qed.
Lemma keeps_cwd_OpenFile name flag perm : keeps w_cwd (os.OpenFile name flag perm).
Proof. keeps_prim os.OpenFile. Qed.
Lemma keeps_cwd_Open name : keeps w_cwd (os.Open name).
Proof. apply keeps_cwd_OpenFile. Qed.
Lemma keeps_cwd_Create name : keeps w_cwd (os.Create name).
Proof. apply keeps_cwd_OpenFile. Qed.
Lemma keeps_cwd_ReadAll f : keeps w_cwd (os.ReadAll f).
Proof. keeps_prim os.ReadAll. Qed.
Lemma keeps_cwd_Write f data : keeps w_cwd (os.Write f data).
Proof. keeps_prim os.Write. Qed.
#[export] Hint Resolve keeps_cwd_log keeps_cwd_ctx_check keeps_cwd_OpenFile keeps_cwd_Open
  keeps_cwd_Create keeps_cwd_ReadAll keeps_cwd_Write : keeps.

Section ArchiveFacts.
Context `{GoLib}.

Lemma keeps_cwd_archive_walk baseDir archivePath todo acc :
  keeps w_cwd (archive_walk baseDir archivePath todo acc).
Proof.
  revert acc. induction todo as [|[filePath info] todo IH]; intros acc; cbn [archive_walk];
    auto 10 with keeps.
Qed.
#[local] Hint Resolve keeps_cwd_archive_walk : keeps.

Lemma keeps_cwd_createArchive sourcePath archivePath :
  keeps w_cwd (createArchive sourcePath archivePath).
Proof. unfold createArchive. auto 12 with keeps. Qed.

End ArchiveFacts.

Lemma OpenFile_key (name : string) (flag perm : Z) (w w' : World) (f : os.file) :
  os.OpenFile name flag perm w = (inr f, w') -> os.fd_key f = os.at_path w name.
Proof.
  unfold os.OpenFile. intros E. repeat case_match; inversion E; reflexivity.
Qed.

Lemma Write_inr (f f' : os.file) (data : list Z) (w w' : World) :
  os.Write f data w = (inr f', w') ->
  exists mode content, os.lookup_node (w_fs w') (os.fd_key f) = Some (File mode content).
Proof.
  unfold os.Write, os.lookup_node. intros E.
  destruct (os.fd_key f) as [|x k] eqn:Hk; [discriminate E|].
  destruct (w_fs w !! (x :: k)) as [[mode old|mode]|] eqn:Hfile; inversion E; subst.
  cbn. rewrite lookup_insert_eq. eauto.
Qed.

Section ArchiveRatio.
Context `{GoLib}.

(** After [createArchive] has returned without error, [archivePath]
    names a regular file. *)
Lemma createArchive_leaves_file (sourcePath archivePath : string) (w w' : World) :
  createArchive sourcePath archivePath w = (inr tt, w') ->
  exists mode content,
    os.lookup_node (w_fs w') (os.at_path w' archivePath) = Some (File mode content).
Proof.
  intros E. pose proof (keeps_run w_cwd _ _ _ _ (keeps_cwd_createArchive _ _) E) as Hcwd.
  unfold createArchive in E. minv.
  match goal with
  | Hc : os.Create _ _ = (inr _, _), Hw : os.Write _ _ _ = (inr _, _) |- _ =>
      pose proof (OpenFile_key _ _ _ _ _ _ Hc) as Hkey;
      apply Write_inr in Hw as (mode & content & Hfile)
  end.
  exists mode, content. cbn [w_fs set_log].
  unfold os.at_path in *. cbn [w_cwd set_log] in Hcwd |- *.
  rewrite Hcwd, <- Hkey. exact Hfile.
Qed.

(** The two sizes [archive_step] divides are both the size of the archive
    file: [getDirectorySize] is called on [backupPath] after it was set to
    [archivePath], and a walk over a regular file visits that file only. *)
Lemma archive_sizes_coincide (archivePath : string) (w : World) (mode : Z) (content : list Z) :
  os.lookup_node (w_fs w) (os.at_path w archivePath) = Some (File mode content) ->
  getDirectorySize archivePath w = (inr (Z.of_nat (length content)), w) /\
  getFileSize archivePath w = (inr (Z.of_nat (length content)), w).
Proof.
  intros Hfile. split.
  - unfold getDirectorySize, get_world. rewrite bind_unfold. unfold walk_entries.
    rewrite Hfile. reflexivity.
  - unfold getFileSize, wrap, os.Stat. rewrite bind_unfold, Hfile. reflexivity.
Qed.

(** C7, what the code computes: whenever the archiving step succeeds, the
    compression ratio it stores is the size of the archive divided by
    itself, and the compressed size is that same size; the size of the
    working copy does not enter. *)
Theorem archive_step_ratio (backupPath : string) (res res' : BackupResult.t)
  (w w' : World) (path : string) :
  archive_step backupPath res w = (inr (path, res'), w') ->
  path = backupPath +:+ ".tar.gz" /\
  exists mode content,
    os.lookup_node (w_fs w') (os.at_path w' path) = Some (File mode content) /\
    BackupResult.CompressedSize res' = Z.of_nat (length content) /\
    BackupResult.CompressionRatio res'
    = float64_div (Z.of_nat (length content)) (Z.of_nat (length content)).
Proof.
  unfold archive_step. intros E. minv.
  match goal with
  | Hc : createArchive _ _ _ = (inr ?u, _) |- _ =>
      destruct u; destruct (createArchive_leaves_file _ _ _ _ Hc) as (mode & content & Hfile)
  end.
  match goal with
  | Hd : getDirectorySize _ _ = _ |- _ =>
      rewrite (proj1 (archive_sizes_coincide _ _ _ _ Hfile)) in Hd; inversion Hd; subst; clear Hd
  end.
  cbv beta iota in *. minv.
  match goal with
  | Hs : getFileSize _ _ = _ |- _ =>
      rewrite (proj2 (archive_sizes_coincide _ _ _ _ Hfile)) in Hs; inversion Hs; subst; clear Hs
  end.
  cbv beta iota in *. minv. split; [reflexivity|]. exists mode, content. auto.
Qed.

End ArchiveRatio.

(** ** Pipeline orchestrator *)

Section PipelineFacts.
Context `{GoLib}.
Variable storage : StorageProvider.

(** The end of [performBackup] returns the result it was given, whatever
    the retention engine returned, and logs the engine's error. *)
Lemma cleanup_and_return_ok (policy : BackupPolicy.t) (res : BackupResult.t) (w : World) :
  exists w', cleanup_and_return storage policy res w = (inr res, w') /\
             w_fs w' = w_fs (cleanupOldBackups storage policy w).2 /\
             forall e, (cleanupOldBackups storage policy w).1 = inl e ->
                       mkLog LevelError "error cleaning up old backups" (Some e) ∈ w_log w'.
Proof.
  unfold cleanup_and_return. rewrite bind_unfold. unfold try.
  destruct (cleanupOldBackups storage policy w) as [[e|[]] w3]; cbn.
  - eexists. split; [reflexivity|]. split; [reflexivity|].
    intros e' E. inversion E; subst. cbn. apply list_elem_of_here.
  - eexists. split; [reflexivity|]. split; [reflexivity|]. intros e' E. discriminate E.
Qed.

(** C6: when the policy is found and the steps up to the upload succeed,
    [ExecuteBackup] returns the result of these steps and a completed job,
    whatever [cleanupOldBackups] returns; the error of the retention
    engine, if any, is in the log at level Error. *)
Theorem ExecuteBackup_cleanup_not_fatal (job : BackupJob.t) (policy : BackupPolicy.t)
  (tempDir : string) (res : BackupResult.t) (w w0 w1 w2 : World) :
  getPolicy (BackupJob.PolicyID job) w = (inr policy, w0) ->
  os.MkdirTemp "backup-" (log LevelInfo "backup started" None w0).2 = (inr tempDir, w1) ->
  backup_and_upload storage policy tempDir w1 = (inr res, w2) ->
  exists job' res' w',
    ExecuteBackup storage job w = (inr (job', inr res'), w') /\
    BackupJob.Status job' = JobStatusCompleted /\
    BackupJob.Error job' = BackupJob.Error job /\
    res' = BackupResult.set_Duration (BackupResult.Duration res')
             (BackupResult.set_JobID (BackupJob.ID job) res) /\
    forall e, (cleanupOldBackups storage policy w2).1 = inl e ->
              mkLog LevelError "error cleaning up old backups" (Some e) ∈ w_log w'.
Proof.
  intros Hpolicy Htemp Hsteps.
  destruct (cleanup_and_return_ok policy res w2) as (w3 & Hend & _ & Hlog).
  cbn [log snd] in Htemp.
  assert (Hperf : performBackup storage policy
                    (set_log (mkLog LevelInfo "backup started" None :: w_log w0) w0)
                  = (inr res, (os.RemoveAll tempDir w3).2)).
  { unfold performBackup. erewrite bind_ok by (apply wrap_ok; exact Htemp).
    unfold defer. erewrite bind_ok by exact Hsteps. rewrite Hend. reflexivity. }
  unfold ExecuteBackup.
  erewrite bind_ok by (unfold try; rewrite Hpolicy; reflexivity). cbv beta iota.
  erewrite bind_ok by reflexivity.
  erewrite bind_ok by reflexivity.
  erewrite bind_ok by reflexivity.
  erewrite bind_ok by (unfold try; rewrite Hperf; reflexivity). cbv beta iota.
  erewrite bind_ok by reflexivity.
  erewrite bind_ok by reflexivity.
  erewrite bind_ok by reflexivity.
  do 3 eexists. split; [reflexivity|]. split; [reflexivity|]. split; [reflexivity|].
  split; [reflexivity|].
  intros e He. cbn [w_log set_log]. apply list_elem_of_further.
  unfold os.RemoveAll. cbn [snd w_log set_fs]. apply Hlog, He.
Qed.

End PipelineFacts.

(** ** Encryption codec *)

Lemma chunkSize_pos : (0 < chunkSize)%nat.
Proof. unfold chunkSize. lia. Qed.

#[global] Opaque chunkSize.

Lemma set_fs_same (w : World) : set_fs (w_fs w) w = w.
Proof. destruct w. reflexivity. Qed.

Lemma overwrite_append (old data : list Z) : os.overwrite (length old) data old = old ++ data.
Proof.
  unfold os.overwrite. rewrite take_ge by lia. rewrite Nat.sub_diag. cbn [replicate app].
  rewrite drop_ge by lia. rewrite app_nil_r. reflexivity.
Qed.

Lemma lookup_node_File (fs : gmap (list string) node) (k : list string) (mode : Z) (data : list Z) :
  os.lookup_node fs k = Some (File mode data) <-> fs !! k = Some (File mode data) /\ k <> [].
Proof.
  unfold os.lookup_node. destruct k; split.
  - discriminate.
  - intros [_ Hne]. congruence.
  - intros E. split; [exact E|discriminate].
  - intros [E _]. exact E.
Qed.

Lemma ctx_check_live (w : World) : w_cancel w = None -> ctx_check w = (inr tt, w).
Proof. unfold ctx_check. intros ->. reflexivity. Qed.

Lemma Read_file (k : list string) (off n : nat) (mode : Z) (data : list Z) (w : World) :
  w_fs w !! k = Some (File mode data) -> k <> [] ->
  os.Read (os.mkfile k off) n w
  = (inr (take n (drop off data), os.mkfile k (off + length (take n (drop off data)))), w).
Proof.
  intros Hf Hne. unfold os.Read. cbn [os.fd_key os.fd_off].
  rewrite (proj2 (lookup_node_File _ _ _ _) (conj Hf Hne)). reflexivity.
Qed.

Lemma Write_file (k : list string) (off : nat) (mode : Z) (old data : list Z) (w : World) :
  w_fs w !! k = Some (File mode old) -> k <> [] ->
  os.Write (os.mkfile k off) data w
  = (inr (os.mkfile k (off + length data)),
     set_fs (<[k := File mode (os.overwrite off data old)]> (w_fs w)) w).
Proof.
  intros Hf Hne. unfold os.Write. cbn [os.fd_key os.fd_off].
  rewrite (proj2 (lookup_node_File _ _ _ _) (conj Hf Hne)). reflexivity.
Qed.

Lemma drop_advance (off n : nat) (data : list Z) :
  drop (off + length (take n (drop off data))) data = drop n (drop off data).
Proof.
  rewrite drop_drop, length_take, length_drop.
  destruct (decide (n <= length data - off)%nat).
  - rewrite Nat.min_l by lia. reflexivity.
  - rewrite Nat.min_r by lia. rewrite !drop_ge by lia. reflexivity.
Qed.

(** The nonce counter: the last byte is incremented, and a byte that
    wraps to zero carries into the byte before it. *)
Example incrementNonce_examples :
  incrementNonce [1; 2; 3] = [1; 2; 4] /\
  incrementNonce [0; 0; 255] = [0; 1; 0] /\
  incrementNonce [255; 255; 255] = [0; 0; 0].
Proof. repeat split; vm_compute; reflexivity. Qed.

Section EncryptionFacts.
Context `{GoLib}.

Lemma sealed_blocks_fuel (fuel fuel' : nat) (key nonce data : list Z) :
  (length data < fuel)%nat -> (length data < fuel')%nat ->
  sealed_blocks fuel key nonce data = sealed_blocks fuel' key nonce data.
Proof.
  revert fuel' nonce data. induction fuel as [|fuel IH]; intros fuel' nonce data Hf Hf'; [lia|].
  destruct fuel' as [|fuel']; [lia|]. cbn [sealed_blocks].
  destruct (take chunkSize data) as [|b chunk] eqn:Hc; [reflexivity|].
  f_equal. pose proof chunkSize_pos.
  assert (data <> []) by (intros ->; rewrite take_nil in Hc; discriminate).
  assert (0 < length data)%nat by (destruct data; [congruence|cbn; lia]).
  apply IH; rewrite length_drop; lia.
Qed.

Lemma sealed_blocks_nil (fuel : nat) (key nonce : list Z) : sealed_blocks fuel key nonce [] = [].
Proof.
  destruct fuel; [reflexivity|]. cbn [sealed_blocks]. rewrite take_nil. reflexivity.
Qed.

(** The block loop of [encryptFile] appends the sealed blocks of the rest
    of the input to the output file and returns no error. *)
Lemma encrypt_loop_spec (fuel : nat) (key nonce : list Z) (kin kout : list string)
  (off : nat) (min mout : Z) (data written : list Z) (w : World) :
  w_cancel w = None ->
  w_fs w !! kin = Some (File min data) -> kin <> [] ->
  w_fs w !! kout = Some (File mout written) -> kout <> [] ->
  kin <> kout ->
  (length data - off < fuel)%nat ->
  encrypt_loop fuel key nonce (os.mkfile kin off) (os.mkfile kout (length written)) w
  = (inr tt,
     set_fs (<[kout := File mout (written ++ sealed_blocks fuel key nonce (drop off data))]>
               (w_fs w)) w).
Proof.
  revert nonce off written w.
  induction fuel as [|fuel IH]; intros nonce off written w Hlive Hin Hin0 Hout Hout0 Hne Hfuel;
    [lia|].
  cbn [encrypt_loop sealed_blocks].
  erewrite bind_ok by (apply ctx_check_live; exact Hlive).
  erewrite bind_ok by (apply wrap_ok; eapply Read_file; eassumption).
  cbv beta iota.
  destruct (take chunkSize (drop off data)) as [|b chunk] eqn:Hc.
  - cbn [length Nat.eqb]. rewrite app_nil_r, insert_id by exact Hout.
    rewrite set_fs_same. reflexivity.
  - cbn [length Nat.eqb]. rewrite <- Hc.
    erewrite bind_ok by (apply wrap_ok; eapply Write_file; eassumption).
    rewrite overwrite_append.
    rewrite <- length_app.
    rewrite IH.
    + cbn [w_fs set_fs]. rewrite insert_insert_eq. rewrite <- app_assoc.
      replace (S (length chunk)) with (length (take chunkSize (drop off data)))
        by (rewrite Hc; reflexivity).
      rewrite drop_advance. reflexivity.
    + exact Hlive.
    + cbn [w_fs set_fs]. rewrite lookup_insert_ne by congruence. exact Hin.
    + exact Hin0.
    + cbn [w_fs set_fs]. apply lookup_insert_eq.
    + exact Hout0.
    + exact Hne.
    + assert (length (take chunkSize (drop off data)) <= length data - off)%nat as Hlen
        by (rewrite length_take, length_drop; lia).
      rewrite Hc in Hlen. cbn [length] in Hlen |- *. lia.
Qed.

End EncryptionFacts.

Lemma Open_inr (name : string) (w w' : World) (f : os.file) :
  os.Open name w = (inr f, w') -> f = os.mkfile (os.at_path w name) 0 /\ w' = w.
Proof.
  unfold os.Open, os.OpenFile.
  replace (os.has_flag os.O_RDONLY os.O_TRUNC) with false by reflexivity.
  replace (os.has_flag os.O_RDONLY os.O_CREATE) with false by reflexivity.
  replace (os.has_flag os.O_RDONLY os.O_WRONLY || os.has_flag os.O_RDONLY os.O_RDWR)
    with false by reflexivity.
  intros E. repeat case_match; inversion E; auto.
Qed.

Lemma Open_file (name : string) (w : World) (mode : Z) (data : list Z) :
  w_fs w !! os.at_path w name = Some (File mode data) -> os.at_path w name <> [] ->
  os.Open name w = (inr (os.mkfile (os.at_path w name) 0), w).
Proof.
  intros Hf Hne. unfold os.Open, os.OpenFile.
  rewrite (proj2 (lookup_node_File _ _ _ _) (conj Hf Hne)).
  replace (os.has_flag os.O_RDONLY os.O_TRUNC) with false by reflexivity.
  reflexivity.
Qed.

Lemma Create_inr (name : string) (w w' : World) (f : os.file) :
  os.Create name w = (inr f, w') ->
  f = os.mkfile (os.at_path w name) 0 /\ os.at_path w name <> [] /\
  exists mode, w' = set_fs (<[os.at_path w name := File mode []]> (w_fs w)) w.
Proof.
  unfold os.Create, os.OpenFile, os.lookup_node.
  replace (os.has_flag (Z.lor os.O_RDWR (Z.lor os.O_CREATE os.O_TRUNC)) os.O_TRUNC)
    with true by reflexivity.
  replace (os.has_flag (Z.lor os.O_RDWR (Z.lor os.O_CREATE os.O_TRUNC)) os.O_CREATE)
    with true by reflexivity.
  replace (os.has_flag (Z.lor os.O_RDWR (Z.lor os.O_CREATE os.O_TRUNC)) os.O_WRONLY
           || os.has_flag (Z.lor os.O_RDWR (Z.lor os.O_CREATE os.O_TRUNC)) os.O_RDWR)
    with true by reflexivity.
  intros E. destruct (os.at_path w name) as [|x k] eqn:Hk; [discriminate E|].
  repeat case_match; inversion E; subst; (split; [reflexivity|]); (split; [discriminate|]);
    eexists; reflexivity.
Qed.

Lemma mkdir_all_files (perm : Z) (done todo : list string)
  (fs fs' : gmap (list string) node) (k : list string) (mode : Z) (data : list Z) :
  os.mkdir_all perm done todo fs = inr fs' ->
  fs !! k = Some (File mode data) <-> fs' !! k = Some (File mode data).
Proof.
  revert done fs. induction todo as [|name todo IH]; intros done fs E; cbn in E.
  - inversion E. reflexivity.
  - destruct (fs !! (done ++ [name])) as [[m d|m]|] eqn:Hk; [discriminate E| |].
    + apply (IH _ _ E).
    + rewrite <- (IH _ _ E). destruct (decide (k = done ++ [name])) as [->|Hne].
      * rewrite lookup_insert_eq, Hk. split; discriminate.
      * rewrite lookup_insert_ne by congruence. reflexivity.
Qed.

Lemma MkdirAll_inr (name : string) (perm : Z) (w w' : World) :
  os.MkdirAll name perm w = (inr tt, w') ->
  exists fs', w' = set_fs fs' w /\
              forall k mode data,
                w_fs w !! k = Some (File mode data) <-> fs' !! k = Some (File mode data).
Proof.
  unfold os.MkdirAll. destruct (os.mkdir_all _ _ _ _) as [e|fs'] eqn:E; intros E'; inversion E'.
  exists fs'. split; [reflexivity|]. intros k mode data. apply (mkdir_all_files _ _ _ _ _ _ _ _ E).
Qed.

Lemma rand_Read_inr (n : nat) (w w' : World) (buf : list Z) :
  rand_Read n w = (inr buf, w') ->
  buf = take n (w_random w) /\ length buf = n /\ w' = set_random (drop n (w_random w)) w.
Proof.
  unfold rand_Read. destruct (n <=? length (w_random w))%nat eqn:Hn; intros E; inversion E.
  apply Nat.leb_le in Hn. rewrite length_take. split; [reflexivity|]. split; [lia|reflexivity].
Qed.

Section EncryptFile.
Context `{GoLib}.

(** What [encryptFile] leaves in the output file when it returns no
    error: the nonce it drew, followed by the sealed blocks of the input. *)
Lemma encryptFile_inr (inputPath outputPath password : string) (w w' : World)
  (min : Z) (data : list Z) :
  encryptFile inputPath outputPath password w = (inr tt, w') ->
  w_cancel w = None ->
  os.lookup_node (w_fs w) (os.at_path w inputPath) = Some (File min data) ->
  os.at_path w inputPath <> os.at_path w outputPath ->
  os.at_path w outputPath <> [] /\
  w_cancel w' = None /\ w_cwd w' = w_cwd w /\
  exists mout,
    w_fs w' !! os.at_path w outputPath
    = Some (File mout (take gcm_NonceSize (w_random w)
                         ++ sealed_blocks (S (length data)) (deriveKey password)
                              (take gcm_NonceSize (w_random w)) data)) /\
    length (take gcm_NonceSize (w_random w)) = gcm_NonceSize.
Proof.
  intros E Hlive Hin Hne. apply lookup_node_File in Hin as [Hin Hin0].
  unfold encryptFile in E. minv.
  repeat match goal with
         | Ho : os.Open _ _ = (inr _, _) |- _ => apply Open_inr in Ho as [-> ->]
         | Hm : os.MkdirAll _ _ _ = (inr ?u, _) |- _ =>
             destruct u; apply MkdirAll_inr in Hm as (fs1 & -> & Hfiles)
         | Hc : os.Create _ _ = (inr _, _) |- _ => apply Create_inr in Hc as (-> & Hout0 & mout & ->)
         | Hr : rand_Read _ _ = (inr _, _) |- _ => apply rand_Read_inr in Hr as (-> & Hlen & ->)
         end.
  unfold os.at_path in *. cbn [w_cwd w_fs w_random set_fs set_random] in *.
  set (kin := filepath.resolve (w_cwd w) inputPath) in *.
  set (kout := filepath.resolve (w_cwd w) outputPath) in *.
  set (nonce := take gcm_NonceSize (w_random w)) in *.
  assert (Hin1 : fs1 !! kin = Some (File min data)) by (apply Hfiles; exact Hin).
  match goal with
  | Hw : os.Write _ nonce _ = _ |- _ =>
      erewrite Write_file in Hw
        by (first [cbn [w_fs set_fs set_random]; apply lookup_insert_eq | exact Hout0]);
      inversion Hw; subst; clear Hw
  end.
  match goal with
  | Hl : encrypt_loop _ _ _ _ _ _ = _ |- _ =>
      change (os.overwrite 0 nonce []) with (os.overwrite (length (@nil Z)) nonce []) in Hl;
      rewrite overwrite_append in Hl; cbn [app Nat.add] in Hl;
      erewrite encrypt_loop_spec with (min := min) (data := data) (mout := mout) in Hl;
      [inversion Hl; subst; clear Hl| | | | | | |]
  end.
  - split; [exact Hout0|]. split; [exact Hlive|]. split; [reflexivity|].
    exists mout. split; [|exact Hlen].
    cbn [w_fs set_fs set_log set_random]. rewrite lookup_insert_eq.
    unfold file_length, os.lookup_node. cbn [os.fd_key w_fs set_fs set_random].
    destruct kin; [congruence|].
    rewrite !lookup_insert_ne by congruence. rewrite Hin1. rewrite drop_0. reflexivity.
  - exact Hlive.
  - cbn [w_fs set_fs set_random]. rewrite !lookup_insert_ne by congruence. exact Hin1.
  - exact Hin0.
  - cbn [w_fs set_fs set_random]. apply lookup_insert_eq.
  - exact Hout0.
  - exact Hne.
  - unfold file_length, os.lookup_node. cbn [os.fd_key w_fs set_fs set_random].
    destruct kin; [congruence|].
    rewrite !lookup_insert_ne by congruence. rewrite Hin1. lia.
Qed.

(** [encryptFile] returns no error when nothing cancels the run, the input
    is a regular file other than the output, the directory of the output
    and the output file itself can be created, and the random source
    delivers a nonce. *)
Lemma encryptFile_returns (inputPath outputPath password : string) (w wa wb : World)
  (fout : os.file) (min : Z) (data : list Z) :
  w_cancel w = None ->
  os.lookup_node (w_fs w) (os.at_path w inputPath) = Some (File min data) ->
  os.at_path w inputPath <> os.at_path w outputPath ->
  os.MkdirAll (filepath.Dir outputPath) 493 w = (inr tt, wa) ->
  os.Create outputPath wa = (inr fout, wb) ->
  (gcm_NonceSize <= length (w_random w))%nat ->
  exists w', encryptFile inputPath outputPath password w = (inr tt, w').
Proof.
  intros Hlive Hin Hne Hmk Hcreate Hrand.
  apply lookup_node_File in Hin as [Hin Hin0].
  destruct (MkdirAll_inr _ _ _ _ Hmk) as (fs1 & -> & Hfiles).
  destruct (Create_inr _ _ _ _ Hcreate) as (-> & Hout0 & mout & ->).
  unfold encryptFile.
  erewrite bind_ok by (apply wrap_ok, Open_file with (mode := min) (data := data); assumption).
  erewrite bind_ok by (apply wrap_ok; exact Hmk).
  erewrite bind_ok by (apply wrap_ok; exact Hcreate).
  unfold os.at_path in *. cbn [w_cwd w_fs set_fs] in *.
  set (kin := filepath.resolve (w_cwd w) inputPath) in *.
  set (kout := filepath.resolve (w_cwd w) outputPath) in *.
  assert (Hin1 : fs1 !! kin = Some (File min data)) by (apply Hfiles; exact Hin).
  erewrite bind_ok.
  2:{ apply wrap_ok. unfold rand_Read. cbn [w_random set_fs].
      rewrite (proj2 (Nat.leb_le _ _) Hrand). reflexivity. }
  erewrite bind_ok.
  2:{ apply wrap_ok. apply Write_file with (mode := mout) (old := []); [|exact Hout0].
      cbn [w_fs set_fs set_random]. apply lookup_insert_eq. }
  erewrite bind_ok by reflexivity.
  change (os.overwrite 0 (take gcm_NonceSize (w_random w)) [])
    with (os.overwrite (length (@nil Z)) (take gcm_NonceSize (w_random w)) []).
  rewrite overwrite_append. cbn [app Nat.add].
  erewrite bind_ok.
  2:{ replace (length (take gcm_NonceSize (w_random w))) with
        (length ([] ++ take gcm_NonceSize (w_random w))) by reflexivity.
      cbn [app].
      apply encrypt_loop_spec with (min := min) (data := data) (mout := mout).
      - exact Hlive.
      - cbn [w_fs set_fs set_random]. rewrite !lookup_insert_ne by congruence. exact Hin1.
      - exact Hin0.
      - cbn [w_fs set_fs set_random]. apply lookup_insert_eq.
      - exact Hout0.
      - exact Hne.
      - unfold file_length, os.lookup_node. cbn [os.fd_key w_fs set_fs set_random].
        destruct kin; [congruence|].
        rewrite !lookup_insert_ne by congruence. rewrite Hin1. lia. }
  eexists. reflexivity.
Qed.

End EncryptFile.

Section DecryptFile.
Context `{Laws : CipherLaws}.

Lemma sealed_blocks_S (fuel : nat) (key nonce data : list Z) :
  sealed_blocks (S fuel) key nonce data
  = match take chunkSize data with
    | [] => []
    | chunk =>
        gcm_Seal key nonce chunk
          ++ sealed_blocks fuel key (incrementNonce nonce) (drop chunkSize data)
    end.
Proof. reflexivity. Qed.

Lemma sealed_blocks_cons (key nonce data : list Z) :
  data <> [] ->
  sealed_blocks (S (length data)) key nonce data
  = gcm_Seal key nonce (take chunkSize data)
      ++ sealed_blocks (S (length (drop chunkSize data))) key (incrementNonce nonce)
           (drop chunkSize data).
Proof.
  intros Hne. pose proof chunkSize_pos as Hpos.
  rewrite (sealed_blocks_S (length data) key nonce data).
  destruct (take chunkSize data) as [|b chunk] eqn:Hc.
  - apply take_nil_inv in Hc as [Hc|Hc]; [lia|congruence].
  - f_equal. destruct data as [|x data]; [congruence|].
    apply sealed_blocks_fuel; rewrite length_drop; cbn [length]; lia.
Qed.

(** One block of the encrypted stream is exactly what [decryptFile] reads
    in one round. *)
Lemma first_block (key nonce data rest : list Z) :
  (length data < chunkSize -> rest = [])%nat ->
  take (chunkSize + gcm_Overhead) (gcm_Seal key nonce (take chunkSize data) ++ rest)
  = gcm_Seal key nonce (take chunkSize data).
Proof.
  intros Hrest. destruct (decide (chunkSize <= length data)%nat) as [Hfull|Hshort].
  - apply take_app_length'. rewrite Seal_length, length_take. lia.
  - rewrite Hrest by lia. rewrite app_nil_r. apply take_ge.
    rewrite Seal_length, length_take. lia.
Qed.

(** The block loop of [decryptFile] on the blocks [encryptFile] wrote,
    under the same key: the plaintext is appended to the output. *)
Lemma decrypt_loop_ok (fuel : nat) (key nonce : list Z) (kin kout : list string)
  (off : nat) (min mout : Z) (stream written data : list Z) (w : World) :
  w_cancel w = None ->
  w_fs w !! kin = Some (File min stream) -> kin <> [] ->
  w_fs w !! kout = Some (File mout written) -> kout <> [] ->
  kin <> kout ->
  drop off stream = sealed_blocks (S (length data)) key nonce data ->
  (length stream - off < fuel)%nat ->
  decrypt_loop fuel key nonce (os.mkfile kin off) (os.mkfile kout (length written)) w
  = (inr tt, set_fs (<[kout := File mout (written ++ data)]> (w_fs w)) w).
Proof.
  revert nonce off written data w.
  induction fuel as [|fuel IH];
    intros nonce off written data w Hlive Hin Hin0 Hout Hout0 Hne Hstream Hfuel; [lia|].
  cbn [decrypt_loop].
  erewrite bind_ok by (apply ctx_check_live; exact Hlive).
  erewrite bind_ok by (apply wrap_ok; eapply Read_file; eassumption).
  cbv beta iota. rewrite Hstream.
  destruct data as [|x data'] eqn:Hdata.
  - rewrite sealed_blocks_nil, take_nil. cbn [length Nat.eqb].
    rewrite app_nil_r, insert_id by exact Hout. rewrite set_fs_same. reflexivity.
  - rewrite <- Hdata in *. assert (data <> []) as Hnonempty by (rewrite Hdata; discriminate).
    clear Hdata. rewrite sealed_blocks_cons by exact Hnonempty.
    rewrite first_block
      by (intros Hshort; rewrite drop_ge by lia; apply sealed_blocks_nil).
    assert (Nat.eqb (length (gcm_Seal key nonce (take chunkSize data))) 0 = false) as ->
      by (apply Nat.eqb_neq; rewrite Seal_length; unfold gcm_Overhead; lia).
    rewrite Open_Seal.
    erewrite bind_ok by (apply wrap_ok; eapply Write_file; eassumption).
    rewrite overwrite_append, <- length_app.
    rewrite IH with (data := drop chunkSize data).
    + cbn [w_fs set_fs]. rewrite insert_insert_eq, <- app_assoc, take_drop. reflexivity.
    + exact Hlive.
    + cbn [w_fs set_fs]. rewrite lookup_insert_ne by congruence. exact Hin.
    + exact Hin0.
    + cbn [w_fs set_fs]. apply lookup_insert_eq.
    + exact Hout0.
    + exact Hne.
    + rewrite <- drop_drop, Hstream, sealed_blocks_cons by exact Hnonempty.
      apply drop_app_length.
    + assert (length (drop off stream)
              = length (gcm_Seal key nonce (take chunkSize data)
                          ++ sealed_blocks (S (length (drop chunkSize data))) key
                               (incrementNonce nonce) (drop chunkSize data)))%nat as Hlen
        by (rewrite Hstream, sealed_blocks_cons by exact Hnonempty; reflexivity).
      rewrite length_drop, length_app in Hlen.
      rewrite Seal_length in Hlen |- *. unfold gcm_Overhead in *. lia.
Qed.

(** Under another key, the loop stops at the first block the cipher
    rejects, with the authentication error, and writes nothing. *)
Lemma decrypt_loop_rejects (fuel : nat) (key key' nonce : list Z) (kin kout : list string)
  (off outoff : nat) (min : Z) (stream data : list Z) (w : World) :
  w_cancel w = None ->
  w_fs w !! kin = Some (File min stream) -> kin <> [] ->
  drop off stream = sealed_blocks (S (length data)) key nonce data ->
  data <> [] ->
  gcm_Open key' nonce (gcm_Seal key nonce (take chunkSize data)) = None ->
  decrypt_loop (S fuel) key' nonce (os.mkfile kin off) (os.mkfile kout outoff) w
  = (inl (Wrap "decrypt block" ErrAuth), w).
Proof.
  intros Hlive Hin Hin0 Hstream Hnonempty Hreject. cbn [decrypt_loop].
  erewrite bind_ok by (apply ctx_check_live; exact Hlive).
  erewrite bind_ok by (apply wrap_ok; eapply Read_file; eassumption).
  cbv beta iota. rewrite Hstream, sealed_blocks_cons by exact Hnonempty.
  rewrite first_block
    by (intros Hshort; rewrite drop_ge by lia; apply sealed_blocks_nil).
  assert (Nat.eqb (length (gcm_Seal key nonce (take chunkSize data))) 0 = false) as ->
    by (apply Nat.eqb_neq; rewrite Seal_length; unfold gcm_Overhead; lia).
  rewrite Hreject. reflexivity.
Qed.

End DecryptFile.

Section RoundTrip.
Context `{Laws : CipherLaws}.

(** [decryptFile] up to its block loop, on a file that holds a nonce and
    a stream of blocks, when the output file can be created. *)
Lemma decryptFile_to_loop (inputPath outputPath password : string) (w wa wb : World)
  (fout : os.file) (mode : Z) (nonce blocks : list Z) :
  w_cancel w = None ->
  w_fs w !! os.at_path w inputPath = Some (File mode (nonce ++ blocks)) ->
  os.at_path w inputPath <> [] ->
  length nonce = gcm_NonceSize ->
  os.at_path w inputPath <> os.at_path w outputPath ->
  os.MkdirAll (filepath.Dir outputPath) 493 w = (inr tt, wa) ->
  os.Create outputPath wa = (inr fout, wb) ->
  os.at_path w outputPath <> [] /\
  w_cancel wb = None /\
  w_fs wb !! os.at_path w inputPath = Some (File mode (nonce ++ blocks)) /\
  (exists mout, w_fs wb !! os.at_path w outputPath = Some (File mout [])) /\
  decryptFile inputPath outputPath password w
  = (decrypt_loop (S (length (nonce ++ blocks))) (deriveKey password) nonce
       (os.mkfile (os.at_path w inputPath) gcm_NonceSize)
       (os.mkfile (os.at_path w outputPath) 0);;
     log LevelInfo "file decrypted" None) wb.
Proof.
  intros Hlive Hin Hin0 Hlen Hne Hmk Hcreate.
  apply MkdirAll_inr in Hmk as Hmk'. destruct Hmk' as (fs1 & -> & Hfiles).
  apply Create_inr in Hcreate as Hc'. destruct Hc' as (-> & Hout0 & mout & ->).
  unfold os.at_path in *. cbn [w_cwd w_fs set_fs] in *.
  set (kin := filepath.resolve (w_cwd w) inputPath) in *.
  set (kout := filepath.resolve (w_cwd w) outputPath) in *.
  assert (Hin1 : (<[kout := File mout []]> fs1) !! kin = Some (File mode (nonce ++ blocks))).
  { rewrite lookup_insert_ne by congruence. apply Hfiles. exact Hin. }
  split; [exact Hout0|]. split; [exact Hlive|]. split; [exact Hin1|].
  split; [exists mout; apply lookup_insert_eq|].
  unfold decryptFile.
  erewrite bind_ok by (apply wrap_ok; eapply Open_file; eassumption).
  erewrite bind_ok by (apply wrap_ok; exact Hmk).
  erewrite bind_ok by (apply wrap_ok; exact Hcreate).
  erewrite bind_ok.
  2:{ apply wrap_ok. unfold read_full. unfold os.at_path. fold kin.
      erewrite bind_ok by (eapply Read_file; [exact Hin1|exact Hin0]).
      cbv beta iota. rewrite drop_0, take_app_length' by (symmetry; exact Hlen).
      rewrite Hlen, Nat.eqb_refl. reflexivity. }
  cbv beta iota. erewrite bind_ok by reflexivity.
  unfold file_length, os.lookup_node. cbn [os.fd_key w_fs set_fs].
  unfold os.at_path. fold kin. fold kout.
  destruct kin as [|x kin']; [congruence|]. rewrite Hin1. reflexivity.
Qed.

(** C3, as the code has it.  A file is encrypted and the result decrypted
    into an output file that can be created.
    - With the same passphrase, decryption returns no error and the output
      file holds exactly the bytes of the input.
    - With any passphrase under whose key the cipher rejects the first
      sealed block, decryption of a non-empty input fails with the
      authentication error and the output file stays empty.
    - An empty input is encrypted to the bare nonce: decryption returns no
      error under every passphrase, and the output file is empty. *)
Theorem encrypt_decrypt_roundtrip (inputPath encPath outPath password other : string)
  (w w1 wa wb : World) (fout : os.file) (min : Z) (data : list Z) :
  w_cancel w = None ->
  os.lookup_node (w_fs w) (os.at_path w inputPath) = Some (File min data) ->
  os.at_path w inputPath <> os.at_path w encPath ->
  os.at_path w encPath <> os.at_path w outPath ->
  encryptFile inputPath encPath password w = (inr tt, w1) ->
  os.MkdirAll (filepath.Dir outPath) 493 w1 = (inr tt, wa) ->
  os.Create outPath wa = (inr fout, wb) ->
  (exists w2 mout,
     decryptFile encPath outPath password w1 = (inr tt, w2) /\
     w_fs w2 !! os.at_path w outPath = Some (File mout data)) /\
  (data <> [] ->
   gcm_Open (deriveKey other) (take gcm_NonceSize (w_random w))
     (gcm_Seal (deriveKey password) (take gcm_NonceSize (w_random w)) (take chunkSize data))
   = None ->
   exists w2 mout,
     decryptFile encPath outPath other w1 = (inl (Wrap "decrypt block" ErrAuth), w2) /\
     w_fs w2 !! os.at_path w outPath = Some (File mout [])) /\
  (data = [] ->
   exists w2 mout,
     decryptFile encPath outPath other w1 = (inr tt, w2) /\
     w_fs w2 !! os.at_path w outPath = Some (File mout [])).
Proof.
  intros Hlive Hin Hne1 Hne2 Henc Hmk Hcreate.
  destruct (encryptFile_inr _ _ _ _ _ _ _ Henc Hlive Hin Hne1)
    as (Henc0 & Hlive1 & Hcwd & menc & Hstream & Hlen).
  assert (Hpath : forall p, os.at_path w1 p = os.at_path w p)
    by (intros p; unfold os.at_path; rewrite Hcwd; reflexivity).
  set (nonce := take gcm_NonceSize (w_random w)) in *.
  assert (Hloop : forall pw,
    os.at_path w outPath <> [] /\
    w_cancel wb = None /\
    w_fs wb !! os.at_path w encPath
    = Some (File menc (nonce ++ sealed_blocks (S (length data)) (deriveKey password) nonce data)) /\
    (exists mout, w_fs wb !! os.at_path w outPath = Some (File mout [])) /\
    decryptFile encPath outPath pw w1
    = (decrypt_loop
         (S (length (nonce ++ sealed_blocks (S (length data)) (deriveKey password) nonce data)))
         (deriveKey pw) nonce
         (os.mkfile (os.at_path w encPath) gcm_NonceSize)
         (os.mkfile (os.at_path w outPath) 0);;
       log LevelInfo "file decrypted" None) wb).
  { intros pw. rewrite <- !Hpath.
    apply decryptFile_to_loop with (mode := menc) (wa := wa) (fout := fout); rewrite ?Hpath;
      assumption. }
  split; [|split].
  - destruct (Hloop password) as (Hout0 & Hliveb & Hencb & (mout & Houtb) & ->).
    erewrite bind_ok.
    2:{ eapply (decrypt_loop_ok _ _ _ _ _ _ _ _ _ [] data); try eassumption.
        - rewrite drop_app_length' by (symmetry; exact Hlen). reflexivity.
        - lia. }
    eexists _, mout. split; [reflexivity|].
    cbn [log w_fs set_fs set_log app]. apply lookup_insert_eq.
  - intros Hnonempty Hreject.
    destruct (Hloop other) as (Hout0 & Hliveb & Hencb & (mout & Houtb) & ->).
    erewrite bind_err.
    2:{ eapply decrypt_loop_rejects; try eassumption.
        rewrite drop_app_length' by (symmetry; exact Hlen). reflexivity. }
    eexists _, mout. split; [reflexivity|]. exact Houtb.
  - intros ->.
    destruct (Hloop other) as (Hout0 & Hliveb & Hencb & (mout & Houtb) & ->).
    erewrite bind_ok.
    2:{ eapply (decrypt_loop_ok _ _ _ _ _ _ _ _ _ [] []); try eassumption.
        - rewrite drop_app_length' by (symmetry; exact Hlen).
          rewrite !sealed_blocks_nil. reflexivity.
        - lia. }
    eexists _, mout. split; [reflexivity|].
    cbn [log w_fs set_fs set_log app]. apply lookup_insert_eq.
Qed.

End RoundTrip.

(** The small cipher satisfies the laws. *)
Lemma toy_tag_length (key nonce : list Z) : length (toy_tag key nonce) = gcm_Overhead.
Proof.
  unfold toy_tag. rewrite length_take, !length_app, length_replicate. lia.
Qed.

Lemma toyLaws : @CipherLaws toyLib.
Proof.
  split; cbn [gcm_Seal gcm_Open toyLib]; unfold toy_Seal, toy_Open; intros key nonce plaintext.
  - rewrite length_app, toy_tag_length. reflexivity.
  - rewrite length_app, toy_tag_length.
    replace (length plaintext + gcm_Overhead - gcm_Overhead)%nat with (length plaintext) by lia.
    rewrite drop_app_length, take_app_length.
    rewrite bool_decide_eq_true_2; [reflexivity|]. split; [lia|reflexivity].
Qed.

Lemma encrypt_decrypt_roundtrip_witness :
  (exists w2 mout,
     @decryptFile toyLib "/data/secret.enc" "/data/secret.out" "right" crypt_world_enc
     = (inr tt, w2) /\
     w_fs w2 !! ["data"; "secret.out"] = Some (File mout [1; 2; 3])) /\
  (exists w2 mout,
     @decryptFile toyLib "/data/secret.enc" "/data/secret.out" "wrong" crypt_world_enc
     = (inl (Wrap "decrypt block" ErrAuth), w2) /\
     w_fs w2 !! ["data"; "secret.out"] = Some (File mout [])).
Proof.
  destruct (@encrypt_decrypt_roundtrip toyLib toyLaws
              "/data/secret" "/data/secret.enc" "/data/secret.out" "right" "wrong"
              crypt_world crypt_world_enc
              (os.MkdirAll "/data" 493 crypt_world_enc).2
              (os.Create "/data/secret.out" (os.MkdirAll "/data" 493 crypt_world_enc).2).2
              (os.mkfile ["data"; "secret.out"] 0) 420 [1; 2; 3])
    as (Hsame & Hother & _); try (vm_compute; reflexivity).
  - vm_compute. congruence.
  - vm_compute. congruence.
  - split; [exact Hsame|]. apply Hother; [discriminate|vm_compute; reflexivity].
Defined.

(** C3, counterexample: the encryption of an empty file is decrypted
    without error under another passphrase. *)
Lemma decryptFile_accepts_any_passphrase_on_empty :
  (@encryptFile toyLib "/data/empty" "/data/empty.enc" "right" crypt_world).1 = inr tt /\
  (@decryptFile toyLib "/data/empty.enc" "/data/empty.out" "wrong"
     (@encryptFile toyLib "/data/empty" "/data/empty.enc" "right" crypt_world).2).1 = inr tt.
Proof. split; vm_compute; reflexivity. Qed.

(** ** Retention engine *)

Lemma db_call_quiet (w : World) : quiet w -> db_call w = (inr tt, w).
Proof. intros [Hd _]. unfold db_call. rewrite Hd. reflexivity. Qed.

Lemma net_call_quiet (w : World) : quiet w -> net_call w = (inr tt, w).
Proof. intros [_ Hn]. unfold net_call. rewrite Hn. reflexivity. Qed.

(** The S3 backend is such a backend. *)
Definition S3Model : StoreModel S3Storage.provider.
Proof.
  refine {| present := fun w p => bool_decide (is_Some (w_objects w !! p)) |}.
  - reflexivity.
  - reflexivity.
  - intros w p Hq. cbn [Exists S3Storage.provider]. unfold S3Storage.Exists.
    erewrite bind_ok by (apply wrap_ok, net_call_quiet; exact Hq). reflexivity.
  - intros w p Hq _. cbn [Delete S3Storage.provider]. unfold S3Storage.Delete.
    erewrite bind_ok by (apply net_call_quiet; exact Hq).
    eexists. split; [reflexivity|]. split; [exact Hq|]. split; [reflexivity|].
    cbn [w_objects set_objects]. split.
    + rewrite lookup_delete_eq. apply bool_decide_eq_false. intros [? ?]. discriminate.
    + intros q Hne. rewrite lookup_delete_ne by congruence. reflexivity.
Defined.

Lemma mark_deleted_idemp (row : JobRow) : mark_deleted (mark_deleted row) = mark_deleted row.
Proof. reflexivity. Qed.

Lemma db_delete_all_jobs (l : list BackupJob.t) (d : DB) (id : string) :
  backup_jobs (db_delete_all l d) !! id
  = if decide (id ∈ BackupJob.ID <$> l) then mark_deleted <$> backup_jobs d !! id
    else backup_jobs d !! id.
Proof.
  revert d. induction l as [|b l IH]; intros d.
  - cbn. case_decide as Hin; [|reflexivity]. apply not_elem_of_nil in Hin. contradiction.
  - cbn [db_delete_all foldl]. fold (db_delete_all l (db_delete_backup (BackupJob.ID b) d)).
    rewrite IH. unfold db_delete_backup at 1 2. cbn [backup_jobs sql_mark_job_deleted set_jobs
      sql_delete_results_of_job sql_delete_files_of_job set_results set_files].
    rewrite fmap_cons.
    destruct (decide (id = BackupJob.ID b)) as [->|Hne].
    + rewrite lookup_alter_eq.
      rewrite (decide_True (P := BackupJob.ID b ∈ BackupJob.ID b :: _))
        by apply list_elem_of_here.
      case_decide; [|reflexivity].
      destruct (backup_jobs d !! BackupJob.ID b); reflexivity.
    + rewrite lookup_alter_ne by congruence.
      case_decide as Hin.
      * rewrite decide_True by (apply list_elem_of_further; exact Hin). reflexivity.
      * rewrite decide_False; [reflexivity|].
        intros Hin'. apply elem_of_cons in Hin' as [?|?]; contradiction.
Qed.

Lemma db_delete_all_results (l : list BackupJob.t) (d : DB) (k : string) (row : ResultRow) :
  backup_results (db_delete_all l d) !! k = Some row
  <-> backup_results d !! k = Some row /\ r_job_id row ∉ BackupJob.ID <$> l.
Proof.
  revert d. induction l as [|b l IH]; intros d.
  - cbn. split; [intros E; split; [exact E|apply not_elem_of_nil]|intros [E _]; exact E].
  - cbn [db_delete_all foldl]. fold (db_delete_all l (db_delete_backup (BackupJob.ID b) d)).
    rewrite IH. unfold db_delete_backup. cbn [backup_results sql_mark_job_deleted set_jobs
      sql_delete_results_of_job sql_delete_files_of_job set_results set_files].
    rewrite map_lookup_filter_Some, fmap_cons, not_elem_of_cons. cbn [snd]. tauto.
Qed.

Lemma db_delete_all_files (l : list BackupJob.t) (d : DB) (k : string) (row : FileRow) :
  backup_files (db_delete_all l d) !! k = Some row
  <-> backup_files d !! k = Some row /\ f_job_id row ∉ BackupJob.ID <$> l.
Proof.
  revert d. induction l as [|b l IH]; intros d.
  - cbn. split; [intros E; split; [exact E|apply not_elem_of_nil]|intros [E _]; exact E].
  - cbn [db_delete_all foldl]. fold (db_delete_all l (db_delete_backup (BackupJob.ID b) d)).
    rewrite IH. unfold db_delete_backup. cbn [backup_files sql_mark_job_deleted set_jobs
      sql_delete_results_of_job sql_delete_files_of_job set_results set_files].
    rewrite map_lookup_filter_Some, fmap_cons, not_elem_of_cons. cbn [snd]. tauto.
Qed.

Lemma db_delete_all_policies (l : list BackupJob.t) (d : DB) :
  backup_policies (db_delete_all l d) = backup_policies d.
Proof.
  revert d. induction l as [|b l IH]; intros d; [reflexivity|].
  cbn [db_delete_all foldl]. fold (db_delete_all l (db_delete_backup (BackupJob.ID b) d)).
  rewrite IH. reflexivity.
Qed.

Section Retention.
Variable storage : StorageProvider.
Variable model : StoreModel storage.

Lemma deleteBackup_ok (backup : BackupJob.t) (w : World) :
  quiet w -> present model w (BackupJob.BackupPath backup) = true ->
  exists w', deleteBackup storage backup w = (inr tt, w') /\ quiet w' /\
             w_db w' = db_delete_backup (BackupJob.ID backup) (w_db w) /\
             present model w' (BackupJob.BackupPath backup) = false /\
             forall q, q <> BackupJob.BackupPath backup -> present model w' q = present model w q.
Proof.
  intros Hq Hp.
  destruct (Delete_present model w _ Hq Hp) as (w1 & Hdel & Hq1 & Hdb & Hgone & Hothers).
  unfold deleteBackup, BeginTx, tx_Exec, tx_Commit, tx_Rollback, defer.
  erewrite bind_ok by (apply wrap_ok; exact Hdel).
  erewrite bind_ok
    by (apply wrap_ok; erewrite bind_ok by (apply db_call_quiet; exact Hq1); reflexivity).
  erewrite bind_ok
    by (apply wrap_ok; erewrite bind_ok by (apply db_call_quiet; exact Hq1); reflexivity).
  erewrite bind_ok
    by (apply wrap_ok; erewrite bind_ok by (apply db_call_quiet; exact Hq1); reflexivity).
  erewrite bind_ok
    by (apply wrap_ok; erewrite bind_ok by (apply db_call_quiet; exact Hq1); reflexivity).
  unfold wrap. erewrite bind_ok by (apply db_call_quiet; exact Hq1).
  cbn [modify snd mret M_ret ret].
  eexists. split; [reflexivity|]. split; [exact Hq1|].
  split; [cbn [w_db set_db]; rewrite Hdb; reflexivity|].
  split; [rewrite present_set_db; exact Hgone|].
  intros q Hne. rewrite present_set_db. apply Hothers, Hne.
Qed.


End Retention.

Lemma getBackupHistory_quiet (policyID : string) (limit : Z) (w : World) :
  quiet w -> getBackupHistory policyID limit w = (inr (history (w_db w) policyID limit), w).
Proof.
  intros Hq. unfold getBackupHistory, db_Query.
  erewrite bind_ok
    by (apply wrap_ok; erewrite bind_ok by (apply db_call_quiet; exact Hq); reflexivity).
  reflexivity.
Qed.

Lemma sql_limit_sublist {A : Type} (n : Z) (rows : list A) : sql_limit n rows `sublist_of` rows.
Proof. unfold sql_limit. destruct (n <? 0); [reflexivity|apply sublist_take]. Qed.

Lemma sql_limit_take {A : Type} (n : Z) (rows : list A) :
  0 <= n -> sql_limit n rows = take (Z.to_nat n) rows.
Proof. intros Hn. unfold sql_limit. destruct (Z.ltb_spec n 0); [lia|reflexivity]. Qed.

Lemma history_row (d : DB) (policyID : string) (limit : Z) (b : BackupJob.t) :
  b ∈ history d policyID limit ->
  exists row, backup_jobs d !! BackupJob.ID b = Some row /\ b = job_of_row (BackupJob.ID b) row.
Proof.
  unfold history. intros Hb. apply list_elem_of_fmap in Hb as ([id row] & -> & Hin).
  apply (sublist_subseteq _ _ (sql_limit_sublist _ _)) in Hin. unfold newest_first in Hin.
  rewrite merge_sort_Permutation in Hin.
  apply elem_of_map_to_list in Hin. apply map_lookup_filter_Some in Hin as [Hrow _].
  exists row. split; [exact Hrow|reflexivity].
Qed.

Lemma history_NoDup (d : DB) (policyID : string) (limit : Z) :
  NoDup (BackupJob.ID <$> history d policyID limit).
Proof.
  unfold history. rewrite <- list_fmap_compose.
  eapply sublist_NoDup; [|apply fmap_sublist, sql_limit_sublist].
  unfold newest_first. rewrite merge_sort_Permutation.
  apply (NoDup_fst_map_to_list (filter _ (backup_jobs d))).
Qed.

#[global] Instance not_older_total {A : Type} (created : A -> Z) : Total (not_older created).
Proof. intros a b. unfold not_older. lia. Qed.

#[global] Instance not_older_trans {A : Type} (created : A -> Z) : Transitive (not_older created).
Proof. intros a b c. unfold not_older. lia. Qed.


Section Listing.
Variable storage : StorageProvider.
Variable model : StoreModel storage.

Lemma confirmed_set_log (lg : list LogEntry) (w : World) (l : list BackupJob.t) :
  confirmed model (set_log lg w) l = confirmed model w l.
Proof.
  unfold confirmed. apply list_filter_iff. intros b. rewrite present_set_log. reflexivity.
Qed.

Lemma verify_backups_quiet (l : list BackupJob.t) (w : World) :
  quiet w ->
  exists lg, verify_backups storage l w = (inr (confirmed model w l), set_log lg w).
Proof.
  revert w. induction l as [|b l IH]; intros w Hq.
  - exists (w_log w). cbn. destruct w; reflexivity.
  - cbn [verify_backups]. unfold backupExists.
    erewrite bind_ok by (unfold try; rewrite (Exists_present model) by exact Hq; reflexivity).
    cbv beta iota. unfold confirmed. rewrite filter_cons.
    destruct (present model w (BackupJob.BackupPath b)) eqn:Hp.
    + destruct (IH w Hq) as (lg & Hrest). erewrite bind_ok by exact Hrest.
      exists lg. rewrite decide_True by reflexivity. reflexivity.
    + erewrite bind_ok by reflexivity.
      destruct (IH (set_log (mkLog LevelWarn "backup not found in storage" None :: w_log w) w) Hq)
        as (lg & Hrest).
      rewrite Hrest. exists lg. rewrite decide_False by discriminate.
      rewrite confirmed_set_log. reflexivity.
Qed.

Lemma getBackupsForPolicy_quiet (policy : BackupPolicy.t) (w : World) :
  quiet w ->
  exists lg,
    getBackupsForPolicy storage policy w
    = (inr (confirmed model w (filter is_successful (history (w_db w) (BackupPolicy.ID policy) 1000))),
       set_log lg w).
Proof.
  intros Hq. unfold getBackupsForPolicy.
  erewrite bind_ok by (apply wrap_ok, getBackupHistory_quiet; exact Hq).
  apply verify_backups_quiet, Hq.
Qed.

End Listing.

Section CountRetention.
Variable storage : StorageProvider.
Variable model : StoreModel storage.





End CountRetention.



(** The local backend is no such backend.  Its [Exists] returns an error
    for a path that runs through a regular file. *)
Lemma LocalStorage_no_StoreModel : StoreModel (LocalStorage.provider "/store") -> False.
Proof.
  intros model.
  pose proof (Exists_present model (set_fs {[ ["store"] := File 420 [] ]} empty_world) "a"
                (conj eq_refl eq_refl)) as Hexists.
  vm_compute in Hexists. discriminate Hexists.
Qed.

(** And two different paths can name one file there: with a retention
    count of one, the artifact of the older job is deleted, which is the
    artifact of the newer one under another name, and no verified backup
    is left. *)
Lemma cleanupOldBackups_local_alias :
  (BackupJob.BackupPath <$>
     match (getBackupsForPolicy (LocalStorage.provider "/store") retention_policy
              alias_world).1 with
     | inr backups => backups
     | inl _ => []
     end) = ["/docs/a"; "docs/a"] /\
  (cleanupOldBackups (LocalStorage.provider "/store") retention_policy alias_world).1
  = inr tt /\
  w_fs (cleanupOldBackups (LocalStorage.provider "/store") retention_policy alias_world).2
    !! ["store"; "docs"; "a"] = None /\
  (getBackupsForPolicy (LocalStorage.provider "/store") retention_policy
     (cleanupOldBackups (LocalStorage.provider "/store") retention_policy alias_world).2).1
  = inr [].
Proof. repeat split; vm_compute; reflexivity. Qed.

(** ** The pipeline adds no row to the catalog *)

Lemma keeps_db_log l msg e : keeps w_db (log l msg e).
Proof. keeps_prim log. Qed.
Lemma keeps_db_ctx_check : keeps w_db ctx_check.
Proof. keeps_prim ctx_check. Qed.
Lemma keeps_db_rand_Read n : keeps w_db (rand_Read n).
Proof. keeps_prim rand_Read. Qed.
Lemma keeps_db_Stat name : keeps w_db (os.Stat name).
Proof. keeps_prim os.Stat. Qed.
Lemma keeps_db_OpenFile name flag perm : keeps w_db (os.OpenFile name flag perm).
Proof. keeps_prim os.OpenFile. Qed.
Lemma keeps_db_Open name : keeps w_db (os.Open name).
Proof. apply keeps_db_OpenFile. Qed.
Lemma keeps_db_Create name : keeps w_db (os.Create name).
Proof. apply keeps_db_OpenFile. Qed.
Lemma keeps_db_Read f n : keeps w_db (os.Read f n).
Proof. keeps_prim os.Read. Qed.
Lemma keeps_db_ReadAll f : keeps w_db (os.ReadAll f).
Proof. keeps_prim os.ReadAll. Qed.
Lemma keeps_db_Write f data : keeps w_db (os.Write f data).
Proof. keeps_prim os.Write. Qed.
Lemma keeps_db_MkdirAll name perm : keeps w_db (os.MkdirAll name perm).
Proof. keeps_prim os.MkdirAll. Qed.
Lemma keeps_db_MkdirTemp prefix : keeps w_db (os.MkdirTemp prefix).
Proof. keeps_prim os.MkdirTemp. Qed.
Lemma keeps_db_RemoveAll name : keeps w_db (os.RemoveAll name).
Proof. keeps_prim os.RemoveAll. Qed.
Lemma keeps_db_db_call : keeps w_db db_call.
Proof. keeps_prim db_call. Qed.
Lemma keeps_db_net_call : keeps w_db net_call.
Proof. keeps_prim net_call. Qed.
#[export] Hint Resolve keeps_db_log keeps_db_ctx_check keeps_db_rand_Read keeps_db_Stat
  keeps_db_OpenFile keeps_db_Open keeps_db_Create keeps_db_Read keeps_db_ReadAll keeps_db_Write
  keeps_db_MkdirAll keeps_db_MkdirTemp keeps_db_RemoveAll keeps_db_db_call keeps_db_net_call
  : keeps.

Lemma keeps_db_db_Query {A : Type} (query : DB -> A) : keeps w_db (db_Query query).
Proof. unfold db_Query. auto 10 with keeps. Qed.
Lemma keeps_db_BeginTx : keeps w_db BeginTx.
Proof. unfold BeginTx. auto 10 with keeps. Qed.
Lemma keeps_db_tx_Exec stmt tx : keeps w_db (tx_Exec stmt tx).
Proof. unfold tx_Exec. auto 10 with keeps. Qed.
Lemma keeps_db_io_Copy dst src : keeps w_db (io_Copy dst src).
Proof. unfold io_Copy. auto 10 with keeps. Qed.
Lemma keeps_db_getPolicy policyID : keeps w_db (getPolicy policyID).
Proof. unfold getPolicy. pose proof @keeps_db_db_Query. auto 10 with keeps. Qed.
Lemma keeps_db_getBackupHistory policyID limit : keeps w_db (getBackupHistory policyID limit).
Proof. unfold getBackupHistory. pose proof @keeps_db_db_Query. auto 10 with keeps. Qed.
#[export] Hint Resolve keeps_db_db_Query keeps_db_BeginTx keeps_db_tx_Exec keeps_db_io_Copy
  keeps_db_getPolicy keeps_db_getBackupHistory : keeps.

#[global] Instance no_new_rows_preorder : PreOrder no_new_rows.
Proof.
  split.
  - intros d. split; auto.
  - intros d1 d2 d3 [Hj12 Hr12] [Hj23 Hr23]. split; auto.
Qed.

Lemma keeps_adds_no_row {A : Type} (m : M A) : keeps w_db m -> adds_no_row m.
Proof. intros Hk w. rewrite (Hk w). reflexivity. Qed.

Lemma adds_no_row_bind {A B : Type} (m : M A) (k : A -> M B) :
  adds_no_row m -> (forall a, adds_no_row (k a)) -> adds_no_row (m ≫= k).
Proof.
  intros Hm Hk w. rewrite bind_unfold. specialize (Hm w).
  destruct (m w) as [[e|a] w1]; cbn in *; [exact Hm|].
  etransitivity; [exact Hm|apply Hk].
Qed.

Lemma adds_no_row_wrap {A : Type} (text : string) (m : M A) :
  adds_no_row m -> adds_no_row (wrap text m).
Proof. intros Hm w. unfold wrap. specialize (Hm w). destruct (m w) as [[e|a] w1]; exact Hm. Qed.

Lemma adds_no_row_try {A : Type} (m : M A) : adds_no_row m -> adds_no_row (try m).
Proof. intros Hm w. unfold try. specialize (Hm w). destruct (m w) as [r w1]. exact Hm. Qed.

Lemma adds_no_row_defer {A B : Type} (cleanup : M B) (body : M A) :
  adds_no_row cleanup -> adds_no_row body -> adds_no_row (defer cleanup body).
Proof.
  intros Hc Hb w. unfold defer. specialize (Hb w). destruct (body w) as [r w1]. cbn in *.
  etransitivity; [exact Hb|apply Hc].
Qed.

Lemma sql_delete_files_of_job_rows jobID d : no_new_rows d (sql_delete_files_of_job jobID d).
Proof. split; intros id Hid; exact Hid. Qed.

Lemma sql_delete_results_of_job_rows jobID d : no_new_rows d (sql_delete_results_of_job jobID d).
Proof.
  split; intros id Hid; [exact Hid|]. cbn. apply map_lookup_filter_None. left. exact Hid.
Qed.

Lemma sql_mark_job_deleted_rows jobID d : no_new_rows d (sql_mark_job_deleted jobID d).
Proof.
  split; intros id Hid; [|exact Hid]. cbn. rewrite lookup_alter_None. exact Hid.
Qed.

Lemma db_delete_backup_rows jobID d : no_new_rows d (db_delete_backup jobID d).
Proof.
  unfold db_delete_backup.
  etransitivity; [apply sql_delete_files_of_job_rows|].
  etransitivity; [apply sql_delete_results_of_job_rows|].
  apply sql_mark_job_deleted_rows.
Qed.

Section CatalogRows.
Context `{GoLib}.
Variable storage : StorageProvider.
Hypothesis Upload_db : forall localPath remotePath, keeps w_db (Upload storage localPath remotePath).
Hypothesis Exists_db : forall remotePath, keeps w_db (Exists storage remotePath).
Hypothesis Delete_db : forall remotePath, keeps w_db (Delete storage remotePath).

Lemma keeps_db_archive_walk baseDir archivePath todo acc :
  keeps w_db (archive_walk baseDir archivePath todo acc).
Proof.
  revert acc. induction todo as [|[filePath info] todo IH]; intros acc; cbn [archive_walk];
    auto 10 with keeps.
Qed.

Lemma keeps_db_createArchive sourcePath archivePath :
  keeps w_db (createArchive sourcePath archivePath).
Proof. pose proof keeps_db_archive_walk. unfold createArchive. auto 12 with keeps. Qed.

Lemma keeps_db_getDirectorySize path : keeps w_db (getDirectorySize path).
Proof. unfold getDirectorySize. auto 10 with keeps. Qed.

Lemma keeps_db_getFileSize path : keeps w_db (getFileSize path).
Proof. unfold getFileSize. auto 10 with keeps. Qed.

Lemma keeps_db_encrypt_loop fuel key nonce inputFile outputFile :
  keeps w_db (encrypt_loop fuel key nonce inputFile outputFile).
Proof.
  revert nonce inputFile outputFile.
  induction fuel as [|fuel IH]; intros nonce inputFile outputFile; cbn [encrypt_loop];
    auto 12 with keeps.
Qed.

Lemma keeps_db_encryptFile inputPath outputPath password :
  keeps w_db (encryptFile inputPath outputPath password).
Proof. pose proof keeps_db_encrypt_loop. unfold encryptFile. auto 20 with keeps. Qed.

Lemma keeps_db_scan_walk visited files totalSize : keeps w_db (scan_walk visited files totalSize).
Proof.
  revert files totalSize.
  induction visited as [|[filePath info] visited IH]; intros files totalSize; cbn [scan_walk];
    auto 10 with keeps.
Qed.

Lemma keeps_db_scanDirectory path : keeps w_db (scanDirectory path).
Proof. pose proof keeps_db_scan_walk. unfold scanDirectory. auto 10 with keeps. Qed.

Lemma keeps_db_copyFile src dst : keeps w_db (copyFile src dst).
Proof. unfold copyFile. auto 10 with keeps. Qed.

Lemma keeps_db_copyFiles sourcePath destPath files :
  keeps w_db (copyFiles sourcePath destPath files).
Proof.
  pose proof keeps_db_copyFile.
  induction files as [|file files IH]; cbn [copyFiles]; auto 20 with keeps.
Qed.

Lemma keeps_db_calculateChecksum filePath : keeps w_db (calculateChecksum filePath).
Proof. unfold calculateChecksum. auto 10 with keeps. Qed.

Lemma keeps_db_archive_step backupPath res : keeps w_db (archive_step backupPath res).
Proof.
  pose proof keeps_db_createArchive. pose proof keeps_db_getDirectorySize.
  pose proof keeps_db_getFileSize. unfold archive_step. auto 20 with keeps.
Qed.

Lemma keeps_db_encrypt_step policy backupPath : keeps w_db (encrypt_step policy backupPath).
Proof. pose proof keeps_db_encryptFile. unfold encrypt_step. auto 10 with keeps. Qed.

Lemma keeps_db_backup_and_upload policy tempDir :
  keeps w_db (backup_and_upload storage policy tempDir).
Proof.
  pose proof keeps_db_scanDirectory. pose proof keeps_db_copyFiles.
  pose proof keeps_db_archive_step. pose proof keeps_db_encrypt_step.
  pose proof keeps_db_calculateChecksum.
  unfold backup_and_upload, generateBackupName. auto 30 with keeps.
Qed.

Lemma keeps_db_verify_backups l : keeps w_db (verify_backups storage l).
Proof.
  induction l as [|backup l IH]; cbn [verify_backups]; unfold backupExists; auto 20 with keeps.
Qed.

Lemma keeps_db_getBackupsForPolicy policy : keeps w_db (getBackupsForPolicy storage policy).
Proof. pose proof keeps_db_verify_backups. unfold getBackupsForPolicy. auto 10 with keeps. Qed.

Lemma adds_no_row_tx_Commit (d : DB) (tx : DB) :
  forall w, no_new_rows d tx -> no_new_rows d (w_db w) -> no_new_rows d (w_db (tx_Commit tx w).2).
Proof.
  intros w Htx Hw. unfold tx_Commit. rewrite bind_unfold.
  pose proof (keeps_db_db_call w) as Hcall.
  destruct (db_call w) as [[e|[]] w1]; cbn in *; [rewrite Hcall; exact Hw|exact Htx].
Qed.

(** [deleteBackup] commits the catalog of [db_delete_backup], or nothing. *)
Lemma adds_no_row_deleteBackup backup : adds_no_row (deleteBackup storage backup).
Proof.
  intros w. unfold deleteBackup.
  rewrite bind_unfold.
  pose proof (keeps_wrap w_db "delete file from storage" _
                (Delete_db (BackupJob.BackupPath backup)) w) as H1.
  destruct (wrap "delete file from storage" _ w) as [[e|[]] w1]; cbn [snd] in *;
    [rewrite H1; reflexivity|].
  rewrite bind_unfold.
  pose proof (keeps_wrap w_db "begin transaction" _ keeps_db_BeginTx w1) as H2.
  destruct (wrap "begin transaction" BeginTx w1) as [[e|tx] w2] eqn:Hbegin; cbn [snd] in *;
    [rewrite H2, H1; reflexivity|].
  assert (tx = w_db w) as ->.
  { unfold wrap in Hbegin. destruct (BeginTx w1) as [[e|tx'] w2'] eqn:Hb; [discriminate|].
    injection Hbegin as -> ->. unfold BeginTx in Hb. minv. congruence. }
  unfold defer, tx_Rollback, ret. 
  match goal with |- context [(?body w2)] => destruct (body w2) as [r w3] eqn:Hbody end.
  cbn [snd fst].
  revert Hbody. rewrite bind_unfold.
  pose proof (keeps_wrap w_db "delete file records" _
    (keeps_db_tx_Exec (sql_delete_files_of_job (BackupJob.ID backup)) (w_db w)) w2) as H3.
  destruct (wrap "delete file records" _ w2) as [[e|tx1] w3'] eqn:E1; cbn [snd] in *.
  { intros [= <- <-]. rewrite H3, H2, H1. reflexivity. }
  rewrite bind_unfold.
  pose proof (keeps_wrap w_db "delete backup result" _
    (keeps_db_tx_Exec (sql_delete_results_of_job (BackupJob.ID backup)) tx1) w3') as H4.
  destruct (wrap "delete backup result" _ w3') as [[e|tx2] w4] eqn:E2; cbn [snd] in *.
  { intros [= <- <-]. rewrite H4, H3, H2, H1. reflexivity. }
  rewrite bind_unfold.
  pose proof (keeps_wrap w_db "update job status" _
    (keeps_db_tx_Exec (sql_mark_job_deleted (BackupJob.ID backup)) tx2) w4) as H5.
  destruct (wrap "update job status" _ w4) as [[e|tx3] w5] eqn:E3; cbn [snd] in *.
  { intros [= <- <-]. rewrite H5, H4, H3, H2, H1. reflexivity. }
  intros Hcommit.
  assert (tx3 = db_delete_backup (BackupJob.ID backup) (w_db w)) as ->.
  { unfold wrap in E1, E2, E3.
    destruct (tx_Exec _ (w_db w) w2) as [[?|?] ?] eqn:X1; [discriminate|]. injection E1 as -> ->.
    destruct (tx_Exec _ tx1 w3') as [[?|?] ?] eqn:X2; [discriminate|]. injection E2 as -> ->.
    destruct (tx_Exec _ tx2 w4) as [[?|?] ?] eqn:X3; [discriminate|]. injection E3 as -> ->.
    unfold tx_Exec in X1, X2, X3. clear Hcommit. minv. reflexivity. }
  replace w3 with (wrap "commit transaction"
    (tx_Commit (db_delete_backup (BackupJob.ID backup) (w_db w))) w5).2 by (rewrite Hcommit; reflexivity).
  unfold wrap.
  pose proof (adds_no_row_tx_Commit (w_db w) (db_delete_backup (BackupJob.ID backup) (w_db w)) w5
                (db_delete_backup_rows _ _)) as Hc.
  destruct (tx_Commit _ w5) as [[e|[]] w6]; cbn [snd] in *; apply Hc;
    rewrite H5, H4, H3, H2, H1; reflexivity.
Qed.

Lemma adds_no_row_delete_backups l : adds_no_row (delete_backups storage l).
Proof.
  induction l as [|backup l IH]; cbn [delete_backups].
  - apply keeps_adds_no_row. auto with keeps.
  - apply adds_no_row_bind; [apply adds_no_row_try, adds_no_row_deleteBackup|].
    intros r. apply adds_no_row_bind; [|intros _; exact IH].
    apply keeps_adds_no_row. destruct r; auto with keeps.
Qed.

Lemma adds_no_row_cleanupOldBackups policy : adds_no_row (cleanupOldBackups storage policy).
Proof.
  unfold cleanupOldBackups.
  destruct (BackupPolicy.RetentionCount policy <=? 0); [apply keeps_adds_no_row; auto with keeps|].
  apply adds_no_row_bind.
  { apply keeps_adds_no_row, keeps_wrap, keeps_db_getBackupsForPolicy. }
  intros backups. destruct (_ <=? _); [apply keeps_adds_no_row; auto with keeps|].
  apply adds_no_row_bind; [apply keeps_adds_no_row; auto with keeps|]. intros _.
  apply adds_no_row_bind; [apply adds_no_row_delete_backups|]. intros _.
  apply keeps_adds_no_row. auto with keeps.
Qed.

Lemma adds_no_row_performBackup policy : adds_no_row (performBackup storage policy).
Proof.
  unfold performBackup.
  apply adds_no_row_bind; [apply keeps_adds_no_row; auto with keeps|]. intros tempDir.
  apply adds_no_row_defer; [apply keeps_adds_no_row; auto with keeps|].
  apply adds_no_row_bind; [apply keeps_adds_no_row, keeps_db_backup_and_upload|]. intros res.
  unfold cleanup_and_return.
  apply adds_no_row_bind; [apply adds_no_row_try, adds_no_row_cleanupOldBackups|]. intros r.
  apply keeps_adds_no_row. destruct r; auto 10 with keeps.
Qed.

(** Whatever the run does and however it ends, [ExecuteBackup] leaves no
    job row and no result row in the catalog that was not there before:
    the only statements it commits are those of [deleteBackup]. *)
Lemma ExecuteBackup_adds_no_row job : adds_no_row (ExecuteBackup storage job).
Proof.
  unfold ExecuteBackup.
  apply adds_no_row_bind; [apply keeps_adds_no_row; auto with keeps|]. intros [e|policy].
  { apply keeps_adds_no_row. auto with keeps. }
  apply adds_no_row_bind; [apply keeps_adds_no_row; auto with keeps|]. intros _.
  apply adds_no_row_bind; [apply keeps_adds_no_row; auto with keeps|]. intros now.
  apply adds_no_row_bind; [apply keeps_adds_no_row; auto with keeps|]. intros startTime.
  apply adds_no_row_bind; [apply adds_no_row_try, adds_no_row_performBackup|]. intros [e|res];
    apply keeps_adds_no_row; auto 10 with keeps.
Qed.

End CatalogRows.

Lemma keeps_modify {X : Type} (field : World -> X) (f : World -> World) :
  (forall w, field (f w) = field w) -> keeps field (modify f).
Proof. intros Hf w. apply Hf. Qed.

(** The S3 backend and the local backend do not touch the catalog. *)
Lemma keeps_db_S3_Upload localPath remotePath :
  keeps w_db (Upload S3Storage.provider localPath remotePath).
Proof.
  cbn [Upload S3Storage.provider]. unfold S3Storage.Upload.
  apply keeps_wrap. repeat (apply keeps_bind; [auto with keeps|intros ?]).
  apply keeps_modify. reflexivity.
Qed.

Lemma keeps_db_S3_Exists remotePath : keeps w_db (Exists S3Storage.provider remotePath).
Proof. cbn [Exists S3Storage.provider]. unfold S3Storage.Exists. auto 10 with keeps. Qed.

Lemma keeps_db_S3_Delete remotePath : keeps w_db (Delete S3Storage.provider remotePath).
Proof.
  cbn [Delete S3Storage.provider]. unfold S3Storage.Delete.
  apply keeps_bind; [auto with keeps|intros ?]. apply keeps_modify. reflexivity.
Qed.

Lemma keeps_db_Remove name : keeps w_db (os.Remove name).
Proof. keeps_prim os.Remove. Qed.

Lemma keeps_db_Local_Upload basePath localPath remotePath :
  keeps w_db (Upload (LocalStorage.provider basePath) localPath remotePath).
Proof.
  cbn [Upload LocalStorage.provider]. unfold LocalStorage.Upload. auto 20 with keeps.
Qed.

Lemma keeps_db_Local_Exists basePath remotePath :
  keeps w_db (Exists (LocalStorage.provider basePath) remotePath).
Proof.
  cbn [Exists LocalStorage.provider]. unfold LocalStorage.Exists. auto 20 with keeps.
Qed.

Lemma keeps_db_Local_Delete basePath remotePath :
  keeps w_db (Delete (LocalStorage.provider basePath) remotePath).
Proof.
  cbn [Delete LocalStorage.provider]. unfold LocalStorage.Delete.
  pose proof keeps_db_Remove. auto 20 with keeps.
Qed.

(** With the S3 backend and with the local backend. *)
Corollary ExecuteBackup_adds_no_row_S3 `{GoLib} (job : BackupJob.t) :
  adds_no_row (ExecuteBackup S3Storage.provider job).
Proof.
  apply ExecuteBackup_adds_no_row;
    [apply keeps_db_S3_Upload|apply keeps_db_S3_Exists|apply keeps_db_S3_Delete].
Qed.

Corollary ExecuteBackup_adds_no_row_Local `{GoLib} (basePath : string) (job : BackupJob.t) :
  adds_no_row (ExecuteBackup (LocalStorage.provider basePath) job).
Proof.
  apply ExecuteBackup_adds_no_row;
    [apply keeps_db_Local_Upload|apply keeps_db_Local_Exists|apply keeps_db_Local_Delete].
Qed.

(** ** The pipeline on a concrete source tree *)

(** C2, the code at the failing input: the run succeeds, the job is
    completed and the artifact is uploaded, and the tables [backup_jobs]
    and [backup_results] are as empty as before. *)
Theorem ExecuteBackup_persists_no_row :
  match (@ExecuteBackup toyLib S3Storage.provider pipeline_job pipeline_world).1 with
  | inr (job, inr res) =>
      BackupJob.Status job = JobStatusCompleted /\
      BackupResult.JobID res = "j1" /\
      BackupResult.BackupPath res = "backups/my-docs-100"
  | _ => False
  end /\
  is_Some (w_objects (@ExecuteBackup toyLib S3Storage.provider pipeline_job pipeline_world).2
             !! "backups/my-docs-100") /\
  backup_jobs (w_db (@ExecuteBackup toyLib S3Storage.provider pipeline_job pipeline_world).2) = ∅ /\
  backup_results (w_db (@ExecuteBackup toyLib S3Storage.provider pipeline_job pipeline_world).2) = ∅.
Proof.
  split; [vm_compute; auto|]. split; [vm_compute; eauto|]. split; vm_compute; reflexivity.
Qed.

(** C7, the code at the failing input: the working copy holds 7 bytes and
    the archive 93; the stored ratio is 93/93 and not 7/93. *)
Theorem ExecuteBackup_ratio_of_archive_to_itself :
  match (@ExecuteBackup toyLib S3Storage.provider pipeline_job pipeline_world).1 with
  | inr (_, inr res) =>
      BackupResult.TotalSize res = 7 /\
      BackupResult.CompressedSize res = 93 /\
      BackupResult.CompressionRatio res = float64_div 93 93 /\
      ~ (BackupResult.CompressionRatio res == float64_div 7 93)%Q
  | _ => False
  end.
Proof.
  vm_compute. repeat split. intros Heq. discriminate Heq.
Qed.

Lemma archive_step_ratio_witness :
  exists mode content,
    os.lookup_node (w_fs (@archive_step toyLib "/tmp/copy" fresh_result archive_world).2)
      ["tmp"; "copy.tar.gz"] = Some (File mode content) /\
    BackupResult.TotalSize archived_result = 5 /\
    BackupResult.CompressedSize archived_result = Z.of_nat (length content) /\
    BackupResult.CompressionRatio archived_result
    = float64_div (Z.of_nat (length content)) (Z.of_nat (length content)).
Proof.
  destruct (@archive_step_ratio toyLib "/tmp/copy" fresh_result archived_result archive_world
              (@archive_step toyLib "/tmp/copy" fresh_result archive_world).2
              "/tmp/copy.tar.gz")
    as (_ & mode & content & Hfile & Hsize & Hratio).
  - vm_compute. reflexivity.
  - exists mode, content. split; [exact Hfile|]. split; [reflexivity|].
    split; [exact Hsize|exact Hratio].
Defined.

Lemma ExecuteBackup_cleanup_not_fatal_witness :
  exists job' res' w',
    @ExecuteBackup toyLib S3Storage.provider pipeline_job refusing_world
    = (inr (job', inr res'), w') /\
    BackupJob.Status job' = JobStatusCompleted /\
    mkLog LevelError "error cleaning up old backups"
      (Some (Wrap "list backups"
               (Wrap "get backup history from DB" (Wrap "get backup history" ErrDriver))))
      ∈ w_log w'.
Proof.
  destruct (@ExecuteBackup_cleanup_not_fatal toyLib S3Storage.provider
              pipeline_job pipeline_policy "/tmp/backup-0" uploaded_result
              refusing_world
              (getPolicy "p1" refusing_world).2
              (os.MkdirTemp "backup-"
                 (log LevelInfo "backup started" None (getPolicy "p1" refusing_world).2).2).2
              (@backup_and_upload toyLib S3Storage.provider pipeline_policy "/tmp/backup-0"
                 (os.MkdirTemp "backup-"
                    (log LevelInfo "backup started" None (getPolicy "p1" refusing_world).2).2).2).2)
    as (job' & res' & w' & Hrun & Hstatus & _ & _ & Hlog);
    try (vm_compute; reflexivity).
  exists job', res', w'. split; [exact Hrun|]. split; [exact Hstatus|].
  apply Hlog. vm_compute. reflexivity.
Defined.

Lemma getAllPolicies_no_password_witness :
  p_encryption_password <$> backup_policies (w_db pipeline_world) !! "p1" = Some "pw" /\
  Forall (fun policy => BackupPolicy.EncryptionPassword policy = "")
    [BackupPolicy.mk "p1" "my docs" "/data" "backups" "" 2 true false "" 5 5 ""].
Proof.
  split; [vm_compute; reflexivity|].
  apply (getAllPolicies_no_password pipeline_world pipeline_world).
  vm_compute. reflexivity.
Defined.

(** * Properties of the further code *)

(** ** Password checks and generation *)

Lemma classify_flags (seen : PasswordClasses) (c : ascii) :
  hasUpper (classify seen c) = hasUpper seen || is_upper c /\
  hasLower (classify seen c) = hasLower seen || is_lower c /\
  hasDigit (classify seen c) = hasDigit seen || is_digit c /\
  hasSpecial (classify seen c)
  = hasSpecial seen || (is_printable c && negb (is_upper c || is_lower c || is_digit c)).
Proof.
  destruct seen as [u l d s].
  destruct c as [[] [] [] [] [] [] [] []]; vm_compute;
    destruct u, l, d, s; repeat split; reflexivity.
Qed.

Lemma fold_classify_flags (chars : list ascii) (seen : PasswordClasses) :
  hasUpper (fold_left classify chars seen) = hasUpper seen || existsb is_upper chars /\
  hasLower (fold_left classify chars seen) = hasLower seen || existsb is_lower chars /\
  hasDigit (fold_left classify chars seen) = hasDigit seen || existsb is_digit chars /\
  hasSpecial (fold_left classify chars seen)
  = hasSpecial seen
    || existsb (fun c => is_printable c && negb (is_upper c || is_lower c || is_digit c)) chars.
Proof.
  revert seen. induction chars as [|c chars IH]; intros seen; cbn [fold_left existsb].
  - rewrite !orb_false_r. auto.
  - destruct (IH (classify seen c)) as (-> & -> & -> & ->).
    destruct (classify_flags seen c) as (-> & -> & -> & ->).
    rewrite !orb_assoc. auto.
Qed.

Lemma existsb_elem_of {A : Type} (f : A -> bool) (l : list A) :
  existsb f l = true <-> exists x, x ∈ l /\ f x = true.
Proof.
  rewrite existsb_exists. split; intros (x & Hin & Hf); exists x; split; auto;
    apply list_elem_of_In; exact Hin.
Qed.

(** X1: [validatePassword] returns nil exactly for the passwords of at
    least eight bytes that hold an uppercase letter, a lowercase letter, a
    digit and a special character, where a special character is any
    printable ASCII character (the space included) that is neither a letter
    nor a digit. *)
Theorem validatePassword_accepts (password : string) :
  let chars := String.list_ascii_of_string password in
  validatePassword password = inr tt <->
  (8 <= String.length password)%nat /\
  (exists c, c ∈ chars /\ is_upper c = true) /\
  (exists c, c ∈ chars /\ is_lower c = true) /\
  (exists c, c ∈ chars /\ is_digit c = true) /\
  (exists c, c ∈ chars /\ is_printable c = true /\
             is_upper c = false /\ is_lower c = false /\ is_digit c = false).
Proof.
  cbn zeta. unfold validatePassword.
  destruct (fold_classify_flags (String.list_ascii_of_string password)
              (mkClasses false false false false)) as (Hu & Hl & Hd & Hs).
  cbn [hasUpper hasLower hasDigit hasSpecial orb] in Hu, Hl, Hd, Hs.
  rewrite Hu, Hl, Hd, Hs. clear Hu Hl Hd Hs.
  rewrite <- !existsb_elem_of.
  assert (Hspecial :
    (exists c, c ∈ String.list_ascii_of_string password /\ is_printable c = true /\
               is_upper c = false /\ is_lower c = false /\ is_digit c = false) <->
    existsb (fun c => is_printable c && negb (is_upper c || is_lower c || is_digit c))
      (String.list_ascii_of_string password) = true).
  { rewrite existsb_elem_of. split.
    - intros (c & Hin & Hp & Hu & Hl & Hd). exists c. split; [exact Hin|].
      rewrite Hp, Hu, Hl, Hd. reflexivity.
    - intros (c & Hin & Hc). exists c. split; [exact Hin|].
      apply andb_true_iff in Hc as [Hp Hn]. apply negb_true_iff in Hn.
      apply orb_false_iff in Hn as [Hn Hd]. apply orb_false_iff in Hn as [Hu Hl]. auto. }
  rewrite Hspecial. clear Hspecial.
  destruct (String.length password <? 8)%nat eqn:Hlen.
  - apply Nat.ltb_lt in Hlen. split; [discriminate|]. intros [Hge _]. lia.
  - apply Nat.ltb_ge in Hlen.
    destruct (existsb is_upper _); cbn [negb]; [|split; [discriminate|intros (_ & ? & _); discriminate]].
    destruct (existsb is_lower _); cbn [negb];
      [|split; [discriminate|intros (_ & _ & ? & _); discriminate]].
    destruct (existsb is_digit _); cbn [negb];
      [|split; [discriminate|intros (_ & _ & _ & ? & _); discriminate]].
    destruct (existsb _ _); cbn [negb];
      [|split; [discriminate|intros (_ & _ & _ & _ & ?); discriminate]].
    split; auto.
Qed.

Lemma set_random_same (w : World) : set_random (w_random w) w = w.
Proof. destruct w. reflexivity. Qed.

Lemma generate_chars_spec (n : nat) (password : list ascii) (w : World) :
  (n <= length (w_random w))%nat ->
  generate_chars n password w
  = (inr (rev password ++ (charset_pick <$> take n (w_random w))),
     set_random (drop n (w_random w)) w).
Proof.
  revert password w. induction n as [|n IH]; intros password w Hn.
  - cbn [generate_chars]. rewrite take_0, drop_0, fmap_nil, app_nil_r, set_random_same. reflexivity.
  - cbn [generate_chars].
    destruct (w_random w) as [|b random] eqn:Hr; [cbn in Hn; lia|].
    erewrite bind_ok.
    2:{ apply wrap_ok. unfold rand_Read. rewrite Hr. cbn [length Nat.leb take drop]. reflexivity. }
    rewrite take_0, drop_0.
    rewrite IH by (cbn [w_random set_random length] in *; lia).
    cbn [w_random set_random hd rev]. rewrite firstn_cons, skipn_cons, fmap_cons, <- app_assoc.
    reflexivity.
Qed.

Lemma charset_pick_in (b : Z) : charset_pick b ∈ String.list_ascii_of_string charset.
Proof.
  unfold charset_pick. apply list_elem_of_In, nth_In.
  change (length (String.list_ascii_of_string charset)) with 70%nat.
  change (Z.of_nat (String.length charset)) with 70.
  pose proof (Z.mod_pos_bound b 70). lia.
Qed.

Lemma generate_chars_short (n : nat) (password : list ascii) (w : World) :
  (length (w_random w) < n)%nat ->
  exists w', generate_chars n password w = (inl (Wrap "generate random number" ErrEntropy), w').
Proof.
  revert password w. induction n as [|n IH]; intros password w Hn; [lia|].
  cbn [generate_chars].
  destruct (w_random w) as [|b random] eqn:Hr.
  - eexists. erewrite bind_err; [reflexivity|].
    unfold wrap, rand_Read. rewrite Hr. reflexivity.
  - erewrite bind_ok.
    2:{ apply wrap_ok. unfold rand_Read. rewrite Hr. cbn [length Nat.leb take drop]. reflexivity. }
    apply IH. cbn [w_random set_random length] in *. rewrite drop_0. lia.
Qed.

Lemma string_length_list (s : string) :
  String.length s = length (String.list_ascii_of_string s).
Proof. induction s as [|c s IH]; cbn; [reflexivity|]. rewrite IH. reflexivity. Qed.

(** X2: for a length [n >= 0] and at least [n] bytes of randomness,
    [generateSecurePassword] returns the password whose i-th character is
    [charset[b_i % 70]] for the i-th byte drawn, and it draws exactly [n]
    bytes: the password has [n] characters, all of the character set.
    With fewer bytes it returns the error of the random source. *)
Theorem generateSecurePassword_spec (n : Z) (w : World) :
  0 <= n ->
  ((Z.to_nat n <= length (w_random w))%nat ->
   exists password,
     generateSecurePassword n w
     = (inr password, set_random (drop (Z.to_nat n) (w_random w)) w) /\
     String.list_ascii_of_string password = (charset_pick <$> take (Z.to_nat n) (w_random w)) /\
     String.length password = Z.to_nat n /\
     Forall (fun c => c ∈ String.list_ascii_of_string charset)
            (String.list_ascii_of_string password)) /\
  ((length (w_random w) < Z.to_nat n)%nat ->
   exists w', generateSecurePassword n w = (inl (Wrap "generate random number" ErrEntropy), w')).
Proof.
  intros Hn. unfold generateSecurePassword.
  replace (n <? 0) with false by (symmetry; apply Z.ltb_ge; exact Hn).
  split.
  - intros Hr. eexists. erewrite bind_ok by (apply generate_chars_spec; exact Hr).
    split; [reflexivity|]. cbn [rev app].
    rewrite string_length_list, String.list_ascii_of_string_of_list_ascii.
    split; [reflexivity|]. split.
    + rewrite length_fmap, length_take. lia.
    + apply Forall_fmap, Forall_forall. intros b _. apply charset_pick_in.
  - intros Hr. destruct (generate_chars_short _ [] w Hr) as [w' E].
    exists w'. erewrite bind_err by exact E. reflexivity.
Qed.

Lemma generateSecurePassword_witness :
  exists password,
    generateSecurePassword 3 (set_random [0; 71; 255] empty_world)
    = (inr password, set_random [] (set_random [0; 71; 255] empty_world)) /\
    password = "ABt".
Proof.
  destruct (generateSecurePassword_spec 3 (set_random [0; 71; 255] empty_world)) as [Hok _];
    [lia|].
  destruct Hok as (password & Hrun & Hchars & _); [cbn; lia|].
  exists password. split; [exact Hrun|].
  rewrite <- (String.string_of_list_ascii_of_string password), Hchars. vm_compute. reflexivity.
Defined.

(** ** Storage configuration checks *)

Lemma HasPrefix_char (s : string) (c : ascii) :
  filepath.HasPrefix s (String c EmptyString) = true
  <-> head (String.list_ascii_of_string s) = Some c.
Proof.
  unfold filepath.HasPrefix. destruct s as [|c' s]; cbn.
  - split; discriminate.
  - destruct (ascii_dec c c') as [->|Hne].
    + destruct s; split; reflexivity.
    + split; [discriminate|]. intros [= ->]. contradiction.
Qed.

Lemma HasSuffix_char (s : string) (c : ascii) :
  strings_HasSuffix s (String c EmptyString) = true
  <-> last (String.list_ascii_of_string s) = Some c.
Proof.
  unfold strings_HasSuffix. rewrite bool_decide_eq_true. cbn [String.list_ascii_of_string].
  rewrite last_Some. unfold suffix. reflexivity.
Qed.

Lemma bool_iff_false (b : bool) (P : Prop) : (b = true <-> P) -> (b = false <-> ~ P).
Proof.
  intros [H1 H2]. destruct b; split.
  - discriminate.
  - intros Hn. exfalso. apply Hn, H1. reflexivity.
  - intros _ HP. apply H2 in HP. discriminate.
  - reflexivity.
Qed.

(** [isValidS3BucketName] accepts exactly the names of 3 to 63 bytes
    over lowercase letters, digits, dots and hyphens whose first and last
    characters are neither a dot nor a hyphen. *)
Lemma isValidS3BucketName_spec (bucket : string) :
  let chars := String.list_ascii_of_string bucket in
  isValidS3BucketName bucket = true <->
  (3 <= String.length bucket <= 63)%nat /\
  Forall (fun c => bucket_char c = true) chars /\
  head chars <> Some "."%char /\ head chars <> Some "-"%char /\
  last chars <> Some "."%char /\ last chars <> Some "-"%char.
Proof.
  cbn zeta. unfold isValidS3BucketName, matches_bucket_pattern.
  rewrite <- (bool_iff_false _ _ (HasPrefix_char bucket ".")).
  rewrite <- (bool_iff_false _ _ (HasPrefix_char bucket "-")).
  rewrite <- (bool_iff_false _ _ (HasSuffix_char bucket ".")).
  rewrite <- (bool_iff_false _ _ (HasSuffix_char bucket "-")).
  assert (Hall : forallb bucket_char (String.list_ascii_of_string bucket) = true
                 <-> Forall (fun c => bucket_char c = true) (String.list_ascii_of_string bucket)).
  { rewrite forallb_forall, Forall_forall. split; intros Hf c Hc; apply Hf;
      apply list_elem_of_In; exact Hc. }
  rewrite <- Hall. clear Hall.
  destruct (String.length bucket <? 3)%nat eqn:H3; cbn [orb].
  { apply Nat.ltb_lt in H3. split; [discriminate|]. intros [? _]. lia. }
  apply Nat.ltb_ge in H3.
  destruct (63 <? String.length bucket)%nat eqn:H63.
  { apply Nat.ltb_lt in H63. split; [discriminate|]. intros [? _]. lia. }
  apply Nat.ltb_ge in H63.
  assert (String.eqb bucket "" = false) as ->.
  { apply String.eqb_neq. intros ->. cbn in H3. lia. }
  cbn [negb andb].
  destruct (forallb bucket_char _); cbn [negb];
    [|split; [discriminate|intros (_ & ? & _); discriminate]].
  destruct (filepath.HasPrefix bucket "."); cbn [orb];
    [split; [discriminate|intros (_ & _ & ? & _); discriminate]|].
  destruct (strings_HasSuffix bucket "."); cbn [orb];
    [split; [discriminate|intros (_ & _ & _ & _ & ? & _); discriminate]|].
  destruct (filepath.HasPrefix bucket "-"); cbn [orb];
    [split; [discriminate|intros (_ & _ & _ & ? & _); discriminate]|].
  destruct (strings_HasSuffix bucket "-"); cbn [orb];
    [split; [discriminate|intros (_ & _ & _ & _ & _ & ?); discriminate]|].
  split; [intros _|reflexivity]. repeat split; auto.
Qed.

(** X3: [ValidateS3Config] returns nil exactly for a non-nil
    configuration whose region, access key and secret key are not empty
    and whose bucket name has 3 to 63 bytes, all of them lowercase letters,
    digits, dots or hyphens, the first and the last one neither a dot nor a
    hyphen.  Nothing else is checked: the endpoint and the TLS flag are
    not looked at, adjacent dots and names that look like an IP address
    pass. *)
Theorem ValidateS3Config_accepts (config : option S3Config.t) :
  ValidateS3Config config = inr tt <->
  exists c, config = Some c /\
            S3Config.Region c <> "" /\ S3Config.AccessKeyID c <> "" /\
            S3Config.SecretAccessKey c <> "" /\
            let chars := String.list_ascii_of_string (S3Config.Bucket c) in
            (3 <= String.length (S3Config.Bucket c) <= 63)%nat /\
            Forall (fun c => bucket_char c = true) chars /\
            head chars <> Some "."%char /\ head chars <> Some "-"%char /\
            last chars <> Some "."%char /\ last chars <> Some "-"%char.
Proof.
  cbn zeta.
  destruct config as [c|]; cbn [ValidateS3Config].
  2:{ split; [discriminate|]. intros (c & ? & _). discriminate. }
  pose proof (isValidS3BucketName_spec (S3Config.Bucket c)) as Hspec. cbn zeta in Hspec.
  destruct (String.eqb_spec (S3Config.Bucket c) "") as [Hb|Hb].
  { split; [discriminate|]. intros (c' & [= <-] & _ & _ & _ & Hlen & _). rewrite Hb in Hlen.
    cbn in Hlen. lia. }
  destruct (String.eqb_spec (S3Config.Region c) "") as [Hr|Hr].
  { split; [discriminate|]. intros (c' & [= <-] & ? & _). contradiction. }
  destruct (String.eqb_spec (S3Config.AccessKeyID c) "") as [Ha|Ha].
  { split; [discriminate|]. intros (c' & [= <-] & _ & ? & _). contradiction. }
  destruct (String.eqb_spec (S3Config.SecretAccessKey c) "") as [Hs|Hs].
  { split; [discriminate|]. intros (c' & [= <-] & _ & _ & ? & _). contradiction. }
  destruct (isValidS3BucketName (S3Config.Bucket c)) eqn:Hv; cbn [negb].
  - split; [intros _|reflexivity]. exists c. repeat split; auto; apply Hspec; reflexivity.
  - split; [discriminate|]. intros (c' & [= <-] & _ & _ & _ & Hv').
    apply Hspec in Hv'. discriminate Hv'.
Qed.

(** ** Catalog *)

Lemma db_call_ok (w : World) : w_db_faults w = [] -> db_call w = (inr tt, w).
Proof. unfold db_call. intros ->. reflexivity. Qed.

Lemma db_Query_ok {A : Type} (query : DB -> A) (w : World) :
  w_db_faults w = [] -> db_Query query w = (inr (query (w_db w)), w).
Proof. intros Hf. unfold db_Query. erewrite bind_ok by (apply db_call_ok, Hf). reflexivity. Qed.









Lemma StronglySorted_take {A : Type} (R : relation A) (n : nat) (l : list A) :
  StronglySorted R l -> StronglySorted R (take n l).
Proof.
  intros Hs. rewrite <- (take_drop n l) in Hs. apply StronglySorted_app_1_l in Hs. exact Hs.
Qed.

(** The rows a sorted, limited query leaves out are not newer than the
    rows it returns, and it leaves rows out only when the limit is
    reached. *)
Lemma newest_first_take {A : Type} (created : A -> Z) (n : nat) (l : list A) (x : A) :
  x ∈ l -> x ∉ take n (newest_first created l) ->
  length (take n (newest_first created l)) = n /\
  forall y, y ∈ take n (newest_first created l) -> created x <= created y.
Proof.
  intros Hx Hout.
  pose proof (StronglySorted_merge_sort (not_older created) l) as Hsorted.
  fold (newest_first created l) in Hsorted.
  assert (Hin : x ∈ newest_first created l)
    by (unfold newest_first; rewrite merge_sort_Permutation; exact Hx).
  rewrite <- (take_drop n (newest_first created l)) in Hin, Hsorted.
  apply elem_of_app in Hin as [Hin|Hin]; [contradiction|].
  split.
  - rewrite length_take. apply Nat.min_l.
    destruct (decide (n <= length (newest_first created l))%nat) as [Hle|Hgt]; [exact Hle|].
    rewrite drop_ge in Hin by lia. apply not_elem_of_nil in Hin. contradiction.
  - intros y Hy. apply (StronglySorted_app_1_elem_of _ _ _ _ _ Hsorted Hy Hin).
Qed.

(** X7: what [getBackupHistory] returns for a limit [>= 0]: at most
    [limit] jobs, each one a row of [backup_jobs] of the policy asked for,
    no job twice, newest first; and a job of the policy is left out only
    when [limit] jobs are returned, all of them at least as new. *)
Theorem getBackupHistory_newest (policyID : string) (limit : Z) (w w' : World)
  (jobs : list BackupJob.t) :
  0 <= limit ->
  getBackupHistory policyID limit w = (inr jobs, w') ->
  (Z.of_nat (length jobs) <= limit) /\
  (forall job, job ∈ jobs ->
     BackupJob.PolicyID job = policyID /\
     exists row, backup_jobs (w_db w) !! BackupJob.ID job = Some row /\
                 job = job_of_row (BackupJob.ID job) row) /\
  NoDup (BackupJob.ID <$> jobs) /\
  StronglySorted (fun a b => BackupJob.CreatedAt b <= BackupJob.CreatedAt a) jobs /\
  (forall id row,
     backup_jobs (w_db w) !! id = Some row -> j_policy_id row = policyID ->
     job_of_row id row ∉ jobs ->
     Z.of_nat (length jobs) = limit /\
     forall job, job ∈ jobs -> j_created_at row <= BackupJob.CreatedAt job).
Proof.
  intros Hlimit Hrun. unfold getBackupHistory in Hrun. minv.
  match goal with
  | H : db_Query _ _ = _ |- _ => apply db_Query_inv in H as [_ Hrows]
  end.
  specialize (Hrows _ eq_refl). subst. rewrite sql_limit_take by exact Hlimit.
  set (rows := map_to_list (filter (fun kv : string * JobRow => j_policy_id kv.2 = policyID)
                              (backup_jobs (w_db w)))).
  set (created := fun kv : string * JobRow => j_created_at kv.2).
  assert (Hrow : forall kv, kv ∈ take (Z.to_nat limit) (newest_first created rows) ->
                            backup_jobs (w_db w) !! kv.1 = Some kv.2 /\ j_policy_id kv.2 = policyID).
  { intros [id row] Hin. apply subseteq_take in Hin. unfold newest_first in Hin.
    rewrite merge_sort_Permutation in Hin. apply elem_of_map_to_list in Hin.
    apply map_lookup_filter_Some in Hin. exact Hin. }
  split; [rewrite length_fmap, length_take; lia|]. split.
  { intros job Hjob. apply list_elem_of_fmap in Hjob as ([id row] & -> & Hin).
    apply Hrow in Hin as [Hlook Hpol]. split; [exact Hpol|]. exists row. auto. }
  split.
  { rewrite <- list_fmap_compose.
    eapply sublist_NoDup; [|apply fmap_sublist, sublist_take].
    unfold newest_first. rewrite merge_sort_Permutation.
    apply (NoDup_fst_map_to_list (filter _ (backup_jobs (w_db w)))). }
  split.
  { eapply StronglySorted_fmap; [|apply StronglySorted_take, StronglySorted_merge_sort; apply _].
    intros a b Hab. exact Hab. }
  intros id row Hlook Hpol Hout.
  destruct (newest_first_take created (Z.to_nat limit) rows (id, row)) as [Hlen Hnewer].
  - apply elem_of_map_to_list, map_lookup_filter_Some. auto.
  - intros Hin. apply Hout. apply list_elem_of_fmap. exists (id, row). auto.
  - split; [rewrite length_fmap, Hlen; lia|].
    intros job Hjob. apply list_elem_of_fmap in Hjob as (kv & -> & Hin).
    apply (Hnewer kv Hin).
Qed.

Lemma getBackupHistory_newest_witness :
  BackupJob.ID <$> history (w_db retention_world) "p1" 2 = ["j3"; "j2"] /\
  NoDup (BackupJob.ID <$> history (w_db retention_world) "p1" 2).
Proof.
  destruct (getBackupHistory_newest "p1" 2 retention_world retention_world
              (history (w_db retention_world) "p1" 2))
    as (_ & _ & Hnd & _ & _); [lia|vm_compute; reflexivity|].
  split; [vm_compute; reflexivity|exact Hnd].
Defined.

(** The loop that does not look at [rows.Err()] returns a beginning of
    the rows, all of them when no call to the driver fails, and never an
    error. *)
Lemma rows_unchecked_spec {A : Type} (rows : list A) (w : World) :
  exists got w',
    rows_unchecked rows w = (inr got, w') /\
    got `prefix_of` rows /\ w_db w' = w_db w /\
    (w_db_faults w = [] -> got = rows).
Proof.
  revert w. induction rows as [|row rows IH]; intros w; cbn [rows_unchecked].
  - exists [], (db_call w).2. split; [|split; [reflexivity|split; [|reflexivity]]].
    + rewrite bind_unfold. unfold try. destruct (db_call w). reflexivity.
    + pose proof (db_call_inv w (db_call w).2 (db_call w).1) as [faults ->];
        [destruct (db_call w); reflexivity|reflexivity].
  - rewrite bind_unfold. unfold try.
    destruct (db_call w) as [[e|[]] w1] eqn:Hcall.
    + exists [], w1. split; [reflexivity|]. split; [apply prefix_nil|].
      apply db_call_inv in Hcall as Hw. destruct Hw as [faults ->]. split; [reflexivity|].
      intros Hquiet. unfold db_call in Hcall. rewrite Hquiet in Hcall. discriminate Hcall.
    + destruct (IH w1) as (got & w' & Hrun & Hprefix & Hdb & Hall).
      exists (row :: got), w'. split; [erewrite bind_ok by exact Hrun; reflexivity|].
      split; [apply prefix_cons, Hprefix|].
      apply db_call_inv in Hcall as Hw. destruct Hw as [faults Hw].
      split; [rewrite Hdb, Hw; reflexivity|].
      intros Hquiet. unfold db_call in Hcall. rewrite Hquiet in Hcall.
      injection Hcall as <-. rewrite Hall by exact Hquiet. reflexivity.
Qed.

Lemma keeps_db_rows_unchecked {A : Type} (rows : list A) : keeps w_db (rows_unchecked rows).
Proof.
  intros w. destruct (rows_unchecked_spec rows w) as (got & w' & Hrun & _ & Hdb & _).
  rewrite Hrun. exact Hdb.
Qed.

#[global] Hint Resolve keeps_db_rows_unchecked : keeps.

(** X8: what [getAllPolicies] returns.  The list is a beginning of the
    table [backup_policies] in the order newest first: every policy in it
    is made of the ten selected columns of a row, no row is listed twice.
    [rows.Err()] is not looked at: a failure while the rows are read ends
    the list early and is not reported, so a row is left out only when a
    call to the driver fails, and then it is not newer than the rows
    listed.  While no call fails the list has every row. *)
Theorem getAllPolicies_lists_all (w w' : World) (policies : list BackupPolicy.t) :
  getAllPolicies w = (inr policies, w') ->
  NoDup (BackupPolicy.ID <$> policies) /\
  (forall policy, policy ∈ policies ->
     exists row, backup_policies (w_db w) !! BackupPolicy.ID policy = Some row /\
                 policy = listed_policy_of_row (BackupPolicy.ID policy) row) /\
  StronglySorted (fun a b => BackupPolicy.CreatedAt b <= BackupPolicy.CreatedAt a) policies /\
  (forall id row,
     backup_policies (w_db w) !! id = Some row ->
     listed_policy_of_row id row ∉ policies ->
     w_db_faults w <> [] /\
     forall policy, policy ∈ policies -> p_created_at row <= BackupPolicy.CreatedAt policy) /\
  (w_db_faults w = [] -> length policies = size (backup_policies (w_db w))).
Proof.
  intros Hrun. unfold getAllPolicies in Hrun.
  apply bind_inr in Hrun as (rows & w1 & Hquery & Hrun). apply wrap_inr in Hquery.
  pose proof Hquery as Hw1. apply db_Query_inv in Hw1 as [[faults Hw1] Hrows].
  specialize (Hrows _ eq_refl). subst rows.
  apply bind_inr in Hrun as (got & w2 & Hloop & Hrun). inversion Hrun; subst policies w2; clear Hrun.
  destruct (rows_unchecked_spec
              (newest_first (fun kv : string * PolicyRow => p_created_at kv.2)
                 (map_to_list (backup_policies (w_db w)))) w1)
    as (got' & w2 & Hloop' & [rest Hprefix] & _ & Hall).
  rewrite Hloop' in Hloop. injection Hloop as <- <-.
  set (created := fun kv : string * PolicyRow => p_created_at kv.2) in *.
  set (listed := fun kv : string * PolicyRow => listed_policy_of_row kv.1 kv.2).
  assert (Hperm : got' ++ rest ≡ₚ map_to_list (backup_policies (w_db w)))
    by (rewrite <- Hprefix; apply merge_sort_Permutation).
  assert (Hsorted : StronglySorted (not_older created) (got' ++ rest))
    by (rewrite <- Hprefix; apply StronglySorted_merge_sort; apply _).
  assert (Hrow : forall kv, kv ∈ got' -> backup_policies (w_db w) !! kv.1 = Some kv.2).
  { intros [id row] Hin. apply elem_of_map_to_list. rewrite <- Hperm.
    apply elem_of_app. left. exact Hin. }
  split.
  { rewrite <- list_fmap_compose. change ((BackupPolicy.ID ∘ listed) <$> got') with (got'.*1).
    pose proof (NoDup_fst_map_to_list (backup_policies (w_db w))) as Hnd.
    rewrite <- Hperm, fmap_app in Hnd. apply NoDup_app in Hnd as [Hnd _]. exact Hnd. }
  split.
  { intros policy Hin. apply list_elem_of_fmap in Hin as ([id row] & -> & Hin).
    exists row. split; [apply (Hrow _ Hin)|reflexivity]. }
  split.
  { eapply StronglySorted_fmap; [|eapply StronglySorted_app_1_l; exact Hsorted].
    intros a b Hab. exact Hab. }
  split.
  { intros id row Hlook Hout.
    assert (Hin : (id, row) ∈ got' ++ rest) by (rewrite Hperm; apply elem_of_map_to_list, Hlook).
    apply elem_of_app in Hin as [Hin|Hin].
    { destruct Hout. apply list_elem_of_fmap. exists (id, row). split; [reflexivity|exact Hin]. }
    split.
    - intros Hquiet.
      assert (Hw1q : w_db_faults w1 = []).
      { rewrite db_Query_ok in Hquery by exact Hquiet. injection Hquery as Hw.
        rewrite <- Hw. exact Hquiet. }
      specialize (Hall Hw1q). rewrite Hall in Hprefix.
      apply (f_equal length) in Hprefix. rewrite length_app in Hprefix.
      destruct rest; [inversion Hin|cbn in Hprefix; lia].
    - intros policy Hpolicy. apply list_elem_of_fmap in Hpolicy as (kv & -> & Hkv).
      apply (StronglySorted_app_1_elem_of _ _ _ _ _ Hsorted Hkv Hin). }
  intros Hquiet.
  assert (Hw1q : w_db_faults w1 = []).
  { rewrite db_Query_ok in Hquery by exact Hquiet. injection Hquery as Hw.
        rewrite <- Hw. exact Hquiet. }
  rewrite length_fmap, (Hall Hw1q). unfold newest_first.
  rewrite merge_sort_Permutation. apply length_map_to_list.
Qed.

(** Two policies.  With no failure both are listed; when the second read
    of a row fails, the newer one alone is returned, and no error. *)
Lemma getAllPolicies_lists_all_witness :
  let w := set_db (mkDB {[ "p1" := mkPolicyRow "docs" "/data" "/b" "" 1 true false "pw" 5 5;
                           "p2" := mkPolicyRow "mail" "/mail" "/b" "" 1 true false "pw" 9 9 ]}
                        ∅ ∅ ∅) empty_world in
  (exists policies w',
     getAllPolicies w = (inr policies, w') /\ BackupPolicy.ID <$> policies = ["p2"; "p1"]) /\
  (exists policies w',
     getAllPolicies (set_db_faults [false; false; true] w) = (inr policies, w') /\
     BackupPolicy.ID <$> policies = ["p2"] /\
     NoDup (BackupPolicy.ID <$> policies)).
Proof.
  cbv zeta. split.
  - eexists _, _. split; vm_compute; reflexivity.
  - set (w := set_db_faults [false; false; true] _).
    destruct (getAllPolicies w) as [[e|policies] w'] eqn:Hrun;
      [vm_compute in Hrun; discriminate Hrun|].
    destruct (getAllPolicies_lists_all w w' policies Hrun) as (Hnd & _).
    exists policies, w'. split; [reflexivity|]. split; [|exact Hnd].
    assert (policies = match (getAllPolicies w).1 with inr l => l | inl _ => [] end) as ->
      by (rewrite Hrun; reflexivity).
    vm_compute. reflexivity.
Defined.

(** ** The other sweeps of the retention engine *)

Section Sweeps.
Variable storage : StorageProvider.
Hypothesis Delete_db : forall remotePath, keeps w_db (Delete storage remotePath).

(** [deleteBackup] commits its three statements or none of them. *)
Lemma deleteBackup_db (backup : BackupJob.t) (w : World) :
  match deleteBackup storage backup w with
  | (inr _, w') => w_db w' = db_delete_backup (BackupJob.ID backup) (w_db w)
  | (inl _, w') => w_db w' = w_db w
  end.
Proof.
  destruct (deleteBackup storage backup w) as [[e|[]] w'] eqn:E;
    unfold deleteBackup, BeginTx, tx_Exec, tx_Commit, tx_Rollback in E;
    minv;
    repeat match goal with
           | H : Delete storage _ _ = (_, _) |- _ =>
               apply (keeps_run w_db _ _ _ _ (Delete_db _)) in H
           end;
    db_steps; cbn [w_db set_db set_db_faults ret snd] in *; unfold db_delete_backup;
    congruence.
Qed.

(** Whatever fails on the way, a deletion loop returns nil and leaves the
    catalog that the deletions of some of its backups, in order, give. *)
Lemma delete_each_db (warnMsg infoMsg : string) (backups : list BackupJob.t) (w : World) :
  exists done w',
    delete_each storage warnMsg infoMsg backups w = (inr tt, w') /\
    sublist done backups /\ w_db w' = db_delete_all done (w_db w).
Proof.
  revert w. induction backups as [|backup backups IH]; intros w.
  - exists [], w. split; [reflexivity|]. split; [constructor|reflexivity].
  - cbn [delete_each]. pose proof (deleteBackup_db backup w) as Hdb.
    destruct (deleteBackup storage backup w) as [[e|[]] w1] eqn:E.
    + erewrite bind_ok by (unfold try; rewrite E; reflexivity). cbv beta iota.
      erewrite bind_ok by reflexivity.
      destruct (IH (set_log (mkLog LevelWarn warnMsg (Some e) :: w_log w1) w1))
        as (done & w' & Hrun & Hsub & Hdb').
      exists done, w'. split; [exact Hrun|]. split; [apply sublist_cons, Hsub|].
      rewrite Hdb'. cbn [w_db set_log]. rewrite Hdb. reflexivity.
    + erewrite bind_ok by (unfold try; rewrite E; reflexivity). cbv beta iota.
      erewrite bind_ok by reflexivity.
      destruct (IH (set_log (mkLog LevelInfo infoMsg None :: w_log w1) w1))
        as (done & w' & Hrun & Hsub & Hdb').
      exists (backup :: done), w'. split; [exact Hrun|]. split; [apply sublist_skip, Hsub|].
      rewrite Hdb'. cbn [w_db set_log]. rewrite Hdb. reflexivity.
Qed.

(** X9: [cleanupOrphanedBackups] touches orphaned backups only, whatever
    fails on the way.  It returns an error only when its query fails, and
    then changes nothing in the catalog.  The table of policies is never
    changed; a job that is not a completed job without a policy keeps its
    row, and its result and file rows stay; an orphaned job keeps its row
    or has it marked [deleted], never removed; no row is added. *)
Theorem cleanupOrphanedBackups_frame (w : World) :
  let d := w_db w in
  let d' := w_db (cleanupOrphanedBackups storage w).2 in
  ((cleanupOrphanedBackups storage w).1 = inr tt \/
   exists e, (cleanupOrphanedBackups storage w).1 = inl (Wrap "get orphaned backups" e) /\
             d' = d) /\
  backup_policies d' = backup_policies d /\
  (forall id, ~ orphaned d id -> backup_jobs d' !! id = backup_jobs d !! id) /\
  (forall id, backup_jobs d' !! id = backup_jobs d !! id \/
              backup_jobs d' !! id = mark_deleted <$> backup_jobs d !! id) /\
  (forall k row, backup_results d' !! k = Some row -> backup_results d !! k = Some row) /\
  (forall k row, backup_results d !! k = Some row -> ~ orphaned d (r_job_id row) ->
                 backup_results d' !! k = Some row) /\
  (forall k row, backup_files d' !! k = Some row -> backup_files d !! k = Some row) /\
  (forall k row, backup_files d !! k = Some row -> ~ orphaned d (f_job_id row) ->
                 backup_files d' !! k = Some row).
Proof.
  cbn zeta. unfold cleanupOrphanedBackups.
  destruct (wrap "get orphaned backups" (db_Query orphaned_rows) w) as [[e|rows] w1] eqn:Hq.
  { erewrite bind_err by exact Hq. cbn [fst snd].
    apply wrap_inv in Hq as [(e' & Hq & [= ->])|(a & _ & [=])].
    apply db_Query_inv in Hq as [[faults ->] _]. cbn [w_db set_db_faults].
    split; [right; eauto|]. repeat split; auto. }
  erewrite bind_ok by exact Hq.
  apply wrap_inr, db_Query_inv in Hq as [[faults ->] Hrows].
  specialize (Hrows _ eq_refl). subst rows.
  erewrite bind_ok by reflexivity.
  set (orphans := (fun kv : string * JobRow => scanned_job kv.1 "" "" _ _) <$> _).
  match goal with
  | |- context [(delete_each storage ?a ?b orphans ≫= _) ?w0] =>
      destruct (delete_each_db a b orphans w0) as (done & w2 & Hrun & Hsub & Hdb)
  end.
  erewrite bind_ok by exact Hrun. cbn [log fst snd w_db set_log set_db_faults] in *.
  rewrite Hdb. clear Hrun Hdb w2.
  assert (Hdone : forall id, id ∈ BackupJob.ID <$> done -> orphaned (w_db w) id).
  { intros id Hid. apply list_elem_of_fmap in Hid as (b & -> & Hb).
    eapply elem_of_sublist in Hb; [|exact Hsub].
    apply list_elem_of_fmap in Hb as ([id row] & -> & Hin).
    apply list_elem_of_filter in Hin as [[Hnone Hstatus] Hin].
    apply elem_of_map_to_list in Hin. exists row. auto. }
  split; [left; reflexivity|].
  split; [apply db_delete_all_policies|].
  split.
  { intros id Hid. rewrite db_delete_all_jobs, decide_False; [reflexivity|].
    intros Hin. apply Hid, Hdone, Hin. }
  split.
  { intros id. rewrite db_delete_all_jobs. case_decide; auto. }
  split; [intros k row Hrow; apply db_delete_all_results in Hrow as [Hrow _]; exact Hrow|].
  split.
  { intros k row Hrow Hid. apply db_delete_all_results. split; [exact Hrow|].
    intros Hin. apply Hid, Hdone, Hin. }
  split; [intros k row Hrow; apply db_delete_all_files in Hrow as [Hrow _]; exact Hrow|].
  intros k row Hrow Hid. apply db_delete_all_files. split; [exact Hrow|].
  intros Hin. apply Hid, Hdone, Hin.
Qed.

End Sweeps.

Lemma cleanupOrphanedBackups_frame_witness :
  j_status <$> backup_jobs (w_db (cleanupOrphanedBackups S3Storage.provider orphan_world).2)
  = {[ "j1" := JobStatusCompleted; "j2" := JobStatusDeleted; "j3" := JobStatusFailed ]} /\
  backup_jobs (w_db (cleanupOrphanedBackups S3Storage.provider orphan_world).2) !! "j1"
  = backup_jobs (w_db orphan_world) !! "j1".
Proof.
  split; [vm_compute; reflexivity|].
  destruct (cleanupOrphanedBackups_frame S3Storage.provider keeps_db_S3_Delete orphan_world)
    as (_ & _ & Hkept & _).
  apply Hkept. intros (row & Hrow & Hnone & _). vm_compute in Hrow. injection Hrow as <-.
  apply Hnone. vm_compute. eauto.
Defined.

Lemma keeps_faults_S3_Delete remotePath :
  keeps w_db_faults (Delete S3Storage.provider remotePath).
Proof.
  cbn [Delete S3Storage.provider]. unfold S3Storage.Delete.
  apply keeps_bind; [keeps_prim net_call|intros ?]. apply keeps_modify. reflexivity.
Qed.

(** The catalog after the job rows of [done] are deleted one by one. *)
Lemma delete_jobs_lookup (done : list BackupJob.t) (d : DB) :
  let d' := foldl (fun d backup => sql_delete_job (BackupJob.ID backup) d) d done in
  backup_policies d' = backup_policies d /\
  backup_results d' = backup_results d /\
  backup_files d' = backup_files d /\
  forall id, backup_jobs d' !! id
             = if decide (id ∈ BackupJob.ID <$> done) then None else backup_jobs d !! id.
Proof.
  cbn zeta. revert d. induction done as [|b done IH]; intros d; cbn [foldl].
  - split; [reflexivity|]. split; [reflexivity|]. split; [reflexivity|].
    intros id. rewrite decide_False by apply not_elem_of_nil. reflexivity.
  - destruct (IH (sql_delete_job (BackupJob.ID b) d)) as (-> & -> & -> & Hjobs).
    split; [reflexivity|]. split; [reflexivity|]. split; [reflexivity|]. intros id. rewrite Hjobs, fmap_cons. cbn [backup_jobs sql_delete_job set_jobs].
    destruct (decide (id = BackupJob.ID b)) as [->|Hne].
    + rewrite lookup_delete_eq.
      rewrite (decide_True (P := BackupJob.ID b ∈ BackupJob.ID b :: _)) by apply list_elem_of_here.
      case_decide; reflexivity.
    + rewrite lookup_delete_ne by congruence.
      case_decide as Hin.
      * rewrite decide_True by (apply list_elem_of_further; exact Hin). reflexivity.
      * rewrite decide_False; [reflexivity|].
        intros Hin'. apply elem_of_cons in Hin' as [?|?]; contradiction.
Qed.

Lemma db_Exec_inv (stmt : DB -> DB) (w w' : World) (r : result unit) :
  db_Exec stmt w = (r, w') ->
  match r with
  | inr _ => w_db w' = stmt (w_db w) /\ (w_db_faults w = [] -> w_db_faults w' = [])
  | inl _ => w_db w' = w_db w /\ w_db_faults w <> []
  end.
Proof.
  unfold db_Exec, db_call. rewrite bind_unfold.
  destruct (w_db_faults w) as [|[] faults] eqn:Hf; cbn; intros [= <- <-]; cbn.
  - split; [reflexivity|]. intros _. exact Hf.
  - split; [reflexivity|discriminate].
  - split; [reflexivity|discriminate].
Qed.

Section FailedSweep.
Variable storage : StorageProvider.
Hypothesis Delete_db : forall remotePath, keeps w_db (Delete storage remotePath).
Hypothesis Delete_faults : forall remotePath, keeps w_db_faults (Delete storage remotePath).

Lemma delete_failed_db (failedBackups : list BackupJob.t) (w : World) :
  exists done w',
    delete_failed storage failedBackups w = (inr tt, w') /\
    sublist done failedBackups /\
    w_db w' = foldl (fun d backup => sql_delete_job (BackupJob.ID backup) d) (w_db w) done /\
    (w_db_faults w = [] -> done = failedBackups).
Proof.
  revert w. induction failedBackups as [|backup rest IH]; intros w.
  - exists [], w. split; [reflexivity|]. split; [constructor|]. split; reflexivity.
  - cbn [delete_failed].
    destruct (db_Exec (sql_delete_job (BackupJob.ID backup)) w) as [[e|[]] w1] eqn:E;
      pose proof (db_Exec_inv _ _ _ _ E) as [Hdb1 Hf1]; cbv beta iota in Hdb1, Hf1.
    + erewrite bind_ok by (unfold try; rewrite E; reflexivity). cbv beta iota.
      erewrite bind_ok by reflexivity.
      match goal with
      | |- context [delete_failed storage rest ?w0] =>
          destruct (IH w0) as (done & w' & Hrun & Hsub & Hdb & _)
      end.
      exists done, w'. split; [exact Hrun|]. split; [apply sublist_cons, Hsub|].
      split; [rewrite Hdb; cbn [w_db set_log]; rewrite Hdb1; reflexivity|].
      intros Hf. contradiction.
    + erewrite bind_ok by (unfold try; rewrite E; reflexivity). cbv beta iota.
      assert (Hstep : exists w2,
        ((if String.eqb (BackupJob.BackupPath backup) "" then ret tt
          else
            r ← try (Delete storage (BackupJob.BackupPath backup));
            match r with
            | inl e => log LevelWarn "error deleting file of failed backup" (Some e)
            | inr _ => ret tt
            end);;
         log LevelInfo "failed backup deleted" None) w1 = (inr tt, w2) /\
        w_db w2 = w_db w1 /\ w_db_faults w2 = w_db_faults w1).
      { destruct (String.eqb (BackupJob.BackupPath backup) "").
        - eexists. split; [reflexivity|]. split; reflexivity.
        - pose proof (Delete_db (BackupJob.BackupPath backup) w1) as Hd.
          pose proof (Delete_faults (BackupJob.BackupPath backup) w1) as Hf.
          destruct (Delete storage (BackupJob.BackupPath backup) w1) as [[e|[]] w2] eqn:Hdel;
            (erewrite bind_ok;
             [|erewrite bind_ok by (unfold try; rewrite Hdel; reflexivity); reflexivity]);
            eexists; (split; [reflexivity|]); split; assumption. }
      destruct Hstep as (w2 & Hstep & Hdb2 & Hf2).
      erewrite bind_ok by exact Hstep.
      destruct (IH w2) as (done & w' & Hrun & Hsub & Hdb & Hall).
      exists (backup :: done), w'. split; [exact Hrun|]. split; [apply sublist_skip, Hsub|].
      split.
      * rewrite Hdb, Hdb2, Hdb1. reflexivity.
      * intros Hf. f_equal. apply Hall. rewrite Hf2. apply Hf1, Hf.
Qed.

(** X10: [cleanupFailedBackups] deletes job rows only, and only those of
    failed jobs that the query selects, whatever fails on the way.  The
    query compares texts: it selects a job when the wall clock of UTC at
    its creation, to the second, is not after the wall clock of the local
    zone at the cutoff [now - olderThan]; in a zone east of UTC this
    reaches jobs younger than the cutoff, in a zone west of it jobs older
    than the cutoff are passed over.  The call returns an error only when
    its query fails, and then changes nothing in the catalog.  The tables
    of policies, results and files are never changed: the result and file
    rows of a deleted job stay behind.  When no call to the database
    fails, every failed job that the query selects is deleted, whether or
    not the storage deleted its artifact. *)
Theorem cleanupFailedBackups_frame (olderThan : Z) (w : World) :
  let d := w_db w in
  let d' := w_db (cleanupFailedBackups storage olderThan w).2 in
  let cutoffTime := w_clock w - olderThan in
  ((cleanupFailedBackups storage olderThan w).1 = inr tt \/
   exists e, (cleanupFailedBackups storage olderThan w).1 = inl (Wrap "get failed backups" e) /\
             d' = d) /\
  backup_policies d' = backup_policies d /\
  backup_results d' = backup_results d /\
  backup_files d' = backup_files d /\
  (forall id, backup_jobs d' !! id = backup_jobs d !! id \/
              backup_jobs d' !! id = None /\
              exists row, backup_jobs d !! id = Some row /\
                          j_status row = JobStatusFailed /\
                          stored_before (w_zone w) (j_created_at row) cutoffTime) /\
  (w_db_faults w = [] ->
   forall id row, backup_jobs d !! id = Some row ->
                  j_status row = JobStatusFailed ->
                  stored_before (w_zone w) (j_created_at row) cutoffTime ->
                  backup_jobs d' !! id = None).
Proof.
  cbn zeta. unfold cleanupFailedBackups.
  erewrite bind_ok by reflexivity. erewrite bind_ok by reflexivity.
  destruct (wrap "get failed backups"
              (db_Query (failed_rows (w_zone w) (w_clock w - olderThan))) w)
    as [[e|rows] w1] eqn:Hq.
  { erewrite bind_err by exact Hq. cbn [fst snd].
    assert (Hf : w_db_faults w <> []).
    { intros Hf. unfold wrap in Hq. rewrite db_Query_ok in Hq by exact Hf. discriminate Hq. }
    apply wrap_inv in Hq as [(e' & Hq & [= ->])|(a & _ & [=])].
    apply db_Query_inv in Hq as [[faults ->] _]. cbn [w_db set_db_faults].
    split; [right; eauto|]. repeat split; auto. intros; contradiction. }
  erewrite bind_ok by exact Hq.
  assert (Hfaults : w_db_faults w = [] -> w_db_faults w1 = []).
  { intros Hf. unfold wrap in Hq. rewrite db_Query_ok in Hq by exact Hf.
    injection Hq as _ <-. exact Hf. }
  apply wrap_inr, db_Query_inv in Hq as [[faults ->] Hrows].
  specialize (Hrows _ eq_refl). subst rows.
  erewrite bind_ok by reflexivity.
  set (failed := (fun kv : string * JobRow => scanned_job kv.1 _ _ _ _) <$> _).
  match goal with
  | |- context [(delete_failed storage failed ≫= _) ?w0] =>
      destruct (delete_failed_db failed w0) as (done & w2 & Hrun & Hsub & Hdb & Hall)
  end.
  erewrite bind_ok by exact Hrun. cbn [log fst snd w_db w_db_faults set_log set_db_faults] in *.
  rewrite Hdb. clear Hrun Hdb w2.
  destruct (delete_jobs_lookup done (w_db w)) as (Hp & Hr & Hfi & Hjobs).
  assert (Hfailed : forall id, id ∈ BackupJob.ID <$> failed ->
            exists row, backup_jobs (w_db w) !! id = Some row /\
                        j_status row = JobStatusFailed /\
                        stored_before (w_zone w) (j_created_at row) (w_clock w - olderThan)).
  { intros id Hid. apply list_elem_of_fmap in Hid as (b & -> & Hb).
    apply list_elem_of_fmap in Hb as ([id row] & -> & Hin).
    apply list_elem_of_filter in Hin as [[Hstatus Hold] Hin].
    apply elem_of_map_to_list in Hin. exists row. auto. }
  split; [left; reflexivity|]. split; [exact Hp|]. split; [exact Hr|]. split; [exact Hfi|].
  split.
  - intros id. rewrite Hjobs. case_decide as Hin; [right|left; reflexivity].
    split; [reflexivity|]. apply Hfailed.
    apply list_elem_of_fmap in Hin as (b & -> & Hb). apply list_elem_of_fmap_2.
    eapply elem_of_sublist; eassumption.
  - intros Hf id row Hrow Hstatus Hold. rewrite Hjobs, (Hall (Hfaults Hf)).
    rewrite decide_True; [reflexivity|].
    unfold failed. rewrite <- list_fmap_compose.
    apply list_elem_of_fmap. exists (id, row). split; [reflexivity|].
    apply list_elem_of_filter. split; [split; assumption|].
    apply elem_of_map_to_list, Hrow.
Qed.

End FailedSweep.

Lemma cleanupFailedBackups_frame_witness :
  backup_jobs (w_db (cleanupFailedBackups S3Storage.provider 2000000000000 zone_world).2)
    !! "late" = None /\
  backup_jobs (w_db (cleanupFailedBackups S3Storage.provider 2000000000000
                       (set_zone (-7200) zone_world)).2) !! "early"
  = backup_jobs (w_db zone_world) !! "early".
Proof.
  split.
  - destruct (cleanupFailedBackups_frame S3Storage.provider keeps_db_S3_Delete
                keeps_faults_S3_Delete 2000000000000 zone_world)
      as (_ & _ & _ & _ & _ & Hgone).
    eapply (Hgone eq_refl "late"); [reflexivity|reflexivity|].
    vm_compute. discriminate.
  - destruct (cleanupFailedBackups_frame S3Storage.provider keeps_db_S3_Delete
                keeps_faults_S3_Delete 2000000000000 (set_zone (-7200) zone_world))
      as (_ & _ & _ & _ & Hframe & _).
    destruct (Hframe "early") as [Hsame|(_ & row & Hrow & _ & Hold)]; [exact Hsame|].
    exfalso. vm_compute in Hrow. injection Hrow as <-.
    vm_compute in Hold. apply Hold. reflexivity.
Defined.

Lemma NoDup_fmap_eq {A B : Type} (f : A -> B) (l : list A) (a b : A) :
  NoDup (f <$> l) -> a ∈ l -> b ∈ l -> f a = f b -> a = b.
Proof.
  induction l as [|x l IH]; intros Hnd Ha Hb Heq.
  - apply not_elem_of_nil in Ha. contradiction.
  - rewrite fmap_cons in Hnd. apply NoDup_cons in Hnd as [Hx Hnd].
    apply elem_of_cons in Ha as [->|Ha]; apply elem_of_cons in Hb as [->|Hb].
    + reflexivity.
    + exfalso. apply Hx. rewrite Heq. apply list_elem_of_fmap_2, Hb.
    + exfalso. apply Hx. rewrite <- Heq. apply list_elem_of_fmap_2, Ha.
    + apply IH; assumption.
Qed.

Section AgeRetention.
Variable storage : StorageProvider.
Variable model : StoreModel storage.

(** A deletion loop over backups that are all present, under pairwise
    distinct paths and without failing calls: every one is deleted. *)
Lemma delete_each_ok (warnMsg infoMsg : string) (l : list BackupJob.t) (w : World) :
  quiet w ->
  NoDup (BackupJob.BackupPath <$> l) ->
  (forall b, b ∈ l -> present model w (BackupJob.BackupPath b) = true) ->
  exists w', delete_each storage warnMsg infoMsg l w = (inr tt, w') /\ quiet w' /\
             w_db w' = db_delete_all l (w_db w) /\
             (forall b, b ∈ l -> present model w' (BackupJob.BackupPath b) = false) /\
             (forall q, q ∉ BackupJob.BackupPath <$> l -> present model w' q = present model w q).
Proof.
  revert w. induction l as [|b l IH]; intros w Hq Hnd Hall.
  - exists w. split; [reflexivity|]. split; [exact Hq|]. split; [reflexivity|].
    split; [intros b Hb; apply not_elem_of_nil in Hb; contradiction|reflexivity].
  - rewrite fmap_cons in Hnd. apply NoDup_cons in Hnd as [Hfresh Hnd].
    destruct (deleteBackup_ok storage model b w Hq (Hall b (list_elem_of_here _ _)))
      as (w1 & Hdel & Hq1 & Hdb1 & Hgone & Hothers).
    cbn [delete_each].
    erewrite bind_ok by (unfold try; rewrite Hdel; reflexivity).
    cbv beta iota. erewrite bind_ok by reflexivity.
    destruct (IH (set_log (mkLog LevelInfo infoMsg None :: w_log w1) w1))
      as (w' & Hloop & Hq' & Hdb' & Hgone' & Hothers').
    + exact Hq1.
    + exact Hnd.
    + intros b' Hb'. rewrite present_set_log, Hothers.
      * apply Hall. apply list_elem_of_further, Hb'.
      * intros Heq. apply Hfresh. rewrite <- Heq. apply list_elem_of_fmap_2, Hb'.
    + exists w'. split; [exact Hloop|]. split; [exact Hq'|].
      split; [rewrite Hdb'; cbn [w_db set_log]; rewrite Hdb1; reflexivity|]. split.
      * intros b' Hb'. apply elem_of_cons in Hb' as [->|Hb'].
        -- rewrite Hothers' by exact Hfresh. rewrite present_set_log. exact Hgone.
        -- apply Hgone', Hb'.
      * intros q Hq0. rewrite fmap_cons in Hq0. apply not_elem_of_cons in Hq0 as [Hne Hq0].
        rewrite Hothers' by exact Hq0. rewrite present_set_log. apply Hothers, Hne.
Qed.

(** X11: age-based retention, for a storage backend as described by
    [StoreModel] (the S3 backend, by [S3Model]; not the local backend).
    With [maxAge <= 0] the call returns nil and does nothing at all.  With
    [maxAge > 0], while no database or storage call fails and the verified
    completed backups of the policy have pairwise distinct artifact paths,
    it returns nil, deletes every verified backup created before
    [now - maxAge] (artifact removed, result and file rows gone, job row
    marked [deleted]) and retains every other one, whatever their number:
    a policy whose backups are all too old is left with none. *)
Theorem applyAgeBasedRetention_by_age (policy : BackupPolicy.t) (maxAge : Z) (w : World) :
  quiet w ->
  (maxAge <= 0 -> applyAgeBasedRetention storage policy maxAge w = (inr tt, w)) /\
  (0 < maxAge ->
   forall backups w1,
     getBackupsForPolicy storage policy w = (inr backups, w1) ->
     NoDup (BackupJob.BackupPath <$> backups) ->
     exists w',
       applyAgeBasedRetention storage policy maxAge w = (inr tt, w') /\
       (forall b, b ∈ backups -> BackupJob.CreatedAt b < w_clock w - maxAge ->
                  backup_deleted model w w' b) /\
       (forall a, a ∈ backups -> w_clock w - maxAge <= BackupJob.CreatedAt a ->
                  backup_retained model w w' a)).
Proof.
  intros Hq. split.
  { intros Hage. unfold applyAgeBasedRetention. rewrite (proj2 (Z.leb_le _ _) Hage). reflexivity. }
  intros Hage backups w1 Hlist Hpaths.
  destruct (getBackupsForPolicy_quiet storage model policy w Hq) as (lg & Hspec).
  rewrite Hspec in Hlist. injection Hlist as Hbackups Hw1.
  set (cutoffTime := w_clock w - maxAge).
  set (deleted := filter (fun backup => BackupJob.CreatedAt backup < cutoffTime) backups).
  assert (Hlisted : forall b, b ∈ backups ->
            present model w (BackupJob.BackupPath b) = true /\
            BackupJob.Status b = JobStatusCompleted /\
            exists row, backup_jobs (w_db w) !! BackupJob.ID b = Some row /\
                        b = job_of_row (BackupJob.ID b) row).
  { intros b Hb. rewrite <- Hbackups in Hb. unfold confirmed in Hb.
    apply list_elem_of_filter in Hb as [Hp Hb].
    apply list_elem_of_filter in Hb as [[Hs _] Hb].
    split; [exact Hp|]. split; [exact Hs|]. eapply history_row, Hb. }
  assert (Hids : NoDup (BackupJob.ID <$> backups)).
  { rewrite <- Hbackups. unfold confirmed.
    eapply sublist_NoDup; [apply history_NoDup|].
    apply fmap_sublist. etransitivity; apply sublist_filter. }
  assert (Hin_deleted : forall b, b ∈ deleted <-> b ∈ backups /\ BackupJob.CreatedAt b < cutoffTime).
  { intros b. unfold deleted. rewrite list_elem_of_filter. tauto. }
  assert (Hinj : forall a b, a ∈ backups -> b ∈ backups ->
                             BackupJob.ID a = BackupJob.ID b -> a = b).
  { intros a b Ha Hb Heq. exact (NoDup_fmap_eq BackupJob.ID backups a b Hids Ha Hb Heq). }
  assert (Hpath_inj : forall a b, a ∈ backups -> b ∈ backups ->
                                  BackupJob.BackupPath a = BackupJob.BackupPath b -> a = b).
  { intros a b Ha Hb Heq.
    exact (NoDup_fmap_eq BackupJob.BackupPath backups a b Hpaths Ha Hb Heq). }
  set (w2 := set_log (mkLog LevelInfo "start applying age-based retention" None :: lg) w).
  destruct (delete_each_ok "error deleting old backup" "old backup deleted" deleted w2)
    as (w3 & Hloop & Hq3 & Hdb3 & Hgone & Hothers).
  { exact Hq. }
  { eapply sublist_NoDup; [exact Hpaths|]. apply fmap_sublist, sublist_filter. }
  { intros b Hb. unfold w2. rewrite present_set_log. apply Hlisted, Hin_deleted, Hb. }
  exists (set_log (mkLog LevelInfo "age-based retention applied" None :: w_log w3) w3).
  split.
  { unfold applyAgeBasedRetention.
    rewrite (proj2 (Z.leb_gt _ _) Hage).
    erewrite bind_ok by reflexivity.
    erewrite bind_ok by (apply wrap_ok; exact Hspec). rewrite Hbackups.
    erewrite bind_ok by reflexivity.
    fold cutoffTime. fold deleted.
    change (set_log _ (set_log lg w)) with w2.
    erewrite bind_ok by exact Hloop. reflexivity. }
  unfold w2 in Hdb3. cbn [w_db set_log] in Hdb3. split.
  - intros b Hb Hold. assert (Hbd : b ∈ deleted) by (apply Hin_deleted; auto).
    destruct (Hlisted b Hb) as (_ & _ & row & Hrow & _).
    unfold backup_deleted. cbn [w_db set_log]. rewrite present_set_log, Hdb3.
    split; [apply Hgone, Hbd|]. split; [|split].
    + exists row. split; [exact Hrow|].
      rewrite db_delete_all_jobs, decide_True by (apply list_elem_of_fmap_2, Hbd).
      rewrite Hrow. reflexivity.
    + intros k r Hr Heq. apply db_delete_all_results in Hr as [_ Hnot].
      apply Hnot. rewrite Heq. apply list_elem_of_fmap_2, Hbd.
    + intros k r Hr Heq. apply db_delete_all_files in Hr as [_ Hnot].
      apply Hnot. rewrite Heq. apply list_elem_of_fmap_2, Hbd.
  - intros a Ha Hnew. destruct (Hlisted a Ha) as (Hp & Hs & row & Hrow & Hjob).
    assert (Hid : BackupJob.ID a ∉ BackupJob.ID <$> deleted).
    { intros Hin. apply list_elem_of_fmap in Hin as (b & Heq & Hb).
      apply Hin_deleted in Hb as [Hb Hold].
      rewrite (Hinj a b Ha Hb Heq) in Hnew. lia. }
    assert (Hpath : BackupJob.BackupPath a ∉ BackupJob.BackupPath <$> deleted).
    { intros Hin. apply list_elem_of_fmap in Hin as (b & Heq & Hb).
      apply Hin_deleted in Hb as [Hb Hold].
      rewrite (Hpath_inj a b Ha Hb Heq) in Hnew. lia. }
    unfold backup_retained. cbn [w_db set_log]. rewrite present_set_log, Hdb3.
    split; [|split; [|split]].
    + rewrite Hothers by exact Hpath. unfold w2. rewrite present_set_log. exact Hp.
    + exists row. split; [exact Hrow|]. split.
      * rewrite db_delete_all_jobs, decide_False by exact Hid. exact Hrow.
      * rewrite Hjob in Hs. exact Hs.
    + intros k r Hr Heq. apply db_delete_all_results. split; [exact Hr|].
      rewrite Heq. exact Hid.
    + intros k r Hr Heq. apply db_delete_all_files. split; [exact Hr|].
      rewrite Heq. exact Hid.
Qed.

End AgeRetention.

Lemma applyAgeBasedRetention_by_age_witness :
  exists w',
    applyAgeBasedRetention S3Storage.provider retention_policy 75 retention_world = (inr tt, w') /\
    w_objects w' = {[ "docs/c" := [3] ]} /\
    j_status <$> backup_jobs (w_db w') = {[ "j1" := JobStatusDeleted;
                                             "j2" := JobStatusDeleted;
                                             "j3" := JobStatusCompleted ]}.
Proof.
  destruct (applyAgeBasedRetention_by_age S3Storage.provider S3Model
              retention_policy 75 retention_world) as [_ Hpositive].
  - split; reflexivity.
  - destruct (Hpositive ltac:(lia) retention_listed
                (getBackupsForPolicy S3Storage.provider retention_policy retention_world).2)
      as (w' & Hrun & _).
    + vm_compute. reflexivity.
    + apply (bool_decide_unpack _). vm_compute. reflexivity.
    + exists w'. split; [exact Hrun|].
      assert (w' = (applyAgeBasedRetention S3Storage.provider retention_policy 75
                      retention_world).2) as -> by (rewrite Hrun; reflexivity).
      split; vm_compute; reflexivity.
Defined.

#[global] Instance only_backups_deleted_preorder : PreOrder only_backups_deleted.
Proof.
  split.
  - intros d. repeat split; auto.
  - intros d1 d2 d3 (Hp12 & Hj12 & Hr12 & Hf12) (Hp23 & Hj23 & Hr23 & Hf23).
    split; [congruence|]. split; [|split; auto].
    intros id. destruct (Hj12 id) as [E12|E12], (Hj23 id) as [E23|E23];
      rewrite E23, E12; auto.
    right. destruct (backup_jobs d1 !! id); reflexivity.
Qed.

Lemma db_delete_all_only (done : list BackupJob.t) (d : DB) :
  only_backups_deleted d (db_delete_all done d).
Proof.
  split; [apply db_delete_all_policies|]. split; [|split].
  - intros id. rewrite db_delete_all_jobs. case_decide; auto.
  - intros k row Hrow. apply db_delete_all_results in Hrow as [Hrow _]. exact Hrow.
  - intros k row Hrow. apply db_delete_all_files in Hrow as [Hrow _]. exact Hrow.
Qed.

Section RetentionSweep.
Variable storage : StorageProvider.
Hypothesis Exists_db : forall remotePath, keeps w_db (Exists storage remotePath).
Hypothesis Delete_db : forall remotePath, keeps w_db (Delete storage remotePath).

Lemma delete_backups_db (backups : list BackupJob.t) (w : World) :
  exists done w',
    delete_backups storage backups w = (inr tt, w') /\
    sublist done backups /\ w_db w' = db_delete_all done (w_db w).
Proof.
  revert w. induction backups as [|backup backups IH]; intros w.
  - exists [], w. split; [reflexivity|]. split; [constructor|reflexivity].
  - cbn [delete_backups]. pose proof (deleteBackup_db storage Delete_db backup w) as Hdb.
    destruct (deleteBackup storage backup w) as [[e|[]] w1] eqn:E.
    + erewrite bind_ok by (unfold try; rewrite E; reflexivity). cbv beta iota.
      erewrite bind_ok by reflexivity.
      destruct (IH (set_log (mkLog LevelWarn "error deleting backup" (Some e) :: w_log w1) w1))
        as (done & w' & Hrun & Hsub & Hdb').
      exists done, w'. split; [exact Hrun|]. split; [apply sublist_cons, Hsub|].
      rewrite Hdb'. cbn [w_db set_log]. rewrite Hdb. reflexivity.
    + erewrite bind_ok by (unfold try; rewrite E; reflexivity). cbv beta iota.
      erewrite bind_ok by reflexivity.
      destruct (IH (set_log (mkLog LevelInfo "backup deleted" None :: w_log w1) w1))
        as (done & w' & Hrun & Hsub & Hdb').
      exists (backup :: done), w'. split; [exact Hrun|]. split; [apply sublist_skip, Hsub|].
      rewrite Hdb'. cbn [w_db set_log]. rewrite Hdb. reflexivity.
Qed.

Lemma keeps_db_verify (l : list BackupJob.t) : keeps w_db (verify_backups storage l).
Proof.
  induction l as [|backup l IH]; cbn [verify_backups]; unfold backupExists; auto 20 with keeps.
Qed.

Lemma cleanupOldBackups_only (policy : BackupPolicy.t) (w : World) :
  only_backups_deleted (w_db w) (w_db (cleanupOldBackups storage policy w).2).
Proof.
  unfold cleanupOldBackups.
  destruct (BackupPolicy.RetentionCount policy <=? 0); [reflexivity|].
  assert (Hlist : keeps w_db (wrap "list backups" (getBackupsForPolicy storage policy))).
  { pose proof keeps_db_verify. unfold getBackupsForPolicy. auto 10 with keeps. }
  specialize (Hlist w). rewrite bind_unfold.
  destruct (wrap "list backups" (getBackupsForPolicy storage policy) w) as [[e|backups] w1];
    cbn [snd] in *; [rewrite Hlist; reflexivity|].
  destruct (Z.of_nat (length backups) <=? BackupPolicy.RetentionCount policy);
    [cbn [log snd w_db set_log]; rewrite Hlist; reflexivity|].
  erewrite bind_ok by reflexivity.
  match goal with
  | |- context [(delete_backups storage ?l ≫= _) ?w0] =>
      destruct (delete_backups_db l w0) as (done & w2 & Hrun & _ & Hdb)
  end.
  erewrite bind_ok by exact Hrun. cbn [log snd w_db set_log] in *. rewrite Hdb, Hlist.
  apply db_delete_all_only.
Qed.

(** X12: [applyRetentionPolicies] fails only when the policies cannot be
    listed; once they are, it returns nil whatever the clean-ups of the
    single policies do.  And whatever fails on the way, the sweep changes
    the catalog only by deleting backups: no policy row changes, no job
    row is removed or changed other than by having its status set to
    [deleted], no result or file row is added or changed. *)
Theorem applyRetentionPolicies_sweep (w : World) :
  (applyRetentionPolicies storage w).1
  = match (getAllPolicies w).1 with
    | inl e => inl (Wrap "get policies" e)
    | inr _ => inr tt
    end /\
  only_backups_deleted (w_db w) (w_db (applyRetentionPolicies storage w).2).
Proof.
  unfold applyRetentionPolicies.
  assert (Hlist : w_db (getAllPolicies w).2 = w_db w).
  { assert (keeps w_db getAllPolicies) as Hk by (unfold getAllPolicies; auto 10 with keeps).
    apply Hk. }
  destruct (getAllPolicies w) as [[e|policies] w1] eqn:E; cbn [fst snd] in *.
  { erewrite bind_err by (unfold wrap; rewrite E; reflexivity).
    split; [reflexivity|]. cbn [snd]. rewrite Hlist. reflexivity. }
  erewrite bind_ok by (apply wrap_ok; exact E).
  erewrite bind_ok by reflexivity.
  match goal with
  | |- context [(_ ≫= _) ?w0] => set (w2 := w0)
  end.
  assert (Hw2 : only_backups_deleted (w_db w) (w_db w2)) by (cbn; rewrite Hlist; reflexivity).
  clearbody w2. clear Hlist E w1.
  assert (Hloop : exists w3,
    foldr (fun policy rest =>
             r ← try (cleanupOldBackups storage policy);
             match r with
             | inl e => log LevelWarn "error applying retention policy" (Some e)
             | inr _ => ret tt
             end;;
             rest)
          (ret tt) policies w2 = (inr tt, w3) /\ only_backups_deleted (w_db w) (w_db w3)).
  { revert w2 Hw2. induction policies as [|policy policies IH]; intros w2 Hw2; cbn [foldr].
    - exists w2. split; [reflexivity|exact Hw2].
    - pose proof (cleanupOldBackups_only policy w2) as Hstep.
      destruct (cleanupOldBackups storage policy w2) as [[e|[]] w3] eqn:E; cbn [snd] in Hstep.
      + erewrite bind_ok by (unfold try; rewrite E; reflexivity). cbv beta iota.
        erewrite bind_ok by reflexivity.
        apply IH. cbn [w_db set_log]. etransitivity; eassumption.
      + erewrite bind_ok by (unfold try; rewrite E; reflexivity). cbv beta iota.
        erewrite bind_ok by reflexivity.
        apply IH. etransitivity; eassumption. }
  destruct Hloop as (w3 & Hloop & Hw3).
  erewrite bind_ok by exact Hloop. split; [reflexivity|exact Hw3].
Qed.

End RetentionSweep.

Lemma applyRetentionPolicies_sweep_witness :
  (applyRetentionPolicies S3Storage.provider (set_db_faults [true] retention_world)).1
  = inl (Wrap "get policies" (Wrap "get policies" ErrDriver)) /\
  only_backups_deleted (w_db retention_world)
    (w_db (applyRetentionPolicies S3Storage.provider retention_world).2).
Proof.
  split.
  - rewrite (proj1 (applyRetentionPolicies_sweep S3Storage.provider keeps_db_S3_Exists
                      keeps_db_S3_Delete (set_db_faults [true] retention_world))).
    reflexivity.
  - apply (applyRetentionPolicies_sweep S3Storage.provider keeps_db_S3_Exists
             keeps_db_S3_Delete retention_world).
Defined.

(** ** Pipeline orchestrator *)

Section TempDir.
Context `{GoLib}.
Variable storage : StorageProvider.

(** X13: [performBackup] never leaves its temporary directory behind.
    Once [os.MkdirTemp] has made the directory, nothing is left at or
    below it when [performBackup] returns, whether it returns a result or
    an error and whatever step failed. *)
Theorem performBackup_removes_temp (policy : BackupPolicy.t) (tempDir : string)
  (w w1 : World) :
  os.MkdirTemp "backup-" w = (inr tempDir, w1) ->
  let w' := (performBackup storage policy w).2 in
  forall k, os.at_path w' tempDir `prefix_of` k -> w_fs w' !! k = None.
Proof.
  intros Htemp. cbn zeta. unfold performBackup.
  erewrite bind_ok by (apply wrap_ok; exact Htemp).
  unfold defer.
  destruct ((backup_and_upload storage policy tempDir ≫= _) w1) as [r w2].
  cbn [snd]. unfold os.RemoveAll, os.at_path. cbn [snd w_fs w_cwd set_fs].
  intros k Hk. apply map_lookup_filter_None. right. intros x _ Hnot. cbn in Hnot.
  apply Hnot, Hk.
Qed.

End TempDir.

Lemma performBackup_removes_temp_witness :
  (exists res, (@performBackup toyLib S3Storage.provider pipeline_policy pipeline_world).1
               = inr res) /\
  w_fs (@performBackup toyLib S3Storage.provider pipeline_policy pipeline_world).2
    !! ["tmp"; "backup-0"] = None.
Proof.
  split; [vm_compute; eexists; reflexivity|].
  apply (@performBackup_removes_temp toyLib S3Storage.provider pipeline_policy "/tmp/backup-0"
           pipeline_world (os.MkdirTemp "backup-" pipeline_world).2).
  - vm_compute. reflexivity.
  - vm_compute. eexists. reflexivity.
Defined.

(** ** The order of a walk *)

Lemma ascii_compare_cases (a b : ascii) :
  match Ascii.compare a b with
  | Eq => a = b
  | Lt => (N_of_ascii a < N_of_ascii b)%N
  | Gt => (N_of_ascii b < N_of_ascii a)%N
  end.
Proof.
  unfold Ascii.compare. destruct (N.compare_spec (N_of_ascii a) (N_of_ascii b)) as [Heq| |];
    [|assumption|assumption].
  rewrite <- (ascii_N_embedding a), <- (ascii_N_embedding b), Heq. reflexivity.
Qed.

Lemma ascii_compare_refl (a : ascii) : Ascii.compare a a = Eq.
Proof. unfold Ascii.compare. apply N.compare_refl. Qed.

Lemma string_compare_trans (x y z : string) :
  String.compare x y = Lt -> String.compare y z = Lt -> String.compare x z = Lt.
Proof.
  revert y z. induction x as [|a x IH]; intros [|b y] [|c z]; cbn; try congruence.
  pose proof (ascii_compare_cases a b) as Hab. pose proof (ascii_compare_cases b c) as Hbc.
  pose proof (ascii_compare_cases a c) as Hac.
  destruct (Ascii.compare a b), (Ascii.compare b c); try congruence;
    destruct (Ascii.compare a c) eqn:E; subst; try congruence; try lia;
    solve [apply IH | rewrite ascii_compare_refl in E; discriminate E].
Qed.

Lemma string_ltb_total (x y : string) :
  x <> y -> String.ltb x y = false -> String.ltb y x = true.
Proof.
  unfold String.ltb. intros Hne Hxy. rewrite (String.compare_antisym y x).
  destruct (String.compare x y) eqn:E; [|discriminate Hxy|reflexivity].
  apply String.compare_eq_iff in E. contradiction.
Qed.

Lemma string_ltb_trans (x y z : string) :
  String.ltb x y = true -> String.ltb y z = true -> String.ltb x z = true.
Proof.
  unfold String.ltb. intros Hxy Hyz.
  rewrite (string_compare_trans x y z); [reflexivity| |].
  - destruct (String.compare x y); [discriminate|reflexivity|discriminate].
  - destruct (String.compare y z); [discriminate|reflexivity|discriminate].
Qed.

Lemma string_ltb_irrefl (x : string) : String.ltb x x = false.
Proof.
  unfold String.ltb. replace (String.compare x x) with Eq; [reflexivity|].
  induction x as [|a x IH]; [reflexivity|]. cbn. rewrite ascii_compare_refl. exact IH.
Qed.

Lemma path_leb_total (a b : list string) : path_leb a b = true \/ path_leb b a = true.
Proof.
  revert b. induction a as [|x a IH]; intros [|y b]; cbn; auto.
  rewrite (String.eqb_sym y x).
  destruct (String.eqb_spec x y) as [->|Hne]; [apply IH|].
  destruct (String.ltb x y) eqn:E; [auto|]. right. apply string_ltb_total; assumption.
Qed.

Lemma path_leb_trans (a b c : list string) :
  path_leb a b = true -> path_leb b c = true -> path_leb a c = true.
Proof.
  revert b c. induction a as [|x a IH]; intros [|y b] [|z c]; cbn; try congruence.
  destruct (String.eqb_spec x y) as [->|Hxy].
  - destruct (String.eqb_spec y z) as [->|Hyz]; [apply IH|auto].
  - destruct (String.eqb_spec y z) as [->|Hyz].
    + rewrite (proj2 (String.eqb_neq _ _) Hxy). auto.
    + intros Hlt1 Hlt2. pose proof (string_ltb_trans _ _ _ Hlt1 Hlt2) as Hlt.
      destruct (String.eqb_spec x z) as [->|_]; [|exact Hlt].
      pose proof (string_ltb_trans _ _ _ Hlt2 Hlt1) as Hyy.
      rewrite string_ltb_irrefl in Hyy. discriminate Hyy.
Qed.

(** A directory comes before everything below it. *)
Lemma path_leb_below (a b : list string) : path_leb a (a ++ b) = true.
Proof.
  induction a as [|x a IH]; [reflexivity|]. cbn. rewrite String.eqb_refl. exact IH.
Qed.

(** Two names that differ at some step are ordered by the names of that
    step, whatever follows: the entries of a directory are visited
    together, after those of an earlier name and before those of a later
    one. *)
Lemma path_leb_branch (common a b : list string) (x y : string) :
  String.ltb x y = true ->
  path_leb (common ++ x :: a) (common ++ y :: b) = true /\
  path_leb (common ++ y :: b) (common ++ x :: a) = false.
Proof.
  intros Hlt.
  assert (Hne : x <> y) by (intros ->; rewrite string_ltb_irrefl in Hlt; discriminate Hlt).
  induction common as [|c common IH]; cbn.
  - rewrite (proj2 (String.eqb_neq _ _) Hne), (String.eqb_sym y x),
      (proj2 (String.eqb_neq _ _) Hne), Hlt.
    split; [reflexivity|]. destruct (String.ltb y x) eqn:E; [|reflexivity].
    pose proof (string_ltb_trans _ _ _ Hlt E) as Hxx.
    rewrite string_ltb_irrefl in Hxx. discriminate Hxx.
  - rewrite String.eqb_refl. exact IH.
Qed.

#[global] Instance walk_le_total : Total walk_le.
Proof. intros a b. apply path_leb_total. Qed.

#[global] Instance walk_le_trans : Transitive walk_le.
Proof. intros a b c. apply path_leb_trans. Qed.

(** The walk visits what is below a directory in lexical order. *)
Lemma walk_below_sorted (fs : gmap (list string) node) (k : list string) :
  StronglySorted walk_le (walk_below fs k).
Proof. apply StronglySorted_merge_sort; apply _. Qed.

(** The walk visits every object below the directory, and nothing else. *)
Lemma walk_below_lookup (fs : gmap (list string) node) (k rel : list string) (n : node) :
  (rel, n) ∈ walk_below fs k <-> rel <> [] /\ fs !! (k ++ rel) = Some n.
Proof.
  unfold walk_below. rewrite merge_sort_Permutation, list_elem_of_omap. split.
  - intros ([k' n'] & Hin & Hsome). cbn [fst snd] in Hsome.
    case_bool_decide as Hbelow; [|discriminate Hsome]. injection Hsome as <- <-.
    destruct Hbelow as [[rest ->] Hne]. rewrite drop_app_length.
    apply elem_of_map_to_list in Hin. split; [|exact Hin].
    intros ->. apply Hne. rewrite app_nil_r. reflexivity.
  - intros [Hne Hlook]. exists (k ++ rel, n). split; [apply elem_of_map_to_list, Hlook|].
    cbn [fst snd]. rewrite bool_decide_true, drop_app_length; [reflexivity|].
    split; [apply prefix_app_r; reflexivity|].
    intros Heq. apply Hne. apply (f_equal length) in Heq. rewrite length_app in Heq.
    destruct rel; [reflexivity|cbn in Heq; lia].
Qed.

Section Scan.
Context `{GoLib}.

Lemma scan_walk_live (visited : list (string * node)) (files : list string) (totalSize : Z)
  (w : World) :
  w_cancel w = None ->
  scan_walk visited files totalSize w
  = (inr (files ++ (filter (fun pi => node_is_dir pi.2 = false) visited).*1,
          fold_left (fun totalSize pi =>
                       if node_is_dir pi.2 then totalSize else totalSize + node_size pi.2)
                    visited totalSize),
     w).
Proof.
  intros Hlive. revert files totalSize.
  induction visited as [|[filePath info] visited IH]; intros files totalSize;
    cbn [scan_walk fold_left].
  - rewrite filter_nil, fmap_nil, app_nil_r. reflexivity.
  - rewrite filter_cons. cbn [snd].
    destruct (node_is_dir info) eqn:Hdir.
    + erewrite bind_ok by (apply ctx_check_live, Hlive). rewrite IH.
      rewrite decide_False by discriminate. reflexivity.
    + erewrite bind_ok by (apply ctx_check_live, Hlive). rewrite IH.
      rewrite decide_True by reflexivity. rewrite fmap_cons, <- app_assoc. reflexivity.
Qed.

Lemma fold_sizes (visited : list (string * node)) (acc : Z) :
  fold_left (fun totalSize pi =>
               if node_is_dir pi.2 then totalSize else totalSize + node_size pi.2)
            visited acc
  = acc + foldr Z.add 0
            (node_size <$> (filter (fun pi => node_is_dir pi.2 = false) visited).*2).
Proof.
  revert acc. induction visited as [|[p n] visited IH]; intros acc; cbn [fold_left].
  - rewrite filter_nil. cbn. lia.
  - rewrite filter_cons. cbn [snd]. destruct (node_is_dir n) eqn:Hd.
    + rewrite decide_False by discriminate. apply IH.
    + rewrite decide_True by reflexivity. rewrite IH. cbn. lia.
Qed.

(** X14: what [scanDirectory] reports.  For a path that exists, in a run
    that is not cancelled, the files are the regular files the walk
    visits, in the order of the walk, the directories left out, and the
    total size is the sum of their sizes: the number [getDirectorySize]
    computes for the same path.  A path that does not exist is an error
    for [scanDirectory], and size 0 without an error for
    [getDirectorySize]. *)
Theorem scanDirectory_total (path : string) (w : World) :
  w_cancel w = None ->
  match walk_entries w path with
  | inr visited =>
      exists files totalSize,
        scanDirectory path w = (inr (files, totalSize), w) /\
        getDirectorySize path w = (inr totalSize, w) /\
        files = (filter (fun pi => node_is_dir pi.2 = false) visited).*1 /\
        totalSize = foldr Z.add 0 (node_size <$> (filter (fun pi => node_is_dir pi.2 = false) visited).*2)
  | inl e =>
      scanDirectory path w = (inl e, w) /\
      exists w', getDirectorySize path w = (inr 0, w')
  end.
Proof.
  intros Hlive. unfold scanDirectory, getDirectorySize.
  erewrite !bind_ok by reflexivity.
  destruct (walk_entries w path) as [e|visited].
  { split; [reflexivity|]. eexists. reflexivity. }
  rewrite scan_walk_live by exact Hlive. cbn [app].
  eexists _, _. split; [reflexivity|]. split; [reflexivity|]. split; [reflexivity|].
  rewrite fold_sizes. lia.
Qed.

End Scan.

Lemma scanDirectory_total_witness :
  scanDirectory "/src" walk_world
  = (inr (["/src/a.txt"; "/src/b/a"; "/src/b/y"; "/src/b.d"; "/src/z.txt"], 6), walk_world) /\
  getDirectorySize "/src" walk_world = (inr 6, walk_world).
Proof.
  pose proof (scanDirectory_total "/src" walk_world eq_refl) as Hscan.
  destruct (walk_entries walk_world "/src") as [e|visited] eqn:Hwalk;
    [vm_compute in Hwalk; discriminate Hwalk|].
  destruct Hscan as (files & totalSize & Hs & Hd & Hf & Ht).
  vm_compute in Hwalk. injection Hwalk as <-.
  vm_compute in Hf. vm_compute in Ht. subst files totalSize.
  split; [exact Hs|exact Hd].
Defined.

Lemma Create_file (name : string) (w : World) (mode : Z) (data : list Z) :
  w_fs w !! os.at_path w name = Some (File mode data) -> os.at_path w name <> [] ->
  os.Create name w
  = (inr (os.mkfile (os.at_path w name) 0),
     set_fs (<[os.at_path w name := File mode []]> (w_fs w)) w).
Proof.
  intros Hf Hne. unfold os.Create, os.OpenFile.
  rewrite (proj2 (lookup_node_File _ _ _ _) (conj Hf Hne)).
  replace (os.has_flag (Z.lor os.O_RDWR (Z.lor os.O_CREATE os.O_TRUNC)) os.O_TRUNC)
    with true by reflexivity.
  reflexivity.
Qed.

Lemma ReadAll_file (k : list string) (off : nat) (mode : Z) (data : list Z) (w : World) :
  w_fs w !! k = Some (File mode data) -> k <> [] ->
  os.ReadAll (os.mkfile k off) w = (inr (drop off data), w).
Proof.
  intros Hf Hne. unfold os.ReadAll. cbn [os.fd_key os.fd_off].
  rewrite (proj2 (lookup_node_File _ _ _ _) (conj Hf Hne)). reflexivity.
Qed.

(** [io.Copy] from the start of a regular file into a file just created
    or truncated. *)
Lemma io_Copy_fresh (ksrc kdst : list string) (msrc mdst : Z) (data : list Z) (w : World) :
  w_fs w !! ksrc = Some (File msrc data) -> ksrc <> [] ->
  w_fs w !! kdst = Some (File mdst []) -> kdst <> [] ->
  io_Copy (os.mkfile kdst 0) (os.mkfile ksrc 0) w
  = (inr tt, set_fs (<[kdst := File mdst data]> (w_fs w)) w).
Proof.
  intros Hsrc Hsrc0 Hdst Hdst0. unfold io_Copy.
  erewrite bind_ok by (eapply ReadAll_file; eassumption).
  erewrite bind_ok by (eapply Write_file; eassumption).
  rewrite drop_0.
  change (os.overwrite 0 data []) with (os.overwrite (length (@nil Z)) data []).
  rewrite overwrite_append. reflexivity.
Qed.

(** X15: [copyFile].  When the source is a regular file and the
    destination can be created, [copyFile] returns nil, the destination
    holds exactly the bytes of the source, and the source and every other
    object are as before.  When source and destination name the same
    file, [copyFile] also returns nil, and the file is left empty: it is
    truncated before it is read. *)
Theorem copyFile_copies (src dst : string) (w : World) (mode : Z) (data : list Z) :
  os.lookup_node (w_fs w) (os.at_path w src) = Some (File mode data) ->
  (os.at_path w dst = os.at_path w src ->
   exists w', copyFile src dst w = (inr tt, w') /\
              w_fs w' = <[os.at_path w src := File mode []]> (w_fs w)) /\
  (os.at_path w dst <> os.at_path w src ->
   forall f w1, os.Create dst w = (inr f, w1) ->
   exists w' mdst,
     copyFile src dst w = (inr tt, w') /\
     w_fs w' = <[os.at_path w dst := File mdst data]> (w_fs w) /\
     w_fs w' !! os.at_path w src = Some (File mode data)).
Proof.
  intros Hsrc. apply lookup_node_File in Hsrc as [Hsrc Hsrc0].
  unfold copyFile. split.
  - intros Hsame.
    erewrite bind_ok by (eapply Open_file; eassumption).
    assert (Hdst : w_fs w !! os.at_path w dst = Some (File mode data)) by (rewrite Hsame; exact Hsrc).
    erewrite bind_ok by (eapply Create_file; [exact Hdst|rewrite Hsame; exact Hsrc0]).
    rewrite Hsame.
    erewrite io_Copy_fresh with (msrc := mode) (mdst := mode) (data := []);
      [| cbn [w_fs set_fs]; apply lookup_insert_eq | exact Hsrc0
       | cbn [w_fs set_fs]; apply lookup_insert_eq | exact Hsrc0 ].
    eexists. split; [reflexivity|]. cbn [w_fs set_fs]. rewrite insert_insert_eq. reflexivity.
  - intros Hne f w1 Hcreate.
    destruct (Create_inr _ _ _ _ Hcreate) as (-> & Hdst0 & mdst & ->).
    erewrite bind_ok by (eapply Open_file; eassumption).
    erewrite bind_ok by exact Hcreate.
    erewrite io_Copy_fresh with (msrc := mode) (mdst := mdst) (data := data);
      [| cbn [w_fs set_fs]; rewrite lookup_insert_ne by congruence; exact Hsrc | exact Hsrc0
       | cbn [w_fs set_fs]; apply lookup_insert_eq | exact Hdst0 ].
    eexists _, mdst. split; [reflexivity|]. cbn [w_fs set_fs]. rewrite insert_insert_eq.
    split; [reflexivity|]. rewrite lookup_insert_ne by congruence. exact Hsrc.
Qed.

Lemma copyFile_copies_witness :
  (exists w', copyFile "/data/a.txt" "/data/./a.txt" pipeline_world = (inr tt, w') /\
              w_fs w' !! ["data"; "a.txt"] = Some (File 420 [])) /\
  (exists w', copyFile "/data/a.txt" "/data/copy" pipeline_world = (inr tt, w') /\
              w_fs w' !! ["data"; "copy"] = Some (File 420 [1; 2; 3; 4; 5])).
Proof.
  destruct (copyFile_copies "/data/a.txt" "/data/./a.txt" pipeline_world 420 [1; 2; 3; 4; 5]
              eq_refl) as [Hsame _].
  destruct (copyFile_copies "/data/a.txt" "/data/copy" pipeline_world 420 [1; 2; 3; 4; 5]
              eq_refl) as [_ Hother].
  split.
  - destruct (Hsame eq_refl) as (w' & Hrun & Hfs). exists w'. split; [exact Hrun|].
    rewrite Hfs. vm_compute. reflexivity.
  - destruct (Hother ltac:(vm_compute; discriminate) _ _ eq_refl) as (w' & mdst & Hrun & Hfs & _).
    exists w'. split; [exact Hrun|].
    assert (w' = (copyFile "/data/a.txt" "/data/copy" pipeline_world).2) as ->
      by (rewrite Hrun; reflexivity).
    vm_compute. reflexivity.
Defined.

(** ** Paths and their directories *)

Lemma split_from_cons (cur : list ascii) (c : ascii) (s : list ascii) :
  filepath.split_from cur (c :: s)
  = if Ascii.eqb c filepath.Separator then rev cur :: filepath.split_from [] s
    else filepath.split_from (c :: cur) s.
Proof. reflexivity. Qed.

(** [strings.Split] and the text before the last separator. *)
Lemma split_from_upto (cur s : list ascii) :
  exists front last,
    filepath.split_from cur s = front ++ [last] /\
    (filepath.upto_last_sep s = [] /\ front = [] \/
     filepath.upto_last_sep s <> [] /\
     filepath.split_from cur (filepath.upto_last_sep s) = front ++ [[]]).
Proof.
  revert cur. induction s as [|c rest IH]; intros cur.
  - exists [], (rev cur). split; [reflexivity|]. left. split; reflexivity.
  - rewrite split_from_cons. cbn [filepath.upto_last_sep].
    destruct (Ascii.eqb c filepath.Separator) eqn:Hc.
    + destruct (IH []) as (front & last & Hsplit & [[Hupto ->]|[Hupto Hfront]]).
      * exists [rev cur], last. split; [rewrite Hsplit; reflexivity|]. right.
        rewrite Hupto. split; [discriminate|]. rewrite split_from_cons, Hc. reflexivity.
      * exists (rev cur :: front), last. split; [rewrite Hsplit; reflexivity|]. right.
        destruct (filepath.upto_last_sep rest) as [|c' l] eqn:E; [contradiction|].
        split; [discriminate|]. rewrite split_from_cons, Hc, Hfront. reflexivity.
    + destruct (IH (c :: cur)) as (front & last & Hsplit & [[Hupto ->]|[Hupto Hfront]]).
      * exists [], last. split; [exact Hsplit|]. left. rewrite Hupto. split; reflexivity.
      * exists front, last. split; [exact Hsplit|]. right.
        destruct (filepath.upto_last_sep rest) as [|c' l] eqn:E; [contradiction|].
        split; [discriminate|]. rewrite split_from_cons, Hc. exact Hfront.
Qed.

Lemma upto_last_sep_head (s : list ascii) :
  filepath.upto_last_sep s = [] /\
    filepath.rooted (String.string_of_list_ascii s) = false \/
  exists c rest rest', s = c :: rest /\ filepath.upto_last_sep s = c :: rest'.
Proof.
  destruct s as [|c rest]; [left; split; reflexivity|].
  cbn [filepath.upto_last_sep]. destruct (filepath.upto_last_sep rest) as [|c' l].
  - cbn [String.string_of_list_ascii filepath.rooted].
    destruct (Ascii.eqb c filepath.Separator); [right; eauto|left; split; reflexivity].
  - right. eauto.
Qed.

Lemma clean_step_real (is_rooted : bool) (out : list string) (elem : string) :
  no_sep elem ->
  Forall real_elem out -> Forall real_elem (filepath.clean_step is_rooted out elem).
Proof.
  intros Helem Hout. unfold filepath.clean_step.
  destruct (String.eqb_spec elem ""); [exact Hout|].
  destruct (String.eqb_spec elem "."); [exact Hout|].
  destruct (String.eqb_spec elem "..") as [->|].
  - destruct out as [|top below].
    + destruct is_rooted; [constructor|].
      constructor; [repeat split; [discriminate|discriminate|exact Helem]|constructor].
    + destruct (String.eqb top "..").
      * constructor; [repeat split; [discriminate|discriminate|exact Helem]|exact Hout].
      * apply Forall_cons in Hout as [_ Hout]. exact Hout.
  - constructor; [repeat split; assumption|exact Hout].
Qed.

Lemma foldr_rev_left {A B : Type} (g : B -> A -> B) (a : B) (l : list A) :
  foldr (fun e st => g st e) a l = fold_left g (rev l) a.
Proof.
  induction l as [|x l IH]; [reflexivity|].
  cbn [foldr rev]. rewrite fold_left_app, <- IH. reflexivity.
Qed.

(** The kernel walks the cleaned elements to where it walks the elements
    themselves; in a rooted path the walk starts at the root. *)
Lemma clean_step_resolve (is_rooted : bool) (st0 out : list string) (elem : string) :
  (is_rooted = true -> st0 = []) -> Forall real_elem out ->
  foldr (fun e st => filepath.resolve_step st e) st0 (filepath.clean_step is_rooted out elem)
  = filepath.resolve_step (foldr (fun e st => filepath.resolve_step st e) st0 out) elem.
Proof.
  intros Hroot Hout. unfold filepath.clean_step.
  destruct (String.eqb elem "") eqn:E1;
    [unfold filepath.resolve_step; rewrite E1; reflexivity|].
  destruct (String.eqb elem ".") eqn:E2;
    [unfold filepath.resolve_step; rewrite E1, E2; reflexivity|].
  destruct (String.eqb_spec elem "..") as [->|]; [|reflexivity].
  destruct out as [|top below].
  - destruct is_rooted; [|reflexivity]. rewrite Hroot by reflexivity. reflexivity.
  - destruct (String.eqb top "..") eqn:E3; [reflexivity|].
    apply Forall_cons in Hout as [(Htop1 & Htop2 & _) _]. cbn [foldr].
    assert (Hpush : forall st, filepath.resolve_step st top = top :: st).
    { intros st. unfold filepath.resolve_step.
      rewrite (proj2 (String.eqb_neq _ _) Htop1), (proj2 (String.eqb_neq _ _) Htop2), E3.
      reflexivity. }
    rewrite Hpush. reflexivity.
Qed.

Lemma clean_elems_resolve (is_rooted : bool) (st0 : list string) (elems : list string) :
  (is_rooted = true -> st0 = []) -> Forall no_sep elems ->
  fold_left filepath.resolve_step (filepath.clean_elems is_rooted elems) st0
  = fold_left filepath.resolve_step elems st0 /\
  Forall real_elem (filepath.clean_elems is_rooted elems).
Proof.
  intros Hroot Helems. unfold filepath.clean_elems.
  assert (Hgen : forall out, Forall real_elem out ->
            foldr (fun e st => filepath.resolve_step st e) st0
              (fold_left (filepath.clean_step is_rooted) elems out)
            = fold_left filepath.resolve_step elems
                (foldr (fun e st => filepath.resolve_step st e) st0 out) /\
            Forall real_elem (fold_left (filepath.clean_step is_rooted) elems out)).
  { induction Helems as [|elem elems Helem Helems IH]; intros out Hout;
      [split; [reflexivity|exact Hout]|].
    cbn [fold_left].
    destruct (IH _ (clean_step_real is_rooted out elem Helem Hout)) as [IH1 IH2].
    split; [|exact IH2]. rewrite IH1, clean_step_resolve by assumption. reflexivity. }
  destruct (Hgen [] (Forall_nil_2 _)) as [H1 H2]. cbn [foldr] in H1. split.
  - rewrite <- H1. symmetry. apply foldr_rev_left.
  - apply Forall_forall. intros e He. rewrite list_elem_of_In, <- in_rev, <- list_elem_of_In in He.
    exact (proj1 (Forall_forall _ _) H2 e He).
Qed.

Lemma list_ascii_app (s1 s2 : string) :
  String.list_ascii_of_string (s1 +:+ s2)
  = String.list_ascii_of_string s1 ++ String.list_ascii_of_string s2.
Proof. induction s1 as [|c s1 IH]; [reflexivity|]. cbn. rewrite <- IH. reflexivity. Qed.

(** Reading over an element without a separator. *)
Lemma split_from_elem (cur e : list ascii) (rest : list ascii) :
  filepath.Separator ∉ e ->
  filepath.split_from cur (e ++ filepath.Separator :: rest)
  = (rev cur ++ e) :: filepath.split_from [] rest.
Proof.
  revert cur. induction e as [|c e IH]; intros cur He.
  - rewrite app_nil_r. reflexivity.
  - apply not_elem_of_cons in He as [Hc He]. cbn [app]. rewrite split_from_cons.
    destruct (Ascii.eqb_spec c filepath.Separator) as [->|_]; [congruence|].
    rewrite IH by exact He. cbn [rev]. rewrite <- app_assoc. reflexivity.
Qed.

Lemma split_from_last (cur e : list ascii) :
  filepath.Separator ∉ e -> filepath.split_from cur e = [rev cur ++ e].
Proof.
  revert cur. induction e as [|c e IH]; intros cur He.
  - rewrite app_nil_r. reflexivity.
  - apply not_elem_of_cons in He as [Hc He]. rewrite split_from_cons.
    destruct (Ascii.eqb_spec c filepath.Separator) as [->|_]; [congruence|].
    rewrite IH by exact He. cbn [rev]. rewrite <- app_assoc. reflexivity.
Qed.

Lemma split_from_no_sep (cur s : list ascii) :
  filepath.Separator ∉ cur ->
  Forall (fun e => filepath.Separator ∉ e) (filepath.split_from cur s).
Proof.
  revert cur. induction s as [|c s IH]; intros cur Hcur.
  - constructor; [|constructor]. rewrite list_elem_of_In, <- in_rev, <- list_elem_of_In. exact Hcur.
  - rewrite split_from_cons. destruct (Ascii.eqb_spec c filepath.Separator) as [->|Hc].
    + constructor; [rewrite list_elem_of_In, <- in_rev, <- list_elem_of_In; exact Hcur|]. apply IH, not_elem_of_nil.
    + apply IH. apply not_elem_of_cons. split; [congruence|exact Hcur].
Qed.

Lemma split_no_sep (p : string) : Forall no_sep (filepath.split p).
Proof.
  unfold filepath.split. apply Forall_fmap.
  eapply Forall_impl; [apply split_from_no_sep, not_elem_of_nil|].
  intros e He. unfold no_sep, compose. rewrite String.list_ascii_of_string_of_list_ascii.
  exact He.
Qed.

(** [strings.Split] undoes [strings.Join] of elements without a
    separator. *)
Lemma split_join_slash (l : list string) :
  l <> [] -> Forall no_sep l -> filepath.split (filepath.join_slash l) = l.
Proof.
  intros Hne Hall. unfold filepath.split, filepath.join_slash.
  induction l as [|x l IH]; [congruence|].
  apply Forall_cons in Hall as [Hx Hall]. destruct l as [|y l].
  - cbn [String.concat]. rewrite split_from_last by exact Hx.
    cbn. rewrite String.string_of_list_ascii_of_string. reflexivity.
  - change (String.concat "/" (x :: y :: l)) with (x +:+ "/" +:+ String.concat "/" (y :: l)).
    rewrite !list_ascii_app.
    change (String.list_ascii_of_string "/") with [filepath.Separator]. cbn [app].
    rewrite split_from_elem by exact Hx. cbn [map rev app].
    rewrite String.string_of_list_ascii_of_string. f_equal.
    apply IH; [discriminate|exact Hall].
Qed.

Lemma rooted_join_slash (l : list string) :
  Forall real_elem l -> filepath.rooted (filepath.join_slash l) = false.
Proof.
  intros Hall. destruct l as [|x l]; [reflexivity|].
  apply Forall_cons in Hall as [(Hx & _ & Hsep) _].
  destruct x as [|c x]; [congruence|].
  assert (Hc : Ascii.eqb c filepath.Separator = false).
  { apply Ascii.eqb_neq. intros ->. apply Hsep. cbn. apply list_elem_of_here. }
  unfold filepath.join_slash. destruct l; cbn; exact Hc.
Qed.

(** [filepath.Clean] keeps where a path leads. *)
Lemma resolve_Clean (cwd : list string) (p : string) :
  filepath.resolve cwd (filepath.Clean p) = filepath.resolve cwd p.
Proof.
  unfold filepath.Clean. destruct (String.eqb_spec p "") as [->|Hp]; [reflexivity|].
  pose proof (split_no_sep p) as Hsep.
  destruct (filepath.rooted p) eqn:Hrooted.
  - destruct (clean_elems_resolve true [] (filepath.split p) (fun _ => eq_refl) Hsep)
      as [Hwalk Hreal].
    unfold filepath.resolve at 2. rewrite Hrooted, <- Hwalk.
    set (out := filepath.clean_elems true (filepath.split p)) in *.
    unfold filepath.resolve.
    change (filepath.rooted ("/" +:+ filepath.join_slash out)) with true. cbv iota.
    assert (Hsplit : filepath.split ("/" +:+ filepath.join_slash out)
                     = "" :: filepath.split (filepath.join_slash out)) by reflexivity.
    rewrite Hsplit. destruct out as [|x out']; [reflexivity|].
    rewrite split_join_slash; [reflexivity|discriminate|].
    eapply Forall_impl; [exact Hreal|]. intros e (_ & _ & He). exact He.
  - destruct (clean_elems_resolve false (rev cwd) (filepath.split p)
                ltac:(discriminate) Hsep) as [Hwalk Hreal].
    unfold filepath.resolve at 2. rewrite Hrooted, <- Hwalk.
    set (out := filepath.clean_elems false (filepath.split p)) in *.
    destruct out as [|x out']; [reflexivity|].
    unfold filepath.resolve. rewrite rooted_join_slash by exact Hreal.
    rewrite split_join_slash; [reflexivity|discriminate|].
    eapply Forall_impl; [exact Hreal|]. intros e (_ & _ & He). exact He.
Qed.

Lemma removelast_prefix {A : Type} (l : list A) : removelast l `prefix_of` l.
Proof.
  induction l as [|x l IH]; [reflexivity|].
  destruct l as [|y l]; [apply prefix_nil|].
  change (removelast (x :: y :: l)) with (x :: removelast (y :: l)).
  apply prefix_cons, IH.
Qed.

Lemma resolve_step_parent (st : list string) (elem : string) :
  removelast (rev (filepath.resolve_step st elem)) `prefix_of` rev st.
Proof.
  unfold filepath.resolve_step.
  destruct (String.eqb elem ""); [apply removelast_prefix|].
  destruct (String.eqb elem "."); [apply removelast_prefix|].
  destruct (String.eqb elem "..").
  - destruct st as [|x st]; [reflexivity|]. cbn [tl rev].
    etrans; [apply removelast_prefix|]. apply prefix_app_r. reflexivity.
  - cbn [rev]. rewrite removelast_last. reflexivity.
Qed.

(** The directory of a path leads to where the path leads, less its last
    step. *)
Lemma resolve_Dir (cwd : list string) (p : string) :
  os.parent (filepath.resolve cwd p) `prefix_of` filepath.resolve cwd (filepath.Dir p).
Proof.
  unfold filepath.Dir, os.parent. rewrite resolve_Clean.
  set (s := String.list_ascii_of_string p).
  destruct (split_from_upto [] s) as (front & last & Hsplit & Hupto).
  assert (Hp : filepath.split p = (String.string_of_list_ascii <$> front)
                                  ++ [String.string_of_list_ascii last]).
  { unfold filepath.split. fold s. rewrite Hsplit, map_app. reflexivity. }
  unfold filepath.resolve at 1. rewrite Hp, fold_left_app. cbn [fold_left].
  destruct Hupto as [[Hupto ->]|[Hupto Hfront]].
  - rewrite Hupto. cbn [fmap list_fmap fold_left String.string_of_list_ascii].
    destruct (upto_last_sep_head s) as [[_ Hroot]|(c & rest & rest' & _ & Hcons)];
      [|congruence].
    unfold s in Hroot. rewrite String.string_of_list_ascii_of_string in Hroot.
    rewrite Hroot. change (filepath.resolve cwd "") with (rev (rev cwd)).
    apply resolve_step_parent.
  - assert (Hroot : filepath.rooted (String.string_of_list_ascii (filepath.upto_last_sep s))
                    = filepath.rooted p).
    { destruct (upto_last_sep_head s) as [[Hnil _]|(c & rest & rest' & Hs & Hcons)];
        [congruence|].
      rewrite Hcons. rewrite <- (String.string_of_list_ascii_of_string p). fold s.
      rewrite Hs. reflexivity. }
    unfold filepath.resolve. rewrite Hroot. unfold filepath.split.
    rewrite String.list_ascii_of_string_of_list_ascii, Hfront, map_app, fold_left_app.
    cbn [map fold_left String.string_of_list_ascii].
    match goal with
    | |- context [filepath.resolve_step ?st ""] =>
        change (filepath.resolve_step st "") with st
    end.
    apply resolve_step_parent.
Qed.

(** ** Missing names *)

(** What [os.MkdirAll] leaves: directories stay, and every step of the
    path is one. *)
Lemma mkdir_all_dirs (perm : Z) (done todo : list string) (fs fs' : gmap (list string) node) :
  os.mkdir_all perm done todo fs = inr fs' ->
  (forall k m, fs !! k = Some (Dir m) -> fs' !! k = Some (Dir m)) /\
  (forall i, (0 < i <= length todo)%nat ->
             exists m, fs' !! (done ++ take i todo) = Some (Dir m)).
Proof.
  revert done fs. induction todo as [|name todo IH]; intros done fs E; cbn in E.
  - inversion E. split; [auto|]. cbn. intros i Hi. lia.
  - assert (Hstep : exists fs1,
              os.mkdir_all perm (done ++ [name]) todo fs1 = inr fs' /\
              (forall k m, fs !! k = Some (Dir m) -> fs1 !! k = Some (Dir m)) /\
              exists m, fs1 !! (done ++ [name]) = Some (Dir m)).
    { destruct (fs !! (done ++ [name])) as [[m d|m]|] eqn:Hk; [discriminate E| |].
      - exists fs. eauto.
      - eexists. split; [exact E|]. split.
        + intros k m Hdir. rewrite lookup_insert_ne by congruence. exact Hdir.
        + eexists. apply lookup_insert_eq. }
    destruct Hstep as (fs1 & Hrest & Hkeep & m1 & Hhere).
    destruct (IH _ _ Hrest) as [Hkeep' Hdirs]. split; [auto|].
    intros [|[|i]] Hi; [lia| |].
    + cbn [take]. exists m1. apply Hkeep', Hhere.
    + destruct (Hdirs (S i)) as (m & Hm); [cbn [length] in Hi; lia|].
      exists m. rewrite <- Hm. f_equal. cbn [take]. rewrite <- app_assoc. reflexivity.
Qed.

(** A name whose ancestors are all directories is missing for want of
    its last step only. *)
Lemma resolve_error_dirs (fs : gmap (list string) node) (done todo : list string) :
  (forall i, (0 < i < length todo)%nat ->
             exists m, fs !! (done ++ take i todo) = Some (Dir m)) ->
  os.resolve_error fs done todo = ENOENT.
Proof.
  revert done. induction todo as [|name todo IH]; intros done Hdirs; [reflexivity|].
  cbn [os.resolve_error]. destruct todo as [|name' todo].
  - destruct (fs !! (done ++ [name])) as [[]|]; reflexivity.
  - destruct (Hdirs 1%nat) as (m & Hm); [cbn [length]; lia|]. cbn [take] in Hm. rewrite Hm.
    apply IH. intros i Hi. destruct (Hdirs (S i)) as (m' & Hm'); [cbn [length] in *; lia|].
    exists m'. rewrite <- Hm'. f_equal. cbn [take]. rewrite <- app_assoc. reflexivity.
Qed.

(** A file made in a directory that [os.MkdirAll] has made, and removed:
    the name is then missing with ENOENT. *)
Lemma missing_under_MkdirAll (name dir : string) (perm : Z) (w wa : World)
  (fs : gmap (list string) node) :
  os.MkdirAll dir perm w = (inr tt, wa) ->
  os.parent (os.at_path w name) `prefix_of` os.at_path w dir ->
  (forall k, k <> os.at_path w name -> fs !! k = w_fs wa !! k) ->
  os.missing_error fs (os.at_path w name) = ENOENT.
Proof.
  unfold os.MkdirAll. intros Hmk Hparent Hfs.
  destruct (os.mkdir_all _ _ _ _) as [e|fs1] eqn:E; [discriminate Hmk|].
  injection Hmk as <-. cbn [w_fs set_fs] in Hfs.
  apply mkdir_all_dirs in E as [_ Hdirs].
  set (k := os.at_path w name) in *. set (kd := os.at_path w dir) in *.
  apply resolve_error_dirs. intros i Hi. cbn [app].
  assert (Hlen : length (os.parent k) = pred (length k)).
  { unfold os.parent. destruct (decide (k = [])) as [->|Hne]; [reflexivity|].
    rewrite (app_removelast_last "" Hne) at 2. rewrite length_app. cbn. lia. }
  assert (Htake : take i k = take i kd).
  { destruct Hparent as [rest Hkd]. rewrite Hkd, take_app_le by lia.
    unfold os.parent. destruct (decide (k = [])) as [Hk|Hne]; [rewrite Hk in Hi; cbn in Hi; lia|].
    rewrite (app_removelast_last "" Hne) at 1. rewrite take_app_le; [reflexivity|].
    fold (os.parent k). lia. }
  rewrite Hfs.
  - rewrite Htake. apply (Hdirs i). split; [lia|].
    apply prefix_length in Hparent. lia.
  - intros Heq. apply (f_equal length) in Heq. rewrite length_take in Heq. lia.
Qed.

(** ** Storage backends *)

Lemma at_path_set_fs (fs : gmap (list string) node) (w : World) (p : string) :
  os.at_path (set_fs fs w) p = os.at_path w p.
Proof. reflexivity. Qed.

(** Copying a regular file to a path whose directory and file can be
    created: the four steps [Upload] and [Download] of the local backend
    share. *)
Lemma copy_into (src dst : string) (texts : string * string * string * string)
  (w wa wb : World) (f : os.file) (mode : Z) (data : list Z) :
  os.lookup_node (w_fs w) (os.at_path w src) = Some (File mode data) ->
  os.at_path w src <> os.at_path w dst ->
  os.MkdirAll (filepath.Dir dst) 493 w = (inr tt, wa) ->
  os.Create dst wa = (inr f, wb) ->
  exists mdst,
    (wrap texts.1.1.1 (os.MkdirAll (filepath.Dir dst) 493);;
     s ← wrap texts.1.1.2 (os.Open src);
     d ← wrap texts.1.2 (os.Create dst);
     wrap texts.2 (io_Copy d s)) w
    = (inr tt, set_fs (<[os.at_path w dst := File mdst data]> (w_fs wa)) w) /\
    os.at_path w dst <> [] /\
    w_fs wa !! os.at_path w src = Some (File mode data).
Proof.
  intros Hsrc Hne Hmk Hcreate. apply lookup_node_File in Hsrc as [Hsrc Hsrc0].
  destruct (MkdirAll_inr _ _ _ _ Hmk) as (fs1 & -> & Hfiles).
  destruct (Create_inr _ _ _ _ Hcreate) as (-> & Hdst0 & mdst & ->).
  rewrite at_path_set_fs in *. cbn [w_fs set_fs] in *.
  assert (Hsrc1 : fs1 !! os.at_path w src = Some (File mode data)) by (apply Hfiles, Hsrc).
  exists mdst.
  erewrite bind_ok by (apply wrap_ok; exact Hmk).
  erewrite bind_ok by (apply wrap_ok; eapply Open_file; [exact Hsrc1|exact Hsrc0]).
  erewrite bind_ok by (apply wrap_ok; exact Hcreate).
  rewrite !at_path_set_fs.
  erewrite wrap_ok.
  2:{ eapply io_Copy_fresh with (msrc := mode) (mdst := mdst) (data := data).
      - cbn [w_fs set_fs]. rewrite lookup_insert_ne by congruence. exact Hsrc1.
      - exact Hsrc0.
      - cbn [w_fs set_fs]. apply lookup_insert_eq.
      - exact Hdst0. }
  cbn [w_fs set_fs]. rewrite insert_insert_eq. auto.
Qed.

Lemma lookup_node_delete (fs : gmap (list string) node) (k : list string) :
  k <> [] -> os.lookup_node (delete k fs) k = None.
Proof. intros Hk. unfold os.lookup_node. destruct k; [congruence|]. apply lookup_delete_eq. Qed.

Section LocalBackend.
Variable basePath : string.

(** X16: the life of an object in the local backend.  A regular file
    uploaded (the directory and the file under the base path can be
    created) is then reported by [Exists], holds the bytes of the local
    file, and [Download] to a path that can be created writes these bytes
    there; [Delete] removes it, after which [Exists] reports false. *)
Theorem LocalStorage_roundtrip (localPath remotePath : string) (w wa wb : World)
  (f : os.file) (mode : Z) (data : list Z) :
  let fullPath := filepath.Join [basePath; remotePath] in
  os.lookup_node (w_fs w) (os.at_path w localPath) = Some (File mode data) ->
  os.at_path w localPath <> os.at_path w fullPath ->
  os.MkdirAll (filepath.Dir fullPath) 493 w = (inr tt, wa) ->
  os.Create fullPath wa = (inr f, wb) ->
  exists w1,
    LocalStorage.Upload basePath localPath remotePath w = (inr tt, w1) /\
    LocalStorage.Exists basePath remotePath w1 = (inr true, w1) /\
    (exists m, w_fs w1 !! os.at_path w fullPath = Some (File m data)) /\
    w_fs w1 !! os.at_path w localPath = Some (File mode data) /\
    (forall restored wc g wd,
       os.at_path w fullPath <> os.at_path w restored ->
       os.MkdirAll (filepath.Dir restored) 493 w1 = (inr tt, wc) ->
       os.Create restored wc = (inr g, wd) ->
       exists w2 m,
         LocalStorage.Download basePath remotePath restored w1 = (inr tt, w2) /\
         w_fs w2 !! os.at_path w restored = Some (File m data)) /\
    exists w3,
      LocalStorage.Delete basePath remotePath w1 = (inr tt, w3) /\
      LocalStorage.Exists basePath remotePath w3 = (inr false, w3).
Proof.
  cbn zeta. intros Hsrc Hne Hmk Hcreate.
  set (fullPath := filepath.Join [basePath; remotePath]) in *.
  destruct (copy_into localPath fullPath
              ("create directory", "open source file", "create target file", "copy file")
              w wa wb f mode data Hsrc Hne Hmk Hcreate) as (mdst & Hup & Hfull0 & Hsrc1).
  cbn [fst snd] in Hup.
  eexists. split; [unfold LocalStorage.Upload; fold fullPath; exact Hup|].
  assert (Hobj : forall w0 : World,
            w_fs (set_fs (<[os.at_path w fullPath := File mdst data]> (w_fs wa)) w0)
              !! os.at_path w fullPath = Some (File mdst data))
    by (intros w0; cbn [w_fs set_fs]; apply lookup_insert_eq).
  split.
  { unfold LocalStorage.Exists. fold fullPath.
    erewrite bind_ok.
    2:{ unfold try, os.Stat. rewrite at_path_set_fs.
        rewrite (proj2 (lookup_node_File _ _ _ _) (conj (Hobj w) Hfull0)). reflexivity. }
    reflexivity. }
  split; [exists mdst; apply Hobj|].
  split; [cbn [w_fs set_fs]; rewrite lookup_insert_ne by congruence; exact Hsrc1|].
  split.
  { intros restored wc g wd Hne' Hmk' Hcreate'.
    destruct (copy_into fullPath restored
                ("create local directory", "open file in storage", "create local file",
                 "copy file")
                (set_fs (<[os.at_path w fullPath := File mdst data]> (w_fs wa)) w)
                wc wd g mdst data) as (m & Hdown & _ & _).
    - rewrite at_path_set_fs. apply lookup_node_File. split; [apply Hobj|exact Hfull0].
    - rewrite !at_path_set_fs. exact Hne'.
    - exact Hmk'.
    - exact Hcreate'.
    - cbn [fst snd] in Hdown. eexists _, m.
      split; [unfold LocalStorage.Download; fold fullPath; exact Hdown|].
      cbn [w_fs set_fs]. rewrite at_path_set_fs. apply lookup_insert_eq. }
  eexists. split.
  { unfold LocalStorage.Delete, os.Remove. fold fullPath. rewrite at_path_set_fs.
    rewrite (proj2 (lookup_node_File _ _ _ _) (conj (Hobj w) Hfull0)). reflexivity. }
  unfold LocalStorage.Exists. fold fullPath.
  erewrite bind_ok.
  2:{ unfold try, os.Stat. rewrite !at_path_set_fs. cbn [w_fs set_fs].
      rewrite lookup_node_delete by exact Hfull0.
      erewrite (missing_under_MkdirAll fullPath (filepath.Dir fullPath) 493 w wa);
        [reflexivity|exact Hmk|apply resolve_Dir|].
      intros k Hk. rewrite lookup_delete_ne, lookup_insert_ne by congruence. reflexivity. }
  reflexivity.
Qed.

End LocalBackend.

Lemma LocalStorage_roundtrip_witness :
  exists w1,
    LocalStorage.Upload "/store" "/data/a.txt" "docs/a" pipeline_world = (inr tt, w1) /\
    LocalStorage.Exists "/store" "docs/a" w1 = (inr true, w1) /\
    w_fs w1 !! ["store"; "docs"; "a"] = Some (File 420 [1; 2; 3; 4; 5]) /\
    exists w3,
      LocalStorage.Delete "/store" "docs/a" w1 = (inr tt, w3) /\
      LocalStorage.Exists "/store" "docs/a" w3 = (inr false, w3).
Proof.
  destruct (LocalStorage_roundtrip "/store" "/data/a.txt" "docs/a" pipeline_world
              (os.MkdirAll "/store/docs" 493 pipeline_world).2
              (os.Create "/store/docs/a" (os.MkdirAll "/store/docs" 493 pipeline_world).2).2
              (os.mkfile ["store"; "docs"; "a"] 0) 420 [1; 2; 3; 4; 5])
    as (w1 & Hup & Hex & _ & _ & _ & Hdel).
  - reflexivity.
  - vm_compute. discriminate.
  - vm_compute. reflexivity.
  - vm_compute. reflexivity.
  - exists w1. split; [exact Hup|]. split; [exact Hex|]. split; [|exact Hdel].
    assert (w1 = (LocalStorage.Upload "/store" "/data/a.txt" "docs/a" pipeline_world).2) as ->
      by (rewrite Hup; reflexivity).
    vm_compute. reflexivity.
Defined.

Lemma net_call_ok (w : World) : w_net_faults w = [] -> net_call w = (inr tt, w).
Proof. unfold net_call. intros ->. reflexivity. Qed.

Lemma set_objects_same (w : World) : set_objects (w_objects w) w = w.
Proof. destruct w. reflexivity. Qed.

(** X17: the life of an object in the S3 backend, while the transport
    does not fail.  A regular file uploaded is stored under its key with
    the bytes of the file, replacing what the key held; [Exists] then
    reports it, and [Download] to a path that can be created writes these
    bytes there; [Delete] removes it, after which [Exists] reports false
    and a second [Delete] of the same key is no error and changes
    nothing. *)
Theorem S3Storage_roundtrip (localPath remotePath : string) (w : World)
  (mode : Z) (data : list Z) :
  w_net_faults w = [] ->
  os.lookup_node (w_fs w) (os.at_path w localPath) = Some (File mode data) ->
  exists w1,
    S3Storage.Upload localPath remotePath w = (inr tt, w1) /\
    w1 = set_objects (<[remotePath := data]> (w_objects w)) w /\
    S3Storage.Exists remotePath w1 = (inr true, w1) /\
    (forall restored wc g wd,
       os.MkdirAll (filepath.Dir restored) 493 w1 = (inr tt, wc) ->
       os.Create restored wc = (inr g, wd) ->
       exists w2 m,
         S3Storage.Download remotePath restored w1 = (inr tt, w2) /\
         w_fs w2 !! os.at_path w restored = Some (File m data)) /\
    exists w3,
      S3Storage.Delete remotePath w1 = (inr tt, w3) /\
      w_objects w3 = delete remotePath (w_objects w) /\
      S3Storage.Exists remotePath w3 = (inr false, w3) /\
      S3Storage.Delete remotePath w3 = (inr tt, w3).
Proof.
  intros Hnet Hsrc. apply lookup_node_File in Hsrc as [Hsrc Hsrc0].
  set (w1 := set_objects (<[remotePath := data]> (w_objects w)) w).
  assert (Hnet1 : w_net_faults w1 = []) by exact Hnet.
  exists w1. split.
  { unfold S3Storage.Upload. apply wrap_ok.
    erewrite bind_ok by (eapply Open_file; eassumption).
    erewrite bind_ok by (eapply ReadAll_file; eassumption).
    erewrite bind_ok by (apply net_call_ok, Hnet). rewrite drop_0. reflexivity. }
  split; [reflexivity|]. split.
  { unfold S3Storage.Exists.
    erewrite bind_ok by (apply wrap_ok, net_call_ok, Hnet1).
    erewrite bind_ok by reflexivity. cbn [w_objects w1 set_objects].
    rewrite lookup_insert_eq. reflexivity. }
  split.
  { intros restored wc g wd Hmk Hcreate.
    destruct (MkdirAll_inr _ _ _ _ Hmk) as (fs1 & -> & _).
    destruct (Create_inr _ _ _ _ Hcreate) as (-> & Hdst0 & m & ->).
    unfold S3Storage.Download.
    erewrite bind_ok by (apply wrap_ok; exact Hmk).
    erewrite bind_ok by (apply net_call_ok; exact Hnet1).
    erewrite bind_ok by reflexivity.
    cbn [w_objects w1 set_objects set_fs]. rewrite lookup_insert_eq.
    erewrite bind_ok by exact Hcreate.
    erewrite bind_ok.
    2:{ eapply Write_file with (mode := m) (old := []); [|exact Hdst0].
        cbn [w_fs set_fs]. apply lookup_insert_eq. }
    eexists _, m. split; [reflexivity|].
    cbn [w_fs set_fs]. rewrite insert_insert_eq.
    change (os.overwrite 0 data []) with (os.overwrite (length (@nil Z)) data []).
    rewrite overwrite_append. apply lookup_insert_eq. }
  set (w3 := set_objects (delete remotePath (w_objects w1)) w1).
  assert (Hnet3 : w_net_faults w3 = []) by exact Hnet.
  assert (Hgone : w_objects w3 !! remotePath = None)
    by (cbn [w_objects w3 set_objects]; apply lookup_delete_eq).
  exists w3. split.
  { unfold S3Storage.Delete. erewrite bind_ok by (apply net_call_ok, Hnet1). reflexivity. }
  split.
  { cbn [w_objects w3 w1 set_objects]. apply delete_insert_eq. }
  split.
  { unfold S3Storage.Exists.
    erewrite bind_ok by (apply wrap_ok, net_call_ok, Hnet3).
    erewrite bind_ok by reflexivity. rewrite Hgone. reflexivity. }
  unfold S3Storage.Delete. erewrite bind_ok by (apply net_call_ok, Hnet3).
  unfold modify. f_equal. rewrite delete_id by exact Hgone. apply set_objects_same.
Qed.

Lemma S3Storage_roundtrip_witness :
  exists w1,
    S3Storage.Upload "/data/a.txt" "docs/a" pipeline_world = (inr tt, w1) /\
    w_objects w1 = {[ "docs/a" := [1; 2; 3; 4; 5] ]} /\
    S3Storage.Exists "docs/a" w1 = (inr true, w1).
Proof.
  destruct (S3Storage_roundtrip "/data/a.txt" "docs/a" pipeline_world 420 [1; 2; 3; 4; 5]
              eq_refl eq_refl) as (w1 & Hup & Hw1 & Hex & _).
  exists w1. split; [exact Hup|]. split; [|exact Hex]. rewrite Hw1. reflexivity.
Defined.

Lemma delete_from_spec (storages : list StorageProvider) (errors : list error)
  (remotePath : string) (w : World) :
  (MultiStorage.delete_from storages errors remotePath w).2
  = foldl (fun w storage => (Delete storage remotePath w).2) w storages /\
  ((MultiStorage.delete_from storages errors remotePath w).1 = inr tt <->
   errors = [] /\
   Forall (fun r => r = inr tt) (outcomes (fun storage => Delete storage remotePath) storages w)).
Proof.
  revert errors w. induction storages as [|storage rest IH]; intros errors w.
  - cbn. split; [destruct errors; reflexivity|].
    destruct errors; cbn; split; try discriminate; auto.
    intros [[=] _].
  - cbn [MultiStorage.delete_from foldl outcomes].
    rewrite bind_unfold. unfold try.
    destruct (Delete storage remotePath w) as [[e|[]] w1]; cbn [fst snd].
    + destruct (IH (errors ++ [Wrap "delete from storage" e]) w1) as [Hw Hr].
      split; [exact Hw|]. rewrite Hr. split.
      * intros [Hnil _]. destruct errors; discriminate Hnil.
      * intros [_ Hall]. apply Forall_cons in Hall as [[=] _].
    + destruct (IH errors w1) as [Hw Hr].
      split; [exact Hw|]. rewrite Hr. rewrite Forall_cons. tauto.
Qed.

(** X18: [MultiStorage.Delete] asks every backend, in order, whether or
    not an earlier one failed: the world it leaves is the world after all
    the deletions.  It returns nil exactly when every backend returned
    nil. *)
Theorem MultiStorage_Delete_all (storages : list StorageProvider) (remotePath : string)
  (w : World) :
  (MultiStorage.Delete storages remotePath w).2
  = foldl (fun w storage => (Delete storage remotePath w).2) w storages /\
  ((MultiStorage.Delete storages remotePath w).1 = inr tt <->
   Forall (fun r => r = inr tt) (outcomes (fun storage => Delete storage remotePath) storages w)).
Proof.
  unfold MultiStorage.Delete.
  destruct (delete_from_spec storages [] remotePath w) as [Hw Hr].
  split; [exact Hw|]. rewrite Hr. tauto.
Qed.

Lemma download_from_first (failed : list StorageProvider) (storage : StorageProvider)
  (rest : list StorageProvider) (lastErr : option error) (remotePath localPath : string)
  (w w2 : World) :
  Forall (fun r => exists e, r = inl e)
         (outcomes (fun storage => Download storage remotePath localPath) failed w) ->
  Download storage remotePath localPath
    (foldl (fun w storage => (Download storage remotePath localPath w).2) w failed)
  = (inr tt, w2) ->
  MultiStorage.download_from (failed ++ storage :: rest) lastErr remotePath localPath w
  = (inr tt, w2).
Proof.
  revert w lastErr. induction failed as [|s failed IH]; intros w lastErr Hfailed Hok.
  - cbn [app MultiStorage.download_from foldl] in *.
    erewrite bind_ok by (unfold try; rewrite Hok; reflexivity). reflexivity.
  - cbn [app MultiStorage.download_from foldl outcomes] in *.
    apply Forall_cons in Hfailed as [[e He] Hfailed].
    destruct (Download s remotePath localPath w) as [r w0] eqn:E. cbn [fst snd] in *. subst r.
    erewrite bind_ok by (unfold try; rewrite E; reflexivity). cbv beta iota.
    apply IH; assumption.
Qed.

Lemma download_from_error (storages : list StorageProvider) (lastErr : option error)
  (remotePath localPath : string) (w w' : World) (e : error) :
  MultiStorage.download_from storages lastErr remotePath localPath w = (inl e, w') ->
  Forall (fun r => exists e, r = inl e)
         (outcomes (fun storage => Download storage remotePath localPath) storages w) /\
  match last (outcomes (fun storage => Download storage remotePath localPath) storages w) with
  | Some r => exists cause, r = inl cause /\ e = Wrap "download from storage" cause
  | None => lastErr = Some e
  end.
Proof.
  revert lastErr w. induction storages as [|s l IH]; intros lastErr w Hrun.
  - cbn in *. split; [constructor|]. destruct lastErr; inversion Hrun. reflexivity.
  - cbn [MultiStorage.download_from outcomes] in *.
    rewrite bind_unfold in Hrun. unfold try in Hrun.
    destruct (Download s remotePath localPath w) as [[e0|[]] w0]; cbn [fst snd] in *;
      [|discriminate Hrun].
    destruct (IH _ _ Hrun) as [Hall Hlast]. split; [constructor; eauto|].
    destruct (outcomes _ l w0) as [|r rs] eqn:Ho.
    + cbn in *. injection Hlast as <-. eauto.
    + rewrite last_cons. destruct (last (r :: rs)) eqn:Hl; [exact Hlast|].
      apply last_None in Hl. discriminate Hl.
Qed.

(** X19: [MultiStorage.Download] takes the object from the first backend
    whose [Download] returns nil; the backends after it are not asked.
    It returns an error only when there is a backend and every backend
    failed, and the error is that of the last one; with no backend at all
    it returns nil and writes nothing. *)
Theorem MultiStorage_Download_first (storages : list StorageProvider)
  (remotePath localPath : string) (w : World) :
  MultiStorage.Download [] remotePath localPath w = (inr tt, w) /\
  (forall failed storage rest w2,
     storages = failed ++ storage :: rest ->
     Forall (fun r => exists e, r = inl e)
            (outcomes (fun storage => Download storage remotePath localPath) failed w) ->
     Download storage remotePath localPath
       (foldl (fun w storage => (Download storage remotePath localPath w).2) w failed)
     = (inr tt, w2) ->
     MultiStorage.Download storages remotePath localPath w = (inr tt, w2)) /\
  (forall e w',
     MultiStorage.Download storages remotePath localPath w = (inl e, w') ->
     Forall (fun r => exists e, r = inl e)
            (outcomes (fun storage => Download storage remotePath localPath) storages w) /\
     exists cause,
       last (outcomes (fun storage => Download storage remotePath localPath) storages w)
       = Some (inl cause) /\
       e = Wrap "download from storage" cause).
Proof.
  split; [reflexivity|]. unfold MultiStorage.Download. split.
  - intros failed storage rest w2 -> Hfailed Hok. apply download_from_first; assumption.
  - intros e w' Hrun. destruct (download_from_error _ _ _ _ _ _ _ Hrun) as [Hall Hlast].
    split; [exact Hall|].
    destruct (last _) as [r|]; [|discriminate Hlast].
    destruct Hlast as (cause & -> & ->). eauto.
Qed.

(** ** Stream encryption and secure deletion *)

Lemma toyStreamLaws : @StreamLaws toyLib32 toyStream.
Proof.
  split.
  - intros password. unfold deriveKey. cbn [pbkdf2_Key toyLib32].
    rewrite length_take, length_app, length_replicate. lia.
  - intros key iv data. cbn [cfb_Decrypt cfb_Encrypt toyStream].
    rewrite <- list_fmap_compose. rewrite <- (list_fmap_id data) at 2.
    apply list_fmap_ext. intros i b _. cbn.
    rewrite Z.lxor_assoc, Z.lxor_nilpotent, Z.lxor_0_r. reflexivity.
Qed.

Lemma aes_NewCipher_32 (key : list Z) : length key = 32%nat -> aes_NewCipher key = inr tt.
Proof. intros Hk. unfold aes_NewCipher. rewrite Hk. reflexivity. Qed.

Section StreamRoundTrip.
Context `{Laws : StreamLaws}.

(** What [encryptFileStream] writes: the vector it drew, followed by the
    CFB encryption of the input. *)
Lemma encryptFileStream_ok (inputPath outputPath password : string) (w wa wb : World)
  (fout : os.file) (mode : Z) (data : list Z) :
  os.lookup_node (w_fs w) (os.at_path w inputPath) = Some (File mode data) ->
  os.at_path w inputPath <> os.at_path w outputPath ->
  os.MkdirAll (filepath.Dir outputPath) 493 w = (inr tt, wa) ->
  os.Create outputPath wa = (inr fout, wb) ->
  (aes_BlockSize <= length (w_random w))%nat ->
  exists w1 mout,
    encryptFileStream inputPath outputPath password w = (inr tt, w1) /\
    w_cwd w1 = w_cwd w /\ os.at_path w outputPath <> [] /\
    w_fs w1 !! os.at_path w outputPath
    = Some (File mout (take aes_BlockSize (w_random w)
                         ++ cfb_Encrypt (deriveKey password) (take aes_BlockSize (w_random w))
                              data)).
Proof.
  intros Hin Hne Hmk Hcreate Hrand. apply lookup_node_File in Hin as [Hin Hin0].
  destruct (MkdirAll_inr _ _ _ _ Hmk) as (fs1 & -> & Hfiles).
  destruct (Create_inr _ _ _ _ Hcreate) as (-> & Hout0 & mout & ->).
  rewrite at_path_set_fs in *. cbn [w_fs set_fs] in *.
  assert (Hin1 : fs1 !! os.at_path w inputPath = Some (File mode data)) by (apply Hfiles, Hin).
  set (iv := take aes_BlockSize (w_random w)).
  unfold encryptFileStream.
  erewrite bind_ok by (apply wrap_ok; eapply Open_file; eassumption).
  erewrite bind_ok by (apply wrap_ok; exact Hmk).
  erewrite bind_ok by (apply wrap_ok; exact Hcreate).
  rewrite aes_NewCipher_32 by apply deriveKey_length.
  erewrite bind_ok.
  2:{ apply wrap_ok. unfold rand_Read. cbn [w_random set_fs].
      rewrite (proj2 (Nat.leb_le _ _) Hrand). reflexivity. }
  fold iv.
  erewrite bind_ok.
  2:{ apply wrap_ok. apply Write_file with (mode := mout) (old := []); [|exact Hout0].
      cbn [w_fs set_fs set_random]. apply lookup_insert_eq. }
  change (os.overwrite 0 iv []) with (os.overwrite (length (@nil Z)) iv []).
  rewrite overwrite_append. cbn [app Nat.add].
  erewrite bind_ok.
  2:{ apply wrap_ok.
      erewrite bind_ok.
      2:{ eapply ReadAll_file with (mode := mode) (data := data); [|exact Hin0].
          cbn [w_fs set_fs set_random]. rewrite !lookup_insert_ne by congruence. exact Hin1. }
      erewrite bind_ok.
      2:{ apply Write_file with (mode := mout) (old := iv); [|exact Hout0].
          cbn [w_fs set_fs set_random]. apply lookup_insert_eq. }
      reflexivity. }
  eexists _, mout. split; [reflexivity|]. split; [reflexivity|]. split; [exact Hout0|].
  cbn [log w_fs set_fs set_log set_random]. rewrite lookup_insert_eq, drop_0.
  rewrite overwrite_append. reflexivity.
Qed.

(** What [decryptFileStream] writes for a file of at least sixteen bytes:
    the CFB decryption of the rest under the first sixteen. *)
Lemma decryptFileStream_ok (inputPath outputPath password : string) (w wa wb : World)
  (fout : os.file) (mode : Z) (iv body : list Z) :
  os.lookup_node (w_fs w) (os.at_path w inputPath) = Some (File mode (iv ++ body)) ->
  length iv = aes_BlockSize ->
  os.at_path w inputPath <> os.at_path w outputPath ->
  os.MkdirAll (filepath.Dir outputPath) 493 w = (inr tt, wa) ->
  os.Create outputPath wa = (inr fout, wb) ->
  exists w1 mout,
    decryptFileStream inputPath outputPath password w = (inr tt, w1) /\
    w_fs w1 !! os.at_path w outputPath
    = Some (File mout (cfb_Decrypt (deriveKey password) iv body)).
Proof.
  intros Hin Hiv Hne Hmk Hcreate. apply lookup_node_File in Hin as [Hin Hin0].
  destruct (MkdirAll_inr _ _ _ _ Hmk) as (fs1 & -> & Hfiles).
  destruct (Create_inr _ _ _ _ Hcreate) as (-> & Hout0 & mout & ->).
  rewrite at_path_set_fs in *. cbn [w_fs set_fs] in *.
  assert (Hin1 : fs1 !! os.at_path w inputPath = Some (File mode (iv ++ body)))
    by (apply Hfiles, Hin).
  unfold decryptFileStream.
  erewrite bind_ok by (apply wrap_ok; eapply Open_file; eassumption).
  erewrite bind_ok by (apply wrap_ok; exact Hmk).
  erewrite bind_ok by (apply wrap_ok; exact Hcreate).
  rewrite aes_NewCipher_32 by apply deriveKey_length.
  erewrite bind_ok.
  2:{ apply wrap_ok. unfold read_full.
      erewrite bind_ok.
      2:{ eapply Read_file with (mode := mode) (data := iv ++ body); [|exact Hin0].
          cbn [w_fs set_fs]. rewrite lookup_insert_ne by congruence. exact Hin1. }
      rewrite drop_0, take_app_length' by (symmetry; exact Hiv). rewrite Hiv, Nat.eqb_refl. reflexivity. }
  cbv beta iota.
  erewrite bind_ok.
  2:{ apply wrap_ok.
      erewrite bind_ok.
      2:{ eapply ReadAll_file with (mode := mode) (data := iv ++ body); [|exact Hin0].
          cbn [w_fs set_fs]. rewrite lookup_insert_ne by congruence. exact Hin1. }
      erewrite bind_ok.
      2:{ apply Write_file with (mode := mout) (old := []); [|exact Hout0].
          cbn [w_fs set_fs]. apply lookup_insert_eq. }
      reflexivity. }
  eexists _, mout. split; [reflexivity|].
  cbn [log w_fs set_fs set_log]. rewrite lookup_insert_eq.
  cbn [Nat.add]. rewrite drop_app_length' by (symmetry; exact Hiv).
  change (os.overwrite 0 ?d []) with (os.overwrite (length (@nil Z)) d []).
  rewrite overwrite_append. reflexivity.
Qed.

(** X20: the stream codec round trip, and what it does not check.  A
    regular file encrypted with [encryptFileStream] (the output can be
    created, sixteen random bytes are there) and decrypted with
    [decryptFileStream] under the same passphrase gives exactly the
    original bytes.  Under any other passphrase decryption returns nil as
    well, and writes the CFB decryption under the other key: the stream
    format carries no authentication, a wrong passphrase is not
    detected. *)
Theorem stream_roundtrip (inputPath encPath outPath password : string)
  (w wa wb : World) (fenc : os.file) (mode : Z) (data : list Z) :
  os.lookup_node (w_fs w) (os.at_path w inputPath) = Some (File mode data) ->
  os.at_path w inputPath <> os.at_path w encPath ->
  os.at_path w encPath <> os.at_path w outPath ->
  os.MkdirAll (filepath.Dir encPath) 493 w = (inr tt, wa) ->
  os.Create encPath wa = (inr fenc, wb) ->
  (aes_BlockSize <= length (w_random w))%nat ->
  exists w1,
    encryptFileStream inputPath encPath password w = (inr tt, w1) /\
    forall wc wd fout,
      os.MkdirAll (filepath.Dir outPath) 493 w1 = (inr tt, wc) ->
      os.Create outPath wc = (inr fout, wd) ->
      (exists w2 mout,
         decryptFileStream encPath outPath password w1 = (inr tt, w2) /\
         w_fs w2 !! os.at_path w outPath = Some (File mout data)) /\
      (forall other,
         exists w2 mout,
           decryptFileStream encPath outPath other w1 = (inr tt, w2) /\
           w_fs w2 !! os.at_path w outPath
           = Some (File mout
                     (cfb_Decrypt (deriveKey other) (take aes_BlockSize (w_random w))
                        (cfb_Encrypt (deriveKey password) (take aes_BlockSize (w_random w))
                           data)))).
Proof.
  intros Hin Hne1 Hne2 Hmk Hcreate Hrand.
  destruct (encryptFileStream_ok inputPath encPath password w wa wb fenc mode data
              Hin Hne1 Hmk Hcreate Hrand) as (w1 & menc & Henc & Hcwd & Henc0 & Hfile).
  exists w1. split; [exact Henc|].
  intros wc wd fout Hmk' Hcreate'.
  assert (Hpath : forall p, os.at_path w1 p = os.at_path w p)
    by (intros p; unfold os.at_path; rewrite Hcwd; reflexivity).
  assert (Hdec : forall pw,
    exists w2 mout,
      decryptFileStream encPath outPath pw w1 = (inr tt, w2) /\
      w_fs w2 !! os.at_path w outPath
      = Some (File mout
                (cfb_Decrypt (deriveKey pw) (take aes_BlockSize (w_random w))
                   (cfb_Encrypt (deriveKey password) (take aes_BlockSize (w_random w)) data)))).
  { intros pw. rewrite <- (Hpath outPath).
    eapply decryptFileStream_ok with (mode := menc); try eassumption.
    - rewrite Hpath. apply lookup_node_File. split; [exact Hfile|exact Henc0].
    - rewrite length_take. apply Nat.min_l, Hrand.
    - rewrite !Hpath. exact Hne2. }
  split; [|exact Hdec].
  destruct (Hdec password) as (w2 & mout & Hrun & Hout).
  rewrite cfb_Decrypt_Encrypt in Hout. eauto.
Qed.

End StreamRoundTrip.

Lemma stream_roundtrip_witness :
  exists w1,
    @encryptFileStream toyLib32 toyStream "/data/secret" "/data/secret.enc" "right" stream_world
    = (inr tt, w1) /\
    (exists w2 mout,
       @decryptFileStream toyLib32 toyStream "/data/secret.enc" "/data/secret.out" "right" w1
       = (inr tt, w2) /\
       w_fs w2 !! ["data"; "secret.out"] = Some (File mout [1; 2; 3])) /\
    (exists w2 mout,
       @decryptFileStream toyLib32 toyStream "/data/secret.enc" "/data/secret.out" "wrong" w1
       = (inr tt, w2) /\
       w_fs w2 !! ["data"; "secret.out"] = Some (File mout [4; 7; 6])).
Proof.
  destruct (@stream_roundtrip toyLib32 toyStream toyStreamLaws
              "/data/secret" "/data/secret.enc" "/data/secret.out" "right"
              stream_world
              (os.MkdirAll "/data" 493 stream_world).2
              (os.Create "/data/secret.enc" (os.MkdirAll "/data" 493 stream_world).2).2
              (os.mkfile ["data"; "secret.enc"] 0) 420 [1; 2; 3])
    as (w1 & Henc & Hdec); try (vm_compute; reflexivity).
  - vm_compute. congruence.
  - vm_compute. congruence.
  - exists w1. split; [exact Henc|].
    assert (w1 = (@encryptFileStream toyLib32 toyStream "/data/secret" "/data/secret.enc"
                    "right" stream_world).2) as Hw1 by (rewrite Henc; reflexivity).
    destruct (Hdec (os.MkdirAll "/data" 493 w1).2
                (os.Create "/data/secret.out" (os.MkdirAll "/data" 493 w1).2).2
                (os.mkfile ["data"; "secret.out"] 0)) as [Hsame Hother].
    + rewrite Hw1. vm_compute. reflexivity.
    + rewrite Hw1. vm_compute. reflexivity.
    + split; [exact Hsame|]. destruct (Hother "wrong") as (w2 & mout & Hrun & Hout).
      exists w2, mout. split; [exact Hrun|]. exact Hout.
Defined.

(** What [overwrite_random] can change, however it ends: the content of
    the one open file. *)
Lemma overwrite_random_frame (fuel : nat) (file : os.file) (written fileSize : Z)
  (w w' : World) (r : result os.file) :
  overwrite_random fuel file written fileSize w = (r, w') ->
  (forall k, k <> os.fd_key file -> w_fs w' !! k = w_fs w !! k) /\
  (is_Some (w_fs w !! os.fd_key file) -> is_Some (w_fs w' !! os.fd_key file)) /\
  w_cwd w' = w_cwd w.
Proof.
  revert file written w. induction fuel as [|fuel IH]; intros file written w Hrun; cbn in Hrun.
  - inversion Hrun; subst. auto.
  - destruct (written <? fileSize).
    2:{ inversion Hrun; subst. auto. }
    apply bind_inv in Hrun as [(e & Hrun & ->)|(buffer & w1 & Hrand & Hrun)].
    + apply wrap_inv in Hrun as [(e0 & Hrun & _)|(a & Hrun & ?)]; [|discriminate].
      unfold rand_Read in Hrun. destruct (_ <=? _)%nat; inversion Hrun; subst. auto.
    + apply wrap_inr in Hrand. unfold rand_Read in Hrand.
      destruct (_ <=? _)%nat; inversion Hrand; subst; clear Hrand.
      apply bind_inv in Hrun as [(e & Hrun & ->)|(file1 & w2 & Hwrite & Hrun)].
      * apply wrap_inv in Hrun as [(e0 & Hrun & _)|(a & Hrun & ?)]; [|discriminate].
        unfold os.Write in Hrun. cbn [w_fs set_random] in Hrun.
        destruct (os.lookup_node (w_fs w) (os.fd_key file)) as [[m old|m]|];
          inversion Hrun; subst; auto.
      * apply wrap_inr in Hwrite. unfold os.Write in Hwrite. cbn [w_fs set_random] in Hwrite.
        destruct (os.lookup_node (w_fs w) (os.fd_key file)) as [[m old|m]|];
          inversion Hwrite; subst; clear Hwrite.
        apply IH in Hrun as (Hother & Hkept & Hcwd). cbn [os.fd_key w_fs w_cwd set_fs set_random] in *.
        split; [|split].
        -- intros k Hk. rewrite Hother by exact Hk. apply lookup_insert_ne. congruence.
        -- intros _. apply Hkept. rewrite lookup_insert_eq. eauto.
        -- exact Hcwd.
Qed.

(** The overwriting of a regular file with enough randomness at hand:
    every round draws 4096 bytes, and the file is still a regular file of
    the same mode afterwards. *)
Lemma overwrite_random_ok (fuel : nat) (k : list string) (off : nat) (written fileSize : Z)
  (w : World) (mode : Z) (old : list Z) :
  w_fs w !! k = Some (File mode old) -> k <> [] ->
  0 <= written <= fileSize ->
  (Z.to_nat (fileSize - written) < fuel)%nat ->
  4096 * ((fileSize - written + 4095) / 4096) <= Z.of_nat (length (w_random w)) ->
  exists off' new,
    overwrite_random fuel (os.mkfile k off) written fileSize w
    = (inr (os.mkfile k off'),
       set_random (drop (Z.to_nat (4096 * ((fileSize - written + 4095) / 4096))) (w_random w))
         (set_fs (<[k := File mode new]> (w_fs w)) w)).
Proof.
  revert off written w old. induction fuel as [|fuel IH]; intros off written w old Hf Hk Hw Hfuel Hrand;
    [lia|].
  cbn [overwrite_random]. destruct (written <? fileSize) eqn:Hlt.
  - apply Z.ltb_lt in Hlt.
    assert (Hdiv : (fileSize - written + 4095) / 4096
                   = 1 + (fileSize - (written + (if fileSize <? written + 4096
                                                  then fileSize - written else 4096)) + 4095) / 4096).
    { destruct (fileSize <? written + 4096) eqn:Hlast.
      - apply Z.ltb_lt in Hlast.
        replace (fileSize - (written + (fileSize - written)) + 4095) with 4095 by lia.
        change (4095 / 4096) with 0.
        assert (1 <= (fileSize - written + 4095) / 4096) by (apply Z.div_le_lower_bound; lia).
        assert ((fileSize - written + 4095) / 4096 < 2) by (apply Z.div_lt_upper_bound; lia).
        lia.
      - replace (fileSize - written + 4095) with (fileSize - (written + 4096) + 4095 + 1 * 4096)
          by lia.
        rewrite Z.div_add by lia. lia. }
    set (toWrite := if fileSize <? written + 4096 then fileSize - written else 4096) in *.
    assert (Hto : 1 <= toWrite <= 4096).
    { unfold toWrite. destruct (fileSize <? written + 4096) eqn:Hlast; [|lia].
      apply Z.ltb_lt in Hlast. lia. }
    assert (Hnext : 0 <= (fileSize - (written + toWrite) + 4095) / 4096).
    { apply Z.div_le_lower_bound; [lia|].
      unfold toWrite. destruct (fileSize <? written + 4096) eqn:Hlast; [lia|].
      apply Z.ltb_ge in Hlast. lia. }
    assert (Hlen : (4096 <= length (w_random w))%nat) by lia.
    erewrite bind_ok.
    2:{ apply wrap_ok. unfold rand_Read. rewrite (proj2 (Nat.leb_le _ _) Hlen). reflexivity. }
    erewrite bind_ok.
    2:{ apply wrap_ok. apply Write_file with (mode := mode) (old := old); [exact Hf|exact Hk]. }
    edestruct (IH (off + length (take (Z.to_nat toWrite) (take 4096 (w_random w))))%nat
                 (written + toWrite)
                 (set_fs (<[k := File mode (os.overwrite off (take (Z.to_nat toWrite)
                                                                 (take 4096 (w_random w))) old)]>
                            (w_fs (set_random (drop 4096 (w_random w)) w)))
                    (set_random (drop 4096 (w_random w)) w)))
      as (off' & new & Hrun).
    + cbn [w_fs set_fs set_random]. apply lookup_insert_eq.
    + exact Hk.
    + unfold toWrite. destruct (fileSize <? written + 4096) eqn:Hlast; [lia|].
      apply Z.ltb_ge in Hlast. lia.
    + unfold toWrite in *. destruct (fileSize <? written + 4096); lia.
    + cbn [w_random set_fs set_random]. rewrite length_drop. lia.
    + exists off', new. rewrite Hrun. f_equal.
      cbn [w_fs w_random set_fs set_random w_cwd w_db w_db_faults w_objects w_net_faults
           w_log w_cancel w_clock w_temp].
      unfold set_random, set_fs. cbn. rewrite insert_insert_eq, drop_drop. do 2 f_equal.
      rewrite Hdiv. lia.
  - apply Z.ltb_ge in Hlt. assert (written = fileSize) as -> by lia.
    replace (fileSize - fileSize + 4095) with 4095 by lia. change (4095 / 4096) with 0.
    exists off, old. cbn [ret]. unfold ret, mret. cbn. f_equal.
    rewrite drop_0, insert_id by exact Hf. destruct w; reflexivity.
Qed.

Lemma OpenFile_WRONLY (name : string) (w w' : World) (r : result os.file) :
  os.OpenFile name os.O_WRONLY 0 w = (r, w') ->
  w' = w /\
  ((exists mode data, os.lookup_node (w_fs w) (os.at_path w name) = Some (File mode data) /\
                      r = inr (os.mkfile (os.at_path w name) 0)) \/
   (exists e, r = inl e)).
Proof.
  unfold os.OpenFile.
  replace (os.has_flag os.O_WRONLY os.O_WRONLY) with true by reflexivity.
  replace (os.has_flag os.O_WRONLY os.O_TRUNC) with false by reflexivity.
  replace (os.has_flag os.O_WRONLY os.O_CREATE) with false by reflexivity.
  cbn [orb].
  destruct (os.lookup_node (w_fs w) (os.at_path w name)) as [[m old|m]|];
    intros E; inversion E; subst; split; eauto.
Qed.

(** X21: [secureDelete] of a regular file, with 4096 random bytes at hand
    for every started block of 4096 bytes of the file, returns nil; the
    file is gone, every other entry of the file system is as before, and
    exactly those random bytes are used up (a whole 4096 per round, also
    for a last short block; none for an empty file). *)
Theorem secureDelete_removes (filePath : string) (w : World) (mode : Z) (data : list Z) :
  os.lookup_node (w_fs w) (os.at_path w filePath) = Some (File mode data) ->
  4096 * ((Z.of_nat (length data) + 4095) / 4096) <= Z.of_nat (length (w_random w)) ->
  secureDelete filePath w
  = (inr tt,
     set_random (drop (Z.to_nat (4096 * ((Z.of_nat (length data) + 4095) / 4096))) (w_random w))
       (set_fs (delete (os.at_path w filePath) (w_fs w)) w)).
Proof.
  intros Hnode Hrand. pose proof Hnode as Hlook. apply lookup_node_File in Hnode as [Hf Hk].
  unfold secureDelete.
  erewrite bind_ok by (apply wrap_ok; unfold os.Stat; rewrite Hlook; reflexivity).
  erewrite bind_ok.
  2:{ apply wrap_ok. unfold os.OpenFile. rewrite Hlook.
      replace (os.has_flag os.O_WRONLY os.O_TRUNC) with false by reflexivity. reflexivity. }
  cbn [node_size].
  destruct (overwrite_random_ok (S (Z.to_nat (Z.of_nat (length data))))
              (os.at_path w filePath) 0 0 (Z.of_nat (length data)) w mode data Hf Hk)
    as (off' & new & Hrun); [lia|lia|rewrite Z.sub_0_r; exact Hrand|].
  rewrite Z.sub_0_r in Hrun.
  erewrite bind_ok by exact Hrun.
  unfold wrap, os.Remove, os.at_path. cbn [w_cwd w_fs set_fs set_random].
  fold (os.at_path w filePath).
  rewrite (proj2 (lookup_node_File _ _ _ _) (conj (lookup_insert_eq _ _ _) Hk)).
  rewrite delete_insert_eq. reflexivity.
Qed.

Lemma secureDelete_removes_witness :
  secureDelete "/data/secret" (set_random (replicate 4100 7) stream_world)
  = (inr tt, set_random [7; 7; 7; 7] (set_fs {[ ["data"] := Dir 493 ]} stream_world)) /\
  (exists e w1, secureDelete "/data" stream_world = (inl e, w1) /\ w_fs w1 = w_fs stream_world).
Proof.
  split.
  - rewrite (secureDelete_removes "/data/secret" (set_random (replicate 4100 7) stream_world)
               420 [1; 2; 3]).
    + vm_compute. reflexivity.
    + vm_compute. reflexivity.
    + vm_compute. discriminate.
  - vm_compute. eauto.
Defined.

Lemma Remove_inv (name : string) (w w' : World) (r : result unit) :
  os.Remove name w = (r, w') ->
  (exists e, r = inl e /\ w' = w) \/
  r = inr tt /\ w' = set_fs (delete (os.at_path w name) (w_fs w)) w.
Proof.
  unfold os.Remove. cbv zeta.
  destruct (os.lookup_node _ _) as [[m d|m]|]; [| |intros [= <- <-]; eauto].
  - intros [= <- <-]. auto.
  - destruct (bool_decide _); [intros [= <- <-]; eauto|].
    destruct (os.has_child _ _); intros [= <- <-]; eauto.
Qed.

(** X22: whatever [secureDelete] returns, it touches no entry of the file
    system but the one it is asked to delete; and when it returns an
    error, that entry is still there (the content possibly overwritten in
    part): nothing is removed on an error. *)
Theorem secureDelete_frame (filePath : string) (w : World) :
  (forall k, k <> os.at_path w filePath ->
             w_fs (secureDelete filePath w).2 !! k = w_fs w !! k) /\
  (forall e, (secureDelete filePath w).1 = inl e ->
             is_Some (w_fs w !! os.at_path w filePath) ->
             is_Some (w_fs (secureDelete filePath w).2 !! os.at_path w filePath)).
Proof.
  destruct (secureDelete filePath w) as [r w'] eqn:Hrun. cbn [fst snd].
  unfold secureDelete in Hrun.
  apply bind_inv in Hrun as [(e & Hrun & ->)|(info & w1 & Hstat & Hrun)].
  { apply wrap_inv in Hrun as [(e0 & Hrun & _)|(a & _ & ?)]; [|discriminate].
    unfold os.Stat in Hrun. destruct (os.lookup_node _ _); inversion Hrun; subst. auto. }
  apply wrap_inr in Hstat. unfold os.Stat in Hstat.
  destruct (os.lookup_node (w_fs w) (os.at_path w filePath)) as [n|] eqn:Hnode;
    inversion Hstat; subst; clear Hstat.
  apply bind_inv in Hrun as [(e & Hrun & ->)|(file & w2 & Hopen & Hrun)].
  { apply wrap_inv in Hrun as [(e0 & Hrun & _)|(a & _ & ?)]; [|discriminate].
    apply OpenFile_WRONLY in Hrun as [-> _]. auto. }
  apply wrap_inr in Hopen. apply OpenFile_WRONLY in Hopen as [-> [(m & d & _ & [= ->])|[e ?]]];
    [|discriminate].
  apply bind_inv in Hrun as [(e & Hrun & ->)|(file & w2 & Hover & Hrun)].
  { apply overwrite_random_frame in Hrun as (Hother & Hkept & _). cbn [os.fd_key] in *. auto. }
  apply overwrite_random_frame in Hover as (Hother & Hkept & Hcwd). cbn [os.fd_key] in *.
  apply wrap_inv in Hrun as [(e0 & Hrun & ->)|(a & Hrun & ->)].
  - apply Remove_inv in Hrun as [(e & [= <-] & ->)|[[=] _]]. auto.
  - split; [|discriminate].
    intros k Hk. apply Remove_inv in Hrun as [(e & [=] & _)|[_ ->]].
    match type of Hcwd with
    | w_cwd ?wa = w_cwd ?wb =>
        assert (Hpath : os.at_path wa filePath = os.at_path wb filePath)
          by (unfold os.at_path; rewrite Hcwd; reflexivity)
    end.
    cbn [w_fs set_fs]. rewrite Hpath, lookup_delete_ne by congruence. auto.
Qed.

(** ** Temporary directories *)

Lemma split_from_plain (cur s : list ascii) :
  forallb (fun c => negb (Ascii.eqb c filepath.Separator)) s = true ->
  filepath.split_from cur s = [rev cur ++ s].
Proof.
  revert cur. induction s as [|c s IH]; intros cur Hs; cbn [filepath.split_from].
  - rewrite app_nil_r. reflexivity.
  - cbn [forallb] in Hs. apply andb_true_iff in Hs as [Hc Hs].
    apply negb_true_iff in Hc. rewrite Hc, IH by exact Hs.
    cbn [rev]. rewrite <- app_assoc. reflexivity.
Qed.

Lemma matches_backup_star_name (name : string) :
  matches_backup_star name = true ->
  (exists rest, name = String "b" rest) /\
  filepath.split_from [] (String.list_ascii_of_string name) = [String.list_ascii_of_string name].
Proof.
  unfold matches_backup_star. intros H. apply andb_true_iff in H as [Hpre Hplain]. split.
  - destruct name as [|c rest]; [discriminate|].
    unfold filepath.HasPrefix in Hpre. cbn [String.prefix] in Hpre.
    destruct (ascii_dec "b" c) as [<-|]; [eauto|discriminate].
  - apply (split_from_plain [] _ Hplain).
Qed.

(** The names [Glob] returns resolve to the children of [/tmp]. *)
Lemma temp_path (name : string) (w : World) :
  matches_backup_star name = true ->
  os.at_path w (filepath.Join [os_TempDir; name]) = ["tmp"; name].
Proof.
  intros Hm. destruct (matches_backup_star_name name Hm) as [[rest ->] Hsplit].
  assert (Hparts : filepath.split (String "/" (String "t" (String "m" (String "p"
                     (String "/" (String "b" rest))))))
                   = [""; "tmp"; String "b" rest]).
  { unfold filepath.split. cbn [String.list_ascii_of_string] in *.
    cbn [filepath.split_from Ascii.eqb filepath.Separator Bool.eqb].
    cbn [filepath.split_from Ascii.eqb filepath.Separator Bool.eqb] in Hsplit.
    cbn. cbn in Hsplit. rewrite Hsplit. cbn.
    rewrite String.string_of_list_ascii_of_string. reflexivity. }
  assert (Hjoin : filepath.Join [os_TempDir; String "b" rest]
                  = String "/" (String "t" (String "m" (String "p"
                      (String "/" (String "b" rest)))))).
  { unfold os_TempDir. cbn [filepath.Join].
    change ("/tmp" =? "")%string with false. cbv iota.
    change (filepath.join_slash ["/tmp"; String "b" rest])
      with (String "/" (String "t" (String "m" (String "p" (String "/" (String "b" rest)))))).
    unfold filepath.Clean. rewrite Hparts. reflexivity. }
  rewrite Hjoin. unfold os.at_path, filepath.resolve. rewrite Hparts. reflexivity.
Qed.

Lemma remove_temp_dirs_spec (names : list string) :
  Forall (fun name => matches_backup_star name = true) names ->
  forall w, exists w',
    remove_temp_dirs ((fun name => filepath.Join [os_TempDir; name]) <$> names) w = (inr tt, w') /\
    (forall k, below_temp names (w_fs w) k -> w_fs w' !! k = None) /\
    (forall k, ~ below_temp names (w_fs w) k -> w_fs w' !! k = w_fs w !! k) /\
    (forall k, w_fs w !! k = None -> w_fs w' !! k = None) /\
    w_db w' = w_db w /\ w_objects w' = w_objects w.
Proof.
  induction 1 as [|name names Hname Hnames IH]; intros w.
  - exists w. split; [reflexivity|]. split; [|auto].
    intros k (name & mode & Hin & _). inversion Hin.
  - cbn [fmap list_fmap remove_temp_dirs].
    assert (Hkeep : forall w1 : World,
              w_fs w1 = w_fs w -> w_db w1 = w_db w -> w_objects w1 = w_objects w ->
              (forall mode, w_fs w !! ["tmp"; name] <> Some (Dir mode)) ->
              exists w',
                remove_temp_dirs ((fun name => filepath.Join [os_TempDir; name]) <$> names) w1
                = (inr tt, w') /\
                (forall k, below_temp (name :: names) (w_fs w) k -> w_fs w' !! k = None) /\
                (forall k, ~ below_temp (name :: names) (w_fs w) k -> w_fs w' !! k = w_fs w !! k) /\
                (forall k, w_fs w !! k = None -> w_fs w' !! k = None) /\
                w_db w' = w_db w /\ w_objects w' = w_objects w).
    { intros w1 Hfs Hdb Hobj Hnodir.
      destruct (IH w1) as (w' & Hrun & Hgone & Hkept & Hmono & Hdb' & Hobj').
      rewrite Hfs in *. exists w'. split; [exact Hrun|]. split; [|split; [|split; [|split]]].
      - intros k (n & mode & Hin & Hdir & Hpre). apply Hgone.
        apply elem_of_cons in Hin as [->|Hin]; [destruct (Hnodir _ Hdir)|].
        exists n, mode. auto.
      - intros k Hk. apply Hkept. intros (n & mode & Hin & Hdir & Hpre). apply Hk.
        exists n, mode. split; [right; exact Hin|auto].
      - exact Hmono.
      - congruence.
      - congruence. }
    destruct (w_fs w !! ["tmp"; name]) as [[mode data|mode]|] eqn:Hlook.
    + erewrite bind_ok.
      2:{ unfold try, os.Stat. rewrite temp_path by exact Hname. cbn [os.lookup_node].
          rewrite Hlook. reflexivity. }
      cbn [node_is_dir negb]. erewrite bind_ok by reflexivity.
      apply Hkeep; try reflexivity. intros m. discriminate.
    + erewrite bind_ok.
      2:{ unfold try, os.Stat. rewrite temp_path by exact Hname. cbn [os.lookup_node].
          rewrite Hlook. reflexivity. }
      cbn [node_is_dir negb].
      erewrite bind_ok.
      2:{ erewrite bind_ok.
          2:{ unfold try, os.RemoveAll. rewrite temp_path by exact Hname. reflexivity. }
          reflexivity. }
      set (fs1 := filter (fun kv : list string * node => ~ ["tmp"; name] `prefix_of` kv.1) (w_fs w)).
      destruct (IH (set_log (mkLog LevelInfo "temporary directory removed" None :: w_log (set_fs fs1 w))
                      (set_fs fs1 w)))
        as (w' & Hrun & Hgone & Hkept & Hmono & Hdb' & Hobj').
      cbn [w_fs w_db w_objects set_fs set_log] in *.
      exists w'. split; [exact Hrun|].
      assert (Hfs1 : forall k, fs1 !! k = if decide (["tmp"; name] `prefix_of` k) then None
                                          else w_fs w !! k).
      { intros k. unfold fs1. destruct (decide (["tmp"; name] `prefix_of` k)) as [Hp|Hp].
        - apply map_lookup_filter_None. right. intros x _ Hx. apply Hx, Hp.
        - destruct (w_fs w !! k) as [x|] eqn:Hk.
          + apply map_lookup_filter_Some. split; [exact Hk|exact Hp].
          + apply map_lookup_filter_None. left. exact Hk. }
      split; [|split; [|split; [|split]]].
      * intros k (n & m & Hin & Hdir & Hpre).
        destruct (decide (["tmp"; name] `prefix_of` k)) as [Hp|Hp].
        { apply Hmono. rewrite Hfs1, decide_True by exact Hp. reflexivity. }
        apply Hgone. apply elem_of_cons in Hin as [->|Hin]; [contradiction|].
        exists n, m. split; [exact Hin|]. split; [|exact Hpre].
        rewrite Hfs1, decide_False; [exact Hdir|].
        intros Hp'. apply Hp. etrans; [exact Hp'|exact Hpre].
      * intros k Hk.
        assert (Hp : ~ ["tmp"; name] `prefix_of` k).
        { intros Hp. apply Hk. exists name, mode. split; [left|]; auto. }
        rewrite Hkept.
        -- rewrite Hfs1, decide_False by exact Hp. reflexivity.
        -- intros (n & m & Hin & Hdir & Hpre). apply Hk. exists n, m.
           split; [right; exact Hin|]. split; [|exact Hpre].
           rewrite Hfs1 in Hdir. destruct (decide _); [discriminate|exact Hdir].
      * intros k Hk. apply Hmono. rewrite Hfs1. destruct (decide _); [reflexivity|exact Hk].
      * exact Hdb'.
      * exact Hobj'.
    + erewrite bind_ok.
      2:{ unfold try, os.Stat. rewrite temp_path by exact Hname. cbn [os.lookup_node].
          rewrite Hlook. reflexivity. }
      erewrite bind_ok by reflexivity.
      apply Hkeep; try reflexivity. intros m. discriminate.
Qed.

Lemma glob_temp_backups_names (w : World) (mode : Z) :
  w_fs w !! ["tmp"] = Some (Dir mode) ->
  exists names,
    glob_temp_backups w = (fun name => filepath.Join [os_TempDir; name]) <$> names /\
    (forall name, name ∈ names <->
                  matches_backup_star name = true /\ is_Some (w_fs w !! ["tmp"; name])).
Proof.
  intros Htmp. unfold glob_temp_backups.
  change (os.at_path w os_TempDir) with ["tmp"]. cbn [os.lookup_node]. rewrite Htmp.
  eexists. split; [reflexivity|].
  intros name. rewrite merge_sort_Permutation, list_elem_of_omap. split.
  - intros ([k n] & Hin & Hsel). apply elem_of_map_to_list in Hin. cbn [fst] in Hsel.
    destruct (last k) as [name'|]; [|discriminate].
    destruct (bool_decide (k = ["tmp"] ++ [name'])) eqn:Hk; [|discriminate].
    apply bool_decide_eq_true in Hk. cbn [andb] in Hsel.
    destruct (matches_backup_star name') eqn:Hm; [|discriminate].
    injection Hsel as <-. subst k. eauto.
  - intros [Hm [n Hn]]. exists (["tmp"; name], n). split; [apply elem_of_map_to_list, Hn|].
    cbn [fst last]. rewrite bool_decide_eq_true_2 by reflexivity. rewrite Hm. reflexivity.
Qed.

(** X23: with [/tmp] a directory, [cleanupTempFiles] returns nil; every
    directory [/tmp/backup-*] is gone with everything below it, and every
    other entry of the file system is as before, among them a regular
    file of such a name and a directory of such a name elsewhere.  The
    catalog and the store are not touched. *)
Theorem cleanupTempFiles_removes (w : World) (mode : Z) :
  w_fs w !! ["tmp"] = Some (Dir mode) ->
  exists w',
    cleanupTempFiles w = (inr tt, w') /\
    (forall k, temp_backup (w_fs w) k -> w_fs w' !! k = None) /\
    (forall k, ~ temp_backup (w_fs w) k -> w_fs w' !! k = w_fs w !! k) /\
    w_db w' = w_db w /\ w_objects w' = w_objects w.
Proof.
  intros Htmp. destruct (glob_temp_backups_names w mode Htmp) as (names & Hglob & Hnames).
  assert (Hall : Forall (fun name => matches_backup_star name = true) names).
  { apply Forall_forall. intros name Hin. apply Hnames in Hin as [Hm _]. exact Hm. }
  destruct (remove_temp_dirs_spec names Hall
              (set_log (mkLog LevelInfo "start cleanup of temporary files" None :: w_log w) w))
    as (w1 & Hrun & Hgone & Hkept & _ & Hdb & Hobj).
  cbn [w_fs w_db w_objects set_log] in *.
  exists (set_log (mkLog LevelInfo "cleanup of temporary files finished" None :: w_log w1) w1).
  split; [|split; [|split; [|split]]].
  - unfold cleanupTempFiles. erewrite bind_ok by reflexivity. rewrite Hglob.
    erewrite bind_ok by reflexivity. erewrite bind_ok by exact Hrun. reflexivity.
  - intros k (name & m & Hm & Hdir & Hpre). cbn [w_fs set_log]. apply Hgone.
    exists name, m. split; [|auto]. apply Hnames. rewrite Hdir. eauto.
  - intros k Hk. cbn [w_fs set_log]. apply Hkept.
    intros (name & m & Hin & Hdir & Hpre). apply Hk. exists name, m.
    apply Hnames in Hin as [Hm _]. auto.
  - exact Hdb.
  - exact Hobj.
Qed.

Lemma cleanupTempFiles_removes_witness :
  exists w',
    cleanupTempFiles temp_world = (inr tt, w') /\
    w_fs w' !! ["tmp"; "backup-17"] = None /\
    w_fs w' !! ["tmp"; "backup-17"; "f"] = None /\
    w_fs w' !! ["tmp"; "backup-notes"] = Some (File 420 [2]) /\
    w_fs w' !! ["tmp"; "cache"; "backup-3"] = Some (Dir 493).
Proof.
  destruct (cleanupTempFiles_removes temp_world 511) as (w' & Hrun & Hgone & Hkept & _);
    [vm_compute; reflexivity|].
  exists w'. split; [exact Hrun|].
  assert (Hdir : temp_backup (w_fs temp_world) ["tmp"; "backup-17"]).
  { exists "backup-17", 448. split; [vm_compute; reflexivity|].
    split; [vm_compute; reflexivity|]. exists []. reflexivity. }
  assert (Hfile : temp_backup (w_fs temp_world) ["tmp"; "backup-17"; "f"]).
  { exists "backup-17", 448. split; [vm_compute; reflexivity|].
    split; [vm_compute; reflexivity|]. exists ["f"]. reflexivity. }
  split; [exact (Hgone _ Hdir)|]. split; [exact (Hgone _ Hfile)|]. split.
  - rewrite Hkept; [vm_compute; reflexivity|].
    intros (name & m & _ & Hlook & [rest Hpre]). injection Hpre as <- _.
    vm_compute in Hlook. discriminate.
  - rewrite Hkept; [vm_compute; reflexivity|].
    intros (name & m & Hm & _ & [rest Hpre]). injection Hpre as <- _.
    vm_compute in Hm. discriminate.
Defined.

Section StreamShortInput.
Context `{GoLib} `{StreamLib}.

(** X24: [decryptFileStream] creates its output before it reads the
    input.  For an input of fewer than sixteen bytes it returns the error
    of reading the vector ([io.EOF] for an empty input,
    [io.ErrUnexpectedEOF] for any other), and the output path then holds
    an empty file, whatever it held before. *)
Theorem decryptFileStream_short_input (inputPath outputPath password : string)
  (w wa wb : World) (fout : os.file) (mode : Z) (data : list Z) :
  os.lookup_node (w_fs w) (os.at_path w inputPath) = Some (File mode data) ->
  (length data < aes_BlockSize)%nat ->
  length (deriveKey password) = 32%nat ->
  os.at_path w inputPath <> os.at_path w outputPath ->
  os.MkdirAll (filepath.Dir outputPath) 493 w = (inr tt, wa) ->
  os.Create outputPath wa = (inr fout, wb) ->
  decryptFileStream inputPath outputPath password w
  = (inl (Wrap "read IV" (if (length data =? 0)%nat then io_EOF else io_ErrUnexpectedEOF)),
     wb) /\
  exists mout, w_fs wb !! os.at_path w outputPath = Some (File mout []).
Proof.
  intros Hin Hshort Hkey Hne Hmk Hcreate. apply lookup_node_File in Hin as [Hin Hin0].
  destruct (MkdirAll_inr _ _ _ _ Hmk) as (fs1 & -> & Hfiles).
  destruct (Create_inr _ _ _ _ Hcreate) as (Hwb & Hout0 & mout & Hfout).
  rewrite at_path_set_fs in *. cbn [w_fs set_fs] in *.
  assert (Hin1 : fs1 !! os.at_path w inputPath = Some (File mode data)) by (apply Hfiles, Hin).
  split.
  - unfold decryptFileStream.
    erewrite bind_ok by (apply wrap_ok; eapply Open_file; eassumption).
    erewrite bind_ok by (apply wrap_ok; exact Hmk).
    erewrite bind_ok by (apply wrap_ok; exact Hcreate).
    rewrite aes_NewCipher_32 by exact Hkey.
    erewrite bind_err; [reflexivity|].
    unfold wrap, read_full.
    erewrite bind_ok.
    2:{ eapply Read_file with (mode := mode) (data := data); [|exact Hin0].
        subst wb. cbn [w_fs set_fs]. rewrite lookup_insert_ne by congruence. exact Hin1. }
    rewrite drop_0, take_ge by lia.
    destruct (Nat.eqb_spec (length data) aes_BlockSize) as [Heq|_]; [lia|].
    destruct (length data =? 0)%nat; reflexivity.
  - exists mout. subst wb. cbn [w_fs set_fs]. apply lookup_insert_eq.
Qed.

End StreamShortInput.

Lemma decryptFileStream_short_input_witness :
  (exists wb,
     @decryptFileStream toyLib32 toyStream "/data/secret" "/data/keep" "pw"
       (set_fs (<[ ["data"; "keep"] := File 384 [5; 5] ]> (w_fs stream_world)) stream_world)
     = (inl (Wrap "read IV" (Msg "unexpected EOF")), wb) /\
     w_fs wb !! ["data"; "keep"] = Some (File 384 [])) /\
  (exists wb,
     @decryptFileStream toyLib32 toyStream "/data/secret" "/data/out" "pw"
       (set_fs (<[ ["data"; "secret"] := File 420 [] ]> (w_fs stream_world)) stream_world)
     = (inl (Wrap "read IV" (Msg "EOF")), wb) /\
     w_fs wb !! ["data"; "out"] = Some (File 420 [])).
Proof.
  split.
  - set (w := set_fs (<[ ["data"; "keep"] := File 384 [5; 5] ]> (w_fs stream_world))
                stream_world).
    destruct (@decryptFileStream_short_input toyLib32 toyStream
                "/data/secret" "/data/keep" "pw" w
                (os.MkdirAll "/data" 493 w).2
                (os.Create "/data/keep" (os.MkdirAll "/data" 493 w).2).2
                (os.mkfile ["data"; "keep"] 0) 420 [1; 2; 3])
      as [Hrun [mout Hout]].
    + vm_compute. reflexivity.
    + vm_compute. lia.
    + vm_compute. reflexivity.
    + vm_compute. congruence.
    + vm_compute. reflexivity.
    + vm_compute. reflexivity.
    + eexists. split; [exact Hrun|]. vm_compute. reflexivity.
  - set (w := set_fs (<[ ["data"; "secret"] := File 420 [] ]> (w_fs stream_world))
                stream_world).
    destruct (@decryptFileStream_short_input toyLib32 toyStream
                "/data/secret" "/data/out" "pw" w
                (os.MkdirAll "/data" 493 w).2
                (os.Create "/data/out" (os.MkdirAll "/data" 493 w).2).2
                (os.mkfile ["data"; "out"] 0) 420 [])
      as [Hrun [mout Hout]].
    + vm_compute. reflexivity.
    + vm_compute. lia.
    + vm_compute. reflexivity.
    + vm_compute. congruence.
    + vm_compute. reflexivity.
    + vm_compute. reflexivity.
    + eexists. split; [exact Hrun|]. vm_compute. reflexivity.
Defined.

(** ** Several backends: upload *)

(** X25: [MultiStorage.Upload] goes through the backends in order and
    stops at the first whose [Upload] fails: it returns that error, the
    backends before it keep what was uploaded to them, and the backends
    after it are not called.  When every backend returns nil it returns
    nil, and the world is the one after all the uploads. *)
Theorem MultiStorage_Upload_stops (storages : list StorageProvider)
  (localPath remotePath : string) (w : World) :
  (forall done storage rest e w2,
     storages = done ++ storage :: rest ->
     Forall (fun r => r = inr tt)
            (outcomes (fun storage => Upload storage localPath remotePath) done w) ->
     Upload storage localPath remotePath
       (foldl (fun w storage => (Upload storage localPath remotePath w).2) w done)
     = (inl e, w2) ->
     MultiStorage.Upload storages localPath remotePath w
     = (inl (Wrap "upload to storage" e), w2)) /\
  (Forall (fun r => r = inr tt)
          (outcomes (fun storage => Upload storage localPath remotePath) storages w) ->
   MultiStorage.Upload storages localPath remotePath w
   = (inr tt, foldl (fun w storage => (Upload storage localPath remotePath w).2) w storages)).
Proof.
  split.
  - intros done storage rest e w2 -> Hdone Hfail. revert w Hdone Hfail.
    induction done as [|s done IH]; intros w Hdone Hfail;
      cbn [app MultiStorage.Upload foldr foldl outcomes] in *.
    + erewrite bind_err; [reflexivity|]. unfold wrap. rewrite Hfail. reflexivity.
    + apply Forall_cons in Hdone as [Hs Hdone].
      destruct (Upload s localPath remotePath w) as [r w1] eqn:E. cbn [fst snd] in *. subst r.
      erewrite bind_ok by (apply wrap_ok; exact E).
      apply IH; assumption.
  - revert w. induction storages as [|s rest IH]; intros w Hall;
      cbn [MultiStorage.Upload foldr foldl outcomes] in *; [reflexivity|].
    apply Forall_cons in Hall as [Hs Hall].
    destruct (Upload s localPath remotePath w) as [r w1] eqn:E. cbn [fst snd] in *. subst r.
    erewrite bind_ok by (apply wrap_ok; exact E).
    apply IH. exact Hall.
Qed.

(** ** What an archive holds *)

Lemma archived_as_ext (w w' : World) (baseDir : string) (pi : string * node)
  (entry : tar.Header * list Z) :
  w_fs w' = w_fs w -> w_cwd w' = w_cwd w ->
  archived_as w' baseDir pi entry -> archived_as w baseDir pi entry.
Proof.
  intros Hfs Hcwd (relPath & Hrel & Hheader & Hbody). exists relPath.
  split; [exact Hrel|]. split; [exact Hheader|].
  destruct (node_is_dir pi.2); [exact Hbody|].
  unfold os.at_path in *. rewrite <- Hfs, <- Hcwd. exact Hbody.
Qed.

Lemma ctx_check_inr (w w' : World) :
  ctx_check w = (inr tt, w') -> w_fs w' = w_fs w /\ w_cwd w' = w_cwd w.
Proof.
  unfold ctx_check. destruct (w_cancel w) as [[|n]|]; intros E; inversion E; auto.
Qed.

Section ArchiveContents.
Context `{GoLib}.

Lemma archive_walk_inv (baseDir archivePath : string) (todo : list (string * node))
  (acc entries : list (tar.Header * list Z)) (w w' : World) :
  archive_walk baseDir archivePath todo acc w = (inr entries, w') ->
  w_fs w' = w_fs w /\ w_cwd w' = w_cwd w /\
  exists new,
    entries = rev acc ++ new /\
    Forall2 (archived_as w baseDir) (filter (fun pi => pi.1 <> archivePath) todo) new.
Proof.
  revert acc w. induction todo as [|[filePath info] todo IH]; intros acc w Hrun;
    cbn [archive_walk] in Hrun.
  - inversion Hrun; subst. split; [reflexivity|]. split; [reflexivity|].
    exists []. rewrite app_nil_r. split; [reflexivity|constructor].
  - apply bind_inr in Hrun as ([] & w1 & Hctx & Hrun).
    apply ctx_check_inr in Hctx as [Hfs1 Hcwd1].
    rewrite filter_cons. cbn [fst].
    destruct (String.eqb filePath archivePath) eqn:Hself.
    { apply String.eqb_eq in Hself. rewrite decide_False by (intros Hne; apply Hne, Hself).
      apply IH in Hrun as (Hfs & Hcwd & new & -> & Hall).
      split; [congruence|]. split; [congruence|]. exists new. split; [reflexivity|].
      eapply Forall2_impl; [exact Hall|]. intros pi e. apply archived_as_ext; assumption. }
    apply String.eqb_neq in Hself. rewrite decide_True by exact Hself.
    destruct (filepath_Rel baseDir filePath) as [e|relPath] eqn:Hrel; [discriminate Hrun|].
    destruct (node_is_dir info) eqn:Hdir.
    + apply IH in Hrun as (Hfs & Hcwd & new & -> & Hall).
      split; [congruence|]. split; [congruence|].
      exists ((file_header relPath info, []) :: new). cbn [rev]. rewrite <- app_assoc.
      split; [reflexivity|]. constructor.
      * exists relPath. cbn [fst snd]. rewrite Hdir. auto.
      * eapply Forall2_impl; [exact Hall|]. intros pi e. apply archived_as_ext; assumption.
    + apply bind_inr in Hrun as (file & w2 & Hopen & Hrun).
      apply wrap_inr, Open_inr in Hopen as [-> ->].
      apply bind_inr in Hrun as (data & w3 & Hread & Hrun).
      apply wrap_inr in Hread. unfold os.ReadAll in Hread. cbn [os.fd_key os.fd_off] in Hread.
      destruct (os.lookup_node (w_fs w1) (os.at_path w1 filePath)) as [[mode content|mode]|]
        eqn:Hnode; inversion Hread; subst; clear Hread.
      apply IH in Hrun as (Hfs & Hcwd & new & -> & Hall).
      split; [congruence|]. split; [congruence|].
      exists ((file_header relPath info, drop 0 content) :: new). cbn [rev]. rewrite <- app_assoc.
      split; [reflexivity|]. constructor.
      * exists relPath. cbn [fst snd]. rewrite Hdir. split; [exact Hrel|]. split; [reflexivity|].
        exists mode. rewrite drop_0. unfold os.at_path in *. rewrite <- Hfs1, <- Hcwd1. exact Hnode.
      * eapply Forall2_impl; [exact Hall|]. intros pi e. apply archived_as_ext; assumption.
Qed.

(** X26: what an archive holds.  When [createArchive] returns nil, the
    archive file holds the encoding of one entry for every object the walk
    of the source visits, in the order of the walk, the archive file itself
    left out when the walk meets it under the name [archivePath]: each
    entry is named by the path relative to the parent of the source, a
    directory without a body, a regular file with its content.  No other
    entry of the file system is changed. *)
Theorem createArchive_contents (sourcePath archivePath : string) (w w1 : World) :
  createArchive sourcePath archivePath w = (inr tt, w1) ->
  exists wb outFile visited entries mode,
    os.Create archivePath w = (inr outFile, wb) /\
    walk_entries wb sourcePath = inr visited /\
    Forall2 (archived_as wb (filepath.Dir sourcePath))
            (filter (fun pi => pi.1 <> archivePath) visited) entries /\
    w_fs w1 !! os.at_path w archivePath = Some (File mode (targz_encode entries)) /\
    (forall k, k <> os.at_path w archivePath -> w_fs w1 !! k = w_fs w !! k).
Proof.
  intros Hrun. unfold createArchive in Hrun.
  apply bind_inr in Hrun as (outFile & wb & Hcreate & Hrun). apply wrap_inr in Hcreate.
  apply bind_inr in Hrun as (w0 & wb' & Hget & Hrun). inversion Hget; subst; clear Hget.
  apply bind_inr in Hrun as (entries & w2 & Hwalk & Hrun). apply wrap_inr in Hwalk.
  destruct (walk_entries wb' sourcePath) as [e|visited] eqn:Hvisited; [discriminate Hwalk|].
  apply archive_walk_inv in Hwalk as (Hfs & Hcwd & new & -> & Hall). cbn [rev app] in *.
  apply bind_inr in Hrun as (file' & w3 & Hwrite & Hrun). inversion Hrun; subst; clear Hrun.
  destruct (Create_inr _ _ _ _ Hcreate) as (-> & Hk & mode & ->).
  unfold os.Write in Hwrite. cbn [os.fd_key os.fd_off] in Hwrite.
  rewrite Hfs in Hwrite. cbn [w_fs set_fs] in *.
  rewrite (proj2 (lookup_node_File _ _ mode []) (conj (lookup_insert_eq _ _ _) Hk)) in Hwrite.
  inversion Hwrite; subst; clear Hwrite.
  eexists _, _, visited, new, mode. split; [exact Hcreate|]. split; [exact Hvisited|].
  split; [exact Hall|]. cbn [w_fs set_fs set_log]. split.
  - rewrite lookup_insert_eq.
    change (os.overwrite 0 (targz_encode new) [])
      with (os.overwrite (length (@nil Z)) (targz_encode new) []).
    rewrite overwrite_append. reflexivity.
  - intros k Hne. rewrite !lookup_insert_ne by congruence. reflexivity.
Qed.

End ArchiveContents.

(** The names of the entries written for the objects visited. *)
Lemma archived_names (w : World) (baseDir : string) (visited : list (string * node))
  (entries : list (tar.Header * list Z)) :
  Forall2 (archived_as w baseDir) visited entries ->
  (fun pi : string * node => filepath_Rel baseDir pi.1) <$> visited
  = inr <$> (tar.Name <$> entries.*1).
Proof.
  induction 1 as [|pi entry visited entries (relPath & Hrel & Hhdr & _) _ IH]; [reflexivity|].
  cbn [fmap list_fmap]. cbn [fmap list_fmap] in IH. rewrite IH, Hrel, Hhdr. f_equal. f_equal.
  destruct (pi.2); reflexivity.
Qed.

Lemma createArchive_contents_witness :
  (exists w1 entries mode,
     @createArchive toyLib "/tmp/copy" "/tmp/copy/out.tar.gz" archive_world = (inr tt, w1) /\
     w_fs w1 !! ["tmp"; "copy"; "out.tar.gz"] = Some (File mode (toy_targz_encode entries)) /\
     length entries = 2%nat /\
     w_fs w1 !! ["tmp"; "copy"; "a.txt"] = Some (File 438 [1; 2; 3; 4; 5])) /\
  (exists w1 entries mode,
     @createArchive toyLib "/src" "/out/x.tar.gz" walk_world = (inr tt, w1) /\
     w_fs w1 !! ["out"; "x.tar.gz"] = Some (File mode (toy_targz_encode entries)) /\
     tar.Name <$> entries.*1
     = ["src"; "src/a.txt"; "src/b"; "src/b/a"; "src/b/y"; "src/b.d"; "src/z.txt"]).
Proof.
  split.
  - destruct (@createArchive_contents toyLib "/tmp/copy" "/tmp/copy/out.tar.gz" archive_world
                (@createArchive toyLib "/tmp/copy" "/tmp/copy/out.tar.gz" archive_world).2)
      as (wb & outFile & visited & entries & mode & Hcreate & Hwalk & Hall & Hfile & Hframe).
    + vm_compute. reflexivity.
    + exists (@createArchive toyLib "/tmp/copy" "/tmp/copy/out.tar.gz" archive_world).2,
        entries, mode.
      split; [vm_compute; reflexivity|]. split; [exact Hfile|]. split.
      * assert (Hwb : wb = (os.Create "/tmp/copy/out.tar.gz" archive_world).2)
          by (rewrite Hcreate; reflexivity).
        subst wb.
        assert (Hvisited : visited
                           = match walk_entries
                                     (os.Create "/tmp/copy/out.tar.gz" archive_world).2
                                     "/tmp/copy" with
                             | inr v => v
                             | inl _ => []
                             end)
          by (rewrite Hwalk; reflexivity).
        apply Forall2_length in Hall. rewrite Hvisited in Hall. vm_compute in Hall.
        symmetry. exact Hall.
      * rewrite Hframe by (vm_compute; congruence). vm_compute. reflexivity.
  - destruct (@createArchive_contents toyLib "/src" "/out/x.tar.gz" walk_world
                (@createArchive toyLib "/src" "/out/x.tar.gz" walk_world).2)
      as (wb & outFile & visited & entries & mode & Hcreate & Hwalk & Hall & Hfile & Hframe).
    + vm_compute. reflexivity.
    + exists (@createArchive toyLib "/src" "/out/x.tar.gz" walk_world).2, entries, mode.
      split; [vm_compute; reflexivity|]. split; [exact Hfile|].
      assert (Hwb : wb = (os.Create "/out/x.tar.gz" walk_world).2)
        by (rewrite Hcreate; reflexivity).
      subst wb.
      assert (Hvisited : visited
                         = match walk_entries (os.Create "/out/x.tar.gz" walk_world).2
                                   "/src" with
                           | inr v => v
                           | inl _ => []
                           end)
        by (rewrite Hwalk; reflexivity).
      apply archived_names in Hall. rewrite Hvisited in Hall.
      apply (inj (fmap (M:=list) (@inr error string))). rewrite <- Hall.
      vm_compute. reflexivity.
Defined.
